(** * DDP_BASE: a shallow embedding of the DDP outer loop

    Source: [ocs2_ddp/include/ocs2_ddp/implementation/DDP_BASE.h].

    Conventions of the embedding.
    - Times, learning rates and settings are exact rationals ([Q]).
    - Costs, merits, constraint ISEs and state components are [scalar]s:
      rationals extended with the three non-finite values of a [double]
      (the source tests [allFinite] and uses [numeric_limits::max]).
      Rounding and overflow of finite values are not modelled.
    - [std::vector] is [list]; [v[i]] is [nth i v d], an indexed write is
      stdpp's [<[i:=x]>] (both are undefined behaviour out of range in the
      source; the model reads the default and writes nothing).
    - A [throw] is the [Throw] constructor of [result].
    - Collaborators that live outside this file (integrators, cost and
      constraint evaluation, the backward pass) are fields of the record
      [Collaborators]. *)

From Stdlib Require Import QArith Qpower Qabs Lqa Lia List Bool Arith ZArith.
From stdpp Require Import base list.
Import ListNotations.

Local Open Scope Q_scope.

(* ===================================================================== *)
(** ** Scalars *)
(* ===================================================================== *)

(** [x < y] on [Q] as a boolean. *)
Definition Qltb (x y : Q) : bool := negb (Qle_bool y x).

(** [std::min(a, b)]: returns [b] when [b < a], otherwise [a]. *)
Definition std_min (a b : Q) : Q := if Qltb b a then b else a.

(** [std::max(a, b)]: returns [b] when [a < b], otherwise [a]. *)
Definition std_max (a b : Q) : Q := if Qltb a b then b else a.

(** A [double] without rounding: a rational or one of the non-finite values. *)
Inductive scalar : Type :=
| Finite (q : Q)
| PInf
| NInf
| NaN.

Definition isFinite (s : scalar) : bool :=
  match s with Finite _ => true | _ => false end.

(** Sign of a rational as used by the product with an infinity. *)
Definition Qsign (q : Q) : comparison := Qcompare q 0.

Definition sadd (a b : scalar) : scalar :=
  match a, b with
  | NaN, _ | _, NaN => NaN
  | PInf, NInf | NInf, PInf => NaN
  | PInf, _ | _, PInf => PInf
  | NInf, _ | _, NInf => NInf
  | Finite x, Finite y => Finite (x + y)
  end.

Definition sneg (a : scalar) : scalar :=
  match a with
  | Finite x => Finite (- x)
  | PInf => NInf
  | NInf => PInf
  | NaN => NaN
  end.

Definition ssub (a b : scalar) : scalar := sadd a (sneg b).

Definition sinf_times (positive : bool) (q : Q) : scalar :=
  match Qsign q with
  | Eq => NaN
  | Gt => if positive then PInf else NInf
  | Lt => if positive then NInf else PInf
  end.

Definition smul (a b : scalar) : scalar :=
  match a, b with
  | NaN, _ | _, NaN => NaN
  | Finite x, Finite y => Finite (x * y)
  | PInf, Finite y => sinf_times true y
  | NInf, Finite y => sinf_times false y
  | Finite x, PInf => sinf_times true x
  | Finite x, NInf => sinf_times false x
  | PInf, PInf | NInf, NInf => PInf
  | PInf, NInf | NInf, PInf => NInf
  end.

Definition sabs (a : scalar) : scalar :=
  match a with
  | Finite x => Finite (Qabs x)
  | PInf | NInf => PInf
  | NaN => NaN
  end.

(** [a < b]; every comparison with a NaN is false. *)
Definition sltb (a b : scalar) : bool :=
  match a, b with
  | NaN, _ | _, NaN => false
  | Finite x, Finite y => Qltb x y
  | Finite _, PInf => true
  | Finite _, NInf => false
  | PInf, _ => false
  | NInf, NInf => false
  | NInf, _ => true
  end.

(** [a <= b]. *)
Definition sleb (a b : scalar) : bool :=
  match a, b with
  | NaN, _ | _, NaN => false
  | Finite x, Finite y => Qle_bool x y
  | Finite _, PInf => true
  | Finite _, NInf => false
  | PInf, PInf => true
  | PInf, _ => false
  | NInf, _ => true
  end.

(** [std::numeric_limits<scalar_t>::max()] for [scalar_t = double]:
    (2^53 - 1) * 2^971, the largest finite value. *)
Definition scalar_max : Q := inject_Z ((2 ^ 53 - 1) * 2 ^ 971).

(** [std::pow(base, n)] for a non-negative integer exponent. *)
Definition pow (base : Q) (n : nat) : Q := Qpower base (Z.of_nat n).

(** Modelled from the spec: [numerics::almost_ge] is not part of the sources
    at hand; the spec states the two tests it guards as plain comparisons
    ("maxLR >= minLR", "alpha < minLearningRate -> stop"). *)
Definition almost_ge (x y : Q) : bool := negb (Qltb x y).

(* ===================================================================== *)
(** ** Vectors, controllers, trajectories *)
(* ===================================================================== *)

Definition state_vector : Type := list scalar.
Definition input_vector : Type := list Q.
Definition gain_matrix : Type := list (list Q).

(** [state_vector_t::allFinite()]. *)
Definition allFinite (x : state_vector) : bool := forallb isFinite x.

(** The per-node model data is never inspected by the driver; only the
    length of its trajectory is. It is kept as an opaque numeric payload. *)
Definition ModelDataBase : Type := list Q.

(** [back()] and [pop_back()] of [std::vector]. *)
Definition back {A} (d : A) (v : list A) : A := List.last v d.
Definition pop_back {A} (v : list A) : list A := removelast v.

(** [linear_controller_t]: time stamps with gains, biases and the
    feed-forward increments of the backward pass. *)
Record linear_controller : Type := mkController {
  timeStamp_ : list Q;
  gainArray_ : list gain_matrix;
  biasArray_ : list input_vector;
  deltaBiasArray_ : list input_vector
}.

Definition emptyController : linear_controller := mkController [] [] [] [].

(** [linear_controller_t::empty()]: no time stamp. *)
Definition ctrl_empty (c : linear_controller) : bool :=
  match timeStamp_ c with [] => true | _ => false end.

(** [linear_controller_t::clear()]. *)
Definition ctrl_clear (c : linear_controller) : linear_controller := emptyController.

(** [deltaBiasArray_.clear()] on one controller. *)
Definition clearDeltaBias (c : linear_controller) : linear_controller :=
  mkController (timeStamp_ c) (gainArray_ c) (biasArray_ c) [].

(** One partition of a rollout: the four parallel trajectories and the
    post-event indices. *)
Record partition_rollout : Type := mkPartition {
  p_time : list Q;
  p_postEvent : list nat;
  p_state : list state_vector;
  p_input : list input_vector;
  p_modelData : list ModelDataBase
}.

Definition emptyPartition : partition_rollout := mkPartition [] [] [] [] [].

(** The five stocks filled by [rolloutTrajectory] (its output parameters). *)
Record Trajectories : Type := mkTrajectories {
  timeTrajectoriesStock : list (list Q);
  postEventIndicesStock : list (list nat);
  stateTrajectoriesStock : list (list state_vector);
  inputTrajectoriesStock : list (list input_vector);
  modelDataTrajectoriesStock : list (list ModelDataBase)
}.

Definition emptyTrajectories (n : nat) : Trajectories :=
  mkTrajectories (replicate n []) (replicate n []) (replicate n [])
                 (replicate n []) (replicate n []).

(** Writing partition [i] of the five stocks. *)
Definition setPartition (i : nat) (p : partition_rollout) (T : Trajectories) : Trajectories :=
  mkTrajectories (<[i := p_time p]> (timeTrajectoriesStock T))
                 (<[i := p_postEvent p]> (postEventIndicesStock T))
                 (<[i := p_state p]> (stateTrajectoriesStock T))
                 (<[i := p_input p]> (inputTrajectoriesStock T))
                 (<[i := p_modelData p]> (modelDataTrajectoriesStock T)).

(* ===================================================================== *)
(** ** Errors *)
(* ===================================================================== *)

(** One constructor per [throw] site of the file, plus the failures of the
    collaborators. *)
Inductive error : Type :=
| MaxLearningRateSmallerThanMin   (* "The maximum learning rate is smaller than the minimum learning rate." *)
| NoTimePartition                 (* "There should be at least one time partition." *)
| InitialStateNotFinite           (* "DDP: initial state is not finite" *)
| ZeroPartitions                  (* "Number of partitions cannot be zero!" *)
| ControllersPtrStockSize         (* "controllersPtrStock has less controllers than the number of partitions." *)
| NotLinearController             (* "DDP_BASE::run -- controller must be a linear_controller_t." *)
| InternalControllerIncompatible  (* "The internal controller is not compatible with the number of partitions." *)
| ControllersStockSize            (* "controllersStock has less controllers then the number of subsystems" *)
| RolloutUnstable                 (* "System became unstable during the rollout." *)
| ModelDataSizeMismatch           (* "modelDataTrajectoriesStock[i].size() != timeTrajectoriesStock[i].size()" *)
| RewindIndexTooLarge             (* "Index for rewinding is greater than the current size." *)
| UseRiccatiSolverFalse           (* "useRiccatiSolver=false is not valid." *)
| IntegrationKilled               (* the integrator saw the kill flag *)
| CollaboratorFailed              (* any exception raised inside a collaborator *)
| VectorLengthError               (* std::length_error of a std::vector constructor *)
| StepBudgetExhausted.            (* model only: the parallel section was cut short *)

Inductive result (A : Type) : Type :=
| Ok (a : A)
| Throw (e : error).
Arguments Ok {A} a.
Arguments Throw {A} e.

#[global] Instance result_ret : MRet result := fun A a => Ok a.
#[global] Instance result_bind : MBind result := fun A B k r =>
  match r with
  | Ok a => k a
  | Throw e => Throw e
  end.

(* ===================================================================== *)
(** ** Settings, collaborators and the optimizer state *)
(* ===================================================================== *)

(** [DDP_Settings]: the options read by the functions modelled here. *)
Module DDP_Settings.
Record t : Type := mk {
  nThreads_ : nat;
  maxNumIterations_ : nat;
  minRelCost_ : Q;
  minAbsConstraint1ISE_ : Q;
  minRelConstraint1ISE_ : Q;
  maxLearningRate_ : Q;
  minLearningRate_ : Q;
  lineSearchContractionRate_ : Q;
  stateConstraintPenaltyCoeff_ : Q;
  stateConstraintPenaltyBase_ : Q;
  useRiccatiSolver_ : bool;
  displayInfo_ : bool
}.
End DDP_Settings.

(** The time horizon of the current solve: the members [runImpl] sets from
    its arguments, and the event times of the mode schedule. *)
Record Problem : Type := mkProblem {
  numPartitions_ : nat;
  partitioningTimes_ : list Q;
  initActivePartition_ : nat;
  finalActivePartition_ : nat;
  initTime_ : Q;
  finalTime_ : Q;
  initState_ : state_vector;
  eventTimes : list Q
}.

(** What an integrator run returns: the trajectories of one segment and the
    final state. *)
Record run_output : Type := mkRun {
  run_traj : partition_rollout;
  run_xFinal : state_vector
}.

(** The six scalars a rollout is judged by; the fields carry the names of
    the locals of [lineSearchTask]. *)
Record Performance : Type := mkPerformance {
  totalCost : scalar;
  stateInputEqConstraintISE : scalar;
  stateEqConstraintISE : scalar;
  stateEqFinalConstraintISE : scalar;
  inequalityConstraintPenalty : scalar;
  inequalityConstraintISE : scalar
}.

(** Output of [calculateRolloutConstraintsISE]. *)
Record ConstraintsISE : Type := mkISE {
  ise_stateInputEq : scalar;
  ise_stateEq : scalar;
  ise_stateEqFinal : scalar;
  ise_inequality : scalar;
  ise_inequalityPenalty : scalar
}.

(** The terminal Riccati values kept per partition. *)
Record RiccatiFinal : Type := mkRiccatiFinal {
  SmFinalStock_ : list (list (list Q));
  SvFinalStock_ : list (list Q);
  SveFinalStock_ : list (list Q);
  sFinalStock_ : list Q;
  xFinalStock_ : list (list Q)
}.

(** What the backward pass ([approximateOptimalControlProblem],
    [solveSequentialRiccatiEquations], [calculateController]) writes. *)
Record BackwardPass : Type := mkBackwardPass {
  bp_controllersStock : list linear_controller;
  bp_modelData : list (list ModelDataBase);
  bp_finals : RiccatiFinal
}.

(** Code outside this file. The integrators are the two rollout objects of
    [rolloutTrajectory]; [None]-like failure is a [Throw]. The per-worker
    clones of a collaborator are copies of one object, hence one function. *)
Record Collaborators : Type := mkCollaborators {
  (* the template parameter STATE_DIM *)
  STATE_DIM : nat;
  (* OCS2NumericTraits<scalar_t>::limitEpsilon() *)
  limitEpsilon : Q;
  (* dynamicsForwardRolloutPtrStock_[threadId]->run(t0, x0, tf, controller, eventTimes, ...) *)
  dynamicsForwardRollout :
    Q -> state_vector -> Q -> linear_controller -> list Q -> result run_output;
  (* operatingTrajectoriesRolloutPtrStock_[threadId]->run(t0, x0, tf, nullptr, eventTimes, ...) *)
  operatingTrajectoriesRollout :
    Q -> state_vector -> Q -> list Q -> result run_output;
  (* the constraint objects behind calculateRolloutConstraintsISE *)
  calculateRolloutConstraintsISE : Problem -> Trajectories -> result ConstraintsISE;
  (* the cost and heuristics objects behind calculateRolloutCost *)
  calculateRolloutCost : Problem -> Trajectories -> result scalar;
  (* static_cast<size_t>(std::log(minLR / maxLR) / std::log(rate) + 1), from
     minLR, maxLR and rate *)
  maxNumOfLineSearches : Q -> Q -> Q -> nat;
  (* lookup::findBoundedActiveIntervalInTimeArray, which may throw *)
  findBoundedActiveIntervalInTimeArray : list Q -> Q -> result nat;
  (* the interpolation behind correctInitcachedNominalTrajectories:
     from the nominal and the cached stocks to the corrected cached stocks *)
  correctedCache : Problem -> Trajectories -> Trajectories -> result Trajectories;
  (* LQ approximation, Riccati sweep and controller synthesis *)
  backwardPass :
    Problem -> nat -> Trajectories -> list linear_controller -> result BackwardPass;
  (* what a run of dynamicsForwardRolloutPtrStock_[threadId] that throws, by
     itself or on the kill flag (first argument), has appended to the arrays
     of its partition by then *)
  dynamicsForwardRolloutResidue :
    bool -> Q -> state_vector -> Q -> linear_controller -> list Q -> partition_rollout;
  (* the values that the scalars declared without initialiser at the head of
     lineSearchTask hold in thread taskId *)
  indeterminate : nat -> Performance;
  (* what a call of calculateRolloutConstraintsISE that throws has written to
     its output scalars by then, from the values they had *)
  calculateRolloutConstraintsISEResidue :
    Problem -> Trajectories -> Performance -> Performance
}.

(** Calls of [rolloutTrajectory], in the order they are made (ghost state:
    the source keeps no such log). *)
Inductive rollout_call : Type :=
| InitRollout
| BaselineRollout
| CandidateRollout (learningRate : Q).

(** The members of [DDP_BASE] read or written by the functions below. *)
Record DDP : Type := mkDDP {
  ddpSettings_ : DDP_Settings.t;
  problem : Problem;
  rewindCounter_ : nat;
  iteration_ : nat;
  learningRateStar_ : Q;
  maxLearningRate_ : Q;
  baselineTotalCost_ : scalar;
  initLScontrollersStock_ : list linear_controller;
  alphaExpNext_ : nat;
  alphaProcessed_ : list bool;
  killIntegration : bool;            (* the static flag of event_handler_t *)
  performance : Performance;         (* nominalTotalCost_ and the five ISE members *)
  nominalControllersStock_ : list linear_controller;
  nominal : Trajectories;            (* nominal*TrajectoriesStock_, modelDataTrajectoriesStock_ *)
  cached : Trajectories;             (* cached*TrajectoriesStock_ *)
  finals : RiccatiFinal;
  iterationCost_ : list scalar;
  iterationISE1_ : list scalar;
  iterationISE2_ : list scalar;
  rolloutLog : list rollout_call     (* ghost *)
}.

Definition nominalTotalCost_ (st : DDP) : scalar := totalCost (performance st).
Definition stateInputEqConstraintISE_ (st : DDP) : scalar :=
  stateInputEqConstraintISE (performance st).
Definition stateEqConstraintISE_ (st : DDP) : scalar := stateEqConstraintISE (performance st).
Definition stateEqFinalConstraintISE_ (st : DDP) : scalar :=
  stateEqFinalConstraintISE (performance st).
Definition inequalityConstraintPenalty_ (st : DDP) : scalar :=
  inequalityConstraintPenalty (performance st).

(** Member assignments: [set_m v st] is the state after [m = v]. *)
Definition set_problem (v : Problem) (st : DDP) : DDP :=
  mkDDP (ddpSettings_ st) v (rewindCounter_ st) (iteration_ st) (learningRateStar_ st)
        (maxLearningRate_ st) (baselineTotalCost_ st) (initLScontrollersStock_ st)
        (alphaExpNext_ st) (alphaProcessed_ st) (killIntegration st) (performance st)
        (nominalControllersStock_ st) (nominal st) (cached st) (finals st)
        (iterationCost_ st) (iterationISE1_ st) (iterationISE2_ st) (rolloutLog st).
Definition set_rewindCounter_ (v : nat) (st : DDP) : DDP :=
  mkDDP (ddpSettings_ st) (problem st) v (iteration_ st) (learningRateStar_ st)
        (maxLearningRate_ st) (baselineTotalCost_ st) (initLScontrollersStock_ st)
        (alphaExpNext_ st) (alphaProcessed_ st) (killIntegration st) (performance st)
        (nominalControllersStock_ st) (nominal st) (cached st) (finals st)
        (iterationCost_ st) (iterationISE1_ st) (iterationISE2_ st) (rolloutLog st).
Definition set_iteration_ (v : nat) (st : DDP) : DDP :=
  mkDDP (ddpSettings_ st) (problem st) (rewindCounter_ st) v (learningRateStar_ st)
        (maxLearningRate_ st) (baselineTotalCost_ st) (initLScontrollersStock_ st)
        (alphaExpNext_ st) (alphaProcessed_ st) (killIntegration st) (performance st)
        (nominalControllersStock_ st) (nominal st) (cached st) (finals st)
        (iterationCost_ st) (iterationISE1_ st) (iterationISE2_ st) (rolloutLog st).
Definition set_learningRateStar_ (v : Q) (st : DDP) : DDP :=
  mkDDP (ddpSettings_ st) (problem st) (rewindCounter_ st) (iteration_ st) v
        (maxLearningRate_ st) (baselineTotalCost_ st) (initLScontrollersStock_ st)
        (alphaExpNext_ st) (alphaProcessed_ st) (killIntegration st) (performance st)
        (nominalControllersStock_ st) (nominal st) (cached st) (finals st)
        (iterationCost_ st) (iterationISE1_ st) (iterationISE2_ st) (rolloutLog st).
Definition set_maxLearningRate_ (v : Q) (st : DDP) : DDP :=
  mkDDP (ddpSettings_ st) (problem st) (rewindCounter_ st) (iteration_ st)
        (learningRateStar_ st) v (baselineTotalCost_ st) (initLScontrollersStock_ st)
        (alphaExpNext_ st) (alphaProcessed_ st) (killIntegration st) (performance st)
        (nominalControllersStock_ st) (nominal st) (cached st) (finals st)
        (iterationCost_ st) (iterationISE1_ st) (iterationISE2_ st) (rolloutLog st).
Definition set_baselineTotalCost_ (v : scalar) (st : DDP) : DDP :=
  mkDDP (ddpSettings_ st) (problem st) (rewindCounter_ st) (iteration_ st)
        (learningRateStar_ st) (maxLearningRate_ st) v (initLScontrollersStock_ st)
        (alphaExpNext_ st) (alphaProcessed_ st) (killIntegration st) (performance st)
        (nominalControllersStock_ st) (nominal st) (cached st) (finals st)
        (iterationCost_ st) (iterationISE1_ st) (iterationISE2_ st) (rolloutLog st).
Definition set_initLScontrollersStock_ (v : list linear_controller) (st : DDP) : DDP :=
  mkDDP (ddpSettings_ st) (problem st) (rewindCounter_ st) (iteration_ st)
        (learningRateStar_ st) (maxLearningRate_ st) (baselineTotalCost_ st) v
        (alphaExpNext_ st) (alphaProcessed_ st) (killIntegration st) (performance st)
        (nominalControllersStock_ st) (nominal st) (cached st) (finals st)
        (iterationCost_ st) (iterationISE1_ st) (iterationISE2_ st) (rolloutLog st).
Definition set_alphaExpNext_ (v : nat) (st : DDP) : DDP :=
  mkDDP (ddpSettings_ st) (problem st) (rewindCounter_ st) (iteration_ st)
        (learningRateStar_ st) (maxLearningRate_ st) (baselineTotalCost_ st)
        (initLScontrollersStock_ st) v (alphaProcessed_ st) (killIntegration st)
        (performance st) (nominalControllersStock_ st) (nominal st) (cached st) (finals st)
        (iterationCost_ st) (iterationISE1_ st) (iterationISE2_ st) (rolloutLog st).
Definition set_alphaProcessed_ (v : list bool) (st : DDP) : DDP :=
  mkDDP (ddpSettings_ st) (problem st) (rewindCounter_ st) (iteration_ st)
        (learningRateStar_ st) (maxLearningRate_ st) (baselineTotalCost_ st)
        (initLScontrollersStock_ st) (alphaExpNext_ st) v (killIntegration st)
        (performance st) (nominalControllersStock_ st) (nominal st) (cached st) (finals st)
        (iterationCost_ st) (iterationISE1_ st) (iterationISE2_ st) (rolloutLog st).
Definition set_killIntegration (v : bool) (st : DDP) : DDP :=
  mkDDP (ddpSettings_ st) (problem st) (rewindCounter_ st) (iteration_ st)
        (learningRateStar_ st) (maxLearningRate_ st) (baselineTotalCost_ st)
        (initLScontrollersStock_ st) (alphaExpNext_ st) (alphaProcessed_ st) v
        (performance st) (nominalControllersStock_ st) (nominal st) (cached st) (finals st)
        (iterationCost_ st) (iterationISE1_ st) (iterationISE2_ st) (rolloutLog st).
Definition set_performance (v : Performance) (st : DDP) : DDP :=
  mkDDP (ddpSettings_ st) (problem st) (rewindCounter_ st) (iteration_ st)
        (learningRateStar_ st) (maxLearningRate_ st) (baselineTotalCost_ st)
        (initLScontrollersStock_ st) (alphaExpNext_ st) (alphaProcessed_ st)
        (killIntegration st) v (nominalControllersStock_ st) (nominal st) (cached st)
        (finals st) (iterationCost_ st) (iterationISE1_ st) (iterationISE2_ st)
        (rolloutLog st).
Definition set_nominalControllersStock_ (v : list linear_controller) (st : DDP) : DDP :=
  mkDDP (ddpSettings_ st) (problem st) (rewindCounter_ st) (iteration_ st)
        (learningRateStar_ st) (maxLearningRate_ st) (baselineTotalCost_ st)
        (initLScontrollersStock_ st) (alphaExpNext_ st) (alphaProcessed_ st)
        (killIntegration st) (performance st) v (nominal st) (cached st) (finals st)
        (iterationCost_ st) (iterationISE1_ st) (iterationISE2_ st) (rolloutLog st).
Definition set_nominal (v : Trajectories) (st : DDP) : DDP :=
  mkDDP (ddpSettings_ st) (problem st) (rewindCounter_ st) (iteration_ st)
        (learningRateStar_ st) (maxLearningRate_ st) (baselineTotalCost_ st)
        (initLScontrollersStock_ st) (alphaExpNext_ st) (alphaProcessed_ st)
        (killIntegration st) (performance st) (nominalControllersStock_ st) v (cached st)
        (finals st) (iterationCost_ st) (iterationISE1_ st) (iterationISE2_ st)
        (rolloutLog st).
Definition set_cached (v : Trajectories) (st : DDP) : DDP :=
  mkDDP (ddpSettings_ st) (problem st) (rewindCounter_ st) (iteration_ st)
        (learningRateStar_ st) (maxLearningRate_ st) (baselineTotalCost_ st)
        (initLScontrollersStock_ st) (alphaExpNext_ st) (alphaProcessed_ st)
        (killIntegration st) (performance st) (nominalControllersStock_ st) (nominal st) v
        (finals st) (iterationCost_ st) (iterationISE1_ st) (iterationISE2_ st)
        (rolloutLog st).
Definition set_finals (v : RiccatiFinal) (st : DDP) : DDP :=
  mkDDP (ddpSettings_ st) (problem st) (rewindCounter_ st) (iteration_ st)
        (learningRateStar_ st) (maxLearningRate_ st) (baselineTotalCost_ st)
        (initLScontrollersStock_ st) (alphaExpNext_ st) (alphaProcessed_ st)
        (killIntegration st) (performance st) (nominalControllersStock_ st) (nominal st)
        (cached st) v (iterationCost_ st) (iterationISE1_ st) (iterationISE2_ st)
        (rolloutLog st).
Definition set_iterationCost_ (v : list scalar) (st : DDP) : DDP :=
  mkDDP (ddpSettings_ st) (problem st) (rewindCounter_ st) (iteration_ st)
        (learningRateStar_ st) (maxLearningRate_ st) (baselineTotalCost_ st)
        (initLScontrollersStock_ st) (alphaExpNext_ st) (alphaProcessed_ st)
        (killIntegration st) (performance st) (nominalControllersStock_ st) (nominal st)
        (cached st) (finals st) v (iterationISE1_ st) (iterationISE2_ st) (rolloutLog st).
Definition set_iterationISE1_ (v : list scalar) (st : DDP) : DDP :=
  mkDDP (ddpSettings_ st) (problem st) (rewindCounter_ st) (iteration_ st)
        (learningRateStar_ st) (maxLearningRate_ st) (baselineTotalCost_ st)
        (initLScontrollersStock_ st) (alphaExpNext_ st) (alphaProcessed_ st)
        (killIntegration st) (performance st) (nominalControllersStock_ st) (nominal st)
        (cached st) (finals st) (iterationCost_ st) v (iterationISE2_ st) (rolloutLog st).
Definition set_iterationISE2_ (v : list scalar) (st : DDP) : DDP :=
  mkDDP (ddpSettings_ st) (problem st) (rewindCounter_ st) (iteration_ st)
        (learningRateStar_ st) (maxLearningRate_ st) (baselineTotalCost_ st)
        (initLScontrollersStock_ st) (alphaExpNext_ st) (alphaProcessed_ st)
        (killIntegration st) (performance st) (nominalControllersStock_ st) (nominal st)
        (cached st) (finals st) (iterationCost_ st) (iterationISE1_ st) v (rolloutLog st).
Definition set_rolloutLog (v : list rollout_call) (st : DDP) : DDP :=
  mkDDP (ddpSettings_ st) (problem st) (rewindCounter_ st) (iteration_ st)
        (learningRateStar_ st) (maxLearningRate_ st) (baselineTotalCost_ st)
        (initLScontrollersStock_ st) (alphaExpNext_ st) (alphaProcessed_ st)
        (killIntegration st) (performance st) (nominalControllersStock_ st) (nominal st)
        (cached st) (finals st) (iterationCost_ st) (iterationISE1_ st) (iterationISE2_ st)
        v.

(* ===================================================================== *)
(** ** rolloutTrajectory *)
(* ===================================================================== *)

Section Model.

Variable col : Collaborators.

(** The scan "Find until where we have a controller available": the loop
    over [i = first, ..., first + n - 1] with its [break] on the first empty
    controller. The accumulator is
    [(controllerAvailableTill, partitionOfLastController)]. *)
Fixpoint controllerScan (controllersStock : list linear_controller)
    (i n : nat) (acc : Q * nat) : Q * nat :=
  match n with
  | O => acc
  | S n' =>
      let c := nth i controllersStock emptyController in
      if ctrl_empty c then acc
      else controllerScan controllersStock (S i) n' (back 0 (timeStamp_ c), i)
  end.

Definition controllerAvailability (pb : Problem)
    (controllersStock : list linear_controller) : Q * nat :=
  controllerScan controllersStock (initActivePartition_ pb)
    (finalActivePartition_ pb + 1 - initActivePartition_ pb)
    (initTime_ pb, initActivePartition_ pb).

Definition controllerAvailableTill (pb : Problem) (cs : list linear_controller) : Q :=
  fst (controllerAvailability pb cs).

Definition partitionOfLastController (pb : Problem) (cs : list linear_controller) : nat :=
  snd (controllerAvailability pb cs).

(** The loop over the event times with its [break]: starting from
    [useControllerTill = finalTime_], the first event time that is
    [>= controllerAvailableTill] sets it to [min(eventTime, finalTime_)]. *)
Fixpoint truncateAtEvent (events : list Q) (availableTill finalTime : Q) : Q :=
  match events with
  | [] => finalTime
  | eventTime :: rest =>
      if Qle_bool availableTill eventTime then std_min eventTime finalTime
      else truncateAtEvent rest availableTill finalTime
  end.

Definition useControllerTill (pb : Problem) (controllersStock : list linear_controller) : Q :=
  if ctrl_empty (nth (initActivePartition_ pb) controllersStock emptyController)
  then initTime_ pb
  else truncateAtEvent (eventTimes pb) (controllerAvailableTill pb controllersStock)
                       (finalTime_ pb).

(** A call into a collaborator: whatever it throws is one kind of failure
    for the code of this file. *)
Definition external {A} (r : result A) : result A :=
  match r with
  | Ok a => Ok a
  | Throw _ => Throw CollaboratorFailed
  end.

(** An integrator call. [interrupted] says that the integrator polls the
    kill flag while it is raised, which makes it throw. *)
Definition runController (interrupted : bool) (t0 : Q) (x : state_vector) (tf : Q)
    (c : linear_controller) (events : list Q) : result run_output :=
  if interrupted then Throw IntegrationKilled
  else external (dynamicsForwardRollout col t0 x tf c events).

Definition runOperatingPoints (interrupted : bool) (t0 : Q) (x : state_vector) (tf : Q)
    (events : list Q) : result run_output :=
  if interrupted then Throw IntegrationKilled
  else external (operatingTrajectoriesRollout col t0 x tf events).

(** "Remove last point of the controller rollout if it is directly past an
    event": [postEvent.back() == time.size() - 1] in [size_t] arithmetic is
    [postEvent.back() + 1 == time.size()]. Returns the trimmed partition and
    the start of the operating-point interval. *)
Definition trimPastEvent (p : partition_rollout) (from : Q) : partition_rollout * Q :=
  match p_postEvent p with
  | [] => (p, from)
  | _ :: _ =>
      if Nat.eqb (S (back O (p_postEvent p))) (length (p_time p))
      then (mkPartition (pop_back (p_time p)) (p_postEvent p) (pop_back (p_state p))
                        (pop_back (p_input p)) (pop_back (p_modelData p)),
            back 0 (p_time p))
      else (p, from)
  end.

(** "Concatenate the operating points to the rollout", after the tail's
    event indices were shifted by the size of the state trajectory. *)
Definition appendTail (p tail : partition_rollout) : partition_rollout :=
  mkPartition (p_time p ++ p_time tail)
              (p_postEvent p ++ map (fun eventIndex => (eventIndex + length (p_state p))%nat)
                                    (p_postEvent tail))
              (p_state p ++ p_state tail)
              (p_input p ++ p_input tail)
              (p_modelData p ++ p_modelData tail).

(** The body of the partition loop for partition [i], from the current
    state [xCurrent]. *)
Definition rolloutPartition (pb : Problem) (interrupted : bool)
    (controllersStock : list linear_controller) (useTill : Q) (lastController : nat)
    (i : nat) (xCurrent : state_vector) : result (partition_rollout * state_vector) :=
  let t0 := if Nat.eqb i (initActivePartition_ pb) then initTime_ pb
            else nth i (partitioningTimes_ pb) 0 in
  let tf := if Nat.eqb i (finalActivePartition_ pb) then finalTime_ pb
            else nth (i + 1) (partitioningTimes_ pb) 0 in
  let controllerTo := std_max t0 (std_min useTill tf) in
  '(p, x) ←
     (if Qltb t0 controllerTo
      then r ← runController interrupted t0 xCurrent controllerTo
                 (nth (Nat.min i lastController) controllersStock emptyController)
                 (eventTimes pb);
           Ok (run_traj r, run_xFinal r)
      else Ok (emptyPartition, xCurrent));
  if Qltb controllerTo tf
  then let '(p', from) := trimPastEvent p controllerTo in
       r ← runOperatingPoints interrupted from x tf (eventTimes pb);
       Ok (appendTail p' (run_traj r), run_xFinal r)
  else Ok (p, x).

(** The partition loop: [n] partitions from [i] on; the accumulator is the
    stocks, [xCurrent] and [numSteps]. *)
Fixpoint rolloutPartitions (pb : Problem) (interrupted : bool)
    (controllersStock : list linear_controller) (useTill : Q) (lastController : nat)
    (i n : nat) (acc : Trajectories * state_vector * nat)
    : result (Trajectories * state_vector * nat) :=
  match n with
  | O => Ok acc
  | S n' =>
      let '(T, xCurrent, numSteps) := acc in
      '(p, x) ← rolloutPartition pb interrupted controllersStock useTill lastController
                                 i xCurrent;
      rolloutPartitions pb interrupted controllersStock useTill lastController (S i) n'
        (setPartition i p T, x, (numSteps + length (p_time p))%nat)
  end.

(** The last loop of [rolloutTrajectory]: model data and time of every
    active partition have the same size. *)
Fixpoint modelDataSizesAgree (T : Trajectories) (i n : nat) : bool :=
  match n with
  | O => true
  | S n' =>
      Nat.eqb (length (nth i (modelDataTrajectoriesStock T) []))
              (length (nth i (timeTrajectoriesStock T) []))
      && modelDataSizesAgree T (S i) n'
  end.

(** [(finalTime_ - initTime_) / numSteps] in [double] arithmetic. *)
Definition averageTimeStep (pb : Problem) (numSteps : nat) : scalar :=
  match numSteps with
  | O => match Qsign (finalTime_ pb - initTime_ pb) with
         | Eq => NaN | Gt => PInf | Lt => NInf
         end
  | S _ => Finite ((finalTime_ pb - initTime_ pb) / inject_Z (Z.of_nat numSteps))
  end.

Definition rolloutTrajectory (pb : Problem) (interrupted : bool)
    (controllersStock : list linear_controller) : result (Trajectories * scalar) :=
  if negb (Nat.eqb (length controllersStock) (numPartitions_ pb))
  then Throw ControllersStockSize
  else
    let active := (finalActivePartition_ pb + 1 - initActivePartition_ pb)%nat in
    '(T, xCurrent, numSteps) ←
       rolloutPartitions pb interrupted controllersStock
         (useControllerTill pb controllersStock)
         (partitionOfLastController pb controllersStock)
         (initActivePartition_ pb) active
         (emptyTrajectories (numPartitions_ pb), initState_ pb, O);
    if negb (allFinite xCurrent) then Throw RolloutUnstable
    else if negb (modelDataSizesAgree T (initActivePartition_ pb) active)
    then Throw ModelDataSizeMismatch
    else Ok (T, averageTimeStep pb numSteps).

(** What partition [i] of the output stocks holds when the body of the
    partition loop throws: what the controlled integrator had appended when
    it is the one that throws, and otherwise its segment with the sample
    past an event removed, the tail of the operating points being a local
    that is lost. *)
Definition rolloutPartitionResidue (pb : Problem) (interrupted : bool)
    (controllersStock : list linear_controller) (useTill : Q) (lastController : nat)
    (i : nat) (xCurrent : state_vector) : partition_rollout :=
  let t0 := if Nat.eqb i (initActivePartition_ pb) then initTime_ pb
            else nth i (partitioningTimes_ pb) 0 in
  let tf := if Nat.eqb i (finalActivePartition_ pb) then finalTime_ pb
            else nth (i + 1) (partitioningTimes_ pb) 0 in
  let controllerTo := std_max t0 (std_min useTill tf) in
  let c := nth (Nat.min i lastController) controllersStock emptyController in
  if Qltb t0 controllerTo
  then match runController interrupted t0 xCurrent controllerTo c (eventTimes pb) with
       | Throw _ =>
           dynamicsForwardRolloutResidue col interrupted t0 xCurrent controllerTo c
                                         (eventTimes pb)
       | Ok r => fst (trimPastEvent (run_traj r) controllerTo)
       end
  else emptyPartition.

(** The output stocks when the partition loop stops, at its end or at the
    partition whose body throws. *)
Fixpoint rolloutPartitionsResidue (pb : Problem) (interrupted : bool)
    (controllersStock : list linear_controller) (useTill : Q) (lastController : nat)
    (i n : nat) (acc : Trajectories * state_vector) : Trajectories :=
  match n with
  | O => fst acc
  | S n' =>
      let '(T, xCurrent) := acc in
      match rolloutPartition pb interrupted controllersStock useTill lastController
                             i xCurrent with
      | Ok (p, x) =>
          rolloutPartitionsResidue pb interrupted controllersStock useTill lastController
                                   (S i) n' (setPartition i p T, x)
      | Throw _ =>
          setPartition i
            (rolloutPartitionResidue pb interrupted controllersStock useTill lastController
                                     i xCurrent) T
      end
  end.

(** What a call of [rolloutTrajectory] that throws leaves in the output
    stocks it was given, [T0]: they are untouched by the throw on the size
    of the controller stock; afterwards they have been resized and cleared,
    and hold the partitions written until the throw. *)
Definition rolloutTrajectoryResidue (pb : Problem) (interrupted : bool)
    (controllersStock : list linear_controller) (T0 : Trajectories) : Trajectories :=
  if negb (Nat.eqb (length controllersStock) (numPartitions_ pb))
  then T0
  else
    rolloutPartitionsResidue pb interrupted controllersStock
      (useControllerTill pb controllersStock)
      (partitionOfLastController pb controllersStock)
      (initActivePartition_ pb)
      (finalActivePartition_ pb + 1 - initActivePartition_ pb)
      (emptyTrajectories (numPartitions_ pb), initState_ pb).

(* ===================================================================== *)
(** ** Merit and baseline rollout *)
(* ===================================================================== *)

(** [stateConstraintPenaltyCoeff_ * pow(stateConstraintPenaltyBase_, iteration_)]. *)
Definition stateConstraintPenalty (settings : DDP_Settings.t) (iteration : nat) : Q :=
  DDP_Settings.stateConstraintPenaltyCoeff_ settings
  * pow (DDP_Settings.stateConstraintPenaltyBase_ settings) iteration.

(** [calculateRolloutMerit]; the state-input ISE is an argument it ignores. *)
Definition calculateRolloutMerit (settings : DDP_Settings.t) (iteration : nat)
    (cost stateInputEqISE stateEqISE stateEqFinalISE inequalityPenalty : scalar) : scalar :=
  let merit := cost in
  let merit :=
    sadd merit (smul (Finite ((1 # 2) * stateConstraintPenalty settings iteration))
                     (sadd stateEqISE stateEqFinalISE)) in
  sadd merit inequalityPenalty.

Definition performanceOf (merit : scalar) (ise : ConstraintsISE) : Performance :=
  mkPerformance merit (ise_stateInputEq ise) (ise_stateEq ise) (ise_stateEqFinal ise)
                (ise_inequalityPenalty ise) (ise_inequality ise).

(** [baselineRollout]: rollout of the nominal controller, its ISEs, cost
    and merit, all written to the nominal members. A raised kill flag makes
    the integrator throw. *)
Definition baselineRollout (st : DDP) : result DDP :=
  let pb := problem st in
  '(T, _) ← rolloutTrajectory pb (killIntegration st) (nominalControllersStock_ st);
  let st := set_rolloutLog (rolloutLog st ++ [BaselineRollout]) (set_nominal T st) in
  ise ← external (calculateRolloutConstraintsISE col pb T);
  cost ← external (calculateRolloutCost col pb T);
  let merit := calculateRolloutMerit (ddpSettings_ st) (iteration_ st) cost
                 (ise_stateInputEq ise) (ise_stateEq ise) (ise_stateEqFinal ise)
                 (ise_inequalityPenalty ise) in
  Ok (set_performance (performanceOf merit ise) st).

(* ===================================================================== *)
(** ** Line search *)
(* ===================================================================== *)

(** The locals of [lineSearchTask] that survive one pass of its loop. *)
Record TaskLocals : Type := mkLocals {
  loc_performance : Performance;
  controllersStock : list linear_controller;
  loc_trajectories : Trajectories
}.

Definition vadd (u v : input_vector) : input_vector := zip_with Qplus u v.
Definition vscale (a : Q) (v : input_vector) : input_vector := map (Qmult a) v.

(** [biasArray_[k] += learningRate * deltaBiasArray_[k]] for the [n] time
    stamps from [k] on. Beyond the end of [deltaBiasArray_] the read gives
    the default, the empty vector; beyond the end of [biasArray_] nothing
    is written. *)
Fixpoint incrementBias (learningRate : Q) (k n : nat)
    (bias deltaBias : list input_vector) : list input_vector :=
  match n with
  | O => bias
  | S n' =>
      incrementBias learningRate (S k) n'
        (match bias !! k with
         | Some b => <[k := vadd b (vscale learningRate (nth k deltaBias []))]> bias
         | None => bias
         end)
        deltaBias
  end.

Definition incrementController (learningRate : Q) (c : linear_controller)
    : linear_controller :=
  mkController (timeStamp_ c) (gainArray_ c)
    (incrementBias learningRate O (length (timeStamp_ c)) (biasArray_ c) (deltaBiasArray_ c))
    (deltaBiasArray_ c).

(** "modifying uff by local increments", on the first [numPartitions_]
    controllers. *)
Definition incrementControllers (n : nat) (learningRate : Q)
    (cs : list linear_controller) : list linear_controller :=
  map (incrementController learningRate) (take n cs) ++ drop n cs.

Definition withTotalCost (c : scalar) (p : Performance) : Performance :=
  mkPerformance c (stateInputEqConstraintISE p) (stateEqConstraintISE p)
                (stateEqFinalConstraintISE p) (inequalityConstraintPenalty p)
                (inequalityConstraintISE p).

Definition withISE (ise : ConstraintsISE) (p : Performance) : Performance :=
  performanceOf (totalCost p) ise.

(** [lineSearchWorker]: the candidate controller, then rollout, ISEs, cost
    and merit inside the [try]; the [catch] sets the merit to
    [numeric_limits::max()] and nothing else: the locals keep what the
    [try] had written by then. After a throw of the rollout these are the
    ISEs of before and the trajectories as the rollout left them; after a
    throw of the ISEs, the new trajectories and the ISEs as that call left
    them; after a throw of the cost, the new trajectories and ISEs. *)
Definition lineSearchWorker (settings : DDP_Settings.t) (pb : Problem) (iteration : nat)
    (interrupted : bool) (learningRate : Q) (loc : TaskLocals) : TaskLocals :=
  let cs := incrementControllers (numPartitions_ pb) learningRate (controllersStock loc) in
  let failed := withTotalCost (Finite scalar_max) in
  match rolloutTrajectory pb interrupted cs with
  | Throw _ =>
      mkLocals (failed (loc_performance loc)) cs
               (rolloutTrajectoryResidue pb interrupted cs (loc_trajectories loc))
  | Ok (T, _) =>
      match calculateRolloutConstraintsISE col pb T with
      | Throw _ =>
          mkLocals (failed (calculateRolloutConstraintsISEResidue col pb T
                              (loc_performance loc))) cs T
      | Ok ise =>
          match calculateRolloutCost col pb T with
          | Throw _ => mkLocals (failed (withISE ise (loc_performance loc))) cs T
          | Ok cost =>
              let merit := calculateRolloutMerit settings iteration cost
                             (ise_stateInputEq ise) (ise_stateEq ise)
                             (ise_stateEqFinal ise) (ise_inequalityPenalty ise) in
              mkLocals (performanceOf merit ise) cs T
          end
      end
  end.

(** The [try] block of [lineSearchWorker] as a whole: does the evaluation
    of the candidate controllers throw? *)
Definition candidateEvaluation (pb : Problem) (interrupted : bool)
    (cs : list linear_controller) : result unit :=
  '(T, _) ← rolloutTrajectory pb interrupted cs;
  _ ← calculateRolloutConstraintsISE col pb T;
  _ ← calculateRolloutCost col pb T;
  Ok tt.

(** Where a thread stands in the loop of [lineSearchTask]. Each constructor
    is the point before one atomic action on the shared members. *)
Inductive task_pc : Type :=
| AtClaim                                    (* before alphaExpNext_++ *)
| AtSkipCheck (alphaExp : nat) (learningRate : Q)   (* before reading learningRateStar_ *)
| AtWorker (alphaExp : nat) (learningRate : Q)      (* before lineSearchWorker *)
| AtCommit (alphaExp : nat) (learningRate : Q)      (* before taking the mutex *)
| AtKill                                     (* before activateKillIntegration *)
| Finished.                                  (* left the loop *)

Record task : Type := mkTask {
  pc : task_pc;
  locals : TaskLocals
}.

(** The locals at the start of [lineSearchTask]: the six scalars are
    declared without initialiser and hold the indeterminate values
    [scalars]; the stocks are constructed with [numPartitions_] empty
    entries. *)
Definition initialLocals (scalars : Performance) (numPartitions : nat) : TaskLocals :=
  mkLocals scalars
           (replicate numPartitions emptyController)
           (emptyTrajectories numPartitions).

(** [maxLearningRate_ * pow(lineSearchContractionRate_, alphaExp)]. *)
Definition candidate (st : DDP) (alphaExp : nat) : Q :=
  maxLearningRate_ st * pow (DDP_Settings.lineSearchContractionRate_ (ddpSettings_ st)) alphaExp.

(** The acceptance test under the mutex. *)
Definition accepts (st : DDP) (cost : scalar) (learningRate : Q) : bool :=
  sltb cost (smul (baselineTotalCost_ st) (Finite (1 - (1 # 1000) * learningRate)))
  && Qltb (learningRateStar_ st) learningRate.

(** "whether to stop all other thread": every smaller exponent is processed. *)
Definition allProcessedBelow (st : DDP) (alphaExp : nat) : bool :=
  forallb (fun i => nth i (alphaProcessed_ st) false) (seq 0 alphaExp).

(** The block under [lineSearchResultMutex_]. *)
Definition commit (st : DDP) (alphaExp : nat) (learningRate : Q) (loc : TaskLocals)
    : DDP * TaskLocals * bool :=
  if accepts st (totalCost (loc_performance loc)) learningRate
  then
    let st1 :=
      set_nominal (loc_trajectories loc)
        (set_nominalControllersStock_ (controllersStock loc)
           (set_learningRateStar_ learningRate
              (set_performance (loc_performance loc) st))) in
    let loc1 := mkLocals (loc_performance loc) (nominalControllersStock_ st) (nominal st) in
    let terminateLinesearchTasks := allProcessedBelow st alphaExp in
    (set_alphaProcessed_ (<[alphaExp := true]> (alphaProcessed_ st1)) st1, loc1,
     terminateLinesearchTasks)
  else (set_alphaProcessed_ (<[alphaExp := true]> (alphaProcessed_ st)) st, loc, false).

(** One atomic action of a thread. [poll] says whether the integrator of
    this evaluation polls the kill flag. *)
Definition taskStep (poll : bool) (st : DDP) (t : task) : DDP * task :=
  let settings := ddpSettings_ st in
  match pc t with
  | AtClaim =>
      let alphaExp := alphaExpNext_ st in
      let learningRate := candidate st alphaExp in
      (set_alphaExpNext_ (S alphaExp) st,
       if negb (almost_ge learningRate (DDP_Settings.minLearningRate_ settings))
       then mkTask Finished (locals t)
       else mkTask (AtSkipCheck alphaExp learningRate) (locals t))
  | AtSkipCheck alphaExp learningRate =>
      if Qltb learningRate (learningRateStar_ st)
      then (st, mkTask Finished (locals t))
      else (st, mkTask (AtWorker alphaExp learningRate)
                  (mkLocals (loc_performance (locals t)) (initLScontrollersStock_ st)
                            (loc_trajectories (locals t))))
  | AtWorker alphaExp learningRate =>
      (set_rolloutLog (rolloutLog st ++ [CandidateRollout learningRate]) st,
       mkTask (AtCommit alphaExp learningRate)
         (lineSearchWorker settings (problem st) (iteration_ st)
            (poll && killIntegration st) learningRate (locals t)))
  | AtCommit alphaExp learningRate =>
      let '(st', loc', terminateLinesearchTasks) :=
        commit st alphaExp learningRate (locals t) in
      (st', mkTask (if terminateLinesearchTasks then AtKill else AtClaim) loc')
  | AtKill => (set_killIntegration true st, mkTask Finished (locals t))
  | Finished => (st, t)
  end.

(** The shared members together with the threads of one parallel section. *)
Definition LineSearch : Type := (DDP * list task)%type.

(** Thread [w] performs its next action. *)
Definition stepThread (w : nat) (poll : bool) (ls : LineSearch) : LineSearch :=
  match snd ls !! w with
  | Some t => let '(st', t') := taskStep poll (fst ls) t in (st', <[w := t']> (snd ls))
  | None => ls
  end.

Definition isFinished (t : task) : bool :=
  match pc t with Finished => true | _ => false end.

(** An interleaving: which thread acts next, and whether its integrator
    polls the kill flag. *)
Definition schedule : Type := list (nat * bool).

Fixpoint runSchedule (sched : schedule) (ls : LineSearch) : LineSearch :=
  match sched with
  | [] => ls
  | (w, poll) :: rest => runSchedule rest (stepThread w poll ls)
  end.

(** Index of the first thread still in its loop. *)
Fixpoint firstUnfinished (ts : list task) : option nat :=
  match ts with
  | [] => None
  | t :: rest => if isFinished t then option_map S (firstUnfinished rest) else Some O
  end.

(** After the given interleaving, the remaining threads run one after the
    other, for at most [fuel] actions. *)
Fixpoint drain (fuel : nat) (ls : LineSearch) : LineSearch :=
  match fuel with
  | O => ls
  | S fuel' =>
      match firstUnfinished (snd ls) with
      | None => ls
      | Some w => drain fuel' (stepThread w false ls)
      end
  end.

(** The [nThreads_] threads of [runParallel] at the start of
    [lineSearchTask], thread [taskId] with its own indeterminate scalars. *)
Definition initialThreads (st : DDP) : list task :=
  map (fun taskId =>
         mkTask AtClaim (initialLocals (indeterminate col taskId)
                                       (numPartitions_ (problem st))))
      (seq 0 (DDP_Settings.nThreads_ (ddpSettings_ st))).

(** [runParallel(task, nThreads_)] for [task = lineSearchTask]: [nThreads_]
    threads, interleaved by [sched]; returns at the barrier. *)
Definition runLineSearchTasks (fuel : nat) (sched : schedule) (st : DDP) : result DDP :=
  let '(st', threads') := drain fuel (runSchedule sched (st, initialThreads st)) in
  if forallb isFinished threads' then Ok st' else Throw StepBudgetExhausted.

(** "clear the feedforward increments" of the first [numPartitions_]
    nominal controllers. *)
Definition clearFeedforwardIncrements (st : DDP) : DDP :=
  let n := numPartitions_ (problem st) in
  set_nominalControllersStock_
    (map clearDeltaBias (take n (nominalControllersStock_ st))
     ++ drop n (nominalControllersStock_ st)) st.

(** The assignments of [lineSearch] after the baseline rollout. *)
Definition lineSearchSeed (st : DDP) : DDP :=
  set_initLScontrollersStock_ (nominalControllersStock_ st)
    (set_learningRateStar_ 0
       (set_baselineTotalCost_ (nominalTotalCost_ st) st)).

(** The shared counters as [lineSearch] sets them before [runParallel]. *)
Definition lineSearchStart (st : DDP) : DDP :=
  let settings := ddpSettings_ st in
  set_alphaProcessed_
    (replicate (maxNumOfLineSearches col (DDP_Settings.minLearningRate_ settings)
                  (DDP_Settings.maxLearningRate_ settings)
                  (DDP_Settings.lineSearchContractionRate_ settings)) false)
    (set_alphaExpNext_ O st).

(** "if no line search". *)
Definition noLineSearch (settings : DDP_Settings.t) : bool :=
  Qltb (DDP_Settings.maxLearningRate_ settings) (limitEpsilon col).

(** [lineSearch]. *)
Definition lineSearch (fuel : nat) (sched : schedule) (st : DDP) : result DDP :=
  st ← baselineRollout st;
  let st := lineSearchSeed st in
  if noLineSearch (ddpSettings_ st)
  then Ok (clearFeedforwardIncrements st)
  else
    st ← runLineSearchTasks fuel sched (lineSearchStart st);
    Ok (clearFeedforwardIncrements (set_killIntegration false st)).

(* ===================================================================== *)
(** ** runInit, runIteration, runImpl *)
(* ===================================================================== *)

(** A member function that may leave the object modified when it throws. *)
Inductive outcome : Type :=
| Returned (st : DDP)
| Threw (e : error) (st : DDP).

(** Continue with [k] when [r] returned. After a throw of [runInit], of a
    pass of the main loop or of [lineSearch] the model keeps [st], the
    members of before the call: of these, the settings, the problem and the
    rewind counter are the ones the call never writes, and they alone are
    read off such an outcome below. *)
Definition attempt (st : DDP) (r : result DDP) (k : DDP -> outcome) : outcome :=
  match r with
  | Ok st' => k st'
  | Throw e => Threw e st
  end.

Definition swapNominalTrajectoriesToCache (st : DDP) : DDP :=
  set_cached (nominal st) (set_nominal (cached st) st).

Definition withModelData (md : list (list ModelDataBase)) (T : Trajectories) : Trajectories :=
  mkTrajectories (timeTrajectoriesStock T) (postEventIndicesStock T)
                 (stateTrajectoriesStock T) (inputTrajectoriesStock T) md.

(** The three calls that end [runInit] and [runIteration]; the controller
    is computed only "if (ddpSettings_.useRiccatiSolver_)". *)
Definition runBackwardPass (st : DDP) : result DDP :=
  bp ← external (backwardPass col (problem st) (iteration_ st) (nominal st)
                              (nominalControllersStock_ st));
  if DDP_Settings.useRiccatiSolver_ (ddpSettings_ st)
  then Ok (set_finals (bp_finals bp)
             (set_nominal (withModelData (bp_modelData bp) (nominal st))
                (set_nominalControllersStock_ (bp_controllersStock bp) st)))
  else Throw UseRiccatiSolverFalse.

(** The block "to check convergence of the main loop, we need to compute
    the total cost and ISEs" of [runInit]. *)
Definition initPerformance (st : DDP) : result DDP :=
  let settings := ddpSettings_ st in
  let computePerformanceIndex :=
    DDP_Settings.displayInfo_ settings
    || Nat.ltb 1 (DDP_Settings.maxNumIterations_ settings) in
  if computePerformanceIndex
  then
    ise ← external (calculateRolloutConstraintsISE col (problem st) (nominal st));
    cost ← external (calculateRolloutCost col (problem st) (nominal st));
    (* nominalTotalCost_ += inequalityConstraintPenalty_; *)
    let nominalTotalCost := sadd cost (ise_inequalityPenalty ise) in
    let merit := calculateRolloutMerit settings (iteration_ st) nominalTotalCost
                   (ise_stateInputEq ise) (ise_stateEq ise) (ise_stateEqFinal ise)
                   (ise_inequalityPenalty ise) in
    Ok (set_performance (performanceOf merit ise) st)
  else
    Ok (set_performance
          (mkPerformance (Finite 0) (Finite 0) (Finite 0) (Finite 0)
                         (inequalityConstraintPenalty (performance st))
                         (inequalityConstraintISE (performance st))) st).

Definition runInit (st : DDP) : result DDP :=
  let st := swapNominalTrajectoriesToCache st in
  '(T, _) ← rolloutTrajectory (problem st) (killIntegration st)
                              (nominalControllersStock_ st);
  let st := set_rolloutLog (rolloutLog st ++ [InitRollout]) (set_nominal T st) in
  cachedT ← external (correctedCache col (problem st) (nominal st) (cached st));
  let st := set_cached cachedT st in
  st ← initPerformance st;
  runBackwardPass st.

Definition runIteration (fuel : nat) (sched : schedule) (st : DDP) : result DDP :=
  let st := set_maxLearningRate_ (DDP_Settings.maxLearningRate_ (ddpSettings_ st)) st in
  st ← lineSearch fuel sched st;
  runBackwardPass st.

(** [std::vector::resize]. *)
Definition vresize {A} (n : nat) (d : A) (v : list A) : list A :=
  take n v ++ replicate (n - length v) d.

Definition resizeTrajectories (n : nat) (T : Trajectories) : Trajectories :=
  mkTrajectories (vresize n [] (timeTrajectoriesStock T))
                 (vresize n [] (postEventIndicesStock T))
                 (vresize n [] (stateTrajectoriesStock T))
                 (vresize n [] (inputTrajectoriesStock T))
                 (vresize n [] (modelDataTrajectoriesStock T)).

Definition zeroVector (n : nat) : list Q := replicate n 0.
Definition zeroMatrix (n : nat) : list (list Q) := replicate n (zeroVector n).

(** [setupOptimizer], called after [numPartitions_] was assigned. *)
Definition setupOptimizer (numPartitions : nat) (st : DDP) : outcome :=
  match numPartitions with
  | O => Threw ZeroPartitions st
  | S _ =>
      let n := STATE_DIM col in
      Returned
        (set_finals
           (mkRiccatiFinal (replicate numPartitions (zeroMatrix n))
                           (replicate numPartitions (zeroVector n))
                           (replicate numPartitions (zeroVector n))
                           (replicate numPartitions 0)
                           (replicate numPartitions (zeroVector n)))
           (set_cached (resizeTrajectories numPartitions (cached st))
              (set_nominal (resizeTrajectories numPartitions (nominal st))
                 (set_nominalControllersStock_
                    (vresize numPartitions emptyController (nominalControllersStock_ st))
                    st))))
  end.

Definition withNumPartitions (n : nat) (pb : Problem) : Problem :=
  mkProblem n (partitioningTimes_ pb) (initActivePartition_ pb) (finalActivePartition_ pb)
            (initTime_ pb) (finalTime_ pb) (initState_ pb) (eventTimes pb).

Definition withPartitioningTimes (times : list Q) (pb : Problem) : Problem :=
  mkProblem (numPartitions_ pb) times (initActivePartition_ pb) (finalActivePartition_ pb)
            (initTime_ pb) (finalTime_ pb) (initState_ pb) (eventTimes pb).

Definition withInitActivePartition (i : nat) (pb : Problem) : Problem :=
  mkProblem (numPartitions_ pb) (partitioningTimes_ pb) i (finalActivePartition_ pb)
            (initTime_ pb) (finalTime_ pb) (initState_ pb) (eventTimes pb).

Definition withFinalActivePartition (i : nat) (pb : Problem) : Problem :=
  mkProblem (numPartitions_ pb) (partitioningTimes_ pb) (initActivePartition_ pb) i
            (initTime_ pb) (finalTime_ pb) (initState_ pb) (eventTimes pb).

Definition withHorizon (initTime finalTime : Q) (initState : state_vector) (pb : Problem)
    : Problem :=
  mkProblem (numPartitions_ pb) (partitioningTimes_ pb) (initActivePartition_ pb)
            (finalActivePartition_ pb) initTime finalTime initState (eventTimes pb).

(** The loop "ensure initial controllers are of the right type, then
    assign"; a pointer that is not a [linear_controller_t] is [None]. The
    result is the stock filled so far and whether every cast succeeded. *)
Fixpoint castControllers (ptrs : list (option linear_controller))
    (stock : list linear_controller) : list linear_controller * bool :=
  match ptrs with
  | [] => (stock, true)
  | None :: _ => (stock, false)
  | Some c :: rest => castControllers rest (stock ++ [c])
  end.

(** The locals of [runImpl] that steer its main loop. *)
Record LoopFlags : Type := mkFlags {
  isInitInternalControllerEmpty : bool;
  relCost : scalar;
  relConstraint1ISE : scalar;
  isLearningRateStarZero : bool;
  isCostFunctionConverged : bool;
  isConstraint1Satisfied : bool;
  isOptimizationConverged : bool
}.

Definition pushLogs (st : DDP) : DDP :=
  set_iterationISE2_ (iterationISE2_ st ++ [stateEqConstraintISE_ st])
    (set_iterationISE1_ (iterationISE1_ st ++ [stateInputEqConstraintISE_ st])
       (set_iterationCost_ (iterationCost_ st ++ [nominalTotalCost_ st]) st)).

(** "loop break variables", from the members after [runIteration] and the
    two values cached before it. *)
Definition loopBreakVariables (st : DDP) (cachedCost cachedStateInputEqConstraintISE : scalar)
    (initEmpty : bool) : LoopFlags :=
  let settings := ddpSettings_ st in
  let relCost := sabs (ssub (nominalTotalCost_ st) cachedCost) in
  let relConstraint1ISE :=
    sabs (ssub (stateInputEqConstraintISE_ st) cachedStateInputEqConstraintISE) in
  let isConstraint1Satisfied :=
    sleb (stateInputEqConstraintISE_ st) (Finite (DDP_Settings.minAbsConstraint1ISE_ settings))
    || sleb relConstraint1ISE (Finite (DDP_Settings.minRelConstraint1ISE_ settings)) in
  let isLearningRateStarZero := Qeq_bool (learningRateStar_ st) 0 && negb initEmpty in
  let isCostFunctionConverged :=
    sleb relCost (Finite (DDP_Settings.minRelCost_ settings)) || isLearningRateStarZero in
  let isOptimizationConverged := isCostFunctionConverged && isConstraint1Satisfied in
  mkFlags false relCost relConstraint1ISE isLearningRateStarZero isCostFunctionConverged
          isConstraint1Satisfied isOptimizationConverged.

(** The body of the "DDP main loop". *)
Definition loopBody (fuel : nat) (scheds : nat -> schedule) (st : DDP) (flags : LoopFlags)
    : result (DDP * LoopFlags) :=
  let st := set_iteration_ (S (iteration_ st)) st in
  let cachedCost := nominalTotalCost_ st in
  let cachedStateInputEqConstraintISE := stateInputEqConstraintISE_ st in
  let st := swapNominalTrajectoriesToCache st in
  st ← runIteration fuel (scheds (iteration_ st)) st;
  let st := pushLogs st in
  Ok (st, loopBreakVariables st cachedCost cachedStateInputEqConstraintISE
            (isInitInternalControllerEmpty flags)).

(** [while (iteration_ + 1 < maxNumIterations_ && !isOptimizationConverged)],
    unrolled at most [n] times. *)
Fixpoint mainLoop (n : nat) (fuel : nat) (scheds : nat -> schedule)
    (st : DDP) (flags : LoopFlags) : result (DDP * LoopFlags) :=
  match n with
  | O => Ok (st, flags)
  | S n' =>
      if Nat.ltb (iteration_ st + 1) (DDP_Settings.maxNumIterations_ (ddpSettings_ st))
         && negb (isOptimizationConverged flags)
      then '(st', flags') ← loopBody fuel scheds st flags;
           mainLoop n' fuel scheds st' flags'
      else Ok (st, flags)
  end.

(** The executions of that [while] loop, from the members and flags at
    its head to those it is left with: the loop is left where its condition
    fails, and only there; where the condition holds the body is run and
    the loop resumes from what the body returns. *)
Inductive loopRun (fuel : nat) (scheds : nat -> schedule)
    : DDP -> LoopFlags -> DDP -> LoopFlags -> Prop :=
| loopRun_leave st flags :
    (DDP_Settings.maxNumIterations_ (ddpSettings_ st) <= iteration_ st + 1)%nat
    \/ isOptimizationConverged flags = true ->
    loopRun fuel scheds st flags st flags
| loopRun_pass st flags st1 flags1 st' flags' :
    (iteration_ st + 1 < DDP_Settings.maxNumIterations_ (ddpSettings_ st))%nat ->
    isOptimizationConverged flags = false ->
    loopBody fuel scheds st flags = Ok (st1, flags1) ->
    loopRun fuel scheds st1 flags1 st' flags' ->
    loopRun fuel scheds st flags st' flags'.

(** The locals before the loop: "check if after the truncation the
    internal controller is empty", and the convergence variables. [relCost]
    and [relConstraint1ISE] are declared without initialiser; every pass
    writes them before it reads them and nothing reads them before the
    first pass, so that their value here, 0, is never looked at. *)
Definition initialFlags (st : DDP) : LoopFlags :=
  mkFlags (existsb ctrl_empty (nominalControllersStock_ st))
          (Finite 0) (Finite 0) false false false false.

(** The input checks that open [runImpl]. *)
Definition validateInputs (settings : DDP_Settings.t) (initState : state_vector)
    (partitioningTimes : list Q) : option error :=
  if negb (almost_ge (DDP_Settings.maxLearningRate_ settings)
                     (DDP_Settings.minLearningRate_ settings))
  then Some MaxLearningRateSmallerThanMin
  else match partitioningTimes with
       | [] => Some NoTimePartition
       | _ :: _ =>
           if negb (allFinite initState) then Some InitialStateNotFinite else None
       end.

(** "update numPartitions_ if it has been changed". *)
Definition updateNumPartitions (partitioningTimes : list Q) (st : DDP) : outcome :=
  let n := (length partitioningTimes - 1)%nat in
  if negb (Nat.eqb (numPartitions_ (problem st)) n)
  then setupOptimizer n (set_problem (withNumPartitions n (problem st)) st)
  else Returned st.

(** "Use the input controller if it is not empty otherwise use the internal
    controller". *)
Definition installControllers (controllersPtrStock : list (option linear_controller))
    (st : DDP) : outcome :=
  match controllersPtrStock with
  | _ :: _ =>
      if negb (Nat.eqb (length controllersPtrStock) (numPartitions_ (problem st)))
      then Threw ControllersPtrStockSize st
      else
        let '(stock, allLinear) := castControllers controllersPtrStock [] in
        let st' := set_nominalControllersStock_ stock st in
        if allLinear then Returned st' else Threw NotLinearController st'
  | [] =>
      if negb (Nat.eqb (length (nominalControllersStock_ st)) (numPartitions_ (problem st)))
      then Threw InternalControllerIncompatible st
      else Returned st
  end.

(** "update partitioningTimes_": the assignment and the two lookups, each
    of which may throw after the assignments before it. *)
Definition adoptPartitioning (partitioningTimes : list Q) (initTime finalTime : Q)
    (st : DDP) : outcome :=
  let st := set_problem (withPartitioningTimes partitioningTimes (problem st)) st in
  match external (findBoundedActiveIntervalInTimeArray col partitioningTimes initTime) with
  | Throw e => Threw e st
  | Ok initActive =>
      let st := set_problem (withInitActivePartition initActive (problem st)) st in
      match external (findBoundedActiveIntervalInTimeArray col partitioningTimes finalTime)
      with
      | Throw e => Threw e st
      | Ok finalActive =>
          Returned (set_problem (withFinalActivePartition finalActive (problem st)) st)
      end
  end.

(** From the first assignment of [runImpl] after its checks to its end. *)
Definition solveValidated (fuel : nat) (scheds : nat -> schedule)
    (initTime : Q) (initState : state_vector) (finalTime : Q) (partitioningTimes : list Q)
    (controllersPtrStock : list (option linear_controller)) (st : DDP) : outcome :=
  match updateNumPartitions partitioningTimes st with
  | Threw e st' => Threw e st'
  | Returned st =>
      match adoptPartitioning partitioningTimes initTime finalTime st with
      | Threw e st' => Threw e st'
      | Returned st =>
      match installControllers controllersPtrStock st with
      | Threw e st' => Threw e st'
      | Returned st =>
          let st :=
            set_iterationISE2_ []
              (set_iterationISE1_ []
                 (set_iterationCost_ []
                    (set_problem (withHorizon initTime finalTime initState (problem st))
                       (set_iteration_ O st)))) in
          let flags := initialFlags st in
          attempt st (runInit st) (fun st =>
          let st := pushLogs st in
          match mainLoop (DDP_Settings.maxNumIterations_ (ddpSettings_ st)) fuel scheds
                         st flags with
          | Throw e => Threw e st
          | Ok (st, _) =>
              let st := swapNominalTrajectoriesToCache st in
              let st :=
                set_maxLearningRate_ (DDP_Settings.maxLearningRate_ (ddpSettings_ st)) st in
              attempt st (lineSearch fuel (scheds (S (iteration_ st))) st) Returned
          end)
      end
      end
  end.

(** [runImpl] with the controller pointers. *)
Definition runImpl (fuel : nat) (scheds : nat -> schedule)
    (initTime : Q) (initState : state_vector) (finalTime : Q) (partitioningTimes : list Q)
    (controllersPtrStock : list (option linear_controller)) (st : DDP) : outcome :=
  match validateInputs (ddpSettings_ st) initState partitioningTimes with
  | Some e => Threw e st
  | None =>
      solveValidated fuel scheds initTime initState finalTime partitioningTimes
                     controllersPtrStock st
  end.

(** [runImpl] without controllers: one empty controller per partition is
    passed on. [partitioningTimes.size() - 1] is computed in [size_t]: on an
    empty partitioning it is the largest [size_t] and the vector of that
    many controllers cannot be constructed. *)
Definition runImplNoControllers (fuel : nat) (scheds : nat -> schedule)
    (initTime : Q) (initState : state_vector) (finalTime : Q) (partitioningTimes : list Q)
    (st : DDP) : outcome :=
  match partitioningTimes with
  | [] => Threw VectorLengthError st
  | _ :: _ =>
      runImpl fuel scheds initTime initState finalTime partitioningTimes
              (replicate (length partitioningTimes - 1) (Some emptyController)) st
  end.

End Model.

(* ===================================================================== *)
(** ** rewindOptimizer *)
(* ===================================================================== *)

(** [v[i].swap(v[j])]. *)
Definition swapAt {A} (i j : nat) (v : list A) : list A :=
  match v !! i, v !! j with
  | Some a, Some b => <[j := a]> (<[i := b]> v)
  | _, _ => v
  end.

(** [v[i] = v[j]]. *)
Definition assignFrom {A} (i j : nat) (v : list A) : list A :=
  match v !! j with
  | Some b => <[i := b]> v
  | None => v
  end.

(** [v[i] = f(v[i])], for [clear()], [setZero()] and [= 0.0]. *)
Definition modifyAt {A} (f : A -> A) (i : nat) (v : list A) : list A :=
  match v !! i with
  | Some a => <[i := f a]> v
  | None => v
  end.

Definition setZeroVector (v : list Q) : list Q := map (fun _ => 0) v.
Definition setZeroMatrix (m : list (list Q)) : list (list Q) := map setZeroVector m.

(** The body of the loop of [rewindOptimizer] for partition [i]. *)
Definition rewindPartition (firstIndex preservedLength i : nat)
    (acc : list linear_controller * RiccatiFinal) : list linear_controller * RiccatiFinal :=
  let '(cs, fin) := acc in
  if Nat.ltb i preservedLength
  then (swapAt i (firstIndex + i) cs,
        mkRiccatiFinal (assignFrom i (firstIndex + i) (SmFinalStock_ fin))
                       (assignFrom i (firstIndex + i) (SvFinalStock_ fin))
                       (assignFrom i (firstIndex + i) (SveFinalStock_ fin))
                       (assignFrom i (firstIndex + i) (sFinalStock_ fin))
                       (assignFrom i (firstIndex + i) (xFinalStock_ fin)))
  else (modifyAt ctrl_clear i cs,
        mkRiccatiFinal (modifyAt setZeroMatrix i (SmFinalStock_ fin))
                       (modifyAt setZeroVector i (SvFinalStock_ fin))
                       (modifyAt setZeroVector i (SveFinalStock_ fin))
                       (modifyAt (fun _ => 0) i (sFinalStock_ fin))
                       (modifyAt setZeroVector i (xFinalStock_ fin))).

(** [for (size_t i = 0; i < numPartitions_; i++)]: [n] partitions from [i] on. *)
Fixpoint rewindLoop (firstIndex preservedLength i n : nat)
    (acc : list linear_controller * RiccatiFinal) : list linear_controller * RiccatiFinal :=
  match n with
  | O => acc
  | S n' =>
      rewindLoop firstIndex preservedLength (S i) n'
                 (rewindPartition firstIndex preservedLength i acc)
  end.

(** A sum of counters in [unsigned long long], 64 bits wide. *)
Definition wrap64 (n : nat) : nat := N.to_nat (N.of_nat n mod 2 ^ 64)%N.

(** [rewindOptimizer]; [firstIndex] is a [size_t]. *)
Definition rewindOptimizer (firstIndex : nat) (st : DDP) : outcome :=
  match firstIndex with
  | O => Returned st
  | S _ =>
      let st := set_rewindCounter_ (wrap64 (rewindCounter_ st + firstIndex)) st in
      let numPartitions := numPartitions_ (problem st) in
      if Nat.ltb numPartitions firstIndex
      then Threw RewindIndexTooLarge st
      else
        let preservedLength := (numPartitions - firstIndex)%nat in
        let '(cs, fin) :=
          rewindLoop firstIndex preservedLength O numPartitions
                     (nominalControllersStock_ st, finals st) in
        Returned (set_finals fin (set_nominalControllersStock_ cs st))
  end.

(* ===================================================================== *)
(** ** Specification-level definitions *)
(* ===================================================================== *)

(** The longest run of non-empty controllers at the head of a list. *)
Fixpoint nonEmptyPrefix (cs : list linear_controller) : list linear_controller :=
  match cs with
  | [] => []
  | c :: rest => if ctrl_empty c then [] else c :: nonEmptyPrefix rest
  end.

(** The controllers met by "scan partitions initActive...finalActive; the
    first empty controller ends the scan". *)
Definition scannedControllers (pb : Problem) (cs : list linear_controller)
    : list linear_controller :=
  nonEmptyPrefix (take (finalActivePartition_ pb + 1 - initActivePartition_ pb)
                       (drop (initActivePartition_ pb) cs)).

(** "[controllerAvailableTill] = latest time stamp with a non-empty
    controller": the last time stamp of the last scanned controller, and
    [initTime] when there is none. *)
Definition spec_controllerAvailableTill (pb : Problem) (cs : list linear_controller) : Q :=
  match List.last (map Some (scannedControllers pb cs)) None with
  | Some c => back 0 (timeStamp_ c)
  | None => initTime_ pb
  end.

(** The "use-controller-until" rule. *)
Definition spec_useControllerTill (pb : Problem) (cs : list linear_controller) : Q :=
  if ctrl_empty (nth (initActivePartition_ pb) cs emptyController)
  then initTime_ pb
  else match List.find (fun e => Qle_bool (spec_controllerAvailableTill pb cs) e)
                       (eventTimes pb) with
       | Some e => std_min e (finalTime_ pb)
       | None => finalTime_ pb
       end.

(* ===================================================================== *)
(** ** Predicates on rollouts *)
(* ===================================================================== *)

(** Every post-event index points inside the time trajectory, and the
    time stamps of the sample before it and of the sample at it stand in
    the relation [R]. *)
Definition eventsRelated (R : Q -> Q -> Prop) (times : list Q) (postEvent : list nat)
    : Prop :=
  Forall (fun j => (0 < j < length times)%nat /\ R (nth (j - 1) times 0) (nth j times 0))
         postEvent.

(** The time trajectory is not empty and starts at [t0]. *)
Definition startsAt (t0 : Q) (times : list Q) : Prop :=
  match times with
  | [] => False
  | t :: _ => t == t0
  end.

(** What [rolloutTrajectory] takes from the integrators, which are not
    part of this file: a controlled segment has as many states as time
    stamps, an operating-point segment starts at the requested time, and
    in the segments of both the time stamps of the two samples of an event
    stand in [R]. Which relation that is, is left open: the comment at the
    pop in [rolloutTrajectory] speaks of the epsilons that the rollout
    adds after an event. *)
Definition integratorsKeep (R : Q -> Q -> Prop) (col : Collaborators) : Prop :=
  (forall t0 x tf c events r,
      dynamicsForwardRollout col t0 x tf c events = Ok r ->
      length (p_state (run_traj r)) = length (p_time (run_traj r))
      /\ eventsRelated R (p_time (run_traj r)) (p_postEvent (run_traj r)))
  /\ (forall t0 x tf events r,
      operatingTrajectoriesRollout col t0 x tf events = Ok r ->
      startsAt t0 (p_time (run_traj r))
      /\ eventsRelated R (p_time (run_traj r)) (p_postEvent (run_traj r))).

(** After the trim, an index may point one past the end; the sample before
    it then stands in [R] with the time the operating-point rollout starts
    from. *)
Definition eventsPending (R : Q -> Q -> Prop) (from : Q) (times : list Q)
    (postEvent : list nat) : Prop :=
  Forall (fun j => (0 < j)%nat /\
                   (((j < length times)%nat /\ R (nth (j - 1) times 0) (nth j times 0))
                    \/ (j = length times /\ R (nth (j - 1) times 0) from)))
         postEvent.

(** [eventsRelated] in every partition. *)
Definition stocksRelated (R : Q -> Q -> Prop) (T : Trajectories) : Prop :=
  length (timeTrajectoriesStock T) = length (postEventIndicesStock T)
  /\ forall i, eventsRelated R (nth i (timeTrajectoriesStock T) [])
                              (nth i (postEventIndicesStock T) []).

(** The post-event sample is stamped [gap] later than the pre-event one. *)
Definition laterBy (gap : Q) (a b : Q) : Prop := b == a + gap.

(* ===================================================================== *)
(** ** The loops of the rewind, array by array *)
(* ===================================================================== *)

(** What the loop of [rewindOptimizer] does to one array that is shifted
    by assignment. *)
Fixpoint assignLoop {A} (clearf : A -> A) (firstIndex preservedLength i n : nat)
    (v : list A) : list A :=
  match n with
  | O => v
  | S n' =>
      assignLoop clearf firstIndex preservedLength (S i) n'
        (if Nat.ltb i preservedLength then assignFrom i (firstIndex + i) v
         else modifyAt clearf i v)
  end.

(** The same for the array that is shifted by swaps. *)
Fixpoint swapLoop {A} (clearf : A -> A) (firstIndex preservedLength i n : nat)
    (v : list A) : list A :=
  match n with
  | O => v
  | S n' =>
      swapLoop clearf firstIndex preservedLength (S i) n'
        (if Nat.ltb i preservedLength then swapAt i (firstIndex + i) v
         else modifyAt clearf i v)
  end.

(** What [rewindOptimizer] moves for one partition: the controller and the
    terminal values of the Riccati equations. *)
Record PartitionData : Type := mkPartitionData {
  pd_controller : linear_controller;
  pd_Sm : list (list Q);
  pd_Sv : list Q;
  pd_Sve : list Q;
  pd_s : Q;
  pd_x : list Q
}.

(** The data of partition [i], when all the stocks reach that far. *)
Definition partitionData (st : DDP) (i : nat) : option PartitionData :=
  c ← nominalControllersStock_ st !! i;
  Sm ← SmFinalStock_ (finals st) !! i;
  Sv ← SvFinalStock_ (finals st) !! i;
  Sve ← SveFinalStock_ (finals st) !! i;
  s ← sFinalStock_ (finals st) !! i;
  x ← xFinalStock_ (finals st) !! i;
  Some (mkPartitionData c Sm Sv Sve s x).

(** Partition [i] of the five stocks of a trajectory store. *)
Definition partitionAt (T : Trajectories) (i : nat) : partition_rollout :=
  mkPartition (nth i (timeTrajectoriesStock T) []) (nth i (postEventIndicesStock T) [])
              (nth i (stateTrajectoriesStock T) []) (nth i (inputTrajectoriesStock T) [])
              (nth i (modelDataTrajectoriesStock T) []).

(** The data that the spec keeps per partition: the controller and the
    terminal Riccati seed, and the nominal and the cached trajectory. *)
Definition partitionContents (st : DDP) (i : nat)
    : option (PartitionData * partition_rollout * partition_rollout) :=
  d ← partitionData st i;
  Some (d, partitionAt (nominal st) i, partitionAt (cached st) i).

(** A partition after [clear()] and [setZero()]. *)
Definition clearedPartition (d : PartitionData) : PartitionData :=
  mkPartitionData emptyController (setZeroMatrix (pd_Sm d)) (setZeroVector (pd_Sv d))
                  (setZeroVector (pd_Sve d)) 0 (setZeroVector (pd_x d)).

(** The stocks have [numPartitions_] entries, as [setupOptimizer] leaves
    them. *)
Definition stocksSized (st : DDP) : Prop :=
  let K := numPartitions_ (problem st) in
  length (nominalControllersStock_ st) = K
  /\ length (SmFinalStock_ (finals st)) = K
  /\ length (SvFinalStock_ (finals st)) = K
  /\ length (SveFinalStock_ (finals st)) = K
  /\ length (sFinalStock_ (finals st)) = K
  /\ length (xFinalStock_ (finals st)) = K.

(* ===================================================================== *)
(** ** Classes of errors *)
(* ===================================================================== *)

(** The errors of the input checks at the head of [runImpl]. *)
Definition isBadInput (e : error) : bool :=
  match e with
  | MaxLearningRateSmallerThanMin | NoTimePartition | InitialStateNotFinite => true
  | _ => false
  end.

(** Every error that [r] can throw satisfies [P]. *)
Definition throwsOnly {A} (P : error -> Prop) (r : result A) : Prop :=
  forall e, r = Throw e -> P e.

(** An error that is not one of the input checks. *)
Definition internal (e : error) : Prop := isBadInput e = false.

(** [throwsOnly] for member functions. *)
Definition threwOnly (P : error -> Prop) (o : outcome) : Prop :=
  forall e st', o = Threw e st' -> P e.

(* ===================================================================== *)
(** ** The invariant of the line search *)
(* ===================================================================== *)

(** The exponent a thread has claimed and not yet committed or dropped. *)
Definition inflight (t : task) : option nat :=
  match pc t with
  | AtSkipCheck j _ | AtWorker j _ | AtCommit j _ => Some j
  | _ => None
  end.

(** The members no thread writes during the parallel section. *)
Definition sameSearch (st0 st : DDP) : Prop :=
  ddpSettings_ st = ddpSettings_ st0
  /\ problem st = problem st0
  /\ iteration_ st = iteration_ st0
  /\ maxLearningRate_ st = maxLearningRate_ st0
  /\ baselineTotalCost_ st = baselineTotalCost_ st0
  /\ initLScontrollersStock_ st = initLScontrollersStock_ st0.

(** The merit [lineSearchWorker] computes for a learning rate when its
    integrators are not interrupted. *)
Definition candidateMerit (col : Collaborators) (st0 : DDP) (learningRate : Q) : scalar :=
  totalCost (loc_performance
    (lineSearchWorker col (ddpSettings_ st0) (problem st0) (iteration_ st0) false
       learningRate
       (mkLocals (indeterminate col 0) (initLScontrollersStock_ st0)
                 (emptyTrajectories 0)))).

(** The descent condition "M < M0 * (1 - 1e-3 * alpha)". *)
Definition descends (st0 : DDP) (merit : scalar) (learningRate : Q) : bool :=
  sltb merit (smul (baselineTotalCost_ st0) (Finite (1 - (1 # 1000) * learningRate))).

(** The shared members the threads write. *)
Definition view (st : DDP) :=
  (alphaExpNext_ st, learningRateStar_ st, alphaProcessed_ st, killIntegration st,
   performance st, nominalControllersStock_ st, nominal st).

(** A candidate exponent needs no further attention: its learning rate is
    below the minimum, or not above the committed one, or its merit does
    not descend. *)
Definition resolved (col : Collaborators) (st0 st : DDP) (j : nat) : Prop :=
  almost_ge (candidate st0 j) (DDP_Settings.minLearningRate_ (ddpSettings_ st0)) = false
  \/ candidate st0 j <= learningRateStar_ st
  \/ descends st0 (candidateMerit col st0 (candidate st0 j)) (candidate st0 j) = false.

(** What is known of a thread at each point of its loop. *)
Definition taskInv (col : Collaborators) (st0 st : DDP) (t : task) : Prop :=
  match pc t with
  | AtSkipCheck j lr =>
      (j < alphaExpNext_ st)%nat /\ lr = candidate st0 j
  | AtWorker j lr =>
      (j < alphaExpNext_ st)%nat /\ lr = candidate st0 j
      /\ controllersStock (locals t) = initLScontrollersStock_ st0
  | AtCommit j lr =>
      (j < alphaExpNext_ st)%nat /\ lr = candidate st0 j
      /\ (totalCost (loc_performance (locals t)) = candidateMerit col st0 (candidate st0 j)
          \/ candidate st0 j <= learningRateStar_ st)
  | _ => True
  end.

(** The invariant of the parallel section started from the members [st0]. *)
Record searchInv (col : Collaborators) (st0 st : DDP) (ts : list task) : Prop := {
  inv_frame : sameSearch st0 st;
  inv_star_nonneg : 0 <= learningRateStar_ st;
  inv_star :
    (learningRateStar_ st = 0
     /\ performance st = performance st0
     /\ nominalControllersStock_ st = nominalControllersStock_ st0
     /\ nominal st = nominal st0)
    \/ (exists j, (j < alphaExpNext_ st)%nat
                  /\ learningRateStar_ st = candidate st0 j
                  /\ 0 < candidate st0 j
                  /\ descends st0 (nominalTotalCost_ st) (candidate st0 j) = true);
  inv_tasks : forall w t, ts !! w = Some t -> taskInv col st0 st t;
  inv_unique : forall w1 w2 t1 t2 j,
      ts !! w1 = Some t1 -> ts !! w2 = Some t2 ->
      inflight t1 = Some j -> inflight t2 = Some j -> w1 = w2;
  inv_processed : forall j,
      alphaProcessed_ st !! j = Some true ->
      (j < alphaExpNext_ st)%nat
      /\ forall w t, ts !! w = Some t -> inflight t <> Some j;
  inv_resolved : forall j,
      (j < alphaExpNext_ st)%nat ->
      (exists w t, ts !! w = Some t /\ inflight t = Some j) \/ resolved col st0 st j;
  inv_kill :
    killIntegration st = true \/ (exists w t, ts !! w = Some t /\ pc t = AtKill) ->
    exists j0, (j0 < alphaExpNext_ st)%nat
               /\ candidate st0 j0 <= learningRateStar_ st
               /\ forall w t j, ts !! w = Some t -> inflight t = Some j -> (j0 < j)%nat;
  inv_finished : forall w t,
      ts !! w = Some t -> pc t = Finished ->
      exists j, (j < alphaExpNext_ st)%nat
                /\ (almost_ge (candidate st0 j)
                              (DDP_Settings.minLearningRate_ (ddpSettings_ st0)) = false
                    \/ candidate st0 j <= learningRateStar_ st)
}.

Arguments inv_frame {col st0 st ts} _.
Arguments inv_star_nonneg {col st0 st ts} _.
Arguments inv_star {col st0 st ts} _.
Arguments inv_tasks {col st0 st ts} _ _ _ _.
Arguments inv_unique {col st0 st ts} _ _ _ _ _ _ _ _ _ _.
Arguments inv_processed {col st0 st ts} _ _ _.
Arguments inv_resolved {col st0 st ts} _ _ _.
Arguments inv_kill {col st0 st ts} _ _.
Arguments inv_finished {col st0 st ts} _ _ _ _ _.

(** The shared members at the start of the parallel section. *)
Definition searchStart (st0 : DDP) : Prop :=
  learningRateStar_ st0 = 0
  /\ alphaExpNext_ st0 = O
  /\ killIntegration st0 = false
  /\ forall j, alphaProcessed_ st0 !! j <> Some true.

(** How many actions a thread at this point needs at most before it claims
    its next exponent or leaves the loop. *)
Definition pcWeight (p : task_pc) : nat :=
  match p with
  | AtSkipCheck _ _ => 4
  | AtWorker _ _ => 3
  | AtCommit _ _ => 2
  | AtKill => 1
  | AtClaim => 1
  | Finished => 0
  end.

(** The weights of all threads together. *)
Definition tasksWeight (ts : list task) : nat :=
  fold_right (fun t n => (pcWeight (pc t) + n)%nat) O ts.

(** A bound on the number of actions still to come when every exponent
    from [J] on is below the minimum learning rate. *)
Definition searchMeasure (J : nat) (ls : LineSearch) : nat :=
  (5 * (J - alphaExpNext_ (fst ls)) + tasksWeight (snd ls))%nat.

(** Every controller stock in play has [n] controllers. *)
Definition stocksOfLength (n : nat) (st : DDP) (ts : list task) : Prop :=
  length (nominalControllersStock_ st) = n
  /\ length (initLScontrollersStock_ st) = n
  /\ forall w t, ts !! w = Some t -> length (controllersStock (locals t)) = n.

(** Where the controllers in play come from: the nominal stock is the one
    of the start or the search stock incremented by the committed learning
    rate; a thread before its worker holds the search stock, a thread
    before its commit the search stock incremented by its learning rate. *)
Definition controllersInv (st0 st : DDP) (ts : list task) : Prop :=
  sameSearch st0 st
  /\ ((learningRateStar_ st = 0
       /\ nominalControllersStock_ st = nominalControllersStock_ st0)
      \/ nominalControllersStock_ st
         = incrementControllers (numPartitions_ (problem st0)) (learningRateStar_ st)
                                (initLScontrollersStock_ st0))
  /\ forall w t, ts !! w = Some t ->
       match pc t with
       | AtWorker _ _ => controllersStock (locals t) = initLScontrollersStock_ st0
       | AtCommit _ learningRate =>
           controllersStock (locals t)
           = incrementControllers (numPartitions_ (problem st0)) learningRate
                                  (initLScontrollersStock_ st0)
       | _ => True
       end.

(** Equality of scalars as [==] of [double] (false on NaN). *)
Definition seqb (a b : scalar) : bool :=
  match a, b with
  | Finite x, Finite y => Qeq_bool x y
  | PInf, PInf | NInf, NInf => true
  | _, _ => false
  end.

(** The convergence test as the specification words it: the learning rate
    counts as zero "while the controller entering the iteration was
    non-empty". *)
Definition claimedConvergence (settings : DDP_Settings.t)
    (entering : list linear_controller) (merit previousMerit : scalar) (learningRateStar : Q)
    (ise1 previousIse1 : scalar) : bool :=
  (sleb (sabs (ssub merit previousMerit)) (Finite (DDP_Settings.minRelCost_ settings))
   || (Qeq_bool learningRateStar 0 && forallb (fun c => negb (ctrl_empty c)) entering))
  && (sleb ise1 (Finite (DDP_Settings.minAbsConstraint1ISE_ settings))
      || sleb (sabs (ssub ise1 previousIse1))
              (Finite (DDP_Settings.minRelConstraint1ISE_ settings))).

(* ===================================================================== *)
(** ** A one-dimensional test bench *)
(* ===================================================================== *)

(** A segment from [t0] to [tf] with constant state and input; when [tf]
    is an event time the segment ends with the post-event sample. *)
Definition benchSegment (t0 : Q) (x : state_vector) (tf : Q) (u : input_vector)
    (events : list Q) : run_output :=
  if existsb (Qeq_bool tf) events
  then mkRun (mkPartition [t0; tf; tf] [2%nat] [x; x; x] [u; u; u] [[]; []; []]) x
  else mkRun (mkPartition [t0; tf] [] [x; x] [u; u] [[]; []]) x.

(** The first component of the first input of partition [i]. *)
Definition firstInput (T : Trajectories) (i : nat) : Q :=
  hd 0 (hd [] (nth i (inputTrajectoriesStock T) [])).

Definition benchController : linear_controller :=
  mkController [0; 1] [[[0]]; [[0]]] [[0]; [0]] [[1]; [1]].

Definition benchFinals : RiccatiFinal := mkRiccatiFinal [[[0]]] [[0]] [[0]] [0] [[0]].

(** The scalars thread [taskId] of the bench finds in its uninitialised
    locals. *)
Definition benchIndeterminate (taskId : nat) : Performance :=
  let garbage := Finite (inject_Z (Z.of_nat taskId) + 77) in
  mkPerformance garbage garbage garbage garbage garbage garbage.

(** Collaborators of the bench: the controlled rollout applies the first
    bias of the controller and throws where [diverges] says so; the cost is
    [cost] of the first input; the ISEs are constant; the backward pass
    always returns [benchController]. *)
Definition bench (eps : Q) (diverges : Q -> bool) (cost : Q -> scalar)
    (ise : ConstraintsISE) : Collaborators :=
  mkCollaborators 1 eps
    (fun t0 x tf c events =>
       let u := hd [] (biasArray_ c) in
       if diverges (hd 0 u) then Throw CollaboratorFailed
       else Ok (benchSegment t0 x tf u events))
    (fun t0 x tf events => Ok (benchSegment t0 x tf [0] events))
    (fun _ _ => Ok ise)
    (fun pb T => Ok (cost (firstInput T (finalActivePartition_ pb))))
    (fun _ _ _ => 3%nat)
    (fun _ _ => Ok 0%nat)
    (fun _ nominal _ => Ok nominal)
    (fun _ _ _ _ => Ok (mkBackwardPass [benchController] [[[]; []]] benchFinals))
    (fun _ t0 x _ c _ => mkPartition [t0] [] [x] [hd [] (biasArray_ c)] [[]])
    (fun taskId => benchIndeterminate taskId)
    (fun _ _ p => p).

(** A segment like [benchSegment] whose post-event sample is stamped
    [gap] later than the event. *)
Definition benchSegmentGap (gap t0 : Q) (x : state_vector) (tf : Q) (u : input_vector)
    (events : list Q) : run_output :=
  if existsb (Qeq_bool tf) events
  then mkRun (mkPartition [t0; tf; tf + gap] [2%nat] [x; x; x] [u; u; u] [[]; []; []]) x
  else mkRun (mkPartition [t0; tf] [] [x; x] [u; u] [[]; []]) x.

Definition benchGap : Q := 1 # 1000.

(** The bench with integrators that add [gap] after an event. *)
Definition benchWithGap (gap : Q) : Collaborators :=
  let b := bench (1 # 1000000000) (fun _ => false) (fun _ => Finite 10)
                 (mkISE (Finite 0) (Finite 0) (Finite 0) (Finite 0) (Finite 0)) in
  mkCollaborators (STATE_DIM b) (limitEpsilon b)
    (fun t0 x tf c events =>
       Ok (benchSegmentGap gap t0 x tf (hd [] (biasArray_ c)) events))
    (fun t0 x tf events => Ok (benchSegmentGap gap t0 x tf [0] events))
    (calculateRolloutConstraintsISE b) (calculateRolloutCost b) (maxNumOfLineSearches b)
    (findBoundedActiveIntervalInTimeArray b) (correctedCache b) (backwardPass b)
    (dynamicsForwardRolloutResidue b) (indeterminate b)
    (calculateRolloutConstraintsISEResidue b).

Definition benchSettings (maxLR minLR : Q) : DDP_Settings.t :=
  DDP_Settings.mk 2 3 (1 # 1000) (1 # 1000) (1 # 1000) maxLR minLR (1 # 2) 2 3 true false.

(** One partition [0, 1] without events, and one partition [0, 2] with an
    event at [1]. *)
Definition benchProblem : Problem := mkProblem 1 [0; 1] 0 0 0 1 [Finite 1] [].
Definition benchProblemEvent : Problem := mkProblem 1 [0; 2] 0 0 0 2 [Finite 1] [1].

Definition benchPerformance : Performance :=
  mkPerformance (Finite 0) (Finite 0) (Finite 0) (Finite 0) (Finite 0) (Finite 0).

(** A freshly set up optimizer with the given settings and controllers. *)
Definition benchState (settings : DDP_Settings.t) (cs : list linear_controller) : DDP :=
  mkDDP settings benchProblem 0 0 1 1 (Finite 0) [] 0 [] false benchPerformance cs
        (emptyTrajectories 1) (emptyTrajectories 1) benchFinals [] [] [] [].

Definition iseNone : ConstraintsISE :=
  mkISE (Finite 0) (Finite 0) (Finite 0) (Finite 0) (Finite 0).
Definition iseStateEq : ConstraintsISE :=
  mkISE (Finite 0) (Finite 1) (Finite 0) (Finite 0) (Finite 0).
Definition isePenalty : ConstraintsISE :=
  mkISE (Finite 0) (Finite 1) (Finite 0) (Finite 0) (Finite 1).

Definition costFlat (u : Q) : scalar := Finite 10.
Definition costImproving (u : Q) : scalar := if Qeq_bool u 1 then Finite 9 else Finite 10.
Definition costInfiniteBaseline (u : Q) : scalar := if Qeq_bool u 0 then PInf else Finite 10.
Definition neverDiverges (u : Q) : bool := false.
Definition divergesAtOne (u : Q) : bool := Qeq_bool u 1.

Definition benchEps : Q := 1 # 1000000000.

(** A three-partition optimizer for the rewind. *)
Definition rewindState : DDP :=
  mkDDP (benchSettings 1 (1 # 4)) (mkProblem 3 [0; 1; 2; 3] 0 2 0 3 [Finite 1] [])
        0 0 1 1 (Finite 0) [] 0 [] false benchPerformance
        [mkController [0] [[[1]]] [[1]] [[1]]; mkController [1] [[[2]]] [[2]] [[2]];
         mkController [2] [[[3]]] [[3]] [[3]]]
        (emptyTrajectories 3) (emptyTrajectories 3)
        (mkRiccatiFinal [[[1]]; [[2]]; [[3]]] [[1]; [2]; [3]] [[4]; [5]; [6]] [7; 8; 9]
                        [[10]; [11]; [12]])
        [] [] [] [].

(* ===================================================================== *)
(** ** Distribution of the partitions over the Riccati workers *)
(* ===================================================================== *)

(** A value converted to [size_t] (64 bits) and to [int] (32 bits, two's
    complement). *)
Definition to_size_t (z : Z) : Z := (z mod 2 ^ 64)%Z.
Definition to_int (z : Z) : Z := ((z + 2 ^ 31) mod 2 ^ 32 - 2 ^ 31)%Z.

(** The members [startingIndicesRiccatiWorker_] and
    [endingIndicesRiccatiWorker_], arrays of [int]. *)
Record WorkDistribution : Type := mkWork {
  startingIndicesRiccatiWorker_ : list Z;
  endingIndicesRiccatiWorker_ : list Z
}.

(** The loop of [distributeWork] over the workers: [n] workers are still
    to be served, the next one ends at [endingId]. *)
Fixpoint distributeLoop (subsystemsPerThread : Z) (n : nat)
    (remainingSubsystems endingId : Z) : list Z * list Z :=
  match n with
  | O => ([], [])
  | S n' =>
      let startingId :=
        if (0 <? remainingSubsystems)%Z then to_int (endingId - subsystemsPerThread)
        else to_int (to_int (endingId - subsystemsPerThread) + 1) in
      let remainingSubsystems' :=
        if (0 <? remainingSubsystems)%Z then to_int (remainingSubsystems - 1)
        else remainingSubsystems in
      let '(starting, ending) :=
        distributeLoop subsystemsPerThread n' remainingSubsystems' (to_int (startingId - 1)) in
      (startingId :: starting, endingId :: ending)
  end.

(** [v.front() = x] and [v.back() = x] on a vector that is not empty. *)
Definition setFront {A} (x : A) (v : list A) : list A := <[O := x]> v.
Definition setBack {A} (x : A) (v : list A) : list A := <[(length v - 1)%nat := x]> v.

(** [distributeWork]. [const int N = nThreads_] is converted back to
    [size_t] where it meets a [size_t]: in the division, the remainder and
    the loop bound. No result is given for [N <= 0]: [N = 0] divides by
    zero, and a negative [N] asks for arrays of more than [2^63] entries. *)
Definition distributeWork (nThreads : nat) (pb : Problem) : option WorkDistribution :=
  let N := to_int (Z.of_nat nThreads) in
  if (N <=? 0)%Z then None
  else
    let active :=
      to_size_t (Z.of_nat (finalActivePartition_ pb) - Z.of_nat (initActivePartition_ pb) + 1) in
    let subsystemsPerThread := to_int (active / to_size_t N) in
    let remainingSubsystems := to_int (active mod to_size_t N) in
    let '(starting, ending) :=
      distributeLoop subsystemsPerThread (Z.to_nat (to_size_t N)) remainingSubsystems
                     (to_int (Z.of_nat (finalActivePartition_ pb))) in
    Some (mkWork (setBack 0%Z starting)
                 (setFront (to_int (to_size_t (Z.of_nat (numPartitions_ pb) - 1))) ending)).

(** How many active partitions lie between [starting] and [ending]. *)
Definition activeShare (pb : Problem) (starting ending : Z) : Z :=
  Z.max 0 (Z.min ending (Z.of_nat (finalActivePartition_ pb))
           - Z.max starting (Z.of_nat (initActivePartition_ pb)) + 1).

(* ===================================================================== *)
(** ** The primal solution *)
(* ===================================================================== *)

(** [std::upper_bound(array.begin(), array.end(), value) - array.begin()],
    after the C++ standard: on an array partitioned with respect to
    [value < element], as a sorted one is, the position of the first
    element greater than [value]. *)
Fixpoint upperBound (array : list Q) (value : Q) : nat :=
  match array with
  | [] => O
  | element :: rest => if Qltb value element then O else S (upperBound rest value)
  end.

(** The controller of a primal solution. *)
Inductive solution_controller : Type :=
| FeedbackController (c : linear_controller)
| FeedforwardController (times : list Q) (inputs : list input_vector).

(** [primal_solution_t]; of the mode schedule the event times are kept. *)
Record primal_solution : Type := mkPrimalSolution {
  timeTrajectory_ : list Q;
  stateTrajectory_ : list state_vector;
  inputTrajectory_ : list input_vector;
  controllerPtr_ : solution_controller;
  modeSchedule_ : list Q
}.

(** [const int length = upperBound(array, finalTime)]: [None] when the
    conversion to [int] is negative, [begin() + length] being undefined
    then. *)
Definition copyLength (array : list Q) (finalTime : Q) : option nat :=
  let length := to_int (Z.of_nat (upperBound array finalTime)) in
  if (length <? 0)%Z then None else Some (Z.to_nat length).

(** The loop "fill trajectories" of [getPrimalSolution]: [n] partitions
    from [i] on. [None] stands for undefined behaviour: [front()] of an
    empty time trajectory. [begin() + length] beyond the end of a state or
    input trajectory is undefined as well; [take] stops at the end. *)
Fixpoint fillTrajectories (T : Trajectories) (finalTime : Q) (i n : nat)
    (acc : list Q * list state_vector * list input_vector)
    : option (list Q * list state_vector * list input_vector) :=
  match n with
  | O => Some acc
  | S n' =>
      let time := nth i (timeTrajectoriesStock T) [] in
      match time with
      | [] => None
      | front :: _ =>
          if Qltb finalTime front then Some acc
          else
            length ← copyLength time finalTime;
            let '(times, states, inputs) := acc in
            fillTrajectories T finalTime (S i) n'
              (times ++ take length time,
               states ++ take length (nth i (stateTrajectoriesStock T) []),
               inputs ++ take length (nth i (inputTrajectoriesStock T) []))
      end
  end.

Section PrimalSolution.

(** [LinearController::concatenate(next, index, length)], which is not
    part of this file: the controller it is called on, then its
    arguments. *)
Variable concatenate : linear_controller -> linear_controller -> nat -> nat
                       -> result linear_controller.

(** The loop "concatenate controller stock into a single controller". *)
Fixpoint concatenateControllers (cs : list linear_controller) (finalTime : Q) (i n : nat)
    (acc : linear_controller) : option (result linear_controller) :=
  match n with
  | O => Some (Ok acc)
  | S n' =>
      let c := nth i cs emptyController in
      match timeStamp_ c with
      | [] => None
      | front :: _ =>
          if Qltb finalTime front then Some (Ok acc)
          else
            length ← copyLength (timeStamp_ c) finalTime;
            match external (concatenate acc c 0 length) with
            | Throw e => Some (Throw e)
            | Ok acc' => concatenateControllers cs finalTime (S i) n' acc'
            end
      end
  end.

(** [getPrimalSolution]; [useFeedbackPolicy] is the setting
    [ddpSettings_.useFeedbackPolicy_]. *)
Definition getPrimalSolution (useFeedbackPolicy : bool) (st : DDP) (finalTime : Q)
    : option (result primal_solution) :=
  let pb := problem st in
  let active := (finalActivePartition_ pb + 1 - initActivePartition_ pb)%nat in
  '(times, states, inputs) ←
     fillTrajectories (nominal st) finalTime (initActivePartition_ pb) active ([], [], []);
  if useFeedbackPolicy
  then
    r ← concatenateControllers (nominalControllersStock_ st) finalTime
          (initActivePartition_ pb) active emptyController;
    Some (c ← r;
          Ok (mkPrimalSolution times states inputs (FeedbackController c) (eventTimes pb)))
  else
    Some (Ok (mkPrimalSolution times states inputs (FeedforwardController times inputs)
                               (eventTimes pb))).

End PrimalSolution.

(** A non-decreasing array of times. *)
Fixpoint sortedTimes (times : list Q) : Prop :=
  match times with
  | [] => True
  | t :: rest => Forall (fun u => t <= u) rest /\ sortedTimes rest
  end.

(** The trajectories of the partitions [i, ..., i + n - 1], end to end. *)
Definition joined {A} (stock : list (list A)) (i n : nat) : list A :=
  concat (take n (drop i stock)).

(** Time, state and input trajectories of partition [i] have one length,
    below the range of [int]. *)
Definition partitionAligned (T : Trajectories) (i : nat) : Prop :=
  length (nth i (stateTrajectoriesStock T) []) = length (nth i (timeTrajectoriesStock T) [])
  /\ length (nth i (inputTrajectoriesStock T) []) = length (nth i (timeTrajectoriesStock T) [])
  /\ (Z.of_nat (length (nth i (timeTrajectoriesStock T) [])) < 2 ^ 31)%Z.

(** The five stocks have [n] partitions each. *)
Definition trajectoriesSized (n : nat) (T : Trajectories) : Prop :=
  length (timeTrajectoriesStock T) = n
  /\ length (postEventIndicesStock T) = n
  /\ length (stateTrajectoriesStock T) = n
  /\ length (inputTrajectoriesStock T) = n
  /\ length (modelDataTrajectoriesStock T) = n.

(** Partition [k] of the five stocks is empty. *)
Definition partitionEmpty (T : Trajectories) (k : nat) : Prop :=
  nth k (timeTrajectoriesStock T) [] = []
  /\ nth k (postEventIndicesStock T) [] = []
  /\ nth k (stateTrajectoriesStock T) [] = []
  /\ nth k (inputTrajectoriesStock T) [] = []
  /\ nth k (modelDataTrajectoriesStock T) [] = [].

(** The two collaborator records have the same operating-point rollout. *)
Definition sameOperatingPoints (col col' : Collaborators) : Prop :=
  forall t0 x tf events,
    operatingTrajectoriesRollout col t0 x tf events
    = operatingTrajectoriesRollout col' t0 x tf events.

(** The start of every active partition after the first is not before the
    initial time. *)
Definition startsInFirstPartition (pb : Problem) : Prop :=
  forall i, (initActivePartition_ pb < i <= finalActivePartition_ pb)%nat ->
            initTime_ pb <= nth i (partitioningTimes_ pb) 0.

(* ===================================================================== *)
(** ** reset *)
(* ===================================================================== *)

(** The stocks that the loop of [reset] writes: the nominal controllers,
    the nominal and the cached trajectories, the terminal values of the
    Riccati equations. *)
Definition ResetStocks : Type :=
  (list linear_controller * Trajectories * Trajectories * RiccatiFinal)%type.

(** The body of the loop of [reset] for partition [i], for states of
    dimension [n]. The nominal model data is not among the cleared
    trajectories; the cached one is. *)
Definition resetPartition (n i : nat) (acc : ResetStocks) : ResetStocks :=
  let '(cs, nominal, cached, fin) := acc in
  (modifyAt ctrl_clear i cs,
   mkTrajectories (<[i := []]> (timeTrajectoriesStock nominal))
                  (<[i := []]> (postEventIndicesStock nominal))
                  (<[i := []]> (stateTrajectoriesStock nominal))
                  (<[i := []]> (inputTrajectoriesStock nominal))
                  (modelDataTrajectoriesStock nominal),
   setPartition i emptyPartition cached,
   mkRiccatiFinal (<[i := zeroMatrix n]> (SmFinalStock_ fin))
                  (<[i := zeroVector n]> (SvFinalStock_ fin))
                  (<[i := zeroVector n]> (SveFinalStock_ fin))
                  (<[i := 0]> (sFinalStock_ fin))
                  (<[i := zeroVector n]> (xFinalStock_ fin))).

(** [for (size_t i = 0; i < numPartitions_; i++)]: [k] partitions from [i] on. *)
Fixpoint resetLoop (n i k : nat) (acc : ResetStocks) : ResetStocks :=
  match k with
  | O => acc
  | S k' => resetLoop n (S i) k' (resetPartition n i acc)
  end.

(** [reset], for states of dimension [n]. The flag
    [useParallelRiccatiSolverFromInitItr_] and the timers, which it also
    resets, are not members of the model. *)
Definition reset (n : nat) (st : DDP) : DDP :=
  let st :=
    set_maxLearningRate_ 1
      (set_learningRateStar_ 1 (set_rewindCounter_ O (set_iteration_ O st))) in
  let '(cs, nominal, cached, fin) :=
    resetLoop n O (numPartitions_ (problem st))
              (nominalControllersStock_ st, nominal st, cached st, finals st) in
  set_finals fin (set_cached cached (set_nominal nominal (set_nominalControllersStock_ cs st))).

(** The stocks that [reset] indexes have [numPartitions_] entries. *)
Definition resetSized (st : DDP) : Prop :=
  stocksSized st
  /\ trajectoriesSized (numPartitions_ (problem st)) (nominal st)
  /\ trajectoriesSized (numPartitions_ (problem st)) (cached st).

(** The members after a [reset] of sized stocks. *)
Definition resetState (n : nat) (st : DDP) : DDP :=
  let K := numPartitions_ (problem st) in
  mkDDP (ddpSettings_ st) (problem st) O O 1 1 (baselineTotalCost_ st)
        (initLScontrollersStock_ st) (alphaExpNext_ st) (alphaProcessed_ st)
        (killIntegration st) (performance st)
        (replicate K emptyController)
        (mkTrajectories (replicate K []) (replicate K []) (replicate K []) (replicate K [])
                        (modelDataTrajectoriesStock (nominal st)))
        (emptyTrajectories K)
        (mkRiccatiFinal (replicate K (zeroMatrix n)) (replicate K (zeroVector n))
                        (replicate K (zeroVector n)) (replicate K 0)
                        (replicate K (zeroVector n)))
        (iterationCost_ st) (iterationISE1_ st) (iterationISE2_ st) (rolloutLog st).

(** Writing [x] to the entries [i, ..., i + k - 1]. *)
Fixpoint fillRange {A} (x : A) (i k : nat) (v : list A) : list A :=
  match k with
  | O => v
  | S k' => fillRange x (S i) k' (<[i := x]> v)
  end.

(** The members that a line search leaves alone, besides those of
    [sameSearch]: the rewind counter, the iteration logs, the cached
    trajectories and the terminal values of the Riccati equations. *)
Definition besideSearch (st st' : DDP) : Prop :=
  rewindCounter_ st' = rewindCounter_ st
  /\ iterationCost_ st' = iterationCost_ st
  /\ iterationISE1_ st' = iterationISE1_ st
  /\ iterationISE2_ st' = iterationISE2_ st
  /\ cached st' = cached st
  /\ finals st' = finals st.

(** The horizon and the partitioning that [runImpl] was called with. *)
Definition solvedProblem (initTime : Q) (initState : state_vector) (finalTime : Q)
    (partitioningTimes : list Q) (pb : Problem) : Prop :=
  numPartitions_ pb = (length partitioningTimes - 1)%nat
  /\ partitioningTimes_ pb = partitioningTimes
  /\ initTime_ pb = initTime
  /\ finalTime_ pb = finalTime
  /\ initState_ pb = initState.

(* ===================================================================== *)
(** ** What a line search commits *)
(* ===================================================================== *)

(** The locals that [lineSearchWorker] leaves for a learning rate when
    nothing in its [try] block throws: the candidate controllers, their
    rollout and its performance indices. *)
Definition cleanEvaluation (col : Collaborators) (st0 : DDP) (learningRate : Q)
    : option TaskLocals :=
  let pb := problem st0 in
  let cs := incrementControllers (numPartitions_ pb) learningRate
                                 (initLScontrollersStock_ st0) in
  match rolloutTrajectory col pb false cs with
  | Throw _ => None
  | Ok (T, _) =>
      match calculateRolloutConstraintsISE col pb T with
      | Throw _ => None
      | Ok ise =>
          match calculateRolloutCost col pb T with
          | Throw _ => None
          | Ok cost =>
              Some (mkLocals
                      (performanceOf
                         (calculateRolloutMerit (ddpSettings_ st0) (iteration_ st0) cost
                            (ise_stateInputEq ise) (ise_stateEq ise) (ise_stateEqFinal ise)
                            (ise_inequalityPenalty ise)) ise)
                      cs T)
          end
      end
  end.

(** What a thread holds after [lineSearchWorker]: the clean evaluation of
    its learning rate, or the merit of a failed one. *)
Definition evaluated (col : Collaborators) (st0 : DDP) (learningRate : Q)
    (loc : TaskLocals) : Prop :=
  cleanEvaluation col st0 learningRate = Some loc
  \/ totalCost (loc_performance loc) = Finite scalar_max.

(** The nominal members are those of the clean evaluation of the
    committed learning rate. *)
Definition committed (col : Collaborators) (st0 st : DDP) : Prop :=
  learningRateStar_ st = 0
  \/ exists j,
       learningRateStar_ st = candidate st0 j
       /\ almost_ge (candidate st0 j) (DDP_Settings.minLearningRate_ (ddpSettings_ st0)) = true
       /\ cleanEvaluation col st0 (candidate st0 j)
          = Some (mkLocals (performance st) (nominalControllersStock_ st) (nominal st)).

(** What is known of the locals of a thread at each point of its loop. *)
Definition localsInv (col : Collaborators) (st0 : DDP) (t : task) : Prop :=
  match pc t with
  | AtSkipCheck _ lr | AtWorker _ lr =>
      almost_ge lr (DDP_Settings.minLearningRate_ (ddpSettings_ st0)) = true
  | AtCommit _ lr =>
      almost_ge lr (DDP_Settings.minLearningRate_ (ddpSettings_ st0)) = true
      /\ evaluated col st0 lr (locals t)
  | _ => True
  end.

(** The second invariant of the parallel section. *)
Definition commitInv (col : Collaborators) (st0 st : DDP) (ts : list task) : Prop :=
  committed col st0 st
  /\ forall w t, ts !! w = Some t -> localsInv col st0 t.

(* ===================================================================== *)
(** ** Integrals along a rollout *)
(* ===================================================================== *)

(** [v.squaredNorm()]. *)
Definition squaredNorm (v : list Q) : Q := fold_right (fun x acc => x * x + acc) 0 v.

(** "if (nc > 0) v.head(nc).squaredNorm() else 0.0": the squared norm of
    the active constraints; the entries of [v] beyond them hold no
    meaningful value. [head(nc)] beyond the size of [v] fails an assertion
    in the source; [take] stops at the end. *)
Definition activeSquaredNorm (nc : nat) (v : list Q) : Q :=
  match nc with
  | O => 0
  | S _ => squaredNorm (take nc v)
  end.

(** The inner loop of [calculateConstraintISE] on one partition, [n] steps
    from [k] on; [nextSquaredNormError] is carried from step to step. *)
Fixpoint constraintISELoop (time : list Q) (nc : list nat) (Ev : list (list Q))
    (k n : nat) (nextSquaredNormError constraintISE : Q) : Q :=
  match n with
  | O => constraintISE
  | S n' =>
      let currentSquaredNormError :=
        if Nat.eqb k 0 then activeSquaredNorm (nth 0 nc O) (nth 0 Ev [])
        else nextSquaredNormError in
      let nextSquaredNormError' :=
        activeSquaredNorm (nth (k + 1) nc O) (nth (k + 1) Ev []) in
      constraintISELoop time nc Ev (S k) n' nextSquaredNormError'
        (constraintISE
         + (1 # 2) * (currentSquaredNormError + nextSquaredNormError')
           * (nth (k + 1) time 0 - nth k time 0))
  end.

(** The loop of [calculateConstraintISE] over the partitions. *)
Fixpoint constraintISEPartitions (timeStock : list (list Q)) (ncStock : list (list nat))
    (EvStock : list (list (list Q))) (i n : nat) (constraintISE : Q) : Q :=
  match n with
  | O => constraintISE
  | S n' =>
      let time := nth i timeStock [] in
      constraintISEPartitions timeStock ncStock EvStock (S i) n'
        (constraintISELoop time (nth i ncStock []) (nth i EvStock []) O (length time - 1)
                           0 constraintISE)
  end.

(** [calculateConstraintISE]: the trapezoidal integral of the squared norm
    of the active constraints over every partition. *)
Definition calculateConstraintISE (numPartitions : nat) (timeStock : list (list Q))
    (ncStock : list (list nat)) (EvStock : list (list (list Q))) : Q :=
  constraintISEPartitions timeStock ncStock EvStock O numPartitions 0.

Section CostWorker.

(** The cost function of the worker, not part of this file: its
    intermediate and its terminal cost at a time, state and input. *)
Variables getIntermediateCost getTerminalCost : Q -> state_vector -> input_vector -> Q.

(** The loop of [calculateCostWorker], [n] samples from [k] on.
    [events] is what lies from [eventsPastTheEndItr] on. *)
Fixpoint costLoop (time : list Q) (state : list state_vector) (input : list input_vector)
    (k n : nat) (events : list nat) (currIntermediateCost totalCost : Q) : Q :=
  match n with
  | O => totalCost
  | S n' =>
      let prevIntermediateCost := currIntermediateCost in
      let currIntermediateCost' :=
        getIntermediateCost (nth k time 0) (nth k state []) (nth k input []) in
      let totalCost' :=
        if Nat.ltb 0 k
        then totalCost
             + (1 # 2) * (prevIntermediateCost + currIntermediateCost')
               * (nth k time 0 - nth (k - 1) time 0)
        else totalCost in
      match events with
      | event :: rest =>
          if Nat.eqb (k + 1) event
          then costLoop time state input (S k) n' rest currIntermediateCost'
                 (totalCost'
                  + getTerminalCost (nth k time 0) (nth k state []) (nth k input []))
          else costLoop time state input (S k) n' events currIntermediateCost' totalCost'
      | [] => costLoop time state input (S k) n' [] currIntermediateCost' totalCost'
      end
  end.

(** [calculateCostWorker] on one partition. *)
Definition calculateCostWorker (time : list Q) (eventsPastTheEndIndeces : list nat)
    (state : list state_vector) (input : list input_vector) : Q :=
  costLoop time state input O (length time) eventsPastTheEndIndeces 0 0.

(** The trapezoidal sum of the intermediate cost over the samples
    [k, ..., k + n - 1], each with its predecessor. *)
Fixpoint trapezoidFrom (time : list Q) (state : list state_vector)
    (input : list input_vector) (k n : nat) : Q :=
  match n with
  | O => 0
  | S n' =>
      (if Nat.ltb 0 k
       then (1 # 2)
            * (getIntermediateCost (nth (k - 1) time 0) (nth (k - 1) state [])
                                   (nth (k - 1) input [])
               + getIntermediateCost (nth k time 0) (nth k state []) (nth k input []))
            * (nth k time 0 - nth (k - 1) time 0)
       else 0)
      + trapezoidFrom time state input (S k) n'
  end.

(** The terminal costs at the samples just before the given post-event
    indices. *)
Definition eventCosts (time : list Q) (state : list state_vector)
    (input : list input_vector) (events : list nat) : Q :=
  fold_right (fun event acc =>
                getTerminalCost (nth (event - 1) time 0) (nth (event - 1) state [])
                                (nth (event - 1) input []) + acc)
             0 events.

End CostWorker.

(** Post-event indices in increasing order, each after [k] and at most [n]. *)
Fixpoint eventsWithin (k n : nat) (events : list nat) : Prop :=
  match events with
  | [] => True
  | event :: rest => (k < event <= n)%nat /\ eventsWithin event n rest
  end.

(* ===================================================================== *)
(** ** The throw sites of a solve *)
(* ===================================================================== *)

(** The errors of the choice of the controllers in [runImpl]. *)
Definition isControllerError (e : error) : bool :=
  match e with
  | ControllersPtrStockSize | NotLinearController
  | InternalControllerIncompatible => true
  | _ => false
  end.

(** The errors thrown from the first rollout of [runImpl] on. *)
Definition isSolveError (e : error) : bool :=
  match e with
  | ControllersStockSize | RolloutUnstable | ModelDataSizeMismatch
  | UseRiccatiSolverFalse | IntegrationKilled | CollaboratorFailed
  | StepBudgetExhausted => true
  | _ => false
  end.

Definition solveError (e : error) : Prop := isSolveError e = true.

(** The members of the problem that [runImpl] assigns last, just before
    its first rollout. *)
Definition sameHorizon (pb pb' : Problem) : Prop :=
  initTime_ pb' = initTime_ pb /\ finalTime_ pb' = finalTime_ pb
  /\ initState_ pb' = initState_ pb.

(* ===================================================================== *)
(** ** Further instances of the test bench *)
(* ===================================================================== *)

(** Five partitions of which the second to the fourth are active. *)
Definition workProblem : Problem := mkProblem 5 [0; 1; 2; 3; 4; 5] 1 3 1 4 [Finite 1] [].

(** A solved bench: three samples on the one partition. *)
Definition solutionState : DDP :=
  set_nominal
    (mkTrajectories [[0; 1 # 2; 1]] [[]] [[[Finite 1]; [Finite 2]; [Finite 3]]]
                    [[[1]; [2]; [3]]] [[[]; []; []]])
    (benchState (benchSettings 1 (1 # 4)) [benchController]).

(** A concatenation that keeps the controller it is given. *)
Definition benchConcatenate (acc next : linear_controller) (index length : nat)
    : result linear_controller := Ok next.

(** The settings of the bench without the Riccati solver. *)
Definition benchSettingsNoRiccati : DDP_Settings.t :=
  DDP_Settings.mk 2 3 (1 # 1000) (1 # 1000) (1 # 1000) 1 (1 # 4) (1 # 2) 2 3 false false.

(** Cost functions of the bench: the time as intermediate cost, the first
    input as terminal cost. *)
Definition benchIntermediateCost (t : Q) (x : state_vector) (u : input_vector) : Q := t.
Definition benchTerminalCost (t : Q) (x : state_vector) (u : input_vector) : Q := hd 0 u.

(** The three-partition optimizer after a rollout that gave each
    partition its own trajectory. *)
Definition rewindStateRolled : DDP :=
  set_nominal
    (mkTrajectories [[0; 1]; [1; 2]; [2; 3]] [[]; []; []]
                    [[[Finite 1]; [Finite 2]]; [[Finite 2]; [Finite 3]];
                     [[Finite 3]; [Finite 4]]]
                    [[[1]; [1]]; [[2]; [2]]; [[3]; [3]]]
                    [[[]; []]; [[]; []]; [[]; []]])
    rewindState.

(* ===================================================================== *)
(** * Properties *)
(* ===================================================================== *)

Lemma Qltb_lt (x y : Q) : Qltb x y = true <-> x < y.
Proof.
  unfold Qltb. rewrite negb_true_iff.
  destruct (Qle_bool y x) eqn:E.
  - apply Qle_bool_iff in E. split; [discriminate | intros H; exfalso; lra].
  - split; [intros _ | reflexivity].
    destruct (Qlt_le_dec x y) as [H | H]; [exact H |].
    apply Qle_bool_iff in H. congruence.
Qed.

Lemma Qltb_ge (x y : Q) : Qltb x y = false <-> y <= x.
Proof.
  unfold Qltb. rewrite negb_false_iff. apply Qle_bool_iff.
Qed.

(** *** The controller scan and the use-controller-until rule *)

Lemma drop_nth_cons {A} (d : A) (l : list A) (i : nat) :
  (i < length l)%nat -> drop i l = nth i l d :: drop (S i) l.
Proof.
  revert i. induction l as [| a l IH]; intros i Hi; simpl in *.
  - lia.
  - destruct i as [| i]; simpl.
    + reflexivity.
    + apply IH. lia.
Qed.

Lemma controllerScan_prefix (cs : list linear_controller) (n i : nat) (acc : Q * nat) :
  fst (controllerScan cs i n acc) =
  match List.last (map Some (nonEmptyPrefix (take n (drop i cs)))) None with
  | Some c => back 0 (timeStamp_ c)
  | None => fst acc
  end.
Proof.
  revert i acc. induction n as [| n IH]; intros i acc.
  - reflexivity.
  - cbn [controllerScan].
    destruct (le_lt_dec (length cs) i) as [Hge | Hlt].
    + rewrite nth_overflow by exact Hge.
      rewrite drop_ge by exact Hge. reflexivity.
    + rewrite (drop_nth_cons emptyController cs i Hlt).
      cbn [take nonEmptyPrefix].
      destruct (ctrl_empty (nth i cs emptyController)) eqn:E.
      * reflexivity.
      * rewrite IH. cbn [map].
        destruct (nonEmptyPrefix (take n (drop (S i) cs))) as [| c' rest] eqn:Hp.
        -- reflexivity.
        -- cbn [map]. change (List.last (Some (nth i cs emptyController) :: Some c' :: map Some rest) None)
             with (List.last (Some c' :: map Some rest) None).
           destruct (List.last (Some c' :: map Some rest) None) eqn:Hl; [reflexivity |].
           exfalso. clear - Hl.
           assert (H : forall (l : list linear_controller) c, List.last (Some c :: map Some l) None <> None).
           { induction l as [| a l IHl]; intros c; [discriminate |]. apply (IHl a). }
           exact (H rest c' Hl).
Qed.

Lemma controllerAvailableTill_spec (pb : Problem) (cs : list linear_controller) :
  controllerAvailableTill pb cs = spec_controllerAvailableTill pb cs.
Proof.
  unfold controllerAvailableTill, controllerAvailability, spec_controllerAvailableTill,
    scannedControllers.
  rewrite controllerScan_prefix. reflexivity.
Qed.

Lemma truncateAtEvent_find (events : list Q) (availableTill finalTime : Q) :
  truncateAtEvent events availableTill finalTime =
  match List.find (fun e => Qle_bool availableTill e) events with
  | Some e => std_min e finalTime
  | None => finalTime
  end.
Proof.
  induction events as [| e rest IH]; simpl.
  - reflexivity.
  - destruct (Qle_bool availableTill e); [reflexivity | exact IH].
Qed.

(** C2. The time until which [rolloutTrajectory] uses the controller is
    the one of the use-controller-until rule: [initTime] when the controller
    of partition [initActive] is empty; otherwise [finalTime], truncated to
    [min(e, finalTime)] for the first event time [e] that is not before
    [controllerAvailableTill], which is the last time stamp of the last
    non-empty controller of the scan [initActive ... finalActive] that stops
    at the first empty controller. *)
Theorem useControllerTill_rule (pb : Problem) (cs : list linear_controller) :
  useControllerTill pb cs = spec_useControllerTill pb cs.
Proof.
  unfold useControllerTill, spec_useControllerTill.
  destruct (ctrl_empty (nth (initActivePartition_ pb) cs emptyController)).
  - reflexivity.
  - rewrite truncateAtEvent_find, controllerAvailableTill_spec. reflexivity.
Qed.

(** *** Post-event samples *)

Lemma external_Ok {A} (r : result A) (a : A) : external r = Ok a -> r = Ok a.
Proof. destruct r; simpl; congruence. Qed.

Lemma nth_removelast {A} (d : A) (l : list A) (i : nat) :
  (i < length l - 1)%nat -> nth i (removelast l) d = nth i l d.
Proof.
  revert i. induction l as [| a l IH]; intros i Hi; simpl in *.
  - lia.
  - destruct l as [| b l].
    + simpl in Hi. lia.
    + destruct i as [| i]; [reflexivity |].
      cbn [nth]. apply IH. simpl in *. lia.
Qed.

Lemma length_removelast {A} (l : list A) : length (removelast l) = (length l - 1)%nat.
Proof.
  induction l as [| a l IH]; [reflexivity |].
  destruct l as [| b l]; [reflexivity |].
  cbn [removelast length] in *. rewrite IH. simpl. lia.
Qed.

Lemma last_nth {A} (d : A) (l : list A) : List.last l d = nth (length l - 1) l d.
Proof.
  induction l as [| a l IH]; [reflexivity |].
  destruct l as [| b l]; [reflexivity |].
  change (List.last (a :: b :: l) d) with (List.last (b :: l) d).
  rewrite IH. cbn [length].
  replace (S (S (length l)) - 1)%nat with (S (S (length l) - 1)) by lia.
  reflexivity.
Qed.

Lemma nth_insert {A} (d x : A) (l : list A) (i k : nat) :
  nth k (<[i := x]> l) d = if decide (i = k /\ (i < length l)%nat) then x else nth k l d.
Proof.
  rewrite !nth_lookup. destruct (decide (i = k /\ (i < length l)%nat)) as [[-> Hlt] | Hn].
  - rewrite list_lookup_insert_eq by exact Hlt. reflexivity.
  - destruct (decide (i = k)) as [-> | Hne].
    + rewrite list_insert_ge by lia. reflexivity.
    + rewrite list_lookup_insert_ne by exact Hne. reflexivity.
Qed.

Section EventPairs.

(** The relation between the time stamps of the two samples of an event;
    it does not tell equal time stamps apart. *)
Variable R : Q -> Q -> Prop.
Hypothesis R_compat : forall a b b', R a b -> b == b' -> R a b'.

Lemma eventsRelated_pending (from : Q) (times : list Q) (postEvent : list nat) :
  eventsRelated R times postEvent -> eventsPending R from times postEvent.
Proof.
  unfold eventsRelated, eventsPending. intros H.
  eapply Forall_impl; [exact H |].
  intros j [[H0 Hlt] Heq]. split; [exact H0 |]. left. split; assumption.
Qed.

Lemma trimPastEvent_pending (p p' : partition_rollout) (from from' : Q) :
  length (p_state p) = length (p_time p) ->
  eventsRelated R (p_time p) (p_postEvent p) ->
  trimPastEvent p from = (p', from') ->
  length (p_state p') = length (p_time p')
  /\ eventsPending R from' (p_time p') (p_postEvent p').
Proof.
  intros Hlen Hdup Htrim. unfold trimPastEvent in Htrim.
  destruct (p_postEvent p) as [| j0 js] eqn:Hpost.
  - inversion Htrim; subst. split; [exact Hlen |].
    rewrite Hpost. constructor.
  - destruct (Nat.eqb (S (back 0%nat (j0 :: js))) (length (p_time p))) eqn:Hlast.
    + inversion Htrim; subst; clear Htrim. cbn [p_time p_state p_postEvent].
      unfold pop_back. rewrite !length_removelast. split; [congruence |].
      unfold eventsPending, eventsRelated in *.
      eapply Forall_impl; [exact Hdup |].
      intros j [[H0 Hlt] Heq]. cbn beta. rewrite length_removelast. split; [exact H0 |].
      destruct (Nat.eq_dec j (length (p_time p) - 1)%nat) as [-> | Hne].
      * right. split; [reflexivity |].
        rewrite nth_removelast by lia.
        unfold back. rewrite last_nth. exact Heq.
      * left. split; [lia |].
        rewrite !nth_removelast by lia. exact Heq.
    + inversion Htrim; subst. split; [exact Hlen |].
      rewrite Hpost. apply eventsRelated_pending. exact Hdup.
Qed.

Lemma appendTail_related (p tail : partition_rollout) (from : Q) :
  length (p_state p) = length (p_time p) ->
  eventsPending R from (p_time p) (p_postEvent p) ->
  startsAt from (p_time tail) ->
  eventsRelated R (p_time tail) (p_postEvent tail) ->
  eventsRelated R (p_time (appendTail p tail)) (p_postEvent (appendTail p tail)).
Proof.
  intros Hlen Hpend Hstart Hdup. unfold appendTail, eventsRelated. cbn [p_time p_postEvent].
  apply Forall_app. split.
  - eapply Forall_impl; [exact Hpend |].
    intros j [H0 [[Hlt Heq] | [-> Heq]]]; cbn beta; rewrite length_app.
    + split; [lia |]. rewrite !app_nth1 by lia. exact Heq.
    + destruct (p_time tail) as [| t rest]; [contradiction |]. cbn [startsAt] in Hstart.
      cbn [length]. split; [lia |].
      rewrite app_nth1 by lia. rewrite app_nth2 by lia.
      rewrite Nat.sub_diag. cbn [nth].
      apply (R_compat _ _ _ Heq). symmetry. exact Hstart.
  - apply Forall_map. eapply Forall_impl; [exact Hdup |].
    intros j [[H0 Hlt] Heq]; cbn beta. rewrite length_app, Hlen.
    split; [lia |].
    rewrite !app_nth2 by lia.
    replace (j + length (p_time p) - 1 - length (p_time p))%nat with (j - 1)%nat by lia.
    replace (j + length (p_time p) - length (p_time p))%nat with j by lia.
    exact Heq.
Qed.

Section RolloutProperties.

Variable col : Collaborators.
Hypothesis contract : integratorsKeep R col.

Lemma rolloutPartition_related pb interrupted cs useTill lastController i x p x' :
  rolloutPartition col pb interrupted cs useTill lastController i x = Ok (p, x') ->
  eventsRelated R (p_time p) (p_postEvent p).
Proof.
  destruct contract as [Hctrl Hop].
  unfold rolloutPartition. 
  set (t0 := if Nat.eqb i (initActivePartition_ pb) then _ else _).
  set (tf := if Nat.eqb i (finalActivePartition_ pb) then _ else _).
  set (controllerTo := std_max t0 (std_min useTill tf)).
  intros H.
  assert (Hfirst : forall p1 x1,
    (if Qltb t0 controllerTo
     then r ← runController col interrupted t0 x controllerTo
                (nth (Nat.min i lastController) cs emptyController) (eventTimes pb);
          Ok (run_traj r, run_xFinal r)
     else Ok (emptyPartition, x)) = Ok (p1, x1) ->
    length (p_state p1) = length (p_time p1)
    /\ eventsRelated R (p_time p1) (p_postEvent p1)).
  { intros p1 x1 H1. destruct (Qltb t0 controllerTo).
    - unfold runController in H1. destruct interrupted; [discriminate |].
      destruct (external _) as [r |] eqn:Hr; [| discriminate].
      apply external_Ok in Hr. apply Hctrl in Hr.
      cbn in H1. inversion H1; subst. exact Hr.
    - inversion H1; subst. split; [reflexivity | constructor]. }
  destruct (if Qltb t0 controllerTo then _ else _) as [[p1 x1] |] eqn:H1; [| discriminate].
  destruct (Hfirst p1 x1 eq_refl) as [Hlen Hdup]. clear Hfirst.
  cbn in H.
  destruct (Qltb controllerTo tf).
  - destruct (trimPastEvent p1 controllerTo) as [p2 from] eqn:Htrim.
    destruct (trimPastEvent_pending p1 p2 controllerTo from Hlen Hdup Htrim) as [Hlen2 Hpend].
    unfold runOperatingPoints in H. destruct interrupted; [discriminate |].
    destruct (external _) as [r |] eqn:Hr; [| discriminate].
    apply external_Ok in Hr. apply Hop in Hr. destruct Hr as [Hstart Hdup'].
    cbn in H. inversion H; subst.
    eapply appendTail_related; eassumption.
  - inversion H; subst. exact Hdup.
Qed.

Lemma setPartition_related (i : nat) (p : partition_rollout) (T : Trajectories) :
  stocksRelated R T ->
  eventsRelated R (p_time p) (p_postEvent p) ->
  stocksRelated R (setPartition i p T).
Proof.
  intros [Hlen Hall] Hp. unfold stocksRelated, setPartition.
  cbn [timeTrajectoriesStock postEventIndicesStock].
  rewrite !length_insert. split; [exact Hlen |].
  intros k. rewrite !nth_insert. rewrite <- Hlen.
  destruct (decide (i = k /\ (i < length (timeTrajectoriesStock T))%nat)).
  - exact Hp.
  - apply Hall.
Qed.

Lemma emptyTrajectories_related (n : nat) : stocksRelated R (emptyTrajectories n).
Proof.
  split; [cbn; rewrite !length_replicate; reflexivity |].
  intros i. cbn [emptyTrajectories timeTrajectoriesStock postEventIndicesStock].
  replace (nth i (replicate n []) []) with (@nil nat); [constructor |].
  rewrite nth_lookup. destruct (replicate n [] !! i) eqn:E; [| reflexivity].
  apply lookup_replicate in E. destruct E as [-> _]. reflexivity.
Qed.

Lemma rolloutPartitions_related pb interrupted cs useTill lastController n :
  forall i T x numSteps T' x' numSteps',
  stocksRelated R T ->
  rolloutPartitions col pb interrupted cs useTill lastController i n (T, x, numSteps)
  = Ok (T', x', numSteps') ->
  stocksRelated R T'.
Proof.
  induction n as [| n IH]; intros i T x numSteps T' x' numSteps' HT H.
  - inversion H; subst. exact HT.
  - cbn [rolloutPartitions] in H.
    destruct (rolloutPartition col pb interrupted cs useTill lastController i x)
      as [[p x1] |] eqn:Hp; [| discriminate].
    cbn in H. eapply IH; [| exact H].
    apply setPartition_related; [exact HT |].
    eapply rolloutPartition_related. exact Hp.
Qed.

(** C7 (amended). In every rollout that [rolloutTrajectory] returns, every
    post-event index [j] of every partition [i] points inside the time
    trajectory, and the time stamps of the samples [j - 1] and [j] stand
    in the relation that the integrators keep between the two samples of
    an event in each of their segments: equality for an integrator that
    duplicates the time stamp, a later post-event stamp for a rollout that
    adds an epsilon. This holds whether or not the last sample of the
    controller interval was popped: the operating-point segment starts at
    the popped time stamp. *)
Theorem rolloutTrajectory_events_paired pb interrupted cs T avg :
  rolloutTrajectory col pb interrupted cs = Ok (T, avg) ->
  forall i j,
    In j (nth i (postEventIndicesStock T) []) ->
    (0 < j < length (nth i (timeTrajectoriesStock T) []))%nat
    /\ R (nth (j - 1) (nth i (timeTrajectoriesStock T) []) 0)
         (nth j (nth i (timeTrajectoriesStock T) []) 0).
Proof.
  unfold rolloutTrajectory. intros H i j Hj.
  destruct (negb _); [discriminate |].
  destruct (rolloutPartitions _ _ _ _ _ _ _ _ _) as [[[T1 x1] n1] |] eqn:Hloop;
    [| discriminate].
  cbn in H.
  destruct (negb (allFinite x1)); [discriminate |].
  destruct (negb (modelDataSizesAgree _ _ _)); [discriminate |].
  inversion H; subst T1 avg; clear H.
  apply rolloutPartitions_related in Hloop; [| apply emptyTrajectories_related].
  destruct Hloop as [_ Hall]. specialize (Hall i).
  unfold eventsRelated in Hall. rewrite List.Forall_forall in Hall.
  exact (Hall j Hj).
Qed.

End RolloutProperties.

End EventPairs.

(** *** Rewind *)

Section ShiftLoops.

Context {A : Type}.
Variable clearf : A -> A.
Variables firstIndex preservedLength K : nat.
Hypothesis split_K : (preservedLength + firstIndex = K)%nat.

Variable orig : list A.
Hypothesis orig_length : length orig = K.

Lemma assignLoop_shifts (n : nat) :
  forall (i : nat) (v : list A),
    (i + n = K)%nat -> length v = K ->
    (forall j, (j < i)%nat -> (j < preservedLength)%nat -> v !! j = orig !! (j + firstIndex)%nat) ->
    (forall j, (j < i)%nat -> (preservedLength <= j)%nat -> v !! j = clearf <$> orig !! j) ->
    (forall j, (i <= j)%nat -> v !! j = orig !! j) ->
    (forall j, (j < preservedLength)%nat ->
               assignLoop clearf firstIndex preservedLength i n v !! j = orig !! (j + firstIndex)%nat)
    /\ (forall j, (preservedLength <= j < K)%nat ->
                  assignLoop clearf firstIndex preservedLength i n v !! j = clearf <$> orig !! j).
Proof using split_K orig_length.
  induction n as [| n IH]; intros i v Hin Hlen Hlow Hhigh Hrest.
  - cbn [assignLoop]. split; intros j Hj; [apply Hlow | apply Hhigh]; lia.
  - cbn [assignLoop]. destruct (Nat.ltb i preservedLength) eqn:Hi.
    + apply Nat.ltb_lt in Hi.
      assert (Hsrc : v !! (firstIndex + i)%nat = orig !! (i + firstIndex)%nat).
      { rewrite Hrest by lia. f_equal. lia. }
      destruct (lookup_lt_is_Some_2 orig (i + firstIndex)) as [b Hb]; [lia |].
      unfold assignFrom. rewrite Hsrc, Hb.
      apply IH; [lia | rewrite length_insert; exact Hlen | | |].
      * intros j Hj Hjp. destruct (decide (j = i)) as [-> | Hne].
        -- rewrite list_lookup_insert_eq by lia. symmetry. exact Hb.
        -- rewrite list_lookup_insert_ne by congruence. apply Hlow; lia.
      * intros j Hj Hjp. rewrite list_lookup_insert_ne by lia. apply Hhigh; lia.
      * intros j Hj. rewrite list_lookup_insert_ne by lia. apply Hrest; lia.
    + apply Nat.ltb_ge in Hi.
      destruct (lookup_lt_is_Some_2 orig i) as [a Ha]; [lia |].
      unfold modifyAt. rewrite (Hrest i) by lia. rewrite Ha.
      apply IH; [lia | rewrite length_insert; exact Hlen | | |].
      * intros j Hj Hjp. rewrite list_lookup_insert_ne by lia. apply Hlow; lia.
      * intros j Hj Hjp. destruct (decide (j = i)) as [-> | Hne].
        -- rewrite list_lookup_insert_eq by lia. rewrite Ha. reflexivity.
        -- rewrite list_lookup_insert_ne by congruence. apply Hhigh; lia.
      * intros j Hj. rewrite list_lookup_insert_ne by lia. apply Hrest; lia.
Qed.

Hypothesis clearf_const : forall a b, clearf a = clearf b.

Lemma swapLoop_shifts (n : nat) :
  forall (i : nat) (v : list A),
    (i + n = K)%nat -> length v = K ->
    (forall j, (j < i)%nat -> (j < preservedLength)%nat -> v !! j = orig !! (j + firstIndex)%nat) ->
    (forall j, (j < i)%nat -> (preservedLength <= j)%nat -> v !! j = clearf <$> orig !! j) ->
    (forall j, (i + firstIndex <= j)%nat -> v !! j = orig !! j) ->
    (forall j, (j < preservedLength)%nat ->
               swapLoop clearf firstIndex preservedLength i n v !! j = orig !! (j + firstIndex)%nat)
    /\ (forall j, (preservedLength <= j < K)%nat ->
                  swapLoop clearf firstIndex preservedLength i n v !! j = clearf <$> orig !! j).
Proof using split_K orig_length clearf_const.
  induction n as [| n IH]; intros i v Hin Hlen Hlow Hhigh Hrest.
  - cbn [swapLoop]. split; intros j Hj; [apply Hlow | apply Hhigh]; lia.
  - cbn [swapLoop]. destruct (Nat.ltb i preservedLength) eqn:Hi.
    + apply Nat.ltb_lt in Hi.
      assert (Hsrc : v !! (firstIndex + i)%nat = orig !! (i + firstIndex)%nat).
      { rewrite Hrest by lia. f_equal. lia. }
      destruct (lookup_lt_is_Some_2 orig (i + firstIndex)) as [b Hb]; [lia |].
      destruct (lookup_lt_is_Some_2 v i) as [a Ha]; [lia |].
      unfold swapAt. rewrite Ha, Hsrc, Hb.
      apply IH; [lia | rewrite !length_insert; exact Hlen | | |].
      * intros j Hj Hjp. destruct (decide (j = (firstIndex + i)%nat)) as [-> | Hne1].
        -- destruct firstIndex as [| f].
           ++ rewrite list_lookup_insert_eq by (rewrite length_insert; lia).
              cbn [Nat.add] in *. rewrite Nat.add_0_r in Hb.
              assert (Hv : v !! i = orig !! i) by (apply Hrest; lia).
              rewrite Ha in Hv. rewrite Nat.add_0_r. rewrite <- Hv. reflexivity.
           ++ lia.
        -- rewrite list_lookup_insert_ne by congruence.
           destruct (decide (j = i)) as [-> | Hne].
           ++ rewrite list_lookup_insert_eq by lia. symmetry. exact Hb.
           ++ rewrite list_lookup_insert_ne by congruence. apply Hlow; lia.
      * intros j Hj Hjp. rewrite !list_lookup_insert_ne by lia. apply Hhigh; lia.
      * intros j Hj. rewrite !list_lookup_insert_ne by lia. apply Hrest; lia.
    + apply Nat.ltb_ge in Hi.
      destruct (lookup_lt_is_Some_2 v i) as [a Ha]; [lia |].
      destruct (lookup_lt_is_Some_2 orig i) as [a' Ha']; [lia |].
      unfold modifyAt. rewrite Ha.
      apply IH; [lia | rewrite length_insert; exact Hlen | | |].
      * intros j Hj Hjp. rewrite list_lookup_insert_ne by lia. apply Hlow; lia.
      * intros j Hj Hjp. destruct (decide (j = i)) as [-> | Hne].
        -- rewrite list_lookup_insert_eq by lia. rewrite Ha'. cbn.
           f_equal. apply clearf_const.
        -- rewrite list_lookup_insert_ne by congruence. apply Hhigh; lia.
      * intros j Hj. rewrite list_lookup_insert_ne by lia. apply Hrest; lia.
Qed.

End ShiftLoops.

Lemma rewindLoop_arrays (firstIndex preservedLength n : nat) :
  forall (i : nat) (cs : list linear_controller) (fin : RiccatiFinal),
    rewindLoop firstIndex preservedLength i n (cs, fin) =
    (swapLoop ctrl_clear firstIndex preservedLength i n cs,
     mkRiccatiFinal
       (assignLoop setZeroMatrix firstIndex preservedLength i n (SmFinalStock_ fin))
       (assignLoop setZeroVector firstIndex preservedLength i n (SvFinalStock_ fin))
       (assignLoop setZeroVector firstIndex preservedLength i n (SveFinalStock_ fin))
       (assignLoop (fun _ => 0) firstIndex preservedLength i n (sFinalStock_ fin))
       (assignLoop setZeroVector firstIndex preservedLength i n (xFinalStock_ fin))).
Proof.
  induction n as [| n IH]; intros i cs fin.
  - destruct fin; reflexivity.
  - cbn [rewindLoop swapLoop assignLoop]. unfold rewindPartition.
    destruct (Nat.ltb i preservedLength); rewrite IH; reflexivity.
Qed.

(** C8 (amended). For [0 < firstIndex <= K], [rewindOptimizer firstIndex]
    returns; afterwards partition [i] holds the controller and the
    terminal Riccati values that partition [i + firstIndex] held before,
    for every [i < K - firstIndex], and every partition
    [K - firstIndex <= i < K] has an empty controller and zeroed terminal
    values. The nominal and the cached trajectories are not moved: every
    partition keeps the ones it had. *)
Theorem rewindOptimizer_shifts (firstIndex : nat) (st : DDP) :
  (0 < firstIndex <= numPartitions_ (problem st))%nat ->
  stocksSized st ->
  exists st',
    rewindOptimizer firstIndex st = Returned st'
    /\ (forall i, (i < numPartitions_ (problem st) - firstIndex)%nat ->
                  partitionData st' i = partitionData st (i + firstIndex)%nat)
    /\ (forall i, (numPartitions_ (problem st) - firstIndex <= i
                   < numPartitions_ (problem st))%nat ->
                  partitionData st' i = clearedPartition <$> partitionData st i)
    /\ nominal st' = nominal st
    /\ cached st' = cached st.
Proof.
  intros [Hpos Hle] (Hc & HSm & HSv & HSve & Hs & Hx).
  set (K := numPartitions_ (problem st)) in *.
  unfold rewindOptimizer. destruct firstIndex as [| f]; [lia |].
  set (first := S f) in *.
  cbn [problem set_rewindCounter_]. fold K.
  destruct (Nat.ltb K first) eqn:Hlt; [apply Nat.ltb_lt in Hlt; lia |].
  rewrite rewindLoop_arrays. cbn [nominalControllersStock_ finals set_rewindCounter_].
  eexists. split; [reflexivity |].
  assert (Hsplit : (K - first + first = K)%nat) by lia.
  pose proof (fun A (clearf : A -> A) orig Hlen =>
    assignLoop_shifts clearf first (K - first) K Hsplit orig Hlen K 0 orig
      eq_refl Hlen ltac:(intros; lia) ltac:(intros; lia) ltac:(intros; reflexivity))
    as Hassign.
  pose proof (swapLoop_shifts ctrl_clear first (K - first) K Hsplit
    (nominalControllersStock_ st) Hc ltac:(intros; reflexivity) K 0
    (nominalControllersStock_ st) eq_refl Hc ltac:(intros; lia) ltac:(intros; lia)
    ltac:(intros; reflexivity)) as [Hsw1 Hsw2].
  destruct (Hassign _ setZeroMatrix _ HSm) as [HSm1 HSm2].
  destruct (Hassign _ setZeroVector _ HSv) as [HSv1 HSv2].
  destruct (Hassign _ setZeroVector _ HSve) as [HSve1 HSve2].
  destruct (Hassign _ (fun _ : Q => 0) _ Hs) as [Hs1 Hs2].
  destruct (Hassign _ setZeroVector _ Hx) as [Hx1 Hx2].
  split; [| split; [| split; reflexivity]]; intros i Hi; unfold partitionData;
    cbn [nominalControllersStock_ finals set_finals set_nominalControllersStock_
         SmFinalStock_ SvFinalStock_ SveFinalStock_ sFinalStock_ xFinalStock_].
  - rewrite Hsw1, HSm1, HSv1, HSve1, Hs1, Hx1 by exact Hi. reflexivity.
  - rewrite Hsw2, HSm2, HSv2, HSve2, Hs2, Hx2 by exact Hi.
    destruct (nominalControllersStock_ st !! i); [| reflexivity].
    destruct (SmFinalStock_ (finals st) !! i); [| reflexivity].
    destruct (SvFinalStock_ (finals st) !! i); [| reflexivity].
    destruct (SveFinalStock_ (finals st) !! i); [| reflexivity].
    destruct (sFinalStock_ (finals st) !! i); [| reflexivity].
    destruct (xFinalStock_ (finals st) !! i); reflexivity.
Qed.

(** *** Which errors a function can throw *)

Lemma throwsOnly_Ok {A} (P : error -> Prop) (a : A) : throwsOnly P (Ok a).
Proof. intros e H. discriminate. Qed.

Lemma throwsOnly_Throw {A} (P : error -> Prop) (e : error) :
  P e -> throwsOnly P (@Throw A e).
Proof. intros HP e' H. inversion H; subst. exact HP. Qed.

Lemma throwsOnly_bind {A B} (P : error -> Prop) (r : result A) (k : A -> result B) :
  throwsOnly P r -> (forall a, throwsOnly P (k a)) -> throwsOnly P (r ≫= k).
Proof.
  intros Hr Hk e H. destruct r as [a | e0]; cbn in H.
  - exact (Hk a e H).
  - inversion H; subst. apply Hr. reflexivity.
Qed.

Lemma throwsOnly_external {A} (P : error -> Prop) (r : result A) :
  P CollaboratorFailed -> throwsOnly P (external r).
Proof. intros HP e H. destruct r; cbn in H; inversion H; subst. exact HP. Qed.

Lemma throwsOnly_if {A} (P : error -> Prop) (b : bool) (r1 r2 : result A) :
  throwsOnly P r1 -> throwsOnly P r2 -> throwsOnly P (if b then r1 else r2).
Proof. destruct b; auto. Qed.

Ltac throws :=
  repeat first
    [ apply throwsOnly_Ok
    | apply throwsOnly_Throw; reflexivity
    | apply throwsOnly_external; reflexivity
    | apply throwsOnly_if
    | apply throwsOnly_bind; [| intros ?]
    | match goal with
      | |- throwsOnly _ (let '(_, _) := ?x in _) => destruct x
      | |- throwsOnly _ (match ?x with pair _ _ => _ end) => destruct x
      end ].

Section Errors.

Variable col : Collaborators.

Lemma rolloutPartition_internal pb interrupted cs useTill lastController i x :
  throwsOnly internal (rolloutPartition col pb interrupted cs useTill lastController i x).
Proof.
  unfold rolloutPartition, runController, runOperatingPoints. throws.
Qed.

Lemma rolloutPartitions_internal pb interrupted cs useTill lastController n :
  forall i acc,
    throwsOnly internal
      (rolloutPartitions col pb interrupted cs useTill lastController i n acc).
Proof.
  induction n as [| n IH]; intros i [[T x] numSteps]; cbn [rolloutPartitions].
  - throws.
  - apply throwsOnly_bind; [apply rolloutPartition_internal |].
    intros [p x']. apply IH.
Qed.

Lemma rolloutTrajectory_internal pb interrupted cs :
  throwsOnly internal (rolloutTrajectory col pb interrupted cs).
Proof.
  unfold rolloutTrajectory. apply throwsOnly_if; [throws |].
  apply throwsOnly_bind; [apply rolloutPartitions_internal |].
  intros [[T x] n]. throws.
Qed.

Lemma baselineRollout_internal st : throwsOnly internal (baselineRollout col st).
Proof.
  unfold baselineRollout.
  apply throwsOnly_bind; [apply rolloutTrajectory_internal |].
  intros [T avg]. throws.
Qed.

Lemma runLineSearchTasks_internal fuel sched st :
  throwsOnly internal (runLineSearchTasks col fuel sched st).
Proof.
  unfold runLineSearchTasks. destruct (drain _ _ _) as [st' ts]. throws.
Qed.

Lemma lineSearch_internal fuel sched st :
  throwsOnly internal (lineSearch col fuel sched st).
Proof.
  unfold lineSearch.
  apply throwsOnly_bind; [apply baselineRollout_internal |].
  intros st1. apply throwsOnly_if; [throws |].
  apply throwsOnly_bind; [apply runLineSearchTasks_internal |].
  intros st2. throws.
Qed.

Lemma runBackwardPass_internal st : throwsOnly internal (runBackwardPass col st).
Proof. unfold runBackwardPass. throws. Qed.

Lemma initPerformance_internal st : throwsOnly internal (initPerformance col st).
Proof. unfold initPerformance. throws. Qed.

Lemma runInit_internal st : throwsOnly internal (runInit col st).
Proof.
  unfold runInit.
  apply throwsOnly_bind; [apply rolloutTrajectory_internal |].
  intros [T avg].
  apply throwsOnly_bind; [throws |]. intros cachedT.
  apply throwsOnly_bind; [apply initPerformance_internal |]. intros st1.
  apply runBackwardPass_internal.
Qed.

Lemma runIteration_internal fuel sched st :
  throwsOnly internal (runIteration col fuel sched st).
Proof.
  unfold runIteration.
  apply throwsOnly_bind; [apply lineSearch_internal |]. intros st1.
  apply runBackwardPass_internal.
Qed.

Lemma loopBody_internal fuel scheds st flags :
  throwsOnly internal (loopBody col fuel scheds st flags).
Proof.
  unfold loopBody.
  apply throwsOnly_bind; [apply runIteration_internal |]. intros st1. throws.
Qed.

Lemma mainLoop_internal n fuel scheds :
  forall st flags, throwsOnly internal (mainLoop col n fuel scheds st flags).
Proof.
  induction n as [| n IH]; intros st flags; cbn [mainLoop].
  - throws.
  - apply throwsOnly_if; [| throws].
    apply throwsOnly_bind; [apply loopBody_internal |].
    intros [st' flags']. apply IH.
Qed.

Lemma threwOnly_attempt (P : error -> Prop) st (r : result DDP) (k : DDP -> outcome) :
  throwsOnly P r -> (forall st1, threwOnly P (k st1)) -> threwOnly P (attempt st r k).
Proof.
  intros Hr Hk e st' H. destruct r as [st1 | e1]; cbn [attempt] in H.
  - exact (Hk st1 e st' H).
  - inversion H; subst. apply Hr. reflexivity.
Qed.

Lemma threwOnly_seq (P : error -> Prop) (o : outcome) (k : DDP -> outcome) :
  threwOnly P o -> (forall st1, threwOnly P (k st1)) ->
  threwOnly P (match o with Threw e st' => Threw e st' | Returned st => k st end).
Proof.
  intros Ho Hk e st' H. destruct o as [st1 | e1 st1].
  - exact (Hk st1 e st' H).
  - inversion H; subst. eapply Ho. reflexivity.
Qed.

Lemma threwOnly_Returned (P : error -> Prop) st : threwOnly P (Returned st).
Proof. intros e st' H. discriminate. Qed.

Lemma threwOnly_Threw (P : error -> Prop) e st : P e -> threwOnly P (Threw e st).
Proof. intros HP e' st' H. inversion H; subst. exact HP. Qed.

Lemma updateNumPartitions_internal partitioningTimes st :
  threwOnly internal (updateNumPartitions col partitioningTimes st).
Proof.
  unfold updateNumPartitions, setupOptimizer.
  destruct (negb _); [| apply threwOnly_Returned].
  destruct (length partitioningTimes - 1)%nat;
    [apply threwOnly_Threw; reflexivity | apply threwOnly_Returned].
Qed.

Lemma installControllers_internal ptrs st : threwOnly internal (installControllers ptrs st).
Proof.
  unfold installControllers.
  destruct ptrs as [| p ptrs].
  - destruct (negb _); [apply threwOnly_Threw; reflexivity | apply threwOnly_Returned].
  - destruct (negb _); [apply threwOnly_Threw; reflexivity |].
    destruct (castControllers _ _) as [stock allLinear].
    destruct allLinear; [apply threwOnly_Returned | apply threwOnly_Threw; reflexivity].
Qed.

Lemma adoptPartitioning_internal partitioningTimes initTime finalTime st :
  threwOnly internal (adoptPartitioning col partitioningTimes initTime finalTime st).
Proof.
  unfold adoptPartitioning.
  destruct (findBoundedActiveIntervalInTimeArray col partitioningTimes initTime);
    cbn [external]; [| apply threwOnly_Threw; reflexivity].
  destruct (findBoundedActiveIntervalInTimeArray col partitioningTimes finalTime);
    cbn [external]; [apply threwOnly_Returned | apply threwOnly_Threw; reflexivity].
Qed.

Lemma solveValidated_internal fuel scheds initTime initState finalTime partitioningTimes
    ptrs st :
  threwOnly internal
    (solveValidated col fuel scheds initTime initState finalTime partitioningTimes ptrs st).
Proof.
  unfold solveValidated.
  apply threwOnly_seq; [apply updateNumPartitions_internal |]. intros st1.
  apply threwOnly_seq; [apply adoptPartitioning_internal |]. clear st1. intros st1.
  apply threwOnly_seq; [apply installControllers_internal |]. intros st2.
  apply threwOnly_attempt; [apply runInit_internal |]. intros st3.
  pose proof (mainLoop_internal
                (DDP_Settings.maxNumIterations_ (ddpSettings_ (pushLogs st3))) fuel scheds
                (pushLogs st3)) as Hloop.
  cbv zeta.
  match goal with |- threwOnly _ (match ?m with _ => _ end) =>
    specialize (Hloop _ : throwsOnly internal m); destruct m as [[st4 flags4] | e4]
  end.
  - apply threwOnly_attempt; [apply lineSearch_internal |]. intros st5.
    apply threwOnly_Returned.
  - apply threwOnly_Threw. apply Hloop. reflexivity.
Qed.

(** The input checks of [runImpl] with the controller pointers: it throws
    one of the three input errors exactly when the maximum learning rate
    is below the minimum one, or the partitioning is empty, or a component
    of the initial state is not finite; it then leaves every member as it
    was. Otherwise the input checks pass. *)
Lemma runImpl_BadInput fuel scheds initTime initState finalTime partitioningTimes
    ptrs (st : DDP) :
  let invalid :=
    DDP_Settings.maxLearningRate_ (ddpSettings_ st)
      < DDP_Settings.minLearningRate_ (ddpSettings_ st)
    \/ partitioningTimes = []
    \/ Exists (fun s => isFinite s = false) initState in
  let run := runImpl col fuel scheds initTime initState finalTime partitioningTimes ptrs st in
  ((exists e st', run = Threw e st' /\ isBadInput e = true) <-> invalid)
  /\ (forall e st', run = Threw e st' -> isBadInput e = true -> st' = st)
  /\ (~ invalid ->
      validateInputs (ddpSettings_ st) initState partitioningTimes = None).
Proof.
  intros invalid run. subst invalid run. unfold runImpl, validateInputs, almost_ge.
  rewrite negb_involutive.
  assert (Hfin : allFinite initState = false <-> Exists (fun s => isFinite s = false) initState).
  { unfold allFinite. induction initState as [| s x IH]; cbn [forallb].
    - split; [discriminate | intros H; inversion H].
    - rewrite andb_false_iff, IH. split.
      + intros [H | H]; [left; exact H | right; exact H].
      + intros H. inversion H; subst; [left | right]; assumption. }
  destruct (Qltb _ _) eqn:Hlr.
  - apply Qltb_lt in Hlr. split; [| split].
    + split; [intros _; left; exact Hlr |]. intros _. eexists _, _. split; reflexivity.
    + intros e st' H _. inversion H. reflexivity.
    + intros Hn. exfalso. apply Hn. left. exact Hlr.
  - apply Qltb_ge in Hlr. destruct partitioningTimes as [| t ts].
    + split; [| split].
      * split; [intros _; right; left; reflexivity |]. intros _. eexists _, _. split; reflexivity.
      * intros e st' H _. inversion H. reflexivity.
      * intros Hn. exfalso. apply Hn. right. left. reflexivity.
    + destruct (allFinite initState) eqn:Hall; cbn [negb].
      * assert (Hvalid : ~ (DDP_Settings.maxLearningRate_ (ddpSettings_ st)
                             < DDP_Settings.minLearningRate_ (ddpSettings_ st)
                            \/ t :: ts = [] \/ Exists (fun s => isFinite s = false) initState)).
        { intros [H | [H | H]]; [lra | discriminate |].
          apply Hfin in H. congruence. }
        split; [| split].
        -- split; [| intros H; contradiction].
           intros (e & st' & H & He). apply solveValidated_internal in H.
           unfold internal in H. congruence.
        -- intros e st' H He. apply solveValidated_internal in H.
           unfold internal in H. congruence.
        -- intros _. reflexivity.
      * split; [| split].
        -- split; [intros _; right; right; apply Hfin; reflexivity |].
           intros _. eexists _, _. split; reflexivity.
        -- intros e st' H _. inversion H. reflexivity.
        -- intros Hn. exfalso. apply Hn. right. right. apply Hfin. reflexivity.
Qed.

(** C9. On an empty partitioning, [runImpl] without controllers never
    reaches the input checks: the number of its controllers,
    [partitioningTimes.size() - 1], is the largest [size_t], and the
    construction of that many controllers throws [std::length_error],
    which is none of the three input errors. The members are as before.
    [runImpl] with controllers throws one of the input errors on the same
    partitioning. *)
Theorem runImpl_without_controllers_empty_partitioning fuel scheds initTime initState
    finalTime (st : DDP) :
  runImplNoControllers col fuel scheds initTime initState finalTime [] st
  = Threw VectorLengthError st
  /\ isBadInput VectorLengthError = false
  /\ forall ptrs,
       exists e,
         runImpl col fuel scheds initTime initState finalTime [] ptrs st = Threw e st
         /\ isBadInput e = true.
Proof.
  split; [reflexivity |]. split; [reflexivity |].
  intros ptrs. unfold runImpl, validateInputs.
  destruct (negb _); eexists; split; reflexivity.
Qed.

End Errors.

(** *** Frame properties of one action *)

Lemma sameSearch_refl st : sameSearch st st.
Proof. repeat split. Qed.

Lemma commit_frame st j lr loc st' loc' term :
  commit st j lr loc = (st', loc', term) -> sameSearch st st'.
Proof.
  unfold commit. destruct (accepts _ _ _); intros H; inversion H; subst; repeat split.
Qed.

Lemma taskStep_frame col poll st t st' t' :
  taskStep col poll st t = (st', t') -> sameSearch st st'.
Proof.
  unfold taskStep. destruct (pc t) as [| j lr | j lr | j lr | |].
  - intros H; inversion H; subst; repeat split.
  - destruct (Qltb _ _); intros H; inversion H; subst; repeat split.
  - intros H; inversion H; subst; repeat split.
  - destruct (commit st j lr (locals t)) as [[st1 loc1] term] eqn:Hc.
    intros H; inversion H; subst. eapply commit_frame. exact Hc.
  - intros H; inversion H; subst; repeat split.
  - intros H; inversion H; subst; repeat split.
Qed.

Lemma sameSearch_trans st0 st1 st2 :
  sameSearch st0 st1 -> sameSearch st1 st2 -> sameSearch st0 st2.
Proof.
  unfold sameSearch. intros (? & ? & ? & ? & ? & ?) (? & ? & ? & ? & ? & ?).
  repeat split; congruence.
Qed.

Lemma candidate_frame st0 st j : sameSearch st0 st -> candidate st j = candidate st0 j.
Proof. intros (Hs & _ & _ & Hm & _). unfold candidate. rewrite Hs, Hm. reflexivity. Qed.

(** *** Monotone candidates *)

Lemma pow_S (r : Q) (j : nat) : pow r (S j) == pow r j * r.
Proof.
  unfold pow. rewrite Nat2Z.inj_succ. unfold Z.succ.
  destruct (Qeq_dec r 0) as [H0 | Hn].
  - rewrite H0. rewrite Qpower_0 by lia. lra.
  - rewrite Qpower_plus by exact Hn. simpl (r ^ 1). reflexivity.
Qed.

Lemma pow_nonneg (r : Q) (j : nat) : 0 <= r -> 0 <= pow r j.
Proof. intros H. unfold pow. apply Qpower_0_le. exact H. Qed.

Lemma pow_le_1 (r : Q) (j : nat) : 0 <= r <= 1 -> pow r j <= 1.
Proof.
  intros [H0 H1]. induction j as [| j IH].
  - unfold pow. simpl. lra.
  - rewrite pow_S. pose proof (pow_nonneg r j H0). nra.
Qed.

Lemma pow_antitone (r : Q) (j k : nat) : 0 <= r <= 1 -> (j <= k)%nat -> pow r k <= pow r j.
Proof.
  intros [H0 H1] Hjk. induction Hjk as [| k Hjk IH].
  - lra.
  - rewrite pow_S. pose proof (pow_nonneg r k H0). nra.
Qed.

Lemma candidate_antitone st (j k : nat) :
  0 <= maxLearningRate_ st ->
  0 <= DDP_Settings.lineSearchContractionRate_ (ddpSettings_ st) <= 1 ->
  (j <= k)%nat -> candidate st k <= candidate st j.
Proof.
  intros Hm Hr Hjk. unfold candidate.
  pose proof (pow_antitone _ j k Hr Hjk).
  pose proof (pow_nonneg (DDP_Settings.lineSearchContractionRate_ (ddpSettings_ st)) k
                (proj1 Hr)).
  nra.
Qed.

Lemma candidate_bounds st (j : nat) :
  0 <= maxLearningRate_ st ->
  0 <= DDP_Settings.lineSearchContractionRate_ (ddpSettings_ st) <= 1 ->
  0 <= candidate st j <= maxLearningRate_ st.
Proof.
  intros Hm Hr. unfold candidate.
  pose proof (pow_le_1 _ j Hr).
  pose proof (pow_nonneg (DDP_Settings.lineSearchContractionRate_ (ddpSettings_ st)) j
                (proj1 Hr)).
  nra.
Qed.

(** *** What one action does to the shared members *)

Lemma taskStep_claim col poll st t st' t' :
  pc t = AtClaim -> taskStep col poll st t = (st', t') ->
  alphaExpNext_ st' = S (alphaExpNext_ st)
  /\ learningRateStar_ st' = learningRateStar_ st
  /\ alphaProcessed_ st' = alphaProcessed_ st
  /\ killIntegration st' = killIntegration st
  /\ performance st' = performance st
  /\ nominalControllersStock_ st' = nominalControllersStock_ st
  /\ nominal st' = nominal st
  /\ locals t' = locals t
  /\ pc t' = if almost_ge (candidate st (alphaExpNext_ st))
                          (DDP_Settings.minLearningRate_ (ddpSettings_ st))
             then AtSkipCheck (alphaExpNext_ st) (candidate st (alphaExpNext_ st))
             else Finished.
Proof.
  unfold taskStep. intros -> H. inversion H; subst; clear H.
  destruct (almost_ge _ _); repeat split.
Qed.

Lemma taskStep_skip col poll st t st' t' j lr :
  pc t = AtSkipCheck j lr -> taskStep col poll st t = (st', t') ->
  st' = st
  /\ ((Qltb lr (learningRateStar_ st) = true /\ pc t' = Finished)
      \/ (Qltb lr (learningRateStar_ st) = false /\ pc t' = AtWorker j lr
          /\ controllersStock (locals t') = initLScontrollersStock_ st)).
Proof.
  unfold taskStep. intros -> H.
  destruct (Qltb lr (learningRateStar_ st)); inversion H; subst; clear H;
    (split; [reflexivity |]); [left | right]; repeat split.
Qed.

Lemma taskStep_worker col poll st t st' t' j lr :
  pc t = AtWorker j lr -> taskStep col poll st t = (st', t') ->
  view st' = view st
  /\ rolloutLog st' = rolloutLog st ++ [CandidateRollout lr]
  /\ pc t' = AtCommit j lr
  /\ locals t' = lineSearchWorker col (ddpSettings_ st) (problem st) (iteration_ st)
                   (poll && killIntegration st) lr (locals t).
Proof.
  unfold taskStep. intros -> H. inversion H; subst; clear H. repeat split.
Qed.

Lemma taskStep_commit col poll st t st' t' j lr :
  pc t = AtCommit j lr -> taskStep col poll st t = (st', t') ->
  alphaExpNext_ st' = alphaExpNext_ st
  /\ killIntegration st' = killIntegration st
  /\ alphaProcessed_ st' = <[j := true]> (alphaProcessed_ st)
  /\ rolloutLog st' = rolloutLog st
  /\ ((accepts st (totalCost (loc_performance (locals t))) lr = true
       /\ learningRateStar_ st' = lr
       /\ performance st' = loc_performance (locals t)
       /\ nominalControllersStock_ st' = controllersStock (locals t)
       /\ nominal st' = loc_trajectories (locals t)
       /\ pc t' = if allProcessedBelow st j then AtKill else AtClaim)
      \/ (accepts st (totalCost (loc_performance (locals t))) lr = false
          /\ learningRateStar_ st' = learningRateStar_ st
          /\ performance st' = performance st
          /\ nominalControllersStock_ st' = nominalControllersStock_ st
          /\ nominal st' = nominal st
          /\ pc t' = AtClaim)).
Proof.
  unfold taskStep, commit. intros -> H.
  destruct (accepts st _ lr); inversion H; subst; clear H;
    repeat (split; [reflexivity |]); [left | right]; repeat split.
Qed.

Lemma taskStep_kill col poll st t st' t' :
  pc t = AtKill -> taskStep col poll st t = (st', t') ->
  killIntegration st' = true
  /\ alphaExpNext_ st' = alphaExpNext_ st
  /\ learningRateStar_ st' = learningRateStar_ st
  /\ alphaProcessed_ st' = alphaProcessed_ st
  /\ performance st' = performance st
  /\ nominalControllersStock_ st' = nominalControllersStock_ st
  /\ nominal st' = nominal st
  /\ rolloutLog st' = rolloutLog st
  /\ pc t' = Finished.
Proof.
  unfold taskStep. intros -> H. inversion H; subst; clear H. repeat split.
Qed.

Lemma taskStep_finished col poll st t st' t' :
  pc t = Finished -> taskStep col poll st t = (st', t') -> st' = st /\ t' = t.
Proof.
  unfold taskStep. intros -> H. inversion H; subst. split; reflexivity.
Qed.

(** The merit of an evaluation that is not interrupted depends on the
    learning rate only. *)
Lemma lineSearchWorker_merit col st0 lr loc :
  controllersStock loc = initLScontrollersStock_ st0 ->
  totalCost (loc_performance
    (lineSearchWorker col (ddpSettings_ st0) (problem st0) (iteration_ st0) false lr loc))
  = candidateMerit col st0 lr.
Proof.
  intros Hcs. unfold candidateMerit, lineSearchWorker. rewrite Hcs.
  cbn [controllersStock].
  destruct (rolloutTrajectory col (problem st0) false _) as [[T avg] | e]; [| reflexivity].
  destruct (calculateRolloutConstraintsISE col (problem st0) T) as [ise | e]; [| reflexivity].
  destruct (calculateRolloutCost col (problem st0) T) as [cost | e]; reflexivity.
Qed.

(** *** The invariant is kept by every action *)

Lemma insert_lookup_inv {A} (l : list A) (w w' : nat) (x y : A) :
  <[w := x]> l !! w' = Some y ->
  (w' = w /\ y = x) \/ (w' <> w /\ l !! w' = Some y).
Proof.
  intros H. destruct (decide (w' = w)) as [-> | Hne].
  - left. split; [reflexivity |].
    destruct (decide (w < length l)%nat) as [Hlt | Hge].
    + rewrite list_lookup_insert_eq in H by exact Hlt. congruence.
    + rewrite list_insert_ge in H by lia.
      apply lookup_lt_Some in H. lia.
  - right. split; [exact Hne |]. rewrite list_lookup_insert_ne in H by congruence. exact H.
Qed.

Lemma insert_lookup_same {A} (l : list A) (w : nat) (x y : A) :
  l !! w = Some y -> <[w := x]> l !! w = Some x.
Proof. intros H. apply list_lookup_insert_eq. eapply lookup_lt_Some. exact H. Qed.

Lemma insert_lookup_other {A} (l : list A) (w w' : nat) (x y : A) :
  w' <> w -> l !! w' = Some y -> <[w := x]> l !! w' = Some y.
Proof. intros Hne H. rewrite list_lookup_insert_ne by congruence. exact H. Qed.

Section SearchInvariant.

Variable col : Collaborators.
Variable st0 : DDP.
Hypothesis max_nonneg : 0 <= maxLearningRate_ st0.
Hypothesis rate_unit : 0 <= DDP_Settings.lineSearchContractionRate_ (ddpSettings_ st0) <= 1.

Lemma resolved_mono st st' j :
  learningRateStar_ st <= learningRateStar_ st' ->
  resolved col st0 st j -> resolved col st0 st' j.
Proof.
  intros Hle [H | [H | H]]; [left; exact H | right; left; lra | right; right; exact H].
Qed.

Lemma taskInv_mono st st' t :
  (alphaExpNext_ st <= alphaExpNext_ st')%nat ->
  learningRateStar_ st <= learningRateStar_ st' ->
  taskInv col st0 st t -> taskInv col st0 st' t.
Proof.
  intros Hn Hs. unfold taskInv. destruct (pc t) as [| j lr | j lr | j lr | |]; try tauto.
  - intros [H1 H2]. split; [lia | exact H2].
  - intros (H1 & H2 & H3). repeat split; [lia | exact H2 | exact H3].
  - intros (H1 & H2 & [H3 | H3]); (split; [lia |]); (split; [exact H2 |]);
      [left; exact H3 | right; lra].
Qed.

Lemma step_claim_inv poll st ts w t st' t' :
  searchInv col st0 st ts -> ts !! w = Some t -> pc t = AtClaim ->
  taskStep col poll st t = (st', t') ->
  searchInv col st0 st' (<[w := t']> ts).
Proof using max_nonneg rate_unit.
  intros I Hw Hpc Hstep.
  pose proof (taskStep_frame col poll st t st' t' Hstep) as Hframe.
  destruct (taskStep_claim col poll st t st' t' Hpc Hstep)
    as (Hnext & Hstar & Hproc & Hkill & Hperf & Hcs & Hnom & Hloc & Hpc').
  pose proof (inv_frame I) as F0.
  assert (Hcand : candidate st (alphaExpNext_ st) = candidate st0 (alphaExpNext_ st))
    by (apply candidate_frame; exact F0).
  assert (Hmin : DDP_Settings.minLearningRate_ (ddpSettings_ st) = (DDP_Settings.minLearningRate_ (ddpSettings_ st0)))
    by (destruct F0 as [-> _]; reflexivity).
  rewrite Hcand, Hmin in Hpc'.
  assert (Hnotfl : inflight t = None) by (unfold inflight; rewrite Hpc; reflexivity).
  assert (Hfl' : inflight t' = None \/ inflight t' = Some (alphaExpNext_ st)).
  { unfold inflight. rewrite Hpc'. destruct (almost_ge _ _); [right | left]; reflexivity. }
  constructor.
  - eapply sameSearch_trans; eassumption.
  - rewrite Hstar. exact (inv_star_nonneg I).
  - destruct (inv_star I) as [(H1 & H2 & H3 & H4) | (j & Hj & H1 & H2 & H3)].
    + left. repeat split; congruence.
    + right. exists j. unfold nominalTotalCost_ in *. rewrite Hnext, Hstar, Hperf.
      repeat split; [lia | assumption ..].
  - intros w' t'' Hl. apply insert_lookup_inv in Hl. destruct Hl as [[-> ->] | [Hne Hl]].
    + unfold taskInv. rewrite Hpc'. destruct (almost_ge _ _); [| trivial].
      split; [lia | reflexivity].
    + eapply taskInv_mono; [| | exact (inv_tasks I _ _ Hl)]; [lia | rewrite Hstar; lra].
  - intros w1 w2 t1 t2 j H1 H2 F1 F2.
    apply insert_lookup_inv in H1. apply insert_lookup_inv in H2.
    destruct H1 as [[-> ->] | [Hn1 H1]]; destruct H2 as [[-> ->] | [Hn2 H2]].
    + reflexivity.
    + exfalso. destruct Hfl' as [Hf | Hf]; rewrite Hf in F1; [discriminate |].
      inversion F1; subst j.
      pose proof (inv_tasks I _ _ H2) as T2. unfold taskInv, inflight in T2, F2.
      destruct (pc t2); try discriminate; inversion F2; subst; lia.
    + exfalso. destruct Hfl' as [Hf | Hf]; rewrite Hf in F2; [discriminate |].
      inversion F2; subst j.
      pose proof (inv_tasks I _ _ H1) as T1. unfold taskInv, inflight in T1, F1.
      destruct (pc t1); try discriminate; inversion F1; subst; lia.
    + exact (inv_unique I _ _ _ _ _ H1 H2 F1 F2).
  - intros j Hj. rewrite Hproc in Hj. destruct (inv_processed I _ Hj) as [Hlt Hnone].
    split; [lia |]. intros w' t'' Hl. apply insert_lookup_inv in Hl.
    destruct Hl as [[-> ->] | [Hne Hl]]; [| exact (Hnone _ _ Hl)].
    destruct Hfl' as [Hf | Hf]; rewrite Hf; [discriminate |]. intros E; inversion E; lia.
  - intros j Hj. rewrite Hnext in Hj.
    destruct (Nat.eq_dec j (alphaExpNext_ st)) as [-> | Hne].
    + destruct (almost_ge (candidate st0 (alphaExpNext_ st)) (DDP_Settings.minLearningRate_ (ddpSettings_ st0))) eqn:Hge.
      * left. exists w, t'. split; [eapply insert_lookup_same; exact Hw |].
        unfold inflight. rewrite Hpc'. reflexivity.
      * right. left. exact Hge.
    + destruct (inv_resolved I j ltac:(lia)) as [(w' & t'' & Hl & Hf) | Hr].
      * left. exists w', t''. split; [| exact Hf].
        apply insert_lookup_other; [| exact Hl]. intros ->. congruence.
      * right. eapply resolved_mono; [| exact Hr]. rewrite Hstar. lra.
  - intros Hk.
    assert (Hk0 : killIntegration st = true \/ (exists w t, ts !! w = Some t /\ pc t = AtKill)).
    { destruct Hk as [Hk | (w' & t'' & Hl & Hp)]; [left; congruence |].
      right. apply insert_lookup_inv in Hl. destruct Hl as [[-> ->] | [Hne Hl]].
      - rewrite Hpc' in Hp. destruct (almost_ge _ _); discriminate.
      - exists w', t''. split; assumption. }
    destruct (inv_kill I Hk0) as (j0 & Hj0 & Hle & Hall).
    exists j0. rewrite Hnext, Hstar. split; [lia |]. split; [exact Hle |].
    intros w' t'' j Hl Hf. apply insert_lookup_inv in Hl.
    destruct Hl as [[-> ->] | [Hne Hl]]; [| exact (Hall _ _ _ Hl Hf)].
    destruct Hfl' as [Hf' | Hf']; rewrite Hf' in Hf; [discriminate |].
    inversion Hf; subst. exact Hj0.
  - intros w' t'' Hl Hp. apply insert_lookup_inv in Hl.
    destruct Hl as [[-> ->] | [Hne Hl]].
    + exists (alphaExpNext_ st). rewrite Hnext. split; [lia |]. left.
      rewrite Hpc' in Hp. destruct (almost_ge _ _) eqn:E; [discriminate | reflexivity].
    + destruct (inv_finished I _ _ Hl Hp) as (j & Hj & Hc).
      exists j. rewrite Hnext, Hstar. split; [lia | exact Hc].
Qed.

(** An action that claims no new exponent. *)
Lemma inv_update st ts w t st' t' :
  searchInv col st0 st ts -> ts !! w = Some t ->
  sameSearch st st' ->
  alphaExpNext_ st' = alphaExpNext_ st ->
  learningRateStar_ st <= learningRateStar_ st' ->
  ((learningRateStar_ st' = 0
    /\ performance st' = performance st0
    /\ nominalControllersStock_ st' = nominalControllersStock_ st0
    /\ nominal st' = nominal st0)
   \/ (exists j, (j < alphaExpNext_ st')%nat
                 /\ learningRateStar_ st' = candidate st0 j
                 /\ 0 < candidate st0 j
                 /\ descends st0 (nominalTotalCost_ st') (candidate st0 j) = true)) ->
  (inflight t' = inflight t \/ inflight t' = None) ->
  taskInv col st0 st' t' ->
  (forall j, alphaProcessed_ st' !! j = Some true ->
             alphaProcessed_ st !! j = Some true
             \/ (inflight t = Some j /\ inflight t' = None)) ->
  (forall j, inflight t = Some j -> inflight t' = None -> resolved col st0 st' j) ->
  (killIntegration st' = true \/ pc t' = AtKill ->
   (killIntegration st = true \/ (exists w t, ts !! w = Some t /\ pc t = AtKill))
   \/ (inflight t' = None
       /\ exists j0, (j0 < alphaExpNext_ st)%nat
                     /\ candidate st0 j0 <= learningRateStar_ st'
                     /\ forall w2 t2 j, ts !! w2 = Some t2 -> w2 <> w ->
                                        inflight t2 = Some j -> (j0 < j)%nat)) ->
  (pc t' = Finished ->
   pc t = Finished
   \/ exists j, (j < alphaExpNext_ st)%nat
                /\ (almost_ge (candidate st0 j) (DDP_Settings.minLearningRate_ (ddpSettings_ st0)) = false
                    \/ candidate st0 j <= learningRateStar_ st')) ->
  searchInv col st0 st' (<[w := t']> ts).
Proof.
  intros Inv Hw Hframe Hnext Hstar Hstar' Hfl Htask Hproc Hres Hkill Hfin.
  assert (Hsub : forall j, inflight t' = Some j -> inflight t = Some j).
  { intros j Hj. destruct Hfl as [<- | Hn]; [exact Hj | congruence]. }
  constructor.
  - eapply sameSearch_trans; [exact (inv_frame Inv) | exact Hframe].
  - pose proof (inv_star_nonneg Inv). lra.
  - exact Hstar'.
  - intros w' t'' Hl. apply insert_lookup_inv in Hl. destruct Hl as [[-> ->] | [Hne Hl]].
    + exact Htask.
    + eapply taskInv_mono; [| exact Hstar | exact (inv_tasks Inv _ _ Hl)]. lia.
  - intros w1 w2 t1 t2 j H1 H2 F1 F2.
    apply insert_lookup_inv in H1. apply insert_lookup_inv in H2.
    destruct H1 as [[-> ->] | [Hn1 H1]]; destruct H2 as [[-> ->] | [Hn2 H2]].
    + reflexivity.
    + exact (inv_unique Inv _ _ _ _ _ Hw H2 (Hsub _ F1) F2).
    + exact (inv_unique Inv _ _ _ _ _ H1 Hw F1 (Hsub _ F2)).
    + exact (inv_unique Inv _ _ _ _ _ H1 H2 F1 F2).
  - intros j Hj. rewrite Hnext. destruct (Hproc j Hj) as [Hold | [Hf Hn]].
    + destruct (inv_processed Inv _ Hold) as [Hlt Hnone]. split; [exact Hlt |].
      intros w' t'' Hl. apply insert_lookup_inv in Hl.
      destruct Hl as [[-> ->] | [Hne Hl]]; [| exact (Hnone _ _ Hl)].
      intros E. exact (Hnone _ _ Hw (Hsub _ E)).
    + pose proof (inv_tasks Inv _ _ Hw) as T. split.
      * unfold taskInv, inflight in T, Hf.
        destruct (pc t); try discriminate; inversion Hf; subst; tauto.
      * intros w' t'' Hl. apply insert_lookup_inv in Hl.
        destruct Hl as [[-> ->] | [Hne Hl]]; [congruence |].
        intros E. apply Hne. exact (inv_unique Inv _ _ _ _ _ Hl Hw E Hf).
  - intros j Hj. rewrite Hnext in Hj.
    destruct (inv_resolved Inv j Hj) as [(w' & t'' & Hl & Hf) | Hr].
    + destruct (decide (w' = w)) as [-> | Hne].
      * assert (t'' = t) by congruence. subst t''.
        destruct Hfl as [Hsame | Hnone].
        -- left. exists w, t'. split; [eapply insert_lookup_same; exact Hw | congruence].
        -- right. apply Hres; assumption.
      * left. exists w', t''. split; [| exact Hf]. apply insert_lookup_other; assumption.
    + right. eapply resolved_mono; [exact Hstar | exact Hr].
  - intros Hk. rewrite Hnext.
    assert (Hcases :
      (killIntegration st = true \/ (exists w t, ts !! w = Some t /\ pc t = AtKill))
      \/ (inflight t' = None
          /\ exists j0, (j0 < alphaExpNext_ st)%nat
                        /\ candidate st0 j0 <= learningRateStar_ st'
                        /\ forall w2 t2 j, ts !! w2 = Some t2 -> w2 <> w ->
                                           inflight t2 = Some j -> (j0 < j)%nat)).
    { destruct Hk as [Hk | (w' & t'' & Hl & Hp)]; [apply Hkill; left; exact Hk |].
      apply insert_lookup_inv in Hl. destruct Hl as [[-> ->] | [Hne Hl]].
      - apply Hkill. right. exact Hp.
      - left. right. exists w', t''. split; assumption. }
    destruct Hcases as [Hold | (Hnone & j0 & Hj0 & Hle & Hall)].
    + destruct (inv_kill Inv Hold) as (j0 & Hj0 & Hle & Hall).
      exists j0. split; [exact Hj0 |]. split; [lra |].
      intros w' t'' j Hl Hf. apply insert_lookup_inv in Hl.
      destruct Hl as [[-> ->] | [Hne Hl]]; [| exact (Hall _ _ _ Hl Hf)].
      exact (Hall _ _ _ Hw (Hsub _ Hf)).
    + exists j0. split; [exact Hj0 |]. split; [exact Hle |].
      intros w' t'' j Hl Hf. apply insert_lookup_inv in Hl.
      destruct Hl as [[-> ->] | [Hne Hl]]; [congruence |].
      exact (Hall _ _ _ Hl Hne Hf).
  - intros w' t'' Hl Hp. rewrite Hnext. apply insert_lookup_inv in Hl.
    destruct Hl as [[-> ->] | [Hne Hl]].
    + destruct (Hfin Hp) as [Hold | Hnew]; [| exact Hnew].
      destruct (inv_finished Inv _ _ Hw Hold) as (j & Hj & Hc).
      exists j. split; [exact Hj |]. destruct Hc as [Hc | Hc]; [left; exact Hc | right; lra].
    + destruct (inv_finished Inv _ _ Hl Hp) as (j & Hj & Hc).
      exists j. split; [exact Hj |]. destruct Hc as [Hc | Hc]; [left; exact Hc | right; lra].
Qed.

Lemma inflight_bound st ts w t j :
  searchInv col st0 st ts -> ts !! w = Some t -> inflight t = Some j ->
  (j < alphaExpNext_ st)%nat.
Proof.
  intros Inv Hw Hf. pose proof (inv_tasks Inv _ _ Hw) as T.
  unfold taskInv, inflight in T, Hf.
  destruct (pc t); try discriminate; inversion Hf; subst; tauto.
Qed.

Lemma step_skip_inv poll st ts w t st' t' j lr :
  searchInv col st0 st ts -> ts !! w = Some t -> pc t = AtSkipCheck j lr ->
  taskStep col poll st t = (st', t') ->
  searchInv col st0 st' (<[w := t']> ts).
Proof.
  intros Inv Hw Hpc Hstep.
  destruct (taskStep_skip col poll st t st' t' j lr Hpc Hstep) as [-> Hcase].
  pose proof (inv_tasks Inv _ _ Hw) as T. unfold taskInv in T. rewrite Hpc in T.
  destruct T as [Hj Hlr].
  assert (Hfl : inflight t = Some j) by (unfold inflight; rewrite Hpc; reflexivity).
  destruct Hcase as [[Hlt Hpc'] | (Hge & Hpc' & Hcs)].
  - apply Qltb_lt in Hlt.
    apply (inv_update st ts w t st t' Inv Hw (sameSearch_refl st) eq_refl).
    + lra.
    + exact (inv_star Inv).
    + right. unfold inflight. rewrite Hpc'. reflexivity.
    + unfold taskInv. rewrite Hpc'. trivial.
    + intros k Hk. left. exact Hk.
    + intros k Hk _. rewrite Hfl in Hk. inversion Hk; subst k.
      right. left. rewrite <- Hlr. lra.
    + intros [Hk | Hk]; [left; left; exact Hk | congruence].
    + intros _. right. exists j. split; [exact Hj |]. right. rewrite <- Hlr. lra.
  - apply (inv_update st ts w t st t' Inv Hw (sameSearch_refl st) eq_refl).
    + lra.
    + exact (inv_star Inv).
    + left. unfold inflight. rewrite Hpc', Hpc. reflexivity.
    + unfold taskInv. rewrite Hpc'. repeat split; [exact Hj | exact Hlr |].
      rewrite Hcs. destruct (inv_frame Inv) as (_ & _ & _ & _ & _ & ->). reflexivity.
    + intros k Hk. left. exact Hk.
    + intros k _ Hn. unfold inflight in Hn. rewrite Hpc' in Hn. discriminate.
    + intros [Hk | Hk]; [left; left; exact Hk | congruence].
    + intros Hp. congruence.
Qed.

Lemma step_worker_inv poll st ts w t st' t' j lr :
  searchInv col st0 st ts -> ts !! w = Some t -> pc t = AtWorker j lr ->
  taskStep col poll st t = (st', t') ->
  searchInv col st0 st' (<[w := t']> ts).
Proof using max_nonneg rate_unit.
  intros Inv Hw Hpc Hstep.
  pose proof (taskStep_frame col poll st t st' t' Hstep) as Hframe.
  destruct (taskStep_worker col poll st t st' t' j lr Hpc Hstep) as (Hview & _ & Hpc' & Hloc).
  unfold view in Hview. inversion Hview as [[Hnext Hstar Hproc Hkill Hperf Hcs Hnom]].
  pose proof (inv_tasks Inv _ _ Hw) as T. unfold taskInv in T. rewrite Hpc in T.
  destruct T as (Hj & Hlr & Hlcs).
  assert (Hfl : inflight t = Some j) by (unfold inflight; rewrite Hpc; reflexivity).
  apply (inv_update st ts w t st' t' Inv Hw Hframe Hnext).
  - rewrite Hstar. lra.
  - unfold nominalTotalCost_. rewrite Hnext, Hstar, Hperf, Hcs, Hnom. exact (inv_star Inv).
  - left. unfold inflight. rewrite Hpc', Hpc. reflexivity.
  - unfold taskInv. rewrite Hpc', Hnext, Hstar. split; [exact Hj |]. split; [exact Hlr |].
    destruct (poll && killIntegration st) eqn:Hint.
    + right. apply andb_true_iff in Hint. destruct Hint as [_ Hk].
      destruct (inv_kill Inv (or_introl Hk)) as (j0 & Hj0 & Hle & Hall).
      pose proof (Hall _ _ _ Hw Hfl) as Hlt.
      pose proof (candidate_antitone st0 j0 j max_nonneg rate_unit ltac:(lia)). lra.
    + left. rewrite Hloc.
      destruct (inv_frame Inv) as (-> & -> & -> & _).
      rewrite Hlr. apply lineSearchWorker_merit. exact Hlcs.
  - intros k Hk. left. rewrite <- Hproc. exact Hk.
  - intros k _ Hn. unfold inflight in Hn. rewrite Hpc' in Hn. discriminate.
  - intros [Hk | Hk]; [left; left; congruence | congruence].
  - intros Hp. congruence.
Qed.

Lemma allProcessedBelow_lookup st j k :
  allProcessedBelow st j = true -> (k < j)%nat -> alphaProcessed_ st !! k = Some true.
Proof.
  unfold allProcessedBelow. rewrite forallb_forall. intros H Hk.
  specialize (H k). rewrite in_seq in H. specialize (H ltac:(lia)).
  rewrite nth_lookup in H. destruct (alphaProcessed_ st !! k) as [b |]; cbn in H;
    [congruence | discriminate].
Qed.

Lemma step_commit_inv poll st ts w t st' t' j lr :
  searchInv col st0 st ts -> ts !! w = Some t -> pc t = AtCommit j lr ->
  taskStep col poll st t = (st', t') ->
  searchInv col st0 st' (<[w := t']> ts).
Proof.
  intros Inv Hw Hpc Hstep.
  pose proof (taskStep_frame col poll st t st' t' Hstep) as Hframe.
  destruct (taskStep_commit col poll st t st' t' j lr Hpc Hstep)
    as (Hnext & Hkill & Hproc & _ & Hcase).
  pose proof (inv_tasks Inv _ _ Hw) as T. unfold taskInv in T. rewrite Hpc in T.
  destruct T as (Hj & Hlr & Hmerit).
  assert (Hfl : inflight t = Some j) by (unfold inflight; rewrite Hpc; reflexivity).
  pose proof (inv_star_nonneg Inv) as Hnn.
  assert (Hprocessed : forall k, alphaProcessed_ st' !! k = Some true ->
            alphaProcessed_ st !! k = Some true \/ k = j).
  { intros k Hk. rewrite Hproc in Hk. apply insert_lookup_inv in Hk.
    destruct Hk as [[-> _] | [_ Hk]]; [right; reflexivity | left; exact Hk]. }
  destruct Hcase as [(Hacc & Hstar & Hperf & Hcs & Hnom & Hpc')
                    | (Hrej & Hstar & Hperf & Hcs & Hnom & Hpc')].
  - unfold accepts in Hacc. apply andb_true_iff in Hacc. destruct Hacc as [Hdesc Hgt].
    apply Qltb_lt in Hgt.
    assert (Hfl' : inflight t' = None).
    { unfold inflight. rewrite Hpc'. destruct (allProcessedBelow st j); reflexivity. }
    apply (inv_update st ts w t st' t' Inv Hw Hframe Hnext).
    + rewrite Hstar. lra.
    + right. exists j. rewrite Hnext, Hstar. split; [exact Hj |]. split; [exact Hlr |].
      split; [rewrite <- Hlr; lra |].
      unfold descends, nominalTotalCost_. rewrite Hperf, <- Hlr.
      destruct (inv_frame Inv) as (_ & _ & _ & _ & <- & _). exact Hdesc.
    + right. exact Hfl'.
    + unfold taskInv. rewrite Hpc'. destruct (allProcessedBelow st j); trivial.
    + intros k Hk. destruct (Hprocessed k Hk) as [Hold | ->]; [left; exact Hold |].
      right. split; assumption.
    + intros k Hk _. rewrite Hfl in Hk. inversion Hk; subst k.
      right. left. rewrite Hstar, <- Hlr. lra.
    + intros [Hk | Hk]; [left; left; congruence |].
      right. split; [exact Hfl' |].
      rewrite Hpc' in Hk. destruct (allProcessedBelow st j) eqn:Hall; [| discriminate].
      exists j. split; [exact Hj |]. split; [rewrite Hstar, <- Hlr; lra |].
      intros w2 t2 k H2 Hne Hf2.
      destruct (Nat.lt_trichotomy j k) as [Hlt | [Heq | Hgt']]; [exact Hlt | |].
      * subst k. exfalso. apply Hne. exact (inv_unique Inv _ _ _ _ _ H2 Hw Hf2 Hfl).
      * exfalso. pose proof (allProcessedBelow_lookup st j k Hall Hgt') as Hp.
        destruct (inv_processed Inv _ Hp) as [_ Hnone]. exact (Hnone _ _ H2 Hf2).
    + intros Hp. rewrite Hpc' in Hp. destruct (allProcessedBelow st j); discriminate.
  - assert (Hfl' : inflight t' = None) by (unfold inflight; rewrite Hpc'; reflexivity).
    apply (inv_update st ts w t st' t' Inv Hw Hframe Hnext).
    + rewrite Hstar. lra.
    + unfold nominalTotalCost_. rewrite Hnext, Hstar, Hperf, Hcs, Hnom. exact (inv_star Inv).
    + right. exact Hfl'.
    + unfold taskInv. rewrite Hpc'. trivial.
    + intros k Hk. destruct (Hprocessed k Hk) as [Hold | ->]; [left; exact Hold |].
      right. split; assumption.
    + intros k Hk _. rewrite Hfl in Hk. inversion Hk; subst k.
      unfold resolved. rewrite Hstar.
      destruct Hmerit as [Hm | Hle]; [| right; left; exact Hle].
      unfold accepts in Hrej. apply andb_false_iff in Hrej.
      destruct Hrej as [Hd | Hs].
      * right. right. unfold descends. rewrite <- Hm, <- Hlr.
        destruct (inv_frame Inv) as (_ & _ & _ & _ & <- & _). exact Hd.
      * right. left. apply Qltb_ge in Hs. rewrite <- Hlr. exact Hs.
    + intros [Hk | Hk]; [left; left; congruence | congruence].
    + intros Hp. congruence.
Qed.

Lemma step_kill_inv poll st ts w t st' t' :
  searchInv col st0 st ts -> ts !! w = Some t -> pc t = AtKill ->
  taskStep col poll st t = (st', t') ->
  searchInv col st0 st' (<[w := t']> ts).
Proof.
  intros Inv Hw Hpc Hstep.
  pose proof (taskStep_frame col poll st t st' t' Hstep) as Hframe.
  destruct (taskStep_kill col poll st t st' t' Hpc Hstep)
    as (Hkill & Hnext & Hstar & Hproc & Hperf & Hcs & Hnom & _ & Hpc').
  assert (Hold : killIntegration st = true \/ (exists w t, ts !! w = Some t /\ pc t = AtKill)).
  { right. exists w, t. split; assumption. }
  apply (inv_update st ts w t st' t' Inv Hw Hframe Hnext).
  - rewrite Hstar. lra.
  - unfold nominalTotalCost_. rewrite Hnext, Hstar, Hperf, Hcs, Hnom. exact (inv_star Inv).
  - right. unfold inflight. rewrite Hpc'. reflexivity.
  - unfold taskInv. rewrite Hpc'. trivial.
  - intros k Hk. left. rewrite <- Hproc. exact Hk.
  - intros k Hk. unfold inflight in Hk. rewrite Hpc in Hk. discriminate.
  - intros _. left. exact Hold.
  - intros _. right. destruct (inv_kill Inv Hold) as (j0 & Hj0 & Hle & _).
    exists j0. split; [exact Hj0 |]. right. rewrite Hstar. exact Hle.
Qed.

Lemma stepThread_inv w poll st ts :
  searchInv col st0 st ts ->
  searchInv col st0 (fst (stepThread col w poll (st, ts)))
            (snd (stepThread col w poll (st, ts))).
Proof using max_nonneg rate_unit.
  intros Inv. unfold stepThread. cbn [fst snd].
  destruct (ts !! w) as [t |] eqn:Hw; [| exact Inv].
  destruct (taskStep col poll st t) as [st' t'] eqn:Hstep. cbn [fst snd].
  destruct (pc t) as [| j lr | j lr | j lr | |] eqn:Hpc.
  - eapply step_claim_inv; eassumption.
  - eapply step_skip_inv; eassumption.
  - eapply step_worker_inv; eassumption.
  - eapply step_commit_inv; eassumption.
  - eapply step_kill_inv; eassumption.
  - destruct (taskStep_finished col poll st t st' t' Hpc Hstep) as [-> ->].
    rewrite list_insert_id by exact Hw. exact Inv.
Qed.

End SearchInvariant.

Section SearchRuns.

Variable col : Collaborators.
Variable st0 : DDP.
Hypothesis max_nonneg : 0 <= maxLearningRate_ st0.
Hypothesis rate_unit : 0 <= DDP_Settings.lineSearchContractionRate_ (ddpSettings_ st0) <= 1.

Lemma runSchedule_inv sched :
  forall st ts,
    searchInv col st0 st ts ->
    searchInv col st0 (fst (runSchedule col sched (st, ts)))
              (snd (runSchedule col sched (st, ts))).
Proof using max_nonneg rate_unit.
  induction sched as [| [w poll] rest IH]; intros st ts Inv; cbn [runSchedule].
  - exact Inv.
  - pose proof (stepThread_inv col st0 max_nonneg rate_unit w poll st ts Inv) as H.
    destruct (stepThread col w poll (st, ts)) as [st1 ts1]. apply IH. exact H.
Qed.

Lemma drain_inv fuel :
  forall st ts,
    searchInv col st0 st ts ->
    searchInv col st0 (fst (drain col fuel (st, ts))) (snd (drain col fuel (st, ts))).
Proof using max_nonneg rate_unit.
  induction fuel as [| fuel IH]; intros st ts Inv; cbn [drain].
  - exact Inv.
  - cbn [snd]. destruct (firstUnfinished ts) as [w |]; [| exact Inv].
    pose proof (stepThread_inv col st0 max_nonneg rate_unit w false st ts Inv) as H.
    destruct (stepThread col w false (st, ts)) as [st1 ts1]. apply IH. exact H.
Qed.

Lemma initialThreads_lookup (st : DDP) (w : nat) (t : task) :
  initialThreads col st !! w = Some t ->
  t = mkTask AtClaim (initialLocals (indeterminate col w) (numPartitions_ (problem st))).
Proof.
  unfold initialThreads. rewrite list_lookup_fmap. intros H.
  destruct (seq 0 (DDP_Settings.nThreads_ (ddpSettings_ st)) !! w) as [k |] eqn:E;
    [| discriminate].
  apply lookup_seq in E. destruct E as [-> _]. cbn in H. congruence.
Qed.

Lemma initialThreads_length (st : DDP) :
  length (initialThreads col st) = DDP_Settings.nThreads_ (ddpSettings_ st).
Proof. unfold initialThreads. rewrite length_map, length_seq. reflexivity. Qed.

Lemma initialThreads_pc (st : DDP) (w : nat) (t : task) :
  initialThreads col st !! w = Some t -> pc t = AtClaim.
Proof. intros H. apply initialThreads_lookup in H. subst t. reflexivity. Qed.

Lemma searchInv_start (ts : list task) :
  searchStart st0 -> (forall w t, ts !! w = Some t -> pc t = AtClaim) ->
  searchInv col st0 st0 ts.
Proof.
  intros (Hstar & Hnext & Hkill & Hproc) Hall.
  constructor.
  - apply sameSearch_refl.
  - rewrite Hstar. lra.
  - left. repeat split. exact Hstar.
  - intros w t H. unfold taskInv. rewrite (Hall _ _ H). trivial.
  - intros w1 w2 t1 t2 j H1 _ F1 _. unfold inflight in F1. rewrite (Hall _ _ H1) in F1.
    discriminate.
  - intros j Hj. exfalso. exact (Hproc j Hj).
  - intros j Hj. rewrite Hnext in Hj. lia.
  - intros [Hk | (w & t & H & Hp)]; [congruence |]. rewrite (Hall _ _ H) in Hp. discriminate.
  - intros w t H Hp. rewrite (Hall _ _ H) in Hp. discriminate.
Qed.

Lemma forallb_isFinished_lookup ts w t :
  forallb isFinished ts = true -> ts !! w = Some t -> pc t = Finished.
Proof.
  rewrite forallb_forall. intros H Hw.
  assert (Hin : In t ts) by (apply list_elem_of_In; eapply list_elem_of_lookup_2; exact Hw).
  specialize (H t Hin). unfold isFinished in H. destruct (pc t); congruence.
Qed.

(** When every thread has left its loop, every exponent is resolved. *)
Lemma searchInv_finished st ts j :
  searchInv col st0 st ts -> forallb isFinished ts = true -> (0 < length ts)%nat ->
  resolved col st0 st j.
Proof using max_nonneg rate_unit.
  intros Inv Hfin Hlen.
  destruct (lookup_lt_is_Some_2 ts 0 Hlen) as [t Ht].
  pose proof (forallb_isFinished_lookup ts 0 t Hfin Ht) as Hpc.
  destruct (inv_finished Inv _ _ Ht Hpc) as (jc & Hjc & Hcert).
  destruct (le_lt_dec jc j) as [Hge | Hlt].
  - pose proof (candidate_antitone st0 jc j max_nonneg rate_unit Hge) as Hmono.
    destruct Hcert as [Hmin | Hle]; [left | right; left; lra].
    unfold almost_ge in *. rewrite negb_false_iff in *.
    apply Qltb_lt in Hmin. apply Qltb_lt. lra.
  - destruct (inv_resolved Inv j ltac:(lia)) as [(w & t' & Hl & Hf) | Hr]; [| exact Hr].
    pose proof (forallb_isFinished_lookup ts w t' Hfin Hl) as Hpc'.
    unfold inflight in Hf. rewrite Hpc' in Hf. discriminate.
Qed.

Lemma stepThread_length w poll st ts :
  length (snd (stepThread col w poll (st, ts))) = length ts.
Proof.
  unfold stepThread. cbn [fst snd]. destruct (ts !! w) as [t |]; [| reflexivity].
  destruct (taskStep col poll st t) as [st1 t1]. cbn [snd]. apply length_insert.
Qed.

Lemma runSchedule_length sched :
  forall st ts, length (snd (runSchedule col sched (st, ts))) = length ts.
Proof.
  induction sched as [| [w poll] rest IH]; intros st ts; cbn [runSchedule].
  - reflexivity.
  - pose proof (stepThread_length w poll st ts) as H.
    destruct (stepThread col w poll (st, ts)) as [st1 ts1]. rewrite IH. exact H.
Qed.

Lemma drain_length fuel :
  forall st ts, length (snd (drain col fuel (st, ts))) = length ts.
Proof.
  induction fuel as [| fuel IH]; intros st ts; cbn [drain].
  - reflexivity.
  - cbn [snd]. destruct (firstUnfinished ts) as [w |]; [| reflexivity].
    pose proof (stepThread_length w false st ts) as H.
    destruct (stepThread col w false (st, ts)) as [st1 ts1]. rewrite IH. exact H.
Qed.

Lemma runLineSearchTasks_inv fuel sched st' :
  searchStart st0 ->
  runLineSearchTasks col fuel sched st0 = Ok st' ->
  exists ts, searchInv col st0 st' ts
             /\ forallb isFinished ts = true
             /\ length ts = DDP_Settings.nThreads_ (ddpSettings_ st0).
Proof using max_nonneg rate_unit.
  intros Hstart. unfold runLineSearchTasks.
  set (threads := initialThreads col st0).
  pose proof (searchInv_start threads Hstart (initialThreads_pc st0)) as Inv0.
  pose proof (runSchedule_inv sched st0 threads Inv0) as Inv1.
  assert (Hlen1 : length (snd (runSchedule col sched (st0, threads)))
                  = DDP_Settings.nThreads_ (ddpSettings_ st0)).
  { rewrite runSchedule_length. unfold threads. apply initialThreads_length. }
  destruct (runSchedule col sched (st0, threads)) as [st1 ts1]. cbn [fst snd] in *.
  pose proof (drain_inv fuel st1 ts1 Inv1) as Inv2.
  assert (Hlen2 : length (snd (drain col fuel (st1, ts1)))
                  = DDP_Settings.nThreads_ (ddpSettings_ st0)).
  { rewrite drain_length. exact Hlen1. }
  destruct (drain col fuel (st1, ts1)) as [st2 ts2]. cbn [fst snd] in *.
  destruct (forallb isFinished ts2) eqn:Hfin; [| discriminate].
  intros H. inversion H; subst st'. exists ts2.
  split; [exact Inv2 |]. split; [exact Hfin | exact Hlen2].
Qed.

End SearchRuns.

(** *** The parallel section ends *)

Section SearchEnds.

Variable col : Collaborators.
Variable st0 : DDP.
Variable J : nat.
Hypothesis below_min : forall j, (J <= j)%nat ->
  almost_ge (candidate st0 j) (DDP_Settings.minLearningRate_ (ddpSettings_ st0)) = false.

Lemma tasksWeight_insert ts w t t' :
  ts !! w = Some t ->
  (tasksWeight (<[w := t']> ts) + pcWeight (pc t) = tasksWeight ts + pcWeight (pc t'))%nat.
Proof.
  unfold tasksWeight.
  revert w. induction ts as [| a ts IH]; intros w Hw; [discriminate |].
  destruct w as [| w]; simpl in Hw |- *.
  - inversion Hw; subst. lia.
  - specialize (IH w Hw). lia.
Qed.

Lemma taskStep_measure poll st t st' t' :
  sameSearch st0 st -> taskStep col poll st t = (st', t') ->
  (5 * (J - alphaExpNext_ st') + pcWeight (pc t')
   <= 5 * (J - alphaExpNext_ st) + pcWeight (pc t))%nat
  /\ (isFinished t = false ->
      (5 * (J - alphaExpNext_ st') + pcWeight (pc t')
       < 5 * (J - alphaExpNext_ st) + pcWeight (pc t))%nat).
Proof using below_min.
  intros Hframe Hstep. destruct (pc t) as [| j lr | j lr | j lr | |] eqn:Hpc.
  - destruct (taskStep_claim col poll st t st' t' Hpc Hstep)
      as (Hnext & _ & _ & _ & _ & _ & _ & _ & Hpc').
    rewrite (candidate_frame st0 st _ Hframe) in Hpc'.
    destruct Hframe as (Hs & _). rewrite Hs in Hpc'. rewrite Hnext, Hpc'.
    destruct (le_lt_dec J (alphaExpNext_ st)) as [Hge | Hlt].
    + rewrite (below_min _ Hge). cbn [pcWeight]. split; [lia | intros _; lia].
    + destruct (almost_ge _ _); cbn [pcWeight]; split; try (intros _); lia.
  - destruct (taskStep_skip col poll st t st' t' j lr Hpc Hstep) as [-> Hcase].
    destruct Hcase as [[_ ->] | (_ & -> & _)]; cbn [pcWeight]; split; try (intros _); lia.
  - destruct (taskStep_worker col poll st t st' t' j lr Hpc Hstep) as (Hview & _ & -> & _).
    unfold view in Hview.
    inversion Hview as [[Hnext Hstar Hproc Hkill Hperf Hcs Hnom]]. rewrite Hnext.
    cbn [pcWeight]. split; try (intros _); lia.
  - destruct (taskStep_commit col poll st t st' t' j lr Hpc Hstep) as (Hnext & _ & _ & _ & Hcase).
    rewrite Hnext.
    destruct Hcase as [(_ & _ & _ & _ & _ & ->) | (_ & _ & _ & _ & _ & ->)];
      [destruct (allProcessedBelow st j) |]; cbn [pcWeight]; split; try (intros _); lia.
  - destruct (taskStep_kill col poll st t st' t' Hpc Hstep)
      as (_ & Hnext & _ & _ & _ & _ & _ & _ & ->).
    rewrite Hnext. cbn [pcWeight]. split; try (intros _); lia.
  - destruct (taskStep_finished col poll st t st' t' Hpc Hstep) as [-> ->].
    rewrite Hpc. split; [lia |]. unfold isFinished. rewrite Hpc. discriminate.
Qed.

Lemma stepThread_measure w poll st ts :
  sameSearch st0 st ->
  sameSearch st0 (fst (stepThread col w poll (st, ts)))
  /\ (searchMeasure J (stepThread col w poll (st, ts)) <= searchMeasure J (st, ts))%nat
  /\ (forall t, ts !! w = Some t -> isFinished t = false ->
        (searchMeasure J (stepThread col w poll (st, ts)) < searchMeasure J (st, ts))%nat).
Proof using below_min.
  intros Hframe. unfold stepThread, searchMeasure. cbn [fst snd].
  destruct (ts !! w) as [t |] eqn:Hw.
  - destruct (taskStep col poll st t) as [st' t'] eqn:Hstep. cbn [fst snd].
    pose proof (taskStep_frame col poll st t st' t' Hstep) as Hf.
    destruct (taskStep_measure poll st t st' t' Hframe Hstep) as [Hle Hlt].
    pose proof (tasksWeight_insert ts w t t' Hw) as Hins.
    split; [eapply sameSearch_trans; eassumption |]. split; [lia |].
    intros t0 Ht0 Hunf. inversion Ht0; subst t0. specialize (Hlt Hunf). lia.
  - cbn [fst snd]. split; [exact Hframe |]. split; [lia |]. intros t H. discriminate.
Qed.

Lemma runSchedule_measure sched :
  forall st ts,
    sameSearch st0 st ->
    sameSearch st0 (fst (runSchedule col sched (st, ts)))
    /\ (searchMeasure J (runSchedule col sched (st, ts)) <= searchMeasure J (st, ts))%nat.
Proof using below_min.
  induction sched as [| [w poll] rest IH]; intros st ts Hframe; cbn [runSchedule].
  - split; [exact Hframe | lia].
  - destruct (stepThread_measure w poll st ts Hframe) as (Hf & Hle & _).
    destruct (stepThread col w poll (st, ts)) as [st1 ts1]. cbn [fst] in Hf.
    destruct (IH st1 ts1 Hf) as [Hf' Hle']. split; [exact Hf' | lia].
Qed.

Lemma firstUnfinished_None ts :
  firstUnfinished ts = None -> forallb isFinished ts = true.
Proof.
  induction ts as [| t ts IH]; cbn; [reflexivity |].
  destruct (isFinished t); [| discriminate].
  destruct (firstUnfinished ts); [discriminate |]. intros _. apply IH. reflexivity.
Qed.

Lemma firstUnfinished_Some ts w :
  firstUnfinished ts = Some w -> exists t, ts !! w = Some t /\ isFinished t = false.
Proof.
  revert w. induction ts as [| t ts IH]; intros w; cbn; [discriminate |].
  destruct (isFinished t) eqn:Hf.
  - destruct (firstUnfinished ts) as [w' |]; [| discriminate].
    intros H. inversion H; subst. apply IH. reflexivity.
  - intros H. inversion H; subst. exists t. split; [reflexivity | exact Hf].
Qed.

Lemma drain_finishes fuel :
  forall st ts,
    sameSearch st0 st -> (searchMeasure J (st, ts) <= fuel)%nat ->
    forallb isFinished (snd (drain col fuel (st, ts))) = true.
Proof using below_min.
  induction fuel as [| fuel IH]; intros st ts Hframe Hm; cbn [drain]; cbn [snd].
  - destruct (firstUnfinished ts) as [w |] eqn:Hfu; [| apply firstUnfinished_None; exact Hfu].
    exfalso. destruct (firstUnfinished_Some ts w Hfu) as (t & Hw & Hunf).
    destruct (stepThread_measure w false st ts Hframe) as (_ & _ & Hlt).
    specialize (Hlt t Hw Hunf). lia.
  - destruct (firstUnfinished ts) as [w |] eqn:Hfu; [| apply firstUnfinished_None; exact Hfu].
    destruct (firstUnfinished_Some ts w Hfu) as (t & Hw & Hunf).
    destruct (stepThread_measure w false st ts Hframe) as (Hf & _ & Hlt).
    specialize (Hlt t Hw Hunf).
    destruct (stepThread col w false (st, ts)) as [st1 ts1]. cbn [fst] in Hf.
    apply IH; [exact Hf | lia].
Qed.

Lemma tasksWeight_AtClaim (ts : list task) :
  Forall (fun t => pc t = AtClaim) ts -> tasksWeight ts = length ts.
Proof.
  induction 1 as [| t ts Ht _ IH]; cbn; [reflexivity |].
  unfold tasksWeight in IH. rewrite IH, Ht. reflexivity.
Qed.

Lemma tasksWeight_initialThreads (st : DDP) :
  tasksWeight (initialThreads col st) = DDP_Settings.nThreads_ (ddpSettings_ st).
Proof.
  rewrite tasksWeight_AtClaim; [apply initialThreads_length |].
  apply Forall_lookup. intros w t H. apply (initialThreads_pc col st w t H).
Qed.

(** With enough fuel the barrier is reached, whatever the interleaving. *)
Lemma runLineSearchTasks_returns fuel sched :
  alphaExpNext_ st0 = O ->
  (5 * J + DDP_Settings.nThreads_ (ddpSettings_ st0) <= fuel)%nat ->
  exists st', runLineSearchTasks col fuel sched st0 = Ok st'.
Proof using below_min.
  intros Hnext Hfuel. unfold runLineSearchTasks.
  set (threads := initialThreads col st0).
  destruct (runSchedule_measure sched st0 threads (sameSearch_refl st0)) as [Hf Hle].
  assert (Hm0 : searchMeasure J (st0, threads)
                = (5 * J + DDP_Settings.nThreads_ (ddpSettings_ st0))%nat).
  { unfold searchMeasure, threads. cbn [fst snd]. rewrite Hnext, tasksWeight_initialThreads.
    lia. }
  destruct (runSchedule col sched (st0, threads)) as [st1 ts1]. cbn [fst] in Hf.
  pose proof (drain_finishes fuel st1 ts1 Hf ltac:(lia)) as Hfin.
  destruct (drain col fuel (st1, ts1)) as [st2 ts2]. cbn [snd] in Hfin.
  rewrite Hfin. exists st2. reflexivity.
Qed.

End SearchEnds.

(** *** lineSearch *)

Section LineSearch.

Variable col : Collaborators.

Lemma rolloutTrajectory_length pb interrupted cs r :
  rolloutTrajectory col pb interrupted cs = Ok r -> length cs = numPartitions_ pb.
Proof.
  unfold rolloutTrajectory. destruct (Nat.eqb (length cs) (numPartitions_ pb)) eqn:E.
  - intros _. apply Nat.eqb_eq. exact E.
  - discriminate.
Qed.

Lemma baselineRollout_Ok st stB :
  baselineRollout col st = Ok stB ->
  exists T avg ise cost,
    rolloutTrajectory col (problem st) (killIntegration st) (nominalControllersStock_ st)
    = Ok (T, avg)
    /\ calculateRolloutConstraintsISE col (problem st) T = Ok ise
    /\ calculateRolloutCost col (problem st) T = Ok cost
    /\ stB = set_performance
               (performanceOf
                  (calculateRolloutMerit (ddpSettings_ st) (iteration_ st) cost
                     (ise_stateInputEq ise) (ise_stateEq ise) (ise_stateEqFinal ise)
                     (ise_inequalityPenalty ise)) ise)
               (set_rolloutLog (rolloutLog st ++ [BaselineRollout]) (set_nominal T st)).
Proof.
  unfold baselineRollout. intros H.
  destruct (rolloutTrajectory col _ _ _) as [[T avg] | e] eqn:Hr; [| discriminate].
  cbn in H.
  destruct (calculateRolloutConstraintsISE col (problem st) T) as [ise | e] eqn:Hi;
    [| discriminate].
  cbn in H.
  destruct (calculateRolloutCost col (problem st) T) as [cost | e] eqn:Hc; [| discriminate].
  cbn in H. inversion H. exists T, avg, ise, cost.
  split; [reflexivity |]. split; [exact Hi |]. split; [exact Hc | reflexivity].
Qed.

Lemma baselineRollout_frame st stB :
  baselineRollout col st = Ok stB ->
  ddpSettings_ stB = ddpSettings_ st
  /\ problem stB = problem st
  /\ iteration_ stB = iteration_ st
  /\ maxLearningRate_ stB = maxLearningRate_ st
  /\ killIntegration stB = killIntegration st
  /\ nominalControllersStock_ stB = nominalControllersStock_ st
  /\ rolloutLog stB = rolloutLog st ++ [BaselineRollout]
  /\ length (nominalControllersStock_ st) = numPartitions_ (problem st).
Proof.
  intros H. destruct (baselineRollout_Ok st stB H) as (T & avg & ise & cost & Hr & _ & _ & ->).
  repeat (split; [reflexivity |]). eapply rolloutTrajectory_length. exact Hr.
Qed.

Lemma lineSearch_cases fuel sched st st' :
  lineSearch col fuel sched st = Ok st' ->
  exists stB,
    baselineRollout col st = Ok stB
    /\ ((noLineSearch col (ddpSettings_ st) = true
         /\ st' = clearFeedforwardIncrements (lineSearchSeed stB))
        \/ (noLineSearch col (ddpSettings_ st) = false
            /\ exists st1,
                 runLineSearchTasks col fuel sched (lineSearchStart col (lineSearchSeed stB))
                 = Ok st1
                 /\ st' = clearFeedforwardIncrements (set_killIntegration false st1))).
Proof.
  unfold lineSearch. intros H.
  destruct (baselineRollout col st) as [stB | e] eqn:HB; [| discriminate].
  exists stB. split; [reflexivity |]. cbn in H.
  destruct (baselineRollout_frame st stB HB) as (Hs & _).
  change (ddpSettings_ (lineSearchSeed stB)) with (ddpSettings_ stB) in H.
  rewrite Hs in H.
  destruct (noLineSearch col (ddpSettings_ st)).
  - left. split; [reflexivity |]. inversion H. reflexivity.
  - right. split; [reflexivity |].
    destruct (runLineSearchTasks col fuel sched _) as [st1 | e]; [| discriminate].
    cbn in H. inversion H. exists st1. split; reflexivity.
Qed.

Lemma searchStart_lineSearchStart stB :
  killIntegration stB = false -> searchStart (lineSearchStart col (lineSearchSeed stB)).
Proof.
  intros Hk. unfold searchStart. repeat split.
  - exact Hk.
  - intros j H. cbn in H. apply lookup_replicate in H. destruct H as [H _]. discriminate.
Qed.

(** The exponents' learning rates do not depend on the baseline rollout. *)
Lemma candidate_lineSearchStart st stB j :
  baselineRollout col st = Ok stB ->
  candidate (lineSearchStart col (lineSearchSeed stB)) j = candidate st j.
Proof.
  intros HB. destruct (baselineRollout_frame st stB HB) as (Hs & _ & _ & Hm & _).
  unfold candidate.
  change (maxLearningRate_ (lineSearchStart col (lineSearchSeed stB)))
    with (maxLearningRate_ stB).
  change (ddpSettings_ (lineSearchStart col (lineSearchSeed stB))) with (ddpSettings_ stB).
  rewrite Hs, Hm. reflexivity.
Qed.

(** C1 (amended). A line search that returns commits a learning rate
    [0 <= learningRateStar <= maxLearningRate]; when it is positive the
    recorded merit is below [M0 * (1 - 1e-3 * learningRateStar)], where [M0]
    is the merit of the baseline rollout of this very line search; the
    committed rate is [0] or one of the candidates; and once the threads
    have passed the barrier, every candidate not below [minLearningRate]
    whose merit satisfies the descent condition is at most the committed
    rate, for every interleaving of the threads and every interruption by
    the kill flag. *)
Theorem lineSearch_greedy fuel sched (st st' : DDP) :
  0 <= maxLearningRate_ st ->
  0 <= DDP_Settings.lineSearchContractionRate_ (ddpSettings_ st) <= 1 ->
  killIntegration st = false ->
  lineSearch col fuel sched st = Ok st' ->
  exists stB,
    baselineRollout col st = Ok stB
    /\ 0 <= learningRateStar_ st' <= maxLearningRate_ st
    /\ (0 < learningRateStar_ st' ->
        sltb (nominalTotalCost_ st')
             (smul (nominalTotalCost_ stB)
                   (Finite (1 - (1 # 1000) * learningRateStar_ st'))) = true)
    /\ (learningRateStar_ st' = 0 \/ exists j, learningRateStar_ st' = candidate st j)
    /\ (noLineSearch col (ddpSettings_ st) = false ->
        (0 < DDP_Settings.nThreads_ (ddpSettings_ st))%nat ->
        forall j,
          almost_ge (candidate st j) (DDP_Settings.minLearningRate_ (ddpSettings_ st)) = true ->
          sltb (candidateMerit col (lineSearchStart col (lineSearchSeed stB)) (candidate st j))
               (smul (nominalTotalCost_ stB) (Finite (1 - (1 # 1000) * candidate st j)))
          = true ->
          candidate st j <= learningRateStar_ st').
Proof.
  intros Hmax Hrate Hkill Hls.
  destruct (lineSearch_cases fuel sched st st' Hls) as (stB & HB & Hcase).
  exists stB. split; [exact HB |].
  destruct (baselineRollout_frame st stB HB) as (Hs & Hp & Hi & Hm & Hk & Hc & _ & _).
  destruct Hcase as [[Hearly ->] | (Hpar & st1 & Hrun & ->)].
  - change (learningRateStar_ (clearFeedforwardIncrements (lineSearchSeed stB))) with 0.
    split; [lra |]. split; [intros H; lra |]. split; [left; reflexivity |].
    intros H. congruence.
  - set (st0 := lineSearchStart col (lineSearchSeed stB)) in *.
    assert (Hmax0 : 0 <= maxLearningRate_ st0)
      by (change (0 <= maxLearningRate_ stB); rewrite Hm; exact Hmax).
    assert (Hrate0 : 0 <= DDP_Settings.lineSearchContractionRate_ (ddpSettings_ st0) <= 1).
    { change (ddpSettings_ st0) with (ddpSettings_ stB). rewrite Hs. exact Hrate. }
    assert (Hstart : searchStart st0)
      by (apply searchStart_lineSearchStart; congruence).
    destruct (runLineSearchTasks_inv col st0 Hmax0 Hrate0 fuel sched st1 Hstart Hrun)
      as (ts & Inv & Hfin & Hlen).
    change (learningRateStar_ (clearFeedforwardIncrements (set_killIntegration false st1)))
      with (learningRateStar_ st1).
    change (nominalTotalCost_ (clearFeedforwardIncrements (set_killIntegration false st1)))
      with (nominalTotalCost_ st1).
    assert (Hcand : forall j, candidate st0 j = candidate st j)
      by (intros j; apply candidate_lineSearchStart; exact HB).
    assert (Hbase : baselineTotalCost_ st0 = nominalTotalCost_ stB) by reflexivity.
    split; [| split; [| split]].
    + destruct (inv_star Inv) as [(H0 & _) | (j & _ & Hj & Hpos & _)].
      * rewrite H0. lra.
      * rewrite Hj. pose proof (candidate_bounds st0 j Hmax0 Hrate0) as Hb.
        change (maxLearningRate_ st0) with (maxLearningRate_ stB) in Hb.
        rewrite Hm in Hb. lra.
    + intros Hpos. destruct (inv_star Inv) as [(H0 & _) | (j & _ & Hj & _ & Hd)].
      * rewrite H0 in Hpos. lra.
      * rewrite Hj. unfold descends in Hd. rewrite Hbase in Hd. exact Hd.
    + destruct (inv_star Inv) as [(H0 & _) | (j & _ & Hj & _)].
      * left. exact H0.
      * right. exists j. rewrite Hj. apply Hcand.
    + intros _ Hthreads j Hge Hdesc.
      assert (Hlen' : (0 < length ts)%nat).
      { rewrite Hlen. change (ddpSettings_ st0) with (ddpSettings_ stB). rewrite Hs.
        exact Hthreads. }
      pose proof (searchInv_finished col st0 Hmax0 Hrate0 st1 ts j Inv Hfin Hlen') as Hres.
      rewrite <- Hcand. destruct Hres as [Hr | [Hr | Hr]].
      * exfalso. rewrite Hcand in Hr.
        change (ddpSettings_ st0) with (ddpSettings_ stB) in Hr. rewrite Hs in Hr. congruence.
      * exact Hr.
      * exfalso. unfold descends in Hr. rewrite Hbase, Hcand in Hr. congruence.
Qed.

(** *** The feed-forward increments are cleared *)

Lemma incrementControllers_length n lr cs :
  length (incrementControllers n lr cs) = length cs.
Proof.
  unfold incrementControllers.
  rewrite length_app, length_map, length_take, length_drop. lia.
Qed.

Lemma lineSearchWorker_controllers settings pb iteration interrupted lr loc :
  controllersStock (lineSearchWorker col settings pb iteration interrupted lr loc)
  = incrementControllers (numPartitions_ pb) lr (controllersStock loc).
Proof.
  unfold lineSearchWorker.
  destruct (rolloutTrajectory col pb interrupted _) as [[T avg] | e]; [| reflexivity].
  destruct (calculateRolloutConstraintsISE col pb T) as [ise | e]; [| reflexivity].
  destruct (calculateRolloutCost col pb T) as [cost | e]; reflexivity.
Qed.

Lemma taskStep_lengths n poll st t st' t' :
  taskStep col poll st t = (st', t') ->
  length (nominalControllersStock_ st) = n ->
  length (initLScontrollersStock_ st) = n ->
  length (controllersStock (locals t)) = n ->
  length (nominalControllersStock_ st') = n
  /\ length (initLScontrollersStock_ st') = n
  /\ length (controllersStock (locals t')) = n.
Proof.
  intros Hstep Hn Hi Ht.
  destruct (taskStep_frame col poll st t st' t' Hstep) as (_ & _ & _ & _ & _ & Hinit).
  rewrite Hinit.
  destruct (pc t) as [| j lr | j lr | j lr | |] eqn:Hpc.
  - destruct (taskStep_claim col poll st t st' t' Hpc Hstep)
      as (_ & _ & _ & _ & _ & -> & _ & -> & _). (split; [| split]; assumption).
  - unfold taskStep in Hstep. rewrite Hpc in Hstep.
    destruct (Qltb lr (learningRateStar_ st)); inversion Hstep; subst st' t'; cbn; (split; [| split]; assumption).
  - unfold taskStep in Hstep. rewrite Hpc in Hstep. inversion Hstep; subst st' t'.
    cbn [locals nominalControllersStock_ set_rolloutLog].
    rewrite lineSearchWorker_controllers, incrementControllers_length.
    (split; [| split]; assumption).
  - unfold taskStep, commit in Hstep. rewrite Hpc in Hstep.
    destruct (accepts st _ lr); inversion Hstep; subst st' t'; cbn; (split; [| split]; assumption).
  - destruct (taskStep_kill col poll st t st' t' Hpc Hstep)
      as (_ & _ & _ & _ & _ & -> & _ & _ & _).
    unfold taskStep in Hstep. rewrite Hpc in Hstep. inversion Hstep; subst st' t'; cbn.
    (split; [| split]; assumption).
  - destruct (taskStep_finished col poll st t st' t' Hpc Hstep) as [-> ->].
    (split; [| split]; assumption).
Qed.

Lemma stepThread_lengths n w poll st ts :
  stocksOfLength n st ts ->
  stocksOfLength n (fst (stepThread col w poll (st, ts))) (snd (stepThread col w poll (st, ts))).
Proof.
  intros (Hn & Hi & Hts). unfold stepThread. cbn [fst snd].
  destruct (ts !! w) as [t |] eqn:Hw; [| repeat split; assumption].
  destruct (taskStep col poll st t) as [st' t'] eqn:Hstep. cbn [fst snd].
  destruct (taskStep_lengths n poll st t st' t' Hstep Hn Hi (Hts _ _ Hw)) as (Hn' & Hi' & Ht').
  split; [exact Hn' |]. split; [exact Hi' |].
  intros w' t'' Hl. apply insert_lookup_inv in Hl.
  destruct Hl as [[_ ->] | [_ Hl]]; [exact Ht' | exact (Hts _ _ Hl)].
Qed.

Lemma runSchedule_lengths n sched :
  forall st ts,
    stocksOfLength n st ts ->
    stocksOfLength n (fst (runSchedule col sched (st, ts)))
                   (snd (runSchedule col sched (st, ts))).
Proof.
  induction sched as [| [w poll] rest IH]; intros st ts H; cbn [runSchedule].
  - exact H.
  - pose proof (stepThread_lengths n w poll st ts H) as H1.
    destruct (stepThread col w poll (st, ts)) as [st1 ts1]. apply IH. exact H1.
Qed.

Lemma drain_lengths n fuel :
  forall st ts,
    stocksOfLength n st ts ->
    stocksOfLength n (fst (drain col fuel (st, ts))) (snd (drain col fuel (st, ts))).
Proof.
  induction fuel as [| fuel IH]; intros st ts H; cbn [drain].
  - exact H.
  - cbn [snd]. destruct (firstUnfinished ts) as [w |]; [| exact H].
    pose proof (stepThread_lengths n w false st ts H) as H1.
    destruct (stepThread col w false (st, ts)) as [st1 ts1]. apply IH. exact H1.
Qed.

Lemma stepThread_frame w poll st ts :
  sameSearch st (fst (stepThread col w poll (st, ts))).
Proof.
  unfold stepThread. cbn [fst snd]. destruct (ts !! w) as [t |]; [| apply sameSearch_refl].
  destruct (taskStep col poll st t) as [st' t'] eqn:Hstep. cbn [fst].
  eapply taskStep_frame. exact Hstep.
Qed.

Lemma runSchedule_frame sched :
  forall st ts, sameSearch st (fst (runSchedule col sched (st, ts))).
Proof.
  induction sched as [| [w poll] rest IH]; intros st ts; cbn [runSchedule].
  - apply sameSearch_refl.
  - pose proof (stepThread_frame w poll st ts) as H.
    destruct (stepThread col w poll (st, ts)) as [st1 ts1]. cbn [fst] in H.
    eapply sameSearch_trans; [exact H | apply IH].
Qed.

Lemma drain_frame fuel :
  forall st ts, sameSearch st (fst (drain col fuel (st, ts))).
Proof.
  induction fuel as [| fuel IH]; intros st ts; cbn [drain].
  - apply sameSearch_refl.
  - cbn [snd]. destruct (firstUnfinished ts) as [w |]; [| apply sameSearch_refl].
    pose proof (stepThread_frame w false st ts) as H.
    destruct (stepThread col w false (st, ts)) as [st1 ts1]. cbn [fst] in H.
    eapply sameSearch_trans; [exact H | apply IH].
Qed.

Lemma runLineSearchTasks_length fuel sched st st' :
  length (nominalControllersStock_ st) = numPartitions_ (problem st) ->
  length (initLScontrollersStock_ st) = numPartitions_ (problem st) ->
  runLineSearchTasks col fuel sched st = Ok st' ->
  length (nominalControllersStock_ st') = numPartitions_ (problem st)
  /\ problem st' = problem st.
Proof.
  intros Hn Hi. unfold runLineSearchTasks.
  set (threads := initialThreads col st).
  assert (H0 : stocksOfLength (numPartitions_ (problem st)) st threads).
  { split; [exact Hn |]. split; [exact Hi |]. intros w t H.
    apply initialThreads_lookup in H. subst t. cbn. apply length_replicate. }
  pose proof (runSchedule_lengths _ sched st threads H0) as H1.
  pose proof (runSchedule_frame sched st threads) as F1.
  destruct (runSchedule col sched (st, threads)) as [st1 ts1]. cbn [fst snd] in *.
  pose proof (drain_lengths _ fuel st1 ts1 H1) as H2.
  pose proof (drain_frame fuel st1 ts1) as F2.
  pose proof (sameSearch_trans _ _ _ F1 F2) as F3. clear F1 F2.
  destruct (drain col fuel (st1, ts1)) as [st2 ts2]. cbn [fst snd] in *.
  destruct (forallb isFinished ts2); [| discriminate].
  intros H. inversion H; subst st'. destruct H2 as (H2 & _). destruct F3 as (_ & F3 & _).
  split; assumption.
Qed.

Lemma stepThread_controllers st0 w poll st ts :
  controllersInv st0 st ts ->
  controllersInv st0 (fst (stepThread col w poll (st, ts)))
                     (snd (stepThread col w poll (st, ts))).
Proof.
  intros (Hf & Hstock & Hts). unfold stepThread. cbn [fst snd].
  destruct (ts !! w) as [t |] eqn:Hw;
    [| split; [exact Hf | split; [exact Hstock | exact Hts]]].
  destruct (taskStep col poll st t) as [st' t'] eqn:Hstep. cbn [fst snd].
  pose proof (sameSearch_trans _ _ _ Hf (taskStep_frame col poll st t st' t' Hstep)) as Hf'.
  pose proof (Hts _ _ Hw) as Ht.
  destruct Hf as (_ & Hpb & _ & _ & _ & Hinit).
  assert (Hgoal :
    ((learningRateStar_ st' = 0
      /\ nominalControllersStock_ st' = nominalControllersStock_ st0)
     \/ nominalControllersStock_ st'
        = incrementControllers (numPartitions_ (problem st0)) (learningRateStar_ st')
                               (initLScontrollersStock_ st0))
    /\ match pc t' with
       | AtWorker _ _ => controllersStock (locals t') = initLScontrollersStock_ st0
       | AtCommit _ learningRate =>
           controllersStock (locals t')
           = incrementControllers (numPartitions_ (problem st0)) learningRate
                                  (initLScontrollersStock_ st0)
       | _ => True
       end).
  { unfold taskStep in Hstep.
    destruct (pc t) as [| j lr | j lr | j lr | |] eqn:Hpc.
    - inversion Hstep; subst st' t'. split; [exact Hstock |].
      destruct (negb _); exact I.
    - destruct (Qltb lr (learningRateStar_ st)); inversion Hstep; subst st' t';
        (split; [exact Hstock |]); cbn; [exact I | exact Hinit].
    - inversion Hstep; subst st' t'. split; [exact Hstock |].
      cbn [pc locals]. rewrite lineSearchWorker_controllers, Ht, Hpb. reflexivity.
    - unfold commit in Hstep.
      destruct (accepts st _ lr); inversion Hstep; subst st' t'.
      + split; [right; cbn; exact Ht |]. cbn [pc]. destruct (allProcessedBelow st j); exact I.
      + split; [exact Hstock | exact I].
    - inversion Hstep; subst st' t'. split; [exact Hstock | exact I].
    - inversion Hstep; subst st' t'. rewrite Hpc. split; [exact Hstock | exact I]. }
  destruct Hgoal as [G1 G2].
  split; [exact Hf' |]. split; [exact G1 |].
  intros w' t'' Hl. apply insert_lookup_inv in Hl.
  destruct Hl as [[_ ->] | [_ Hl]]; [exact G2 | exact (Hts _ _ Hl)].
Qed.

Lemma runSchedule_controllers st0 sched :
  forall st ts,
    controllersInv st0 st ts ->
    controllersInv st0 (fst (runSchedule col sched (st, ts)))
                       (snd (runSchedule col sched (st, ts))).
Proof.
  induction sched as [| [w poll] rest IH]; intros st ts H; cbn [runSchedule].
  - exact H.
  - pose proof (stepThread_controllers st0 w poll st ts H) as H1.
    destruct (stepThread col w poll (st, ts)) as [st1 ts1]. apply IH. exact H1.
Qed.

Lemma drain_controllers st0 fuel :
  forall st ts,
    controllersInv st0 st ts ->
    controllersInv st0 (fst (drain col fuel (st, ts))) (snd (drain col fuel (st, ts))).
Proof.
  induction fuel as [| fuel IH]; intros st ts H; cbn [drain].
  - exact H.
  - cbn [snd]. destruct (firstUnfinished ts) as [w |]; [| exact H].
    pose proof (stepThread_controllers st0 w false st ts H) as H1.
    destruct (stepThread col w false (st, ts)) as [st1 ts1]. apply IH. exact H1.
Qed.

Lemma runLineSearchTasks_controllers fuel sched st st' :
  learningRateStar_ st = 0 ->
  runLineSearchTasks col fuel sched st = Ok st' ->
  (learningRateStar_ st' = 0
   /\ nominalControllersStock_ st' = nominalControllersStock_ st)
  \/ nominalControllersStock_ st'
     = incrementControllers (numPartitions_ (problem st)) (learningRateStar_ st')
                            (initLScontrollersStock_ st).
Proof.
  intros Hstar. unfold runLineSearchTasks.
  set (threads := initialThreads col st).
  assert (H0 : controllersInv st st threads).
  { split; [apply sameSearch_refl |]. split; [left; split; [exact Hstar | reflexivity] |].
    intros w t H. apply initialThreads_lookup in H. subst t. exact I. }
  pose proof (runSchedule_controllers st sched st threads H0) as H1.
  destruct (runSchedule col sched (st, threads)) as [st1 ts1]. cbn [fst snd] in *.
  pose proof (drain_controllers st fuel st1 ts1 H1) as H2.
  destruct (drain col fuel (st1, ts1)) as [st2 ts2]. cbn [fst snd] in *.
  destruct (forallb isFinished ts2); [| discriminate].
  intros H. inversion H; subst st'. destruct H2 as (_ & H2 & _). exact H2.
Qed.

Lemma clearFeedforwardIncrements_all st :
  length (nominalControllersStock_ st) = numPartitions_ (problem st) ->
  nominalControllersStock_ (clearFeedforwardIncrements st)
  = map clearDeltaBias (nominalControllersStock_ st).
Proof.
  intros H. unfold clearFeedforwardIncrements. cbn [nominalControllersStock_ set_nominalControllersStock_].
  rewrite take_ge by lia. rewrite drop_ge by lia. apply app_nil_r.
Qed.

Lemma lineSearch_controllers fuel sched st st' :
  lineSearch col fuel sched st = Ok st' ->
  exists cs, length cs = numPartitions_ (problem st)
             /\ nominalControllersStock_ st' = map clearDeltaBias cs
             /\ problem st' = problem st.
Proof.
  intros Hls. destruct (lineSearch_cases fuel sched st st' Hls) as (stB & HB & Hcase).
  destruct (baselineRollout_frame st stB HB) as (_ & Hp & _ & _ & _ & Hc & _ & Hlen).
  destruct Hcase as [[_ ->] | (_ & st1 & Hrun & ->)].
  - exists (nominalControllersStock_ st). split; [exact Hlen |]. split.
    + rewrite clearFeedforwardIncrements_all.
      * cbn. rewrite Hc. reflexivity.
      * cbn. rewrite Hc, Hp. exact Hlen.
    + exact Hp.
  - assert (Hl0 : length (nominalControllersStock_ (lineSearchStart col (lineSearchSeed stB)))
                  = numPartitions_ (problem (lineSearchStart col (lineSearchSeed stB))))
      by (cbn; rewrite Hc, Hp; exact Hlen).
    assert (Hi0 : length (initLScontrollersStock_ (lineSearchStart col (lineSearchSeed stB)))
                  = numPartitions_ (problem (lineSearchStart col (lineSearchSeed stB))))
      by (cbn; rewrite Hc, Hp; exact Hlen).
    destruct (runLineSearchTasks_length fuel sched _ st1 Hl0 Hi0 Hrun) as [Hn Hpb].
    + cbn in Hn, Hpb. exists (nominalControllersStock_ st1).
      split; [rewrite Hn, Hp; reflexivity |]. split.
      * rewrite clearFeedforwardIncrements_all; [reflexivity |].
        cbn. rewrite Hn, Hpb. reflexivity.
      * cbn. rewrite Hpb. exact Hp.
Qed.

(** C10. Whenever [lineSearch] returns, by its early path or after the
    parallel search, with or without an accepted candidate, the nominal
    stock holds one controller per partition and the feed-forward
    increments of every one of them are empty. Nothing else of the
    controllers is lost: the stock is the one [lineSearch] was entered
    with, or that stock incremented by the returned learning rate, with
    the increments cleared, so that clearing it once more or rolling it
    out does not involve the increments. *)
Theorem lineSearch_clears_increments fuel sched (st st' : DDP) :
  lineSearch col fuel sched st = Ok st' ->
  length (nominalControllersStock_ st') = numPartitions_ (problem st')
  /\ Forall (fun c => deltaBiasArray_ c = []) (nominalControllersStock_ st')
  /\ ((learningRateStar_ st' = 0
       /\ nominalControllersStock_ st' = map clearDeltaBias (nominalControllersStock_ st))
      \/ nominalControllersStock_ st'
         = map clearDeltaBias
             (incrementControllers (numPartitions_ (problem st)) (learningRateStar_ st')
                                   (nominalControllersStock_ st)))
  /\ map clearDeltaBias (nominalControllersStock_ st') = nominalControllersStock_ st'.
Proof.
  intros Hls.
  assert (Hclear : forall cs, Forall (fun c => deltaBiasArray_ c = []) (map clearDeltaBias cs))
    by (intros cs; apply Forall_map; apply Forall_forall; intros c _; reflexivity).
  assert (Hidem : forall cs, map clearDeltaBias (map clearDeltaBias cs) = map clearDeltaBias cs)
    by (intros cs; rewrite map_map; apply map_ext; intros c; reflexivity).
  destruct (lineSearch_controllers fuel sched st st' Hls) as (cs & Hlen & Hcs & Hp).
  split; [rewrite Hcs, length_map, Hp; exact Hlen |].
  split; [rewrite Hcs; apply Hclear |].
  split; [| rewrite Hcs; apply Hidem].
  destruct (lineSearch_cases fuel sched st st' Hls) as (stB & HB & Hcase).
  destruct (baselineRollout_frame st stB HB) as (_ & Hpb & _ & _ & _ & Hc & _ & HlenB).
  destruct Hcase as [[_ ->] | (_ & st1 & Hrun & ->)].
  - left. split; [reflexivity |].
    rewrite clearFeedforwardIncrements_all.
    + cbn. rewrite Hc. reflexivity.
    + cbn. rewrite Hc, Hpb. exact HlenB.
  - assert (Hl0 : length (nominalControllersStock_ (lineSearchStart col (lineSearchSeed stB)))
                  = numPartitions_ (problem (lineSearchStart col (lineSearchSeed stB))))
      by (cbn; rewrite Hc, Hpb; exact HlenB).
    assert (Hi0 : length (initLScontrollersStock_ (lineSearchStart col (lineSearchSeed stB)))
                  = numPartitions_ (problem (lineSearchStart col (lineSearchSeed stB))))
      by (cbn; rewrite Hc, Hpb; exact HlenB).
    destruct (runLineSearchTasks_length fuel sched _ st1 Hl0 Hi0 Hrun) as [Hn Hpb1].
    cbn in Hn, Hpb1.
    assert (Hall : nominalControllersStock_
                     (clearFeedforwardIncrements (set_killIntegration false st1))
                   = map clearDeltaBias (nominalControllersStock_ st1)).
    { rewrite clearFeedforwardIncrements_all; [reflexivity |].
      cbn. rewrite Hn, Hpb1. reflexivity. }
    rewrite Hall.
    change (learningRateStar_ (clearFeedforwardIncrements (set_killIntegration false st1)))
      with (learningRateStar_ st1).
    destruct (runLineSearchTasks_controllers fuel sched
                (lineSearchStart col (lineSearchSeed stB)) st1 eq_refl Hrun)
      as [[Hz Hs] | Hs]; cbn in Hs; rewrite Hc in Hs.
    + left. split; [exact Hz |]. rewrite Hs. reflexivity.
    + right. rewrite Hs, Hpb. reflexivity.
Qed.

(** *** No line search *)

(** C6 (amended). If [maxLearningRate] is below the limit epsilon,
    [lineSearch] performs the baseline rollout and nothing else: when that
    rollout or its evaluation throws, so does [lineSearch]; otherwise it
    returns with a zero learning rate, the baseline performance and
    trajectories, empty feed-forward increments in every controller, and
    exactly one more rollout on record, the baseline one. *)
Theorem lineSearch_without_search fuel sched (st : DDP) :
  noLineSearch col (ddpSettings_ st) = true ->
  match baselineRollout col st with
  | Throw e => lineSearch col fuel sched st = Throw e
  | Ok stB =>
      exists st',
        lineSearch col fuel sched st = Ok st'
        /\ learningRateStar_ st' = 0
        /\ performance st' = performance stB
        /\ nominal st' = nominal stB
        /\ nominalControllersStock_ st' = map clearDeltaBias (nominalControllersStock_ st)
        /\ Forall (fun c => deltaBiasArray_ c = []) (nominalControllersStock_ st')
        /\ rolloutLog st' = rolloutLog st ++ [BaselineRollout]
  end.
Proof.
  intros Hno. unfold lineSearch.
  destruct (baselineRollout col st) as [stB | e] eqn:HB; [| reflexivity].
  destruct (baselineRollout_frame st stB HB) as (Hs & Hp & _ & _ & _ & Hc & Hlog & Hlen).
  cbn [mbind result_bind].
  change (ddpSettings_ (lineSearchSeed stB)) with (ddpSettings_ stB).
  rewrite Hs, Hno. eexists. split; [reflexivity |].
  assert (Hcs : nominalControllersStock_ (clearFeedforwardIncrements (lineSearchSeed stB))
                = map clearDeltaBias (nominalControllersStock_ st)).
  { rewrite clearFeedforwardIncrements_all.
    - cbn. rewrite Hc. reflexivity.
    - cbn. rewrite Hc, Hp. exact Hlen. }
  repeat (split; [reflexivity |]). split; [exact Hcs |]. split.
  - rewrite Hcs. apply Forall_map. apply Forall_forall. intros c _. reflexivity.
  - exact Hlog.
Qed.

(** *** Candidates that throw *)

Lemma scalar_max_nonneg : 0 <= scalar_max.
Proof. apply Qle_bool_iff. vm_compute. reflexivity. Qed.

Lemma failed_candidate_rejected (st : DDP) (b lr : Q) :
  baselineTotalCost_ st = Finite b -> b <= scalar_max -> 0 <= lr <= 1000 ->
  accepts st (Finite scalar_max) lr = false.
Proof.
  intros Hb Hle [H0 H1]. unfold accepts. rewrite Hb. cbn [smul sltb].
  apply andb_false_iff. left. apply Qltb_ge.
  pose proof scalar_max_nonneg as Hm. revert Hm Hle. generalize scalar_max. intros m Hm Hle.
  destruct (Qlt_le_dec b 0); nra.
Qed.

Lemma lineSearchWorker_failed settings pb iteration interrupted lr loc e :
  candidateEvaluation col pb interrupted
    (incrementControllers (numPartitions_ pb) lr (controllersStock loc)) = Throw e ->
  totalCost (loc_performance
               (lineSearchWorker col settings pb iteration interrupted lr loc))
  = Finite scalar_max.
Proof.
  unfold candidateEvaluation, lineSearchWorker.
  destruct (rolloutTrajectory col pb interrupted _) as [[T avg] | e1]; [| reflexivity].
  cbn [mbind result_bind].
  destruct (calculateRolloutConstraintsISE col pb T) as [ise | e2]; [| reflexivity].
  cbn [mbind result_bind].
  destruct (calculateRolloutCost col pb T) as [cost | e3]; [discriminate | reflexivity].
Qed.

(** What holds of candidates that throw. A candidate whose rollout,
    constraint or cost evaluation throws gets the merit
    [numeric_limits::max()], the largest finite scalar; it is rejected
    whenever the baseline merit is finite and the learning rate lies in
    [0, 1000]. Its failure stays in its thread: when the candidates fall
    below [minLearningRate] from exponent [J] on, every line search whose
    baseline rollout succeeds returns, for every interleaving, and a
    returned zero learning rate comes with the baseline performance,
    trajectories and controllers. *)
Lemma lineSearch_survives_failures fuel sched (st stB : DDP) (J : nat) :
  0 <= maxLearningRate_ st ->
  0 <= DDP_Settings.lineSearchContractionRate_ (ddpSettings_ st) <= 1 ->
  killIntegration st = false ->
  almost_ge (candidate st J) (DDP_Settings.minLearningRate_ (ddpSettings_ st)) = false ->
  (5 * J + DDP_Settings.nThreads_ (ddpSettings_ st) <= fuel)%nat ->
  baselineRollout col st = Ok stB ->
  (forall interrupted lr loc e,
      candidateEvaluation col (problem st) interrupted
        (incrementControllers (numPartitions_ (problem st)) lr (controllersStock loc))
      = Throw e ->
      totalCost (loc_performance
                   (lineSearchWorker col (ddpSettings_ st) (problem st) (iteration_ st)
                                     interrupted lr loc))
      = Finite scalar_max)
  /\ (forall (s : DDP) (b lr : Q),
        baselineTotalCost_ s = Finite b -> b <= scalar_max -> 0 <= lr <= 1000 ->
        accepts s (Finite scalar_max) lr = false)
  /\ exists st',
       lineSearch col fuel sched st = Ok st'
       /\ (learningRateStar_ st' == 0 ->
           performance st' = performance stB
           /\ nominal st' = nominal stB
           /\ nominalControllersStock_ st'
              = map clearDeltaBias (nominalControllersStock_ st)).
Proof.
  intros Hmax Hrate Hkill HJ Hfuel HB.
  split; [intros interrupted lr loc e; apply lineSearchWorker_failed |].
  split; [exact failed_candidate_rejected |].
  destruct (baselineRollout_frame st stB HB) as (Hs & Hp & Hi & Hm & Hk & Hc & Hlog & Hlen).
  destruct (noLineSearch col (ddpSettings_ st)) eqn:Hno.
  - pose proof (lineSearch_without_search fuel sched st Hno) as H. rewrite HB in H.
    destruct H as (st' & Hls & _ & Hperf & Hnom & Hcs & _).
    exists st'. split; [exact Hls |]. intros _. repeat split; assumption.
  - set (st0 := lineSearchStart col (lineSearchSeed stB)).
    assert (Hmax0 : 0 <= maxLearningRate_ st0)
      by (change (0 <= maxLearningRate_ stB); rewrite Hm; exact Hmax).
    assert (Hrate0 : 0 <= DDP_Settings.lineSearchContractionRate_ (ddpSettings_ st0) <= 1).
    { change (ddpSettings_ st0) with (ddpSettings_ stB). rewrite Hs. exact Hrate. }
    assert (Hcand : forall j, candidate st0 j = candidate st j)
      by (intros j; apply candidate_lineSearchStart; exact HB).
    assert (Hbelow : forall j, (J <= j)%nat ->
              almost_ge (candidate st0 j) (DDP_Settings.minLearningRate_ (ddpSettings_ st0))
              = false).
    { intros j Hj. change (ddpSettings_ st0) with (ddpSettings_ stB). rewrite Hs.
      pose proof (candidate_antitone st0 J j Hmax0 Hrate0 Hj) as Hanti.
      rewrite !Hcand in *. unfold almost_ge in *. rewrite negb_false_iff in *.
      apply Qltb_lt in HJ. apply Qltb_lt. lra. }
    destruct (runLineSearchTasks_returns col st0 J Hbelow fuel sched eq_refl)
      as (st1 & Hrun).
    { change (ddpSettings_ st0) with (ddpSettings_ stB). rewrite Hs. exact Hfuel. }
    assert (Hstart : searchStart st0) by (apply searchStart_lineSearchStart; congruence).
    destruct (runLineSearchTasks_inv col st0 Hmax0 Hrate0 fuel sched st1 Hstart Hrun)
      as (ts & Inv & _ & _).
    exists (clearFeedforwardIncrements (set_killIntegration false st1)). split.
    + unfold lineSearch. rewrite HB. cbn [mbind result_bind].
      change (ddpSettings_ (lineSearchSeed stB)) with (ddpSettings_ stB).
      rewrite Hs, Hno. fold st0. rewrite Hrun. reflexivity.
    + change (learningRateStar_ (clearFeedforwardIncrements (set_killIntegration false st1)))
        with (learningRateStar_ st1).
      intros Hzero. destruct (inv_star Inv) as [(_ & Hperf & Hcs & Hnom) | (j & _ & Hj & Hpos & _)].
      * split; [exact Hperf |]. split; [exact Hnom |].
        rewrite clearFeedforwardIncrements_all.
        -- cbn. rewrite Hcs. cbn. rewrite Hc. reflexivity.
        -- cbn. rewrite Hcs. destruct (inv_frame Inv) as (_ & -> & _). cbn.
           rewrite Hc, Hp. exact Hlen.
      * exfalso. rewrite Hj in Hzero. lra.
Qed.

End LineSearch.

(** *** The main loop *)

Section MainLoop.

Variable col : Collaborators.

Lemma runLineSearchTasks_frame fuel sched st st' :
  runLineSearchTasks col fuel sched st = Ok st' -> sameSearch st st'.
Proof.
  unfold runLineSearchTasks. set (threads := initialThreads _ _).
  pose proof (runSchedule_frame col sched st threads) as F1.
  destruct (runSchedule col sched (st, threads)) as [st1 ts1]. cbn [fst] in F1.
  pose proof (drain_frame col fuel st1 ts1) as F2.
  destruct (drain col fuel (st1, ts1)) as [st2 ts2]. cbn [fst] in F2.
  destruct (forallb isFinished ts2); [| discriminate].
  intros H. inversion H; subst. eapply sameSearch_trans; eassumption.
Qed.

Lemma lineSearch_frame fuel sched st st' :
  lineSearch col fuel sched st = Ok st' ->
  ddpSettings_ st' = ddpSettings_ st /\ iteration_ st' = iteration_ st.
Proof.
  intros Hls. destruct (lineSearch_cases col fuel sched st st' Hls) as (stB & HB & Hcase).
  destruct (baselineRollout_frame col st stB HB) as (Hs & _ & Hi & _).
  destruct Hcase as [[_ ->] | (_ & st1 & Hrun & ->)].
  - split; [exact Hs | exact Hi].
  - apply runLineSearchTasks_frame in Hrun. destruct Hrun as (Hs1 & _ & Hi1 & _).
    split.
    + change (ddpSettings_ st1 = ddpSettings_ st). rewrite Hs1. exact Hs.
    + change (iteration_ st1 = iteration_ st). rewrite Hi1. exact Hi.
Qed.

Lemma runBackwardPass_frame st st' :
  runBackwardPass col st = Ok st' ->
  ddpSettings_ st' = ddpSettings_ st
  /\ iteration_ st' = iteration_ st
  /\ performance st' = performance st
  /\ learningRateStar_ st' = learningRateStar_ st.
Proof.
  unfold runBackwardPass.
  destruct (external _) as [bp | e]; [| discriminate]. cbn [mbind result_bind].
  destruct (DDP_Settings.useRiccatiSolver_ (ddpSettings_ st)); [| discriminate].
  intros H. inversion H; subst. repeat split.
Qed.

Lemma runIteration_frame fuel sched st st' :
  runIteration col fuel sched st = Ok st' ->
  ddpSettings_ st' = ddpSettings_ st /\ iteration_ st' = iteration_ st.
Proof.
  unfold runIteration.
  destruct (lineSearch col fuel sched _) as [st1 | e] eqn:Hls; [| discriminate].
  cbn [mbind result_bind]. intros Hbp.
  apply lineSearch_frame in Hls. apply runBackwardPass_frame in Hbp.
  destruct Hls as [Hs1 Hi1]. destruct Hbp as (Hs2 & Hi2 & _).
  split; [rewrite Hs2, Hs1 | rewrite Hi2, Hi1]; reflexivity.
Qed.

Lemma loopBody_Ok fuel scheds st flags st' flags' :
  loopBody col fuel scheds st flags = Ok (st', flags') ->
  exists st3,
    runIteration col fuel (scheds (S (iteration_ st)))
      (swapNominalTrajectoriesToCache (set_iteration_ (S (iteration_ st)) st)) = Ok st3
    /\ st' = pushLogs st3
    /\ flags' = loopBreakVariables (pushLogs st3) (nominalTotalCost_ st)
                  (stateInputEqConstraintISE_ st) (isInitInternalControllerEmpty flags).
Proof.
  unfold loopBody. cbv zeta.
  change (iteration_ (swapNominalTrajectoriesToCache (set_iteration_ (S (iteration_ st)) st)))
    with (S (iteration_ st)).
  destruct (runIteration col fuel _ _) as [st3 | e]; [| discriminate].
  cbn [mbind result_bind]. intros H. inversion H; subst. exists st3. repeat split.
Qed.

Lemma loopBody_frame fuel scheds st flags st' flags' :
  loopBody col fuel scheds st flags = Ok (st', flags') ->
  ddpSettings_ st' = ddpSettings_ st /\ iteration_ st' = S (iteration_ st).
Proof.
  intros H. destruct (loopBody_Ok fuel scheds st flags st' flags' H) as (st3 & Hrun & -> & _).
  apply runIteration_frame in Hrun. destruct Hrun as [Hs Hi].
  split; [exact Hs | exact Hi].
Qed.

(** The loop leaves only when the test has passed or the iterations are
    used up. *)
Lemma mainLoop_exit n fuel scheds :
  forall st flags st' flags',
    (DDP_Settings.maxNumIterations_ (ddpSettings_ st) - (iteration_ st + 1) <= n)%nat ->
    mainLoop col n fuel scheds st flags = Ok (st', flags') ->
    isOptimizationConverged flags' = true
    \/ (DDP_Settings.maxNumIterations_ (ddpSettings_ st') <= iteration_ st' + 1)%nat.
Proof.
  induction n as [| n IH]; intros st flags st' flags' Hn H; cbn [mainLoop] in H.
  - inversion H; subst. right. lia.
  - destruct (Nat.ltb (iteration_ st + 1) (DDP_Settings.maxNumIterations_ (ddpSettings_ st)))
      eqn:Hlt.
    + destruct (isOptimizationConverged flags) eqn:Hconv; cbn [negb andb] in H.
      * inversion H; subst. left. exact Hconv.
      * destruct (loopBody col fuel scheds st flags) as [[st1 flags1] | e] eqn:Hbody;
          [| discriminate].
        cbn [mbind result_bind] in H.
        destruct (loopBody_frame fuel scheds st flags st1 flags1 Hbody) as [Hs Hi].
        apply (IH st1 flags1 st' flags'); [rewrite Hs, Hi; lia | exact H].
    + cbn [andb] in H. inversion H; subst. right. apply Nat.ltb_ge in Hlt. exact Hlt.
Qed.

(** With enough unrollings, a run of [mainLoop] that returns is an
    execution of the loop. *)
Lemma mainLoop_loopRun n fuel scheds :
  forall st flags st' flags',
    (DDP_Settings.maxNumIterations_ (ddpSettings_ st) - (iteration_ st + 1) <= n)%nat ->
    mainLoop col n fuel scheds st flags = Ok (st', flags') ->
    loopRun col fuel scheds st flags st' flags'.
Proof.
  induction n as [| n IH]; intros st flags st' flags' Hn H; cbn [mainLoop] in H.
  - inversion H; subst. apply loopRun_leave. left. lia.
  - destruct (Nat.ltb (iteration_ st + 1) (DDP_Settings.maxNumIterations_ (ddpSettings_ st)))
      eqn:Hlt.
    + destruct (isOptimizationConverged flags) eqn:Hconv; cbn [negb andb] in H.
      * inversion H; subst. apply loopRun_leave. right. exact Hconv.
      * destruct (loopBody col fuel scheds st flags) as [[st1 flags1] | e] eqn:Hbody;
          [| discriminate].
        cbn [mbind result_bind] in H.
        destruct (loopBody_frame fuel scheds st flags st1 flags1 Hbody) as [Hs Hi].
        apply Nat.ltb_lt in Hlt.
        eapply loopRun_pass; [exact Hlt | exact Hconv | exact Hbody |].
        apply IH; [rewrite Hs, Hi; lia | exact H].
    + cbn [andb] in H. inversion H; subst. apply loopRun_leave. left.
      apply Nat.ltb_ge in Hlt. exact Hlt.
Qed.

(** An execution of the loop is what [mainLoop] computes once it is
    unrolled often enough. *)
Lemma loopRun_mainLoop fuel scheds st flags st' flags' :
  loopRun col fuel scheds st flags st' flags' ->
  exists n0, forall n, (n0 <= n)%nat ->
    mainLoop col n fuel scheds st flags = Ok (st', flags').
Proof.
  induction 1 as [st flags Hleave | st flags st1 flags1 st' flags' Hlt Hconv Hbody _ IH].
  - exists O. intros n _. destruct n as [| n]; [reflexivity |]. cbn [mainLoop].
    destruct Hleave as [Hmax | Hconv].
    + apply Nat.ltb_ge in Hmax. rewrite Hmax. reflexivity.
    + rewrite Hconv. rewrite andb_false_r. reflexivity.
  - destruct IH as [n0 IH]. exists (S n0). intros n Hn.
    destruct n as [| n]; [lia |]. cbn [mainLoop].
    apply Nat.ltb_lt in Hlt. rewrite Hlt, Hconv, Hbody. cbn [negb andb mbind result_bind].
    apply IH. lia.
Qed.

Lemma loopRun_leaves fuel scheds st flags st' flags' :
  loopRun col fuel scheds st flags st' flags' ->
  (isOptimizationConverged flags = true -> st' = st /\ flags' = flags)
  /\ (isOptimizationConverged flags' = true
      \/ (DDP_Settings.maxNumIterations_ (ddpSettings_ st') <= iteration_ st' + 1)%nat)
  /\ (iteration_ st <= iteration_ st')%nat.
Proof.
  induction 1 as [st flags Hleave | st flags st1 flags1 st' flags' Hlt Hconv Hbody _ IH].
  - split; [intros _; split; reflexivity |]. split; [| lia].
    destruct Hleave as [Hmax | Hc]; [right; exact Hmax | left; exact Hc].
  - destruct IH as (_ & IH2 & IH3).
    destruct (loopBody_frame fuel scheds st flags st1 flags1 Hbody) as [_ Hi].
    split; [intros Hc; rewrite Hc in Hconv; discriminate |].
    split; [exact IH2 | lia].
Qed.

End MainLoop.

(* ===================================================================== *)
(** ** The merit recorded by the initial pass *)
(* ===================================================================== *)

Section Merits.

Variable col : Collaborators.

(** The baseline rollout records the merit of the formula, with the
    inequality penalty counted once. *)
Lemma baselineRollout_merit (st st' : DDP) :
  baselineRollout col st = Ok st' ->
  exists cost ise,
    external (calculateRolloutCost col (problem st) (nominal st')) = Ok cost
    /\ external (calculateRolloutConstraintsISE col (problem st) (nominal st')) = Ok ise
    /\ nominalTotalCost_ st'
       = calculateRolloutMerit (ddpSettings_ st) (iteration_ st) cost
           (ise_stateInputEq ise) (ise_stateEq ise) (ise_stateEqFinal ise)
           (ise_inequalityPenalty ise).
Proof.
  unfold baselineRollout. intros H.
  destruct (rolloutTrajectory col (problem st) (killIntegration st)
              (nominalControllersStock_ st)) as [[T avg]|e]; [|discriminate].
  cbn in H.
  destruct (external (calculateRolloutConstraintsISE col (problem st) T)) as [ise|e] eqn:Hise;
    [|discriminate].
  cbn in H.
  destruct (external (calculateRolloutCost col (problem st) T)) as [cost|e] eqn:Hcost;
    [|discriminate].
  cbn in H. injection H as <-. exists cost, ise. cbn. auto.
Qed.

(** [runInit] adds the inequality penalty to the cost and then lets
    [calculateRolloutMerit] add it again. *)
Lemma initPerformance_merit (st st' : DDP) :
  (DDP_Settings.displayInfo_ (ddpSettings_ st)
   || Nat.ltb 1 (DDP_Settings.maxNumIterations_ (ddpSettings_ st))) = true ->
  initPerformance col st = Ok st' ->
  exists cost ise,
    external (calculateRolloutCost col (problem st) (nominal st)) = Ok cost
    /\ external (calculateRolloutConstraintsISE col (problem st) (nominal st)) = Ok ise
    /\ nominalTotalCost_ st'
       = calculateRolloutMerit (ddpSettings_ st) (iteration_ st)
           (sadd cost (ise_inequalityPenalty ise))
           (ise_stateInputEq ise) (ise_stateEq ise) (ise_stateEqFinal ise)
           (ise_inequalityPenalty ise).
Proof.
  unfold initPerformance. intros -> H.
  destruct (external (calculateRolloutConstraintsISE col (problem st) (nominal st)))
    as [ise|e] eqn:Hise; [|discriminate].
  cbn in H.
  destruct (external (calculateRolloutCost col (problem st) (nominal st)))
    as [cost|e] eqn:Hcost; [|discriminate].
  cbn in H. injection H as <-. exists cost, ise. cbn. auto.
Qed.

(** Without a performance index (no display and at most one iteration)
    [runInit] records the merit zero. *)
Lemma initPerformance_skipped (st : DDP) :
  (DDP_Settings.displayInfo_ (ddpSettings_ st)
   || Nat.ltb 1 (DDP_Settings.maxNumIterations_ (ddpSettings_ st))) = false ->
  exists st', initPerformance col st = Ok st' /\ nominalTotalCost_ st' = Finite 0.
Proof.
  unfold initPerformance. intros ->. eexists. split; [reflexivity|]. reflexivity.
Qed.

End Merits.

(** C3 (code). On the bench with rollout cost 10, state-only ISE 1,
    inequality penalty 1 and penalty coefficient 2 at iteration 0, the
    formula gives the merit 10 + 1/2 * 2 * 1 + 1 = 12, and the baseline
    rollout of the same controller records it, but [runInit] records 13:
    the inequality penalty is counted twice. *)
Theorem runInit_counts_penalty_twice :
  let col := bench benchEps neverDiverges costFlat isePenalty in
  let st := benchState (benchSettings 1 (1 # 4)) [emptyController] in
  seqb (calculateRolloutMerit (ddpSettings_ st) 0 (Finite 10)
          (Finite 0) (Finite 1) (Finite 0) (Finite 1)) (Finite 12) = true
  /\ (exists stB, baselineRollout col st = Ok stB
                  /\ iteration_ stB = 0%nat
                  /\ seqb (nominalTotalCost_ stB) (Finite 12) = true)
  /\ (exists st1, runInit col st = Ok st1
                  /\ iteration_ st1 = 0%nat
                  /\ inequalityConstraintPenalty_ st1 = Finite 1
                  /\ seqb (nominalTotalCost_ st1) (Finite 13) = true).
Proof.
  cbv zeta. split; [vm_compute; reflexivity|]. split.
  - eexists. split; [vm_compute; reflexivity|]. split; [reflexivity|]. vm_compute. reflexivity.
  - eexists. split; [vm_compute; reflexivity|].
    split; [reflexivity|]. split; [reflexivity|]. vm_compute. reflexivity.
Qed.

(* ===================================================================== *)
(** ** Runs on the bench *)
(* ===================================================================== *)

(** After the initial pass with merit 11, the first iteration commits the
    learning rate 1 with merit 12: the descent was measured against the
    baseline merit 13 of that line search, not against 11. *)
Lemma merit_descent_is_against_baseline :
  let col := bench benchEps neverDiverges costImproving iseStateEq in
  let st0 := benchState (benchSettings 1 (1 # 4)) [emptyController] in
  exists st1 st2 flags,
    runInit col st0 = Ok st1
    /\ loopBody col 100 (fun _ => []) (pushLogs st1) (initialFlags st0) = Ok (st2, flags)
    /\ iteration_ st2 = 1%nat
    /\ 0 < learningRateStar_ st2 <= DDP_Settings.maxLearningRate_ (ddpSettings_ st2)
    /\ seqb (nominalTotalCost_ st1) (Finite 11) = true
    /\ seqb (nominalTotalCost_ st2) (Finite 12) = true
    /\ sltb (nominalTotalCost_ st2)
            (smul (nominalTotalCost_ st1)
                  (Finite (1 - (1 # 1000) * learningRateStar_ st2))) = false.
Proof.
  cbv zeta. eexists. eexists. eexists.
  split; [vm_compute; reflexivity |].
  split; [vm_compute; reflexivity |].
  split; [reflexivity |].
  split; [split; vm_compute; [reflexivity | discriminate] |].
  split; [vm_compute; reflexivity |].
  split; vm_compute; reflexivity.
Qed.

Lemma lineSearch_greedy_witness :
  let col := bench benchEps neverDiverges costImproving iseStateEq in
  let st := benchState (benchSettings 1 (1 # 4)) [benchController] in
  exists st',
    lineSearch col 100 [] st = Ok st'
    /\ 0 <= learningRateStar_ st' <= maxLearningRate_ st.
Proof.
  cbv zeta. eexists. split; [vm_compute; reflexivity |].
  assert (Hmax : 0 <= maxLearningRate_
                        (benchState (benchSettings 1 (1 # 4)) [benchController]))
    by (vm_compute; discriminate).
  assert (Hrate : 0 <= DDP_Settings.lineSearchContractionRate_
                         (ddpSettings_ (benchState (benchSettings 1 (1 # 4)) [benchController]))
                  <= 1)
    by (split; vm_compute; discriminate).
  destruct (lineSearch_greedy (bench benchEps neverDiverges costImproving iseStateEq)
              100 [] (benchState (benchSettings 1 (1 # 4)) [benchController]) _
              Hmax Hrate eq_refl ltac:(vm_compute; reflexivity))
    as (stB & _ & Hbounds & _).
  exact Hbounds.
Defined.

(** A cold start whose first line search accepts nothing: the merit moved
    from 11 to 13 and the loop does not hold the optimisation for
    converged, although the learning rate is zero and the controller that
    entered the iteration, the one of the initial backward pass, is not
    empty. *)
Lemma cold_start_zero_step_not_converged :
  let col := bench benchEps neverDiverges costFlat iseStateEq in
  let st0 := benchState (benchSettings 1 (1 # 4)) [emptyController] in
  exists st1 st2 flags,
    runInit col st0 = Ok st1
    /\ loopBody col 100 (fun _ => []) (pushLogs st1) (initialFlags st0) = Ok (st2, flags)
    /\ iteration_ st2 = 1%nat
    /\ learningRateStar_ st2 = 0
    /\ forallb (fun c => negb (ctrl_empty c)) (nominalControllersStock_ (pushLogs st1)) = true
    /\ isOptimizationConverged flags = false
    /\ claimedConvergence (ddpSettings_ st2) (nominalControllersStock_ (pushLogs st1))
         (nominalTotalCost_ st2) (nominalTotalCost_ st1) (learningRateStar_ st2)
         (stateInputEqConstraintISE_ st2) (stateInputEqConstraintISE_ st1) = true.
Proof.
  cbv zeta. eexists. eexists. eexists.
  split; [vm_compute; reflexivity |].
  split; [vm_compute; reflexivity |].
  split; [reflexivity |].
  split; [reflexivity |].
  split; [vm_compute; reflexivity |].
  split; vm_compute; reflexivity.
Qed.

(** C5. With a baseline rollout of infinite merit, the candidate of
    learning rate 1, whose rollout throws, gets the merit
    [numeric_limits::max()], which is finite, passes the test
    [max() < inf * (1 - 1e-3)] and is committed: the line search returns
    the learning rate 1, the merit [max()] of a candidate that was never
    evaluated, and as nominal trajectories what the failed rollout left
    behind. *)
Theorem failed_candidate_accepted :
  let col := bench benchEps divergesAtOne costInfiniteBaseline iseNone in
  let st := benchState (benchSettings 1 (1 # 4)) [benchController] in
  (exists e, candidateEvaluation col (problem st) false
               (incrementControllers (numPartitions_ (problem st)) 1
                  (nominalControllersStock_ st)) = Throw e)
  /\ exists st',
       lineSearch col 100 [] st = Ok st'
       /\ learningRateStar_ st' == 1
       /\ nominalTotalCost_ st' = Finite scalar_max
       /\ nominalTotalCost_ st' <> PInf
       /\ nominal st'
          = rolloutTrajectoryResidue col (problem st) false
              (incrementControllers (numPartitions_ (problem st)) 1
                 (nominalControllersStock_ st))
              (emptyTrajectories (numPartitions_ (problem st))).
Proof.
  cbv zeta. split.
  - eexists. vm_compute. reflexivity.
  - eexists. split; [vm_compute; reflexivity |].
    split; [vm_compute; reflexivity |].
    split; [vm_compute; reflexivity |].
    split; [discriminate | vm_compute; reflexivity].
Qed.

Lemma lineSearch_survives_failures_witness :
  let col := bench benchEps divergesAtOne costFlat iseStateEq in
  let st := benchState (benchSettings 1 (1 # 4)) [benchController] in
  exists st', lineSearch col 100 [] st = Ok st'.
Proof.
  cbv zeta.
  assert (HB : exists stB,
             baselineRollout (bench benchEps divergesAtOne costFlat iseStateEq)
               (benchState (benchSettings 1 (1 # 4)) [benchController]) = Ok stB)
    by (eexists; vm_compute; reflexivity).
  destruct HB as [stB HB].
  assert (Hmax : 0 <= maxLearningRate_
                        (benchState (benchSettings 1 (1 # 4)) [benchController]))
    by (vm_compute; discriminate).
  assert (Hrate : 0 <= DDP_Settings.lineSearchContractionRate_
                         (ddpSettings_ (benchState (benchSettings 1 (1 # 4)) [benchController]))
                  <= 1)
    by (split; vm_compute; discriminate).
  destruct (lineSearch_survives_failures
              (bench benchEps divergesAtOne costFlat iseStateEq) 100 []
              (benchState (benchSettings 1 (1 # 4)) [benchController]) stB 3
              Hmax Hrate eq_refl ltac:(vm_compute; reflexivity)
              ltac:(simpl; lia) HB)
    as (_ & _ & st' & Hret & _).
  exists st'. exact Hret.
Defined.

(** With a zero maximum learning rate the line search still performs the
    baseline rollout. *)
Lemma no_search_still_rolls_out :
  let col := bench benchEps neverDiverges costFlat iseNone in
  let st := benchState (benchSettings 0 0) [benchController] in
  noLineSearch col (ddpSettings_ st) = true
  /\ rolloutLog st = []
  /\ exists st',
       lineSearch col 100 [] st = Ok st'
       /\ learningRateStar_ st' = 0
       /\ rolloutLog st' = [BaselineRollout].
Proof.
  cbv zeta. split; [vm_compute; reflexivity |]. split; [reflexivity |].
  eexists. split; [vm_compute; reflexivity |]. split; reflexivity.
Qed.

Lemma lineSearch_without_search_witness :
  let col := bench benchEps neverDiverges costFlat iseNone in
  let st := benchState (benchSettings 0 0) [benchController] in
  exists st',
    lineSearch col 100 [] st = Ok st'
    /\ learningRateStar_ st' = 0
    /\ Forall (fun c => deltaBiasArray_ c = []) (nominalControllersStock_ st').
Proof.
  cbv zeta.
  pose proof (lineSearch_without_search (bench benchEps neverDiverges costFlat iseNone)
                100 [] (benchState (benchSettings 0 0) [benchController])
                ltac:(vm_compute; reflexivity)) as W.
  destruct (baselineRollout (bench benchEps neverDiverges costFlat iseNone)
              (benchState (benchSettings 0 0) [benchController])) as [stB | e] eqn:E;
    [| vm_compute in E; discriminate E].
  destruct W as (st' & Hret & Hstar & _ & _ & _ & Hclear & _).
  exists st'. split; [exact Hret |]. split; [exact Hstar | exact Hclear].
Defined.

(** On the bench whose integrators stamp the post-event sample later by
    [benchGap], the rollout of a controller that ends at the event time 1
    pops the post-event sample and starts the operating points at its time
    stamp: the two samples at the post-event index 2 are 1 and
    1 + [benchGap], not the same time stamp. *)
Lemma event_stamps_differ :
  let col := benchWithGap benchGap in
  exists T avg,
    rolloutTrajectory col benchProblemEvent false [mkController [0; 1] [] [[0]; [0]] []]
    = Ok (T, avg)
    /\ In 2%nat (nth 0%nat (postEventIndicesStock T) [])
    /\ ~ nth 1 (nth 0%nat (timeTrajectoriesStock T) []) 0
         == nth 2 (nth 0%nat (timeTrajectoriesStock T) []) 0.
Proof.
  cbv zeta. eexists. eexists. split; [vm_compute; reflexivity |].
  split; [left; reflexivity |]. vm_compute. discriminate.
Qed.

Lemma laterBy_compat (gap a b b' : Q) : laterBy gap a b -> b == b' -> laterBy gap a b'.
Proof. unfold laterBy. intros H E. rewrite <- E. exact H. Defined.

Lemma benchWithGap_keeps (gap : Q) : integratorsKeep (laterBy gap) (benchWithGap gap).
Proof.
  split.
  - intros t0 x tf c events r. cbn. intros [= <-].
    unfold benchSegmentGap. destruct (existsb _ _); cbn.
    + split; [reflexivity |]. constructor; [| constructor].
      split; [cbn; lia |]. unfold laterBy. cbn. reflexivity.
    + split; [reflexivity |]. constructor.
  - intros t0 x tf events r. cbn. intros [= <-].
    unfold benchSegmentGap. destruct (existsb _ _); cbn.
    + split; [reflexivity |]. constructor; [| constructor].
      split; [cbn; lia |]. unfold laterBy. cbn. reflexivity.
    + split; [reflexivity |]. constructor.
Defined.

Lemma rolloutTrajectory_events_paired_witness :
  let col := benchWithGap benchGap in
  exists T avg,
    rolloutTrajectory col benchProblemEvent false [mkController [0; 1] [] [[0]; [0]] []]
    = Ok (T, avg)
    /\ nth 0%nat (timeTrajectoriesStock T) [] = [0; 1; 1 + benchGap; 2]
    /\ nth 0%nat (postEventIndicesStock T) [] = [2%nat]
    /\ laterBy benchGap (nth 1 (nth 0%nat (timeTrajectoriesStock T) []) 0)
                        (nth 2 (nth 0%nat (timeTrajectoriesStock T) []) 0).
Proof.
  cbv zeta. eexists. eexists. split; [vm_compute; reflexivity |].
  split; [reflexivity |]. split; [reflexivity |].
  refine (proj2 (rolloutTrajectory_events_paired
                   (laterBy benchGap) (laterBy_compat benchGap)
                   (benchWithGap benchGap) (benchWithGap_keeps benchGap)
                   benchProblemEvent false [mkController [0; 1] [] [[0]; [0]] []] _ _
                   ltac:(vm_compute; reflexivity) 0%nat 2%nat _)).
  simpl. left. reflexivity.
Defined.

(** After [rewind(1)] on the three-partition optimizer whose partitions
    have each their own nominal trajectory, partition 0 holds the
    controller and the Riccati values of the former partition 1 but still
    its own trajectory: it does not hold all that partition 1 held. *)
Lemma rewind_leaves_trajectories :
  exists st',
    rewindOptimizer 1 rewindStateRolled = Returned st'
    /\ partitionData st' 0 = partitionData rewindStateRolled 1
    /\ partitionAt (nominal st') 0 = partitionAt (nominal rewindStateRolled) 0
    /\ partitionContents st' 0 <> partitionContents rewindStateRolled 1.
Proof.
  eexists. split; [vm_compute; reflexivity |].
  split; [reflexivity |]. split; [reflexivity |].
  vm_compute. discriminate.
Qed.

Lemma rewindOptimizer_shifts_witness :
  exists st',
    rewindOptimizer 1 rewindStateRolled = Returned st'
    /\ partitionData st' 0 = partitionData rewindStateRolled 1
    /\ partitionData st' 1 = partitionData rewindStateRolled 2
    /\ partitionData st' 2 = clearedPartition <$> partitionData rewindStateRolled 2
    /\ nominal st' = nominal rewindStateRolled.
Proof.
  destruct (rewindOptimizer_shifts 1 rewindStateRolled
              ltac:(simpl; lia) ltac:(repeat split; reflexivity))
    as (st' & Hret & Hshift & Hclear & Hnominal & _).
  exists st'. split; [exact Hret |].
  split; [apply (Hshift 0%nat); simpl; lia |].
  split; [apply (Hshift 1%nat); simpl; lia |].
  split; [apply (Hclear 2%nat); simpl; lia | exact Hnominal].
Defined.

Lemma runImpl_BadInput_witness :
  let col := bench benchEps neverDiverges costFlat iseNone in
  let st := benchState (benchSettings 1 (1 # 4)) [] in
  exists e st',
    runImpl col 100 (fun _ => []) 0 [Finite 1] 1 [] [] st = Threw e st'
    /\ isBadInput e = true.
Proof.
  cbv zeta.
  apply (proj2 (proj1 (runImpl_BadInput (bench benchEps neverDiverges costFlat iseNone)
                         100 (fun _ => []) 0 [Finite 1] 1 [] []
                         (benchState (benchSettings 1 (1 # 4)) [])))).
  right. left. reflexivity.
Defined.

Lemma lineSearch_clears_increments_witness :
  let col := bench benchEps neverDiverges costImproving iseStateEq in
  let st := benchState (benchSettings 1 (1 # 4)) [benchController] in
  exists st',
    lineSearch col 100 [] st = Ok st'
    /\ length (nominalControllersStock_ st') = 1%nat
    /\ Forall (fun c => deltaBiasArray_ c = []) (nominalControllersStock_ st')
    /\ ((learningRateStar_ st' = 0
         /\ nominalControllersStock_ st' = map clearDeltaBias [benchController])
        \/ nominalControllersStock_ st'
           = map clearDeltaBias
               (incrementControllers 1 (learningRateStar_ st') [benchController])).
Proof.
  cbv zeta. eexists. split; [vm_compute; reflexivity |].
  destruct (lineSearch_clears_increments
              (bench benchEps neverDiverges costImproving iseStateEq) 100 []
              (benchState (benchSettings 1 (1 # 4)) [benchController]) _
              ltac:(vm_compute; reflexivity)) as (Hlen & Hclear & Hfrom & _).
  split; [exact Hlen |]. split; [exact Hclear | exact Hfrom].
Defined.

(* ===================================================================== *)
(** ** distributeWork: the intervals of the workers *)
(* ===================================================================== *)

Lemma to_int_small (z : Z) : (- 2 ^ 31 <= z < 2 ^ 31)%Z -> to_int z = z.
Proof.
  intros H. unfold to_int. rewrite Z.mod_small by lia. lia.
Qed.

Lemma to_size_t_small (z : Z) : (0 <= z < 2 ^ 64)%Z -> to_size_t z = z.
Proof. intros H. unfold to_size_t. apply Z.mod_small. exact H. Qed.

(** The loop without the conversions. *)
Lemma distributeLoop_spec (sub : Z) (n : nat) :
  forall (rem ending lo : Z) (s e : list Z),
    (0 <= sub)%Z -> (0 <= rem <= Z.of_nat n)%Z ->
    (0 <= lo)%Z -> (ending < 2 ^ 31 - 1)%Z ->
    (ending - (Z.of_nat n * sub + rem) = lo - 1)%Z ->
    distributeLoop sub n rem ending = (s, e) ->
    length s = n /\ length e = n
    /\ (forall i, (i < n)%nat ->
          nth i e 0%Z = (ending - (Z.of_nat i * sub + Z.min (Z.of_nat i) rem))%Z
          /\ nth i s 0%Z = (nth i e 0%Z - sub + 1 - (if (Z.of_nat i <? rem)%Z then 1 else 0))%Z).
Proof.
  induction n as [| n IH]; intros rem ending lo s e Hsub Hrem Hlo Hend Heq Hloop.
  - cbn in Hloop. injection Hloop as <- <-. repeat split; intros; lia.
  - cbn [distributeLoop] in Hloop.
    assert (Hn : Z.of_nat (S n) = (Z.of_nat n + 1)%Z) by lia.
    rewrite Hn in Heq, Hrem.
    assert (Hprod : (0 <= Z.of_nat n * sub)%Z) by nia.
    destruct (0 <? rem)%Z eqn:Hr.
    + apply Z.ltb_lt in Hr.
      assert (H1 : to_int (ending - sub) = (ending - sub)%Z) by (apply to_int_small; clear IH Hloop; lia).
      assert (H2 : to_int (rem - 1) = (rem - 1)%Z) by (apply to_int_small; clear IH Hloop; lia).
      assert (H3 : to_int (ending - sub - 1) = (ending - sub - 1)%Z)
        by (apply to_int_small; clear IH Hloop; lia).
      rewrite H1, H2, H3 in Hloop.
      destruct (distributeLoop sub n (rem - 1) (ending - sub - 1)) as [s' e'] eqn:Hrec.
      injection Hloop as <- <-.
      destruct (IH (rem - 1)%Z (ending - sub - 1)%Z lo s' e') as (Hs & He & Hi);
        [lia | lia | lia | lia | lia | exact Hrec |].
      split; [cbn; lia |]. split; [cbn; lia |].
      intros [| i] Hlt.
      * cbn [nth]. change (Z.of_nat 0) with 0%Z.
        rewrite (proj2 (Z.ltb_lt 0 rem)) by lia. split; lia.
      * cbn [nth]. destruct (Hi i ltac:(lia)) as [Hei Hsi]. rewrite Hsi, Hei. split.
        -- nia.
        -- destruct (Z.of_nat i <? rem - 1)%Z eqn:C1; destruct (Z.of_nat (S i) <? rem)%Z eqn:C2;
             try apply Z.ltb_lt in C1; try apply Z.ltb_ge in C1;
             try apply Z.ltb_lt in C2; try apply Z.ltb_ge in C2; lia.
    + apply Z.ltb_ge in Hr. assert (rem = 0%Z) by lia. subst rem.
      assert (H1 : to_int (ending - sub) = (ending - sub)%Z) by (apply to_int_small; clear IH Hloop; lia).
      rewrite H1 in Hloop.
      assert (H2 : to_int (ending - sub + 1) = (ending - sub + 1)%Z)
        by (apply to_int_small; clear IH Hloop; lia).
      rewrite H2 in Hloop.
      assert (H3 : to_int (ending - sub + 1 - 1) = (ending - sub)%Z)
        by (replace (ending - sub + 1 - 1)%Z with (ending - sub)%Z by lia; exact H1).
      rewrite H3 in Hloop.
      destruct (distributeLoop sub n 0 (ending - sub)) as [s' e'] eqn:Hrec.
      injection Hloop as <- <-.
      destruct (IH 0%Z (ending - sub)%Z lo s' e') as (Hs & He & Hi);
        [lia | lia | lia | lia | lia | exact Hrec |].
      split; [cbn; lia |]. split; [cbn; lia |].
      intros [| i] Hlt.
      * cbn [nth]. change (Z.of_nat 0) with 0%Z. cbn. split; lia.
      * cbn [nth]. destruct (Hi i ltac:(lia)) as [Hei Hsi]. rewrite Hsi, Hei. split.
        -- nia.
        -- destruct (Z.of_nat i <? 0)%Z eqn:C1; destruct (Z.of_nat (S i) <? 0)%Z eqn:C2;
             try apply Z.ltb_lt in C1; try apply Z.ltb_ge in C1;
             try apply Z.ltb_lt in C2; try apply Z.ltb_ge in C2; lia.
Qed.

Lemma distributeWork_unfold (nThreads : nat) (pb : Problem) :
  (0 < nThreads)%nat -> (Z.of_nat nThreads < 2 ^ 31)%Z ->
  (initActivePartition_ pb <= finalActivePartition_ pb < numPartitions_ pb)%nat ->
  (Z.of_nat (numPartitions_ pb) < 2 ^ 31)%Z ->
  exists s e q r,
    distributeWork nThreads pb
    = Some (mkWork (setBack 0%Z s) (setFront (Z.of_nat (numPartitions_ pb) - 1)%Z e))
    /\ length s = nThreads /\ length e = nThreads
    /\ q = ((Z.of_nat (finalActivePartition_ pb) - Z.of_nat (initActivePartition_ pb) + 1)
            / Z.of_nat nThreads)%Z
    /\ r = ((Z.of_nat (finalActivePartition_ pb) - Z.of_nat (initActivePartition_ pb) + 1)
            mod Z.of_nat nThreads)%Z
    /\ (0 <= q)%Z /\ (0 <= r < Z.of_nat nThreads)%Z
    /\ (Z.of_nat nThreads * q + r
        = Z.of_nat (finalActivePartition_ pb) - Z.of_nat (initActivePartition_ pb) + 1)%Z
    /\ (forall i, (i < nThreads)%nat ->
          nth i e 0%Z
          = (Z.of_nat (finalActivePartition_ pb) - (Z.of_nat i * q + Z.min (Z.of_nat i) r))%Z
          /\ nth i s 0%Z = (nth i e 0%Z - q + 1 - (if (Z.of_nat i <? r)%Z then 1 else 0))%Z).
Proof.
  intros HN HNs Hact HK.
  set (count := (Z.of_nat (finalActivePartition_ pb) - Z.of_nat (initActivePartition_ pb) + 1)%Z).
  set (q := (count / Z.of_nat nThreads)%Z).
  set (r := (count mod Z.of_nat nThreads)%Z).
  assert (Hcount : (0 < count < 2 ^ 31)%Z) by (unfold count; lia).
  assert (Hq : (0 <= q)%Z) by (apply Z.div_pos; lia).
  assert (Hr : (0 <= r < Z.of_nat nThreads)%Z) by (apply Z.mod_pos_bound; lia).
  assert (Hdm : (Z.of_nat nThreads * q + r = count)%Z)
    by (symmetry; apply Z.div_mod; lia).
  assert (Hqle : (q <= count)%Z) by nia.
  unfold distributeWork.
  rewrite (to_int_small (Z.of_nat nThreads)) by lia.
  destruct (Z.of_nat nThreads <=? 0)%Z eqn:E; [apply Z.leb_le in E; lia |].
  rewrite (to_size_t_small (Z.of_nat nThreads)) by lia.
  fold count. rewrite (to_size_t_small count) by lia.
  fold q r. rewrite (to_int_small q), (to_int_small r) by lia.
  rewrite (to_int_small (Z.of_nat (finalActivePartition_ pb))) by lia.
  rewrite (to_size_t_small (Z.of_nat (numPartitions_ pb) - 1)) by lia.
  rewrite (to_int_small (Z.of_nat (numPartitions_ pb) - 1)) by lia.
  rewrite Nat2Z.id.
  destruct (distributeLoop q nThreads r (Z.of_nat (finalActivePartition_ pb)))
    as [s e] eqn:Hloop.
  exists s, e, q, r. split; [reflexivity |].
  destruct (distributeLoop_spec q nThreads r (Z.of_nat (finalActivePartition_ pb))
              (Z.of_nat (initActivePartition_ pb)) s e) as (Hs & He & Hi);
    [lia | lia | lia | lia | unfold count in Hdm; lia | exact Hloop |].
  repeat split; try assumption; try lia; apply Hi; assumption.
Qed.

(** Where the intervals of the loop lie, before the first and the last are
    widened: inside the active partitions. *)
Lemma distributeLoop_inside (n i : nat) (q r fin ini si ei : Z) :
  (i < n)%nat -> (0 <= q)%Z -> (0 <= r < Z.of_nat n)%Z ->
  (Z.of_nat n * q + r = fin - ini + 1)%Z ->
  ei = (fin - (Z.of_nat i * q + Z.min (Z.of_nat i) r))%Z ->
  si = (ei - q + 1 - (if (Z.of_nat i <? r)%Z then 1 else 0))%Z ->
  (ini <= si <= ei + 1 /\ ei <= fin)%Z
  /\ (i = 0%nat -> ei = fin)
  /\ (S i = n -> si = ini).
Proof.
  intros Hi Hq Hr Hdm -> ->.
  assert (H1 : (0 <= Z.of_nat i * q)%Z) by nia.
  assert (H2 : ((Z.of_nat i + 1) * q <= Z.of_nat n * q)%Z)
    by (apply Z.mul_le_mono_nonneg_r; lia).
  assert (H3 : S i = n -> (Z.of_nat i + 1 = Z.of_nat n)%Z) by lia.
  assert (H4 : i = 0%nat -> Z.of_nat i = 0%Z) by lia.
  destruct (Z.of_nat i <? r)%Z eqn:C; [apply Z.ltb_lt in C | apply Z.ltb_ge in C];
    (split; [lia |]; split; intros E; [apply H4 in E | apply H3 in E]; lia).
Qed.

(** X1. The intervals that [distributeWork] hands to the workers tile
    [0, numPartitions_ - 1] from the top: the first ends at the last
    partition, the last starts at partition 0, each one ends just below
    the start of its predecessor, and none has a negative length. *)
Theorem distributeWork_tiles (nThreads : nat) (pb : Problem) :
  (0 < nThreads)%nat -> (Z.of_nat nThreads < 2 ^ 31)%Z ->
  (initActivePartition_ pb <= finalActivePartition_ pb < numPartitions_ pb)%nat ->
  (Z.of_nat (numPartitions_ pb) < 2 ^ 31)%Z ->
  exists d,
    distributeWork nThreads pb = Some d
    /\ length (startingIndicesRiccatiWorker_ d) = nThreads
    /\ length (endingIndicesRiccatiWorker_ d) = nThreads
    /\ nth 0 (endingIndicesRiccatiWorker_ d) 0%Z = (Z.of_nat (numPartitions_ pb) - 1)%Z
    /\ nth (nThreads - 1) (startingIndicesRiccatiWorker_ d) 0%Z = 0%Z
    /\ (forall i, (S i < nThreads)%nat ->
          nth (S i) (endingIndicesRiccatiWorker_ d) 0%Z
          = (nth i (startingIndicesRiccatiWorker_ d) 0%Z - 1)%Z)
    /\ (forall i, (i < nThreads)%nat ->
          (nth i (startingIndicesRiccatiWorker_ d) 0 <= nth i (endingIndicesRiccatiWorker_ d) 0 + 1)%Z).
Proof.
  intros HN HNs Hact HK.
  destruct (distributeWork_unfold nThreads pb HN HNs Hact HK)
    as (s & e & q & r & Heq & Hs & He & _ & _ & Hq & Hr & Hdm & Hi).
  eexists. split; [exact Heq |]. cbn [startingIndicesRiccatiWorker_ endingIndicesRiccatiWorker_].
  unfold setBack, setFront. rewrite !length_insert.
  split; [exact Hs |]. split; [exact He |].
  split; [rewrite nth_insert; case_decide; [reflexivity | lia] |].
  split; [rewrite nth_insert, Hs; case_decide; [reflexivity | lia] |].
  split.
  - intros i Hlt. rewrite !nth_insert, Hs.
    repeat case_decide; try lia.
    destruct (Hi i ltac:(lia)) as [Hei Hsi]. destruct (Hi (S i) Hlt) as [Hei' _].
    rewrite Hsi, Hei, Hei'.
    replace (Z.of_nat (S i)) with (Z.of_nat i + 1)%Z by lia.
    destruct (Z.of_nat i <? r)%Z eqn:C; [apply Z.ltb_lt in C | apply Z.ltb_ge in C]; lia.
  - intros i Hlt. rewrite !nth_insert, Hs.
    destruct (Hi i Hlt) as [Hei Hsi].
    destruct (distributeLoop_inside nThreads i q r (Z.of_nat (finalActivePartition_ pb))
                (Z.of_nat (initActivePartition_ pb)) (nth i s 0%Z) (nth i e 0%Z)
                Hlt Hq Hr Hdm Hei Hsi) as (((Hlow & Hup) & Htop) & _ & _).
    repeat case_decide; lia.
Qed.

(** X2. The active partitions are shared out evenly: with [q] and [r] the
    quotient and the remainder of their number by the number of workers,
    the first [r] workers get [q + 1] of them and the others get [q]. *)
Theorem distributeWork_balanced (nThreads : nat) (pb : Problem) :
  (0 < nThreads)%nat -> (Z.of_nat nThreads < 2 ^ 31)%Z ->
  (initActivePartition_ pb <= finalActivePartition_ pb < numPartitions_ pb)%nat ->
  (Z.of_nat (numPartitions_ pb) < 2 ^ 31)%Z ->
  exists d,
    distributeWork nThreads pb = Some d
    /\ forall i, (i < nThreads)%nat ->
         let active :=
           (Z.of_nat (finalActivePartition_ pb) - Z.of_nat (initActivePartition_ pb) + 1)%Z in
         activeShare pb (nth i (startingIndicesRiccatiWorker_ d) 0%Z)
                        (nth i (endingIndicesRiccatiWorker_ d) 0%Z)
         = (active / Z.of_nat nThreads
            + (if (Z.of_nat i <? active mod Z.of_nat nThreads)%Z then 1 else 0))%Z.
Proof.
  intros HN HNs Hact HK.
  destruct (distributeWork_unfold nThreads pb HN HNs Hact HK)
    as (s & e & q & r & Heq & Hs & He & Hqdef & Hrdef & Hq & Hr & Hdm & Hi).
  eexists. split; [exact Heq |]. cbn [startingIndicesRiccatiWorker_ endingIndicesRiccatiWorker_].
  intros i Hlt. cbv zeta. rewrite <- Hqdef, <- Hrdef.
  unfold setBack, setFront, activeShare. rewrite !nth_insert, Hs.
  destruct (Hi i Hlt) as [Hei Hsi].
  destruct (distributeLoop_inside nThreads i q r (Z.of_nat (finalActivePartition_ pb))
              (Z.of_nat (initActivePartition_ pb)) (nth i s 0%Z) (nth i e 0%Z)
              Hlt Hq Hr Hdm Hei Hsi) as (((Hlow & Hup) & Htop) & Hfirst & Hlast).
  assert (Hsize : (nth i e 0 - nth i s 0 + 1 = q + (if (Z.of_nat i <? r)%Z then 1 else 0))%Z)
    by (rewrite Hsi; lia).
  assert (Hnn : (0 <= q + (if (Z.of_nat i <? r)%Z then 1 else 0))%Z)
    by (destruct (Z.of_nat i <? r)%Z; lia).
  repeat case_decide;
    try (assert (nth i s 0%Z = Z.of_nat (initActivePartition_ pb)) by (apply Hlast; lia));
    try (assert (nth i e 0%Z = Z.of_nat (finalActivePartition_ pb))
           by (apply Hfirst; lia));
    lia.
Qed.

(* ===================================================================== *)
(** ** getPrimalSolution: the cut at the final time *)
(* ===================================================================== *)

Lemma upperBound_le_length (array : list Q) (value : Q) :
  (upperBound array value <= length array)%nat.
Proof.
  induction array as [| a l IH]; cbn; [lia |]. destruct (Qltb value a); cbn; lia.
Qed.

Lemma upperBound_take (array : list Q) (value : Q) :
  Forall (fun t => t <= value) (take (upperBound array value) array).
Proof.
  induction array as [| a l IH]; cbn; [constructor |].
  destruct (Qltb value a) eqn:E; cbn; [constructor |].
  constructor; [apply Qltb_ge; exact E | exact IH].
Qed.

Lemma copyLength_small (array : list Q) (value : Q) :
  (Z.of_nat (length array) < 2 ^ 31)%Z ->
  copyLength array value = Some (upperBound array value).
Proof.
  intros H. unfold copyLength.
  pose proof (upperBound_le_length array value) as Hle.
  rewrite to_int_small by lia.
  destruct (Z.of_nat (upperBound array value) <? 0)%Z eqn:E;
    [apply Z.ltb_lt in E; lia |].
  rewrite Nat2Z.id. reflexivity.
Qed.

Lemma fillTrajectories_within (T : Trajectories) (finalTime : Q) (n : nat) :
  forall i times states inputs times' states' inputs',
    (forall k, (i <= k < i + n)%nat -> partitionAligned T k) ->
    Forall (fun t => t <= finalTime) times ->
    length states = length times -> length inputs = length times ->
    fillTrajectories T finalTime i n (times, states, inputs) = Some (times', states', inputs') ->
    Forall (fun t => t <= finalTime) times'
    /\ length states' = length times' /\ length inputs' = length times'.
Proof.
  induction n as [| n IH]; intros i times states inputs times' states' inputs' Hal Hle Hs Hi H.
  - cbn in H. injection H as <- <- <-. auto.
  - cbn [fillTrajectories] in H.
    destruct (Hal i ltac:(lia)) as (Has & Hai & Hint).
    destruct (nth i (timeTrajectoriesStock T) []) as [| front rest] eqn:Htime; [discriminate |].
    destruct (Qltb finalTime front); [injection H as <- <- <-; auto |].
    rewrite copyLength_small in H by exact Hint. cbn [mbind option_bind] in H.
    eapply IH in H; [exact H | intros k Hk; apply Hal; lia | | |].
    + apply Forall_app. split; [exact Hle | apply upperBound_take].
    + rewrite !length_app, !length_take, Has, Hs. reflexivity.
    + rewrite !length_app, !length_take, Hai, Hi. reflexivity.
Qed.

Lemma sortedTimes_app (l1 l2 : list Q) :
  sortedTimes (l1 ++ l2) ->
  sortedTimes l1 /\ sortedTimes l2
  /\ forall a b, In a l1 -> In b l2 -> a <= b.
Proof.
  induction l1 as [| x l1 IH]; cbn.
  - intros H. repeat split; [exact H | intros a b []].
  - intros [Hx Hs]. apply Forall_app in Hx. destruct Hx as [Hx1 Hx2].
    destruct (IH Hs) as (H1 & H2 & H12).
    repeat split; try assumption.
    intros a b [<- | Ha] Hb.
    + rewrite Forall_forall in Hx2. apply Hx2. apply list_elem_of_In. exact Hb.
    + apply H12; assumption.
Qed.

Lemma upperBound_all (l : list Q) (v : Q) :
  upperBound l v = length l -> Forall (fun t => t <= v) l.
Proof.
  intros H. pose proof (upperBound_take l v) as Ht. rewrite H, firstn_all in Ht. exact Ht.
Qed.

Lemma upperBound_short (l : list Q) (v : Q) :
  (upperBound l v < length l)%nat -> exists a, In a l /\ v < a.
Proof.
  induction l as [| x l IH]; cbn; [lia |].
  destruct (Qltb v x) eqn:E.
  - intros _. exists x. split; [left; reflexivity | apply Qltb_lt; exact E].
  - intros H. destruct IH as (a & Ha & Hva); [lia |]. exists a. split; [right |]; assumption.
Qed.

Lemma upperBound_above (l : list Q) (v : Q) :
  (forall b, In b l -> v < b) -> upperBound l v = O.
Proof.
  destruct l as [| x l]; cbn; [reflexivity |]. intros H.
  rewrite (proj2 (Qltb_lt v x)); [reflexivity | apply H; left; reflexivity].
Qed.

Lemma upperBound_app_full (l1 l2 : list Q) (v : Q) :
  upperBound l1 v = length l1 ->
  upperBound (l1 ++ l2) v = (length l1 + upperBound l2 v)%nat.
Proof.
  induction l1 as [| x l1 IH]; cbn; [reflexivity |].
  destruct (Qltb v x); [discriminate |]. intros H. rewrite IH by lia. reflexivity.
Qed.

Lemma upperBound_app_short (l1 l2 : list Q) (v : Q) :
  (upperBound l1 v < length l1)%nat ->
  upperBound (l1 ++ l2) v = upperBound l1 v.
Proof.
  induction l1 as [| x l1 IH]; cbn; [lia |].
  destruct (Qltb v x); [reflexivity |]. intros H. rewrite IH by lia. reflexivity.
Qed.

(** What the cut of one partition and the cut of the later ones add up to. *)
Lemma take_upperBound_app {A} (time rest : list Q) (xs xrest : list A) (v : Q) :
  sortedTimes (time ++ rest) -> length xs = length time ->
  upperBound (time ++ rest) v
  = (upperBound time v + upperBound rest v)%nat
  /\ take (upperBound (time ++ rest) v) (xs ++ xrest)
     = take (upperBound time v) xs ++ take (upperBound rest v) xrest.
Proof.
  intros Hs Hlen. destruct (sortedTimes_app _ _ Hs) as (_ & _ & H12).
  pose proof (upperBound_le_length time v) as Hle.
  destruct (decide (upperBound time v = length time)) as [Hfull | Hshort].
  - rewrite upperBound_app_full by exact Hfull. rewrite Hfull. split; [reflexivity |].
    rewrite <- Hlen. rewrite take_app_add'; [| reflexivity].
    rewrite firstn_all. reflexivity.
  - destruct (upperBound_short time v) as (a & Ha & Hva); [lia |].
    assert (Hrest : upperBound rest v = O).
    { apply upperBound_above. intros b Hb. eapply Qlt_le_trans; [exact Hva |].
      apply H12; assumption. }
    rewrite upperBound_app_short by lia. rewrite Hrest, Nat.add_0_r.
    split; [reflexivity |].
    rewrite take_app_le by lia. cbn. rewrite app_nil_r. reflexivity.
Qed.

Lemma joined_step {A} (stock : list (list A)) (i n : nat) :
  nth i stock [] <> [] ->
  joined stock i (S n) = nth i stock [] ++ joined stock (S i) n.
Proof.
  intros Hne. unfold joined.
  destruct (stock !! i) as [x |] eqn:Hx.
  - rewrite (drop_S stock x i Hx). cbn. rewrite (nth_lookup_Some _ _ _ _ Hx). reflexivity.
  - exfalso. apply Hne. rewrite nth_lookup, Hx. reflexivity.
Qed.

Lemma fillTrajectories_joined (T : Trajectories) (finalTime : Q) (n : nat) :
  forall i times states inputs,
    (forall k, (i <= k < i + n)%nat ->
               partitionAligned T k /\ nth k (timeTrajectoriesStock T) [] <> []) ->
    sortedTimes (joined (timeTrajectoriesStock T) i n) ->
    let cut := upperBound (joined (timeTrajectoriesStock T) i n) finalTime in
    fillTrajectories T finalTime i n (times, states, inputs)
    = Some (times ++ take cut (joined (timeTrajectoriesStock T) i n),
            states ++ take cut (joined (stateTrajectoriesStock T) i n),
            inputs ++ take cut (joined (inputTrajectoriesStock T) i n)).
Proof.
  induction n as [| n IH]; intros i times states inputs Hal Hsorted.
  - cbn. unfold joined. cbn. rewrite !take_0. cbn. rewrite !app_nil_r. reflexivity.
  - cbv zeta. destruct (Hal i ltac:(lia)) as ((Has & Hai & Hint) & Hne).
    assert (Hnes : nth i (stateTrajectoriesStock T) [] <> []).
    { intros E. rewrite E in Has. cbn in Has. destruct (nth i (timeTrajectoriesStock T) []);
        [congruence | discriminate]. }
    assert (Hnei : nth i (inputTrajectoriesStock T) [] <> []).
    { intros E. rewrite E in Hai. cbn in Hai. destruct (nth i (timeTrajectoriesStock T) []);
        [congruence | discriminate]. }
    rewrite (joined_step (timeTrajectoriesStock T)) in * by exact Hne.
    rewrite (joined_step (stateTrajectoriesStock T)) by exact Hnes.
    rewrite (joined_step (inputTrajectoriesStock T)) by exact Hnei.
    destruct (sortedTimes_app _ _ Hsorted) as (Hs1 & Hs2 & H12).
    cbn [fillTrajectories].
    destruct (nth i (timeTrajectoriesStock T) []) as [| front rest] eqn:Htime;
      [congruence |].
    destruct (Qltb finalTime front) eqn:Hfront.
    + cbn [app upperBound]. rewrite Hfront. rewrite !take_0, !app_nil_r. reflexivity.
    + rewrite copyLength_small by exact Hint. cbn [mbind option_bind].
      rewrite IH; [| intros k Hk; apply Hal; lia | exact Hs2].
      cbv zeta.
      destruct (take_upperBound_app (front :: rest)
                  (joined (timeTrajectoriesStock T) (S i) n) (front :: rest)
                  (joined (timeTrajectoriesStock T) (S i) n) finalTime Hsorted eq_refl)
        as [_ ->].
      destruct (take_upperBound_app (front :: rest)
                  (joined (timeTrajectoriesStock T) (S i) n)
                  (nth i (stateTrajectoriesStock T) [])
                  (joined (stateTrajectoriesStock T) (S i) n) finalTime Hsorted Has)
        as [_ ->].
      destruct (take_upperBound_app (front :: rest)
                  (joined (timeTrajectoriesStock T) (S i) n)
                  (nth i (inputTrajectoriesStock T) [])
                  (joined (inputTrajectoriesStock T) (S i) n) finalTime Hsorted Hai)
        as [_ ->].
      rewrite <- !app_assoc. reflexivity.
Qed.

Section PrimalSolutionProperties.

Variable concatenate : linear_controller -> linear_controller -> nat -> nat
                       -> result linear_controller.

(** X3. Whatever [getPrimalSolution] returns holds no sample after the
    requested final time, and its time, state and input trajectories have
    one length; the time trajectories are sorted and the three
    trajectories of every active partition have one length. *)
Theorem getPrimalSolution_within_horizon (useFeedbackPolicy : bool) (st : DDP)
    (finalTime : Q) (ps : primal_solution) :
  (forall k, (initActivePartition_ (problem st) <= k <= finalActivePartition_ (problem st))%nat ->
             partitionAligned (nominal st) k
             /\ sortedTimes (nth k (timeTrajectoriesStock (nominal st)) [])) ->
  getPrimalSolution concatenate useFeedbackPolicy st finalTime = Some (Ok ps) ->
  Forall (fun t => t <= finalTime) (timeTrajectory_ ps)
  /\ length (stateTrajectory_ ps) = length (timeTrajectory_ ps)
  /\ length (inputTrajectory_ ps) = length (timeTrajectory_ ps).
Proof.
  intros Hal H. unfold getPrimalSolution in H.
  destruct (fillTrajectories _ _ _ _ _) as [[[times states] inputs] |] eqn:Hfill;
    [| discriminate].
  cbn [mbind option_bind] in H.
  apply fillTrajectories_within in Hfill;
    [| intros k Hk; apply Hal; lia | constructor | reflexivity | reflexivity].
  destruct useFeedbackPolicy.
  - destruct (concatenateControllers _ _ _ _ _ _) as [[c | e] |]; cbn in H;
      try discriminate.
    injection H as <-. exact Hfill.
  - injection H as <-. exact Hfill.
Qed.

(** X4. With sorted time stamps over the active partitions, none of them
    empty, the feed-forward solution is the part of the joined nominal
    trajectories up to the requested final time: cutting partition by
    partition, with the early exit, gives the cut of the whole. *)
Theorem getPrimalSolution_prefix (st : DDP) (finalTime : Q) :
  let pb := problem st in
  let active := (finalActivePartition_ pb + 1 - initActivePartition_ pb)%nat in
  let times := joined (timeTrajectoriesStock (nominal st)) (initActivePartition_ pb) active in
  let states := joined (stateTrajectoriesStock (nominal st)) (initActivePartition_ pb) active in
  let inputs := joined (inputTrajectoriesStock (nominal st)) (initActivePartition_ pb) active in
  let cut := upperBound times finalTime in
  (forall k, (initActivePartition_ pb <= k <= finalActivePartition_ pb)%nat ->
             partitionAligned (nominal st) k
             /\ nth k (timeTrajectoriesStock (nominal st)) [] <> []) ->
  sortedTimes times ->
  getPrimalSolution concatenate false st finalTime
  = Some (Ok (mkPrimalSolution (take cut times) (take cut states) (take cut inputs)
                (FeedforwardController (take cut times) (take cut inputs))
                (eventTimes pb))).
Proof.
  intros pb active times states inputs cut Hal Hsorted. unfold getPrimalSolution.
  fold pb active.
  rewrite fillTrajectories_joined; [| intros k Hk; apply Hal; lia | exact Hsorted].
  reflexivity.
Qed.

End PrimalSolutionProperties.

(* ===================================================================== *)
(** ** rolloutTrajectory: shape and cold start *)
(* ===================================================================== *)

Lemma nth_replicate_nil {A} (n k : nat) : nth k (replicate n (@nil A)) [] = [].
Proof.
  revert k. induction n as [| n IH]; intros [| k]; cbn; auto.
Qed.

Lemma emptyTrajectories_sized (n : nat) : trajectoriesSized n (emptyTrajectories n).
Proof. unfold trajectoriesSized. cbn. rewrite !length_replicate. auto. Qed.

Lemma emptyTrajectories_empty (n k : nat) : partitionEmpty (emptyTrajectories n) k.
Proof. unfold partitionEmpty. cbn. rewrite !nth_replicate_nil. auto. Qed.

Lemma setPartition_sized (n i : nat) (p : partition_rollout) (T : Trajectories) :
  trajectoriesSized n T -> trajectoriesSized n (setPartition i p T).
Proof.
  unfold trajectoriesSized. cbn. rewrite !length_insert. auto.
Qed.

Lemma setPartition_other (i k : nat) (p : partition_rollout) (T : Trajectories) :
  i <> k ->
  nth k (timeTrajectoriesStock (setPartition i p T)) [] = nth k (timeTrajectoriesStock T) []
  /\ nth k (postEventIndicesStock (setPartition i p T)) [] = nth k (postEventIndicesStock T) []
  /\ nth k (stateTrajectoriesStock (setPartition i p T)) []
     = nth k (stateTrajectoriesStock T) []
  /\ nth k (inputTrajectoriesStock (setPartition i p T)) []
     = nth k (inputTrajectoriesStock T) []
  /\ nth k (modelDataTrajectoriesStock (setPartition i p T)) []
     = nth k (modelDataTrajectoriesStock T) [].
Proof.
  intros Hne. cbn. rewrite !nth_insert. repeat case_decide; try lia. auto.
Qed.

Section RolloutShape.

Variable col : Collaborators.

Lemma rolloutPartitions_shape pb interrupted cs useTill lastController K n :
  forall i T x numSteps T' x' numSteps',
    trajectoriesSized K T ->
    rolloutPartitions col pb interrupted cs useTill lastController i n (T, x, numSteps)
    = Ok (T', x', numSteps') ->
    trajectoriesSized K T'
    /\ (forall k, (k < i \/ i + n <= k)%nat ->
                  nth k (timeTrajectoriesStock T') [] = nth k (timeTrajectoriesStock T) []
                  /\ (partitionEmpty T k -> partitionEmpty T' k))
    /\ ((n = 0 \/ i + n <= K)%nat ->
        numSteps' = (numSteps + length (joined (timeTrajectoriesStock T') i n))%nat).
Proof.
  induction n as [| n IH]; intros i T x numSteps T' x' numSteps' HT H.
  - cbn in H. injection H as <- <- <-. split; [exact HT |]. split; [auto |].
    intros _. unfold joined. rewrite take_0. cbn. lia.
  - cbn [rolloutPartitions] in H.
    destruct (rolloutPartition col pb interrupted cs useTill lastController i x)
      as [[p x1] |] eqn:Hp; [| discriminate].
    cbn in H. apply IH in H; [| apply setPartition_sized; exact HT].
    destruct H as (Hsized & Hout & Hsteps). split; [exact Hsized |]. split.
    + intros k Hk. destruct (Hout k ltac:(lia)) as [Ht He].
      destruct (setPartition_other i k p T ltac:(lia)) as (E1 & E2 & E3 & E4 & E5).
      split; [rewrite Ht; exact E1 |].
      intros Hempty. apply He. unfold partitionEmpty in *.
      rewrite E1, E2, E3, E4, E5. exact Hempty.
    + intros [Hle | Hle]; [discriminate |]. rewrite Hsteps by lia.
      destruct (Hout i ltac:(lia)) as [Ht _].
      destruct HT as (HlenT & _). destruct Hsized as (HlenT' & _).
      assert (Hi : nth i (timeTrajectoriesStock T') [] = p_time p).
      { rewrite Ht. cbn. rewrite nth_insert. case_decide; [reflexivity | lia]. }
      unfold joined.
      destruct (lookup_lt_is_Some_2 (timeTrajectoriesStock T') i ltac:(lia)) as [y Hy].
      rewrite (drop_S _ y i Hy). cbn [take concat]. rewrite length_app.
      rewrite <- (nth_lookup_Some _ _ [] _ Hy), Hi. lia.
Qed.

(** X5. Every rollout that [rolloutTrajectory] returns has [numPartitions_]
    partitions in each of its five stocks; the partitions outside the
    active range are empty; model data and time stamps of every partition
    have one length; and the average time step is the horizon divided by
    the number of samples of the active partitions. *)
Theorem rolloutTrajectory_shape pb interrupted cs T avg :
  rolloutTrajectory col pb interrupted cs = Ok (T, avg) ->
  trajectoriesSized (numPartitions_ pb) T
  /\ (forall k, (k < initActivePartition_ pb \/ finalActivePartition_ pb < k)%nat ->
                partitionEmpty T k)
  /\ (forall k, length (nth k (modelDataTrajectoriesStock T) [])
                = length (nth k (timeTrajectoriesStock T) []))
  /\ ((finalActivePartition_ pb < numPartitions_ pb)%nat ->
      avg = averageTimeStep pb
              (length (joined (timeTrajectoriesStock T) (initActivePartition_ pb)
                              (finalActivePartition_ pb + 1 - initActivePartition_ pb)))).
Proof.
  unfold rolloutTrajectory. intros H.
  destruct (negb (length cs =? numPartitions_ pb)%nat); [discriminate |].
  destruct (rolloutPartitions _ _ _ _ _ _ _ _ _) as [[[T1 x1] n1] |] eqn:Hloop;
    [| discriminate].
  cbn in H.
  destruct (negb (allFinite x1)); [discriminate |].
  destruct (negb (modelDataSizesAgree T1 _ _)) eqn:Hagree; [discriminate |].
  injection H as <- <-.
  apply rolloutPartitions_shape with (K := numPartitions_ pb) in Hloop;
    [| apply emptyTrajectories_sized].
  destruct Hloop as (Hsized & Hout & Hsteps).
  assert (Hempty : forall k, (k < initActivePartition_ pb \/ finalActivePartition_ pb < k)%nat ->
                             partitionEmpty T1 k).
  { intros k Hk.
    assert (Hk' : (k < initActivePartition_ pb
                   \/ initActivePartition_ pb
                      + (finalActivePartition_ pb + 1 - initActivePartition_ pb) <= k)%nat)
      by (clear - Hk; lia).
    destruct (Hout k Hk') as [_ He]. apply He.
    apply emptyTrajectories_empty. }
  split; [exact Hsized |]. split; [exact Hempty |]. split.
  - intros k. apply negb_false_iff in Hagree.
    destruct (le_lt_dec (initActivePartition_ pb) k) as [Hlo |];
      [destruct (le_lt_dec k (finalActivePartition_ pb)) as [Hhi |] |].
    + clear - Hagree Hlo Hhi.
      remember (finalActivePartition_ pb + 1 - initActivePartition_ pb)%nat as n eqn:Hn.
      assert (Hk : (k < initActivePartition_ pb + n)%nat) by lia. clear Hn Hhi.
      revert Hagree Hlo Hk. generalize (initActivePartition_ pb) as i.
      induction n as [| n IH]; intros i Hagree Hlo Hk; [lia |].
      cbn in Hagree. apply andb_prop in Hagree. destruct Hagree as [Hi Hrest].
      destruct (decide (k = i)) as [-> | Hne].
      * apply Nat.eqb_eq in Hi. exact Hi.
      * apply (IH (S i)); [exact Hrest | lia | lia].
    + destruct (Hempty k ltac:(lia)) as (-> & _ & _ & _ & ->). reflexivity.
    + destruct (Hempty k ltac:(lia)) as (-> & _ & _ & _ & ->). reflexivity.
  - intros Hfin. rewrite Hsteps by lia. reflexivity.
Qed.

End RolloutShape.

Lemma cold_controller_unused (t0 useTill tf : Q) :
  useTill <= t0 -> Qltb t0 (std_max t0 (std_min useTill tf)) = false.
Proof.
  intros H. unfold std_max.
  destruct (Qltb t0 (std_min useTill tf)) eqn:E; [| apply Qltb_ge; lra].
  exfalso. apply Qltb_lt in E. unfold std_min in E.
  destruct (Qltb tf useTill) eqn:E2; [apply Qltb_lt in E2 |]; lra.
Qed.

Section ColdStart.

Variables col col' : Collaborators.
Hypothesis same_op : sameOperatingPoints col col'.

Lemma rolloutPartition_cold pb interrupted cs cs' last last' i x :
  (i = initActivePartition_ pb \/ initTime_ pb <= nth i (partitioningTimes_ pb) 0) ->
  rolloutPartition col pb interrupted cs (initTime_ pb) last i x
  = rolloutPartition col' pb interrupted cs' (initTime_ pb) last' i x.
Proof using same_op.
  intros Hi. unfold rolloutPartition.
  set (t0 := if Nat.eqb i (initActivePartition_ pb) then _ else _).
  set (tf := if Nat.eqb i (finalActivePartition_ pb) then _ else _).
  assert (Ht0 : initTime_ pb <= t0).
  { unfold t0. destruct (Nat.eqb i (initActivePartition_ pb)) eqn:E; [lra |].
    apply Nat.eqb_neq in E. destruct Hi as [Hi | Hi]; [congruence | exact Hi]. }
  rewrite (cold_controller_unused t0 (initTime_ pb) tf Ht0).
  cbn. destruct (Qltb _ tf); [| reflexivity].
  unfold runOperatingPoints. cbn. destruct interrupted; [reflexivity |].
  rewrite same_op. reflexivity.
Qed.

Lemma rolloutPartitions_cold pb interrupted cs cs' last last' n :
  forall i acc,
    (forall k, (i <= k < i + n)%nat ->
               k = initActivePartition_ pb \/ initTime_ pb <= nth k (partitioningTimes_ pb) 0) ->
    rolloutPartitions col pb interrupted cs (initTime_ pb) last i n acc
    = rolloutPartitions col' pb interrupted cs' (initTime_ pb) last' i n acc.
Proof using same_op.
  induction n as [| n IH]; intros i [[T x] s] Hk; [reflexivity |].
  cbn [rolloutPartitions].
  rewrite (rolloutPartition_cold pb interrupted cs cs' last last' i x) by (apply Hk; lia).
  destruct (rolloutPartition col' _ _ _ _ _ _ _) as [[p x1] |]; [| reflexivity].
  cbn. apply IH. intros k Hk'. apply Hk. lia.
Qed.

(** X6. When the controller of the first active partition is empty, no
    controller is integrated: the rollout is made of operating points
    alone, whatever the other controllers and the controlled integrator
    are. *)
Theorem rolloutTrajectory_cold_start pb interrupted cs cs' :
  startsInFirstPartition pb ->
  length cs = length cs' ->
  ctrl_empty (nth (initActivePartition_ pb) cs emptyController) = true ->
  ctrl_empty (nth (initActivePartition_ pb) cs' emptyController) = true ->
  rolloutTrajectory col pb interrupted cs = rolloutTrajectory col' pb interrupted cs'.
Proof using same_op.
  intros Hstart Hlen Hc Hc'. unfold rolloutTrajectory, useControllerTill.
  rewrite Hc, Hc', Hlen.
  destruct (negb (length cs' =? numPartitions_ pb)%nat); [reflexivity |].
  rewrite (rolloutPartitions_cold pb interrupted cs cs'
             (partitionOfLastController pb cs) (partitionOfLastController pb cs')).
  - reflexivity.
  - intros k Hk. destruct (decide (k = initActivePartition_ pb)) as [-> | Hne];
      [left; reflexivity | right; apply Hstart; lia].
Qed.

End ColdStart.

(* ===================================================================== *)
(** ** reset: what it clears *)
(* ===================================================================== *)

Lemma fillRange_all {A} (x : A) (k : nat) :
  forall i v, length v = (i + k)%nat -> fillRange x i k v = take i v ++ replicate k x.
Proof.
  induction k as [| k IH]; intros i v Hlen; cbn.
  - rewrite app_nil_r, firstn_all2 by lia. reflexivity.
  - rewrite IH by (rewrite length_insert; lia).
    rewrite (take_S_r (<[i := x]> v) i x)
      by (apply list_lookup_insert_eq; lia).
    rewrite take_insert_ge by lia. rewrite <- app_assoc. reflexivity.
Qed.

Lemma modifyAt_clear (i : nat) (cs : list linear_controller) :
  modifyAt ctrl_clear i cs = <[i := emptyController]> cs.
Proof.
  unfold modifyAt. destruct (cs !! i) eqn:E; [reflexivity |].
  rewrite list_insert_ge; [reflexivity |]. apply lookup_ge_None. exact E.
Qed.

Lemma resetLoop_fill (n k : nat) :
  forall i cs nominal cached fin,
    resetLoop n i k (cs, nominal, cached, fin)
    = (fillRange emptyController i k cs,
       mkTrajectories (fillRange [] i k (timeTrajectoriesStock nominal))
                      (fillRange [] i k (postEventIndicesStock nominal))
                      (fillRange [] i k (stateTrajectoriesStock nominal))
                      (fillRange [] i k (inputTrajectoriesStock nominal))
                      (modelDataTrajectoriesStock nominal),
       mkTrajectories (fillRange [] i k (timeTrajectoriesStock cached))
                      (fillRange [] i k (postEventIndicesStock cached))
                      (fillRange [] i k (stateTrajectoriesStock cached))
                      (fillRange [] i k (inputTrajectoriesStock cached))
                      (fillRange [] i k (modelDataTrajectoriesStock cached)),
       mkRiccatiFinal (fillRange (zeroMatrix n) i k (SmFinalStock_ fin))
                      (fillRange (zeroVector n) i k (SvFinalStock_ fin))
                      (fillRange (zeroVector n) i k (SveFinalStock_ fin))
                      (fillRange 0 i k (sFinalStock_ fin))
                      (fillRange (zeroVector n) i k (xFinalStock_ fin))).
Proof.
  induction k as [| k IH]; intros i cs nominal cached fin.
  - cbn. destruct nominal, cached, fin. reflexivity.
  - cbn [resetLoop resetPartition]. rewrite IH, modifyAt_clear. reflexivity.
Qed.

Lemma reset_resetState (n : nat) (st : DDP) :
  resetSized st -> reset n st = resetState n st.
Proof.
  intros ((Hcs & HSm & HSv & HSve & Hs & Hx) & (Hn1 & Hn2 & Hn3 & Hn4 & Hn5)
          & (Hc1 & Hc2 & Hc3 & Hc4 & Hc5)).
  unfold reset, resetState.
  cbn [numPartitions_ problem nominalControllersStock_ nominal cached finals
       set_maxLearningRate_ set_learningRateStar_ set_rewindCounter_ set_iteration_].
  rewrite resetLoop_fill.
  rewrite !fillRange_all by (cbn; assumption).
  rewrite !take_0. cbn [app]. reflexivity.
Qed.

Lemma resetState_sized (n : nat) (st : DDP) :
  resetSized st -> resetSized (resetState n st).
Proof.
  intros (_ & (_ & _ & _ & _ & Hn5) & _).
  unfold resetSized, stocksSized, trajectoriesSized, resetState. cbn.
  rewrite !length_replicate. repeat split; try reflexivity. exact Hn5.
Qed.

(** X7. On stocks of [numPartitions_] entries, [reset] leaves every
    controller empty, every nominal and cached trajectory empty except the
    nominal model data, which it keeps, the terminal values zero, the
    counters at 0 and the learning rates at 1; the settings, the problem,
    the performance indices and the iteration logs stay as they were. *)
Theorem reset_clears (n : nat) (st : DDP) :
  resetSized st ->
  let K := numPartitions_ (problem st) in
  let st' := reset n st in
  iteration_ st' = O /\ rewindCounter_ st' = O
  /\ learningRateStar_ st' = 1 /\ maxLearningRate_ st' = 1
  /\ nominalControllersStock_ st' = replicate K emptyController
  /\ timeTrajectoriesStock (nominal st') = replicate K []
  /\ postEventIndicesStock (nominal st') = replicate K []
  /\ stateTrajectoriesStock (nominal st') = replicate K []
  /\ inputTrajectoriesStock (nominal st') = replicate K []
  /\ modelDataTrajectoriesStock (nominal st') = modelDataTrajectoriesStock (nominal st)
  /\ cached st' = emptyTrajectories K
  /\ SmFinalStock_ (finals st') = replicate K (zeroMatrix n)
  /\ SvFinalStock_ (finals st') = replicate K (zeroVector n)
  /\ SveFinalStock_ (finals st') = replicate K (zeroVector n)
  /\ sFinalStock_ (finals st') = replicate K 0
  /\ xFinalStock_ (finals st') = replicate K (zeroVector n)
  /\ ddpSettings_ st' = ddpSettings_ st /\ problem st' = problem st
  /\ performance st' = performance st
  /\ iterationCost_ st' = iterationCost_ st
  /\ iterationISE1_ st' = iterationISE1_ st
  /\ iterationISE2_ st' = iterationISE2_ st.
Proof.
  intros Hsized. cbv zeta. rewrite (reset_resetState n st Hsized).
  unfold resetState. cbn. repeat split.
Qed.

(** X8. A second [reset] changes nothing. *)
Theorem reset_idempotent (n : nat) (st : DDP) :
  resetSized st -> reset n (reset n st) = reset n st.
Proof.
  intros Hsized. rewrite (reset_resetState n st Hsized).
  rewrite (reset_resetState n (resetState n st) (resetState_sized n st Hsized)).
  reflexivity.
Qed.

(** X9. After a [reset] the rollout of the internal controllers integrates no
    controller: it is the rollout of any stock of the same size whose
    first active controller is empty, with any controlled integrator. *)
Theorem reset_then_rollout (col col' : Collaborators) (n : nat) (st : DDP)
    (interrupted : bool) (cs' : list linear_controller) :
  sameOperatingPoints col col' ->
  resetSized st ->
  startsInFirstPartition (problem st) ->
  (initActivePartition_ (problem st) < numPartitions_ (problem st))%nat ->
  length cs' = numPartitions_ (problem st) ->
  ctrl_empty (nth (initActivePartition_ (problem st)) cs' emptyController) = true ->
  rolloutTrajectory col (problem (reset n st)) interrupted
                    (nominalControllersStock_ (reset n st))
  = rolloutTrajectory col' (problem st) interrupted cs'.
Proof.
  intros Hop Hsized Hstart Hinit Hlen Hc'. rewrite (reset_resetState n st Hsized).
  cbn [resetState problem nominalControllersStock_].
  assert (Hc : ctrl_empty (nth (initActivePartition_ (problem st))
                               (replicate (numPartitions_ (problem st)) emptyController)
                               emptyController) = true)
    by (rewrite nth_lookup, lookup_replicate_2 by exact Hinit; reflexivity).
  unfold rolloutTrajectory, useControllerTill.
  rewrite Hc, Hc', length_replicate, Hlen.
  destruct (negb (numPartitions_ (problem st) =? numPartitions_ (problem st))%nat);
    [reflexivity |].
  rewrite (rolloutPartitions_cold col col' Hop (problem st) interrupted
             (replicate (numPartitions_ (problem st)) emptyController) cs'
             (partitionOfLastController (problem st)
                (replicate (numPartitions_ (problem st)) emptyController))
             (partitionOfLastController (problem st) cs')).
  - reflexivity.
  - intros k Hk. destruct (decide (k = initActivePartition_ (problem st))) as [-> | Hne];
      [left; reflexivity | right; apply Hstart; lia].
Qed.

(* ===================================================================== *)
(** ** rewindOptimizer and setupOptimizer: outcomes *)
(* ===================================================================== *)

Lemma length_assignFrom {A} (i j : nat) (v : list A) : length (assignFrom i j v) = length v.
Proof. unfold assignFrom. destruct (v !! j); [apply length_insert | reflexivity]. Qed.

Lemma length_swapAt {A} (i j : nat) (v : list A) : length (swapAt i j v) = length v.
Proof.
  unfold swapAt. destruct (v !! i); [| reflexivity].
  destruct (v !! j); [rewrite !length_insert |]; reflexivity.
Qed.

Lemma length_modifyAt {A} (f : A -> A) (i : nat) (v : list A) :
  length (modifyAt f i v) = length v.
Proof. unfold modifyAt. destruct (v !! i); [apply length_insert | reflexivity]. Qed.

Lemma length_assignLoop {A} (clearf : A -> A) (firstIndex preservedLength n : nat) :
  forall i v, length (assignLoop clearf firstIndex preservedLength i n v) = length v.
Proof.
  induction n as [| n IH]; intros i v; cbn [assignLoop]; [reflexivity |].
  rewrite IH. destruct (Nat.ltb i preservedLength);
    [apply length_assignFrom | apply length_modifyAt].
Qed.

Lemma length_swapLoop {A} (clearf : A -> A) (firstIndex preservedLength n : nat) :
  forall i v, length (swapLoop clearf firstIndex preservedLength i n v) = length v.
Proof.
  induction n as [| n IH]; intros i v; cbn [swapLoop]; [reflexivity |].
  rewrite IH. destruct (Nat.ltb i preservedLength);
    [apply length_swapAt | apply length_modifyAt].
Qed.

Lemma wrap64_small (n : nat) : (N.of_nat n < 2 ^ 64)%N -> wrap64 n = n.
Proof.
  intros H. unfold wrap64. rewrite N.mod_small by exact H. apply Nat2N.id.
Qed.

Lemma wrap64_overflow : wrap64 (1 + N.to_nat (2 ^ 64 - 1)) = O.
Proof.
  unfold wrap64. rewrite Nat2N.inj_add, N2Nat.id. reflexivity.
Qed.

(** X10. [rewindOptimizer 0] changes nothing. Otherwise, whichever way
    [rewindOptimizer] ends, the rewind counter has grown by [firstIndex]
    modulo 2^64. It throws exactly when [firstIndex] exceeds the number of
    partitions, and has then changed nothing but the counter. When it
    returns, the controller stock and the terminal values keep their
    sizes, and the trajectories, the problem, the settings and the
    performance indices are as before. *)
Theorem rewindOptimizer_outcome (firstIndex : nat) (st : DDP) :
  match rewindOptimizer firstIndex st with
  | Threw e st' =>
      e = RewindIndexTooLarge
      /\ (numPartitions_ (problem st) < firstIndex)%nat
      /\ st' = set_rewindCounter_ (wrap64 (rewindCounter_ st + firstIndex)) st
  | Returned st' =>
      (firstIndex <= numPartitions_ (problem st))%nat
      /\ (firstIndex = O -> st' = st)
      /\ ((0 < firstIndex)%nat ->
          rewindCounter_ st' = wrap64 (rewindCounter_ st + firstIndex))
      /\ length (nominalControllersStock_ st') = length (nominalControllersStock_ st)
      /\ length (SmFinalStock_ (finals st')) = length (SmFinalStock_ (finals st))
      /\ length (SvFinalStock_ (finals st')) = length (SvFinalStock_ (finals st))
      /\ length (SveFinalStock_ (finals st')) = length (SveFinalStock_ (finals st))
      /\ length (sFinalStock_ (finals st')) = length (sFinalStock_ (finals st))
      /\ length (xFinalStock_ (finals st')) = length (xFinalStock_ (finals st))
      /\ nominal st' = nominal st /\ cached st' = cached st
      /\ problem st' = problem st /\ ddpSettings_ st' = ddpSettings_ st
      /\ performance st' = performance st /\ iteration_ st' = iteration_ st
  end.
Proof.
  unfold rewindOptimizer. destruct firstIndex as [| f].
  - repeat split; try reflexivity; lia.
  - cbn [numPartitions_ problem set_rewindCounter_ nominalControllersStock_ finals].
    destruct (Nat.ltb (numPartitions_ (problem st)) (S f)) eqn:E.
    + apply Nat.ltb_lt in E. repeat split. exact E.
    + apply Nat.ltb_ge in E. rewrite rewindLoop_arrays. cbn.
      rewrite length_swapLoop, !length_assignLoop.
      split; [exact E |]. split; [discriminate |]. repeat split.
Qed.

Section Setup.

Variable col : Collaborators.

(** X11. [setupOptimizer] is called only when the number of partitions has
    changed, and throws only when the new number is zero: a partitioning
    of a single time passes when the optimizer had no partition before.
    When it returns, the number of partitions is the one of the
    partitioning, and every stock has that many entries if it had them
    before or if the number has changed. *)
Theorem updateNumPartitions_outcome (partitioningTimes : list Q) (st : DDP) :
  let n := (length partitioningTimes - 1)%nat in
  match updateNumPartitions col partitioningTimes st with
  | Threw e st' =>
      e = ZeroPartitions /\ n = O /\ numPartitions_ (problem st) <> O
  | Returned st' =>
      (n = O -> numPartitions_ (problem st) = O)
      /\ numPartitions_ (problem st') = n
      /\ ((numPartitions_ (problem st) = n -> resetSized st) -> resetSized st')
  end.
Proof.
  cbv zeta. unfold updateNumPartitions.
  destruct (Nat.eqb (numPartitions_ (problem st)) (length partitioningTimes - 1)) eqn:E; cbn [negb].
  - apply Nat.eqb_eq in E. split; [lia |]. split; [exact E |]. auto.
  - apply Nat.eqb_neq in E. unfold setupOptimizer.
    destruct (length partitioningTimes - 1)%nat as [| m] eqn:Hn.
    + repeat split. exact E.
    + split; [discriminate |]. split; [reflexivity |]. intros _.
      unfold resetSized, stocksSized, trajectoriesSized, resizeTrajectories, vresize. cbn.
      rewrite !length_replicate, !length_app, !length_take, !length_replicate.
      repeat split; lia.
Qed.

End Setup.

(* ===================================================================== *)
(** ** runImpl: what a returned solve has established *)
(* ===================================================================== *)

Lemma besideSearch_refl st : besideSearch st st.
Proof. repeat split. Qed.

Lemma besideSearch_trans st1 st2 st3 :
  besideSearch st1 st2 -> besideSearch st2 st3 -> besideSearch st1 st3.
Proof.
  intros (A1 & A2 & A3 & A4 & A5 & A6) (B1 & B2 & B3 & B4 & B5 & B6).
  repeat split; congruence.
Qed.

Lemma commit_beside st j lr loc st' loc' term :
  commit st j lr loc = (st', loc', term) -> besideSearch st st'.
Proof.
  unfold commit. destruct (accepts _ _ _); intros H; inversion H; subst; repeat split.
Qed.

Lemma taskStep_beside col poll st t st' t' :
  taskStep col poll st t = (st', t') -> besideSearch st st'.
Proof.
  unfold taskStep. destruct (pc t) as [| j lr | j lr | j lr | |].
  - intros H; inversion H; subst; repeat split.
  - destruct (Qltb _ _); intros H; inversion H; subst; repeat split.
  - intros H; inversion H; subst; repeat split.
  - destruct (commit st j lr (locals t)) as [[st1 loc1] term] eqn:Hc.
    intros H; inversion H; subst. eapply commit_beside. exact Hc.
  - intros H; inversion H; subst; repeat split.
  - intros H; inversion H; subst; repeat split.
Qed.

Section Solve.

Variable col : Collaborators.

Lemma stepThread_beside w poll st ts :
  besideSearch st (fst (stepThread col w poll (st, ts))).
Proof.
  unfold stepThread. cbn [fst snd]. destruct (ts !! w) as [t |]; [| apply besideSearch_refl].
  destruct (taskStep col poll st t) as [st' t'] eqn:Hstep. cbn [fst].
  eapply taskStep_beside. exact Hstep.
Qed.

Lemma runSchedule_beside sched :
  forall st ts, besideSearch st (fst (runSchedule col sched (st, ts))).
Proof.
  induction sched as [| [w poll] rest IH]; intros st ts; cbn [runSchedule].
  - apply besideSearch_refl.
  - pose proof (stepThread_beside w poll st ts) as H.
    destruct (stepThread col w poll (st, ts)) as [st1 ts1]. cbn [fst] in H.
    eapply besideSearch_trans; [exact H | apply IH].
Qed.

Lemma drain_beside fuel :
  forall st ts, besideSearch st (fst (drain col fuel (st, ts))).
Proof.
  induction fuel as [| fuel IH]; intros st ts; cbn [drain].
  - apply besideSearch_refl.
  - cbn [snd]. destruct (firstUnfinished ts) as [w |]; [| apply besideSearch_refl].
    pose proof (stepThread_beside w false st ts) as H.
    destruct (stepThread col w false (st, ts)) as [st1 ts1]. cbn [fst] in H.
    eapply besideSearch_trans; [exact H | apply IH].
Qed.

Lemma runLineSearchTasks_beside fuel sched st st' :
  runLineSearchTasks col fuel sched st = Ok st' -> besideSearch st st'.
Proof.
  unfold runLineSearchTasks. set (threads := initialThreads _ _).
  pose proof (runSchedule_beside sched st threads) as F1.
  destruct (runSchedule col sched (st, threads)) as [st1 ts1]. cbn [fst] in F1.
  pose proof (drain_beside fuel st1 ts1) as F2.
  destruct (drain col fuel (st1, ts1)) as [st2 ts2]. cbn [fst] in F2.
  destruct (forallb isFinished ts2); [| discriminate].
  intros H. inversion H; subst. eapply besideSearch_trans; eassumption.
Qed.

Lemma baselineRollout_beside st stB :
  baselineRollout col st = Ok stB -> besideSearch st stB.
Proof.
  intros H. destruct (baselineRollout_Ok col st stB H) as (T & avg & ise & cost & _ & _ & _ & ->).
  repeat split.
Qed.

(** What [lineSearch] leaves as it was, and where it leaves the kill flag. *)
Lemma lineSearch_beside fuel sched st st' :
  lineSearch col fuel sched st = Ok st' ->
  besideSearch st st'
  /\ maxLearningRate_ st' = maxLearningRate_ st
  /\ killIntegration st'
     = (if noLineSearch col (ddpSettings_ st) then killIntegration st else false).
Proof.
  intros Hls. destruct (lineSearch_cases col fuel sched st st' Hls) as (stB & HB & Hcase).
  pose proof (baselineRollout_beside st stB HB) as B0.
  destruct (baselineRollout_frame col st stB HB) as (_ & _ & _ & Hm & Hk & _).
  destruct Hcase as [[Hno ->] | (Hno & st1 & Hrun & ->)]; rewrite Hno.
  - split; [| split; [exact Hm | exact Hk]].
    eapply besideSearch_trans; [exact B0 |]. repeat split.
  - pose proof (runLineSearchTasks_beside _ _ _ _ Hrun) as B1.
    destruct (runLineSearchTasks_frame col _ _ _ _ Hrun) as (_ & _ & _ & Hm1 & _).
    split; [| split; [| reflexivity]].
    + eapply besideSearch_trans; [exact B0 |].
      eapply besideSearch_trans; [| exact B1]. repeat split.
    + change (maxLearningRate_ st1 = maxLearningRate_ st). rewrite Hm1. exact Hm.
Qed.

(** The members that only [runImpl] itself and [rewindOptimizer] write. *)
Lemma runBackwardPass_solve st st' :
  runBackwardPass col st = Ok st' ->
  problem st' = problem st /\ rewindCounter_ st' = rewindCounter_ st
  /\ iterationCost_ st' = iterationCost_ st
  /\ iterationISE1_ st' = iterationISE1_ st
  /\ iterationISE2_ st' = iterationISE2_ st
  /\ maxLearningRate_ st' = maxLearningRate_ st
  /\ killIntegration st' = killIntegration st.
Proof.
  unfold runBackwardPass.
  destruct (external _) as [bp | e]; [| discriminate]. cbn [mbind result_bind].
  destruct (DDP_Settings.useRiccatiSolver_ (ddpSettings_ st)); [| discriminate].
  intros H. inversion H; subst. repeat split.
Qed.

Lemma initPerformance_solve st st' :
  initPerformance col st = Ok st' ->
  ddpSettings_ st' = ddpSettings_ st /\ iteration_ st' = iteration_ st
  /\ problem st' = problem st /\ rewindCounter_ st' = rewindCounter_ st
  /\ iterationCost_ st' = iterationCost_ st
  /\ iterationISE1_ st' = iterationISE1_ st
  /\ iterationISE2_ st' = iterationISE2_ st.
Proof.
  unfold initPerformance. destruct (_ || _).
  - destruct (external (calculateRolloutConstraintsISE _ _ _)) as [ise | e]; [| discriminate].
    cbn [mbind result_bind].
    destruct (external (calculateRolloutCost _ _ _)) as [cost | e]; [| discriminate].
    cbn [mbind result_bind]. intros H. inversion H; subst. repeat split.
  - intros H. inversion H; subst. repeat split.
Qed.

Lemma runInit_solve st st' :
  runInit col st = Ok st' ->
  ddpSettings_ st' = ddpSettings_ st /\ iteration_ st' = iteration_ st
  /\ problem st' = problem st /\ rewindCounter_ st' = rewindCounter_ st
  /\ iterationCost_ st' = iterationCost_ st
  /\ iterationISE1_ st' = iterationISE1_ st
  /\ iterationISE2_ st' = iterationISE2_ st.
Proof.
  unfold runInit.
  destruct (rolloutTrajectory _ _ _ _) as [[T avg] | e]; [| discriminate].
  cbn [mbind result_bind].
  destruct (external (correctedCache _ _ _ _)) as [cachedT | e]; [| discriminate].
  cbn [mbind result_bind].
  destruct (initPerformance _ _) as [st1 | e] eqn:Hp; [| discriminate].
  cbn [mbind result_bind]. intros Hbp.
  apply initPerformance_solve in Hp. cbn in Hp.
  destruct Hp as (P1 & P2 & P3 & P4 & P5 & P6 & P7).
  destruct (runBackwardPass_frame col _ _ Hbp) as (B1 & B2 & _).
  destruct (runBackwardPass_solve _ _ Hbp) as (B3 & B4 & B5 & B6 & B7 & _).
  repeat split; congruence.
Qed.

Lemma lineSearch_solve fuel sched st st' :
  lineSearch col fuel sched st = Ok st' ->
  ddpSettings_ st' = ddpSettings_ st /\ iteration_ st' = iteration_ st
  /\ problem st' = problem st /\ rewindCounter_ st' = rewindCounter_ st
  /\ iterationCost_ st' = iterationCost_ st
  /\ iterationISE1_ st' = iterationISE1_ st
  /\ iterationISE2_ st' = iterationISE2_ st
  /\ maxLearningRate_ st' = maxLearningRate_ st
  /\ length (nominalControllersStock_ st') = numPartitions_ (problem st)
  /\ Forall (fun c => deltaBiasArray_ c = []) (nominalControllersStock_ st').
Proof.
  intros H. destruct (lineSearch_frame col _ _ _ _ H) as [F1 F2].
  destruct (lineSearch_beside _ _ _ _ H) as ((B1 & B2 & B3 & B4 & _) & B5 & _).
  destruct (lineSearch_controllers col _ _ _ _ H) as (cs & Hlen & Hcs & Hpb).
  repeat split; try assumption.
  - rewrite Hcs, length_map. exact Hlen.
  - rewrite Hcs. apply Forall_forall. intros c Hc. apply list_elem_of_fmap in Hc.
    destruct Hc as (c0 & -> & _). reflexivity.
Qed.

Lemma runIteration_solve fuel sched st st' :
  runIteration col fuel sched st = Ok st' ->
  ddpSettings_ st' = ddpSettings_ st /\ iteration_ st' = iteration_ st
  /\ problem st' = problem st /\ rewindCounter_ st' = rewindCounter_ st
  /\ iterationCost_ st' = iterationCost_ st
  /\ iterationISE1_ st' = iterationISE1_ st
  /\ iterationISE2_ st' = iterationISE2_ st.
Proof.
  unfold runIteration.
  destruct (lineSearch col fuel sched _) as [st1 | e] eqn:Hls; [| discriminate].
  cbn [mbind result_bind]. intros Hbp.
  apply lineSearch_solve in Hls. cbn in Hls.
  destruct Hls as (L1 & L2 & L3 & L4 & L5 & L6 & L7 & _).
  destruct (runBackwardPass_frame col _ _ Hbp) as (B1 & B2 & _).
  destruct (runBackwardPass_solve _ _ Hbp) as (B3 & B4 & B5 & B6 & B7 & _).
  repeat split; congruence.
Qed.

Lemma loopBody_solve fuel scheds st flags st' flags' :
  loopBody col fuel scheds st flags = Ok (st', flags') ->
  ddpSettings_ st' = ddpSettings_ st /\ iteration_ st' = S (iteration_ st)
  /\ problem st' = problem st /\ rewindCounter_ st' = rewindCounter_ st
  /\ length (iterationCost_ st') = S (length (iterationCost_ st))
  /\ length (iterationISE1_ st') = S (length (iterationISE1_ st))
  /\ length (iterationISE2_ st') = S (length (iterationISE2_ st)).
Proof.
  intros H. destruct (loopBody_Ok col _ _ _ _ _ _ H) as (st3 & Hrun & -> & _).
  apply runIteration_solve in Hrun.
  destruct Hrun as (R1 & R2 & R3 & R4 & R5 & R6 & R7).
  unfold pushLogs. cbn. rewrite !length_app. cbn.
  rewrite R1, R2, R3, R4, R5, R6, R7. cbn. repeat split; lia.
Qed.

Lemma mainLoop_solve n fuel scheds :
  forall st flags st' flags',
    mainLoop col n fuel scheds st flags = Ok (st', flags') ->
    ddpSettings_ st' = ddpSettings_ st
    /\ problem st' = problem st /\ rewindCounter_ st' = rewindCounter_ st
    /\ (iteration_ st <= iteration_ st')%nat
    /\ (iteration_ st' + 1
        <= Nat.max (iteration_ st + 1) (DDP_Settings.maxNumIterations_ (ddpSettings_ st)))%nat
    /\ (length (iterationCost_ st') + iteration_ st
        = length (iterationCost_ st) + iteration_ st')%nat
    /\ (length (iterationISE1_ st') + iteration_ st
        = length (iterationISE1_ st) + iteration_ st')%nat
    /\ (length (iterationISE2_ st') + iteration_ st
        = length (iterationISE2_ st) + iteration_ st')%nat.
Proof.
  induction n as [| n IH]; intros st flags st' flags' H; cbn [mainLoop] in H.
  - inversion H; subst. repeat split; lia.
  - destruct (Nat.ltb _ _ && negb _) eqn:Hgo.
    + destruct (loopBody col fuel scheds st flags) as [[st1 flags1] | e] eqn:Hbody;
        [| discriminate].
      cbn [mbind result_bind] in H. apply IH in H.
      apply loopBody_solve in Hbody.
      apply andb_prop in Hgo. destruct Hgo as [Hlt _]. apply Nat.ltb_lt in Hlt.
      destruct Hbody as (B1 & B2 & B3 & B4 & B5 & B6 & B7).
      destruct H as (H1 & H2 & H3 & H4 & H5 & H6 & H7 & H8).
      rewrite B1, B2 in *. rewrite B5 in H6. rewrite B6 in H7. rewrite B7 in H8.
      repeat split; try congruence; lia.
    + inversion H; subst. repeat split; lia.
Qed.

Lemma installControllers_solve ptrs st st' :
  installControllers ptrs st = Returned st' ->
  ddpSettings_ st' = ddpSettings_ st /\ problem st' = problem st
  /\ rewindCounter_ st' = rewindCounter_ st.
Proof.
  unfold installControllers. destruct ptrs as [| p ptrs].
  - destruct (negb _); [discriminate |]. intros H. inversion H; subst. repeat split.
  - destruct (negb _); [discriminate |].
    destruct (castControllers _ _) as [stock allLinear].
    destruct allLinear; [| discriminate]. intros H. inversion H; subst. repeat split.
Qed.

Lemma castControllers_all ptrs :
  forall acc stock,
    castControllers ptrs acc = (stock, true) -> map Some stock = map Some acc ++ ptrs.
Proof.
  induction ptrs as [| [c |] ptrs IH]; intros acc stock H; cbn [castControllers] in H.
  - inversion H; subst. rewrite app_nil_r. reflexivity.
  - apply IH in H. rewrite H, map_app, <- app_assoc. reflexivity.
  - inversion H.
Qed.

Lemma installControllers_stock ptrs st st' :
  installControllers ptrs st = Returned st' ->
  (ptrs = [] -> nominalControllersStock_ st' = nominalControllersStock_ st)
  /\ (ptrs <> [] -> map Some (nominalControllersStock_ st') = ptrs).
Proof.
  unfold installControllers. destruct ptrs as [| p ptrs].
  - destruct (negb _); [discriminate |]. intros H. inversion H; subst.
    split; [reflexivity | intros Hn; contradiction Hn; reflexivity].
  - destruct (negb _); [discriminate |].
    destruct (castControllers _ _) as [stock allLinear] eqn:Hcast.
    destruct allLinear; [| discriminate]. intros H. inversion H; subst.
    split; [discriminate |]. intros _. cbn.
    apply castControllers_all in Hcast. exact Hcast.
Qed.

Lemma updateNumPartitions_solve partitioningTimes st st' :
  updateNumPartitions col partitioningTimes st = Returned st' ->
  ddpSettings_ st' = ddpSettings_ st
  /\ numPartitions_ (problem st') = (length partitioningTimes - 1)%nat
  /\ rewindCounter_ st' = rewindCounter_ st.
Proof.
  unfold updateNumPartitions.
  destruct (Nat.eqb _ _) eqn:E; cbn [negb].
  - apply Nat.eqb_eq in E. intros H. inversion H; subst. repeat split. exact E.
  - unfold setupOptimizer. destruct (length partitioningTimes - 1)%nat; [discriminate |].
    intros H. inversion H; subst. repeat split.
Qed.

Lemma adoptPartitioning_Returned partitioningTimes initTime finalTime st st' :
  adoptPartitioning col partitioningTimes initTime finalTime st = Returned st' ->
  exists pb,
    st' = set_problem pb st
    /\ numPartitions_ pb = numPartitions_ (problem st)
    /\ partitioningTimes_ pb = partitioningTimes
    /\ sameHorizon (problem st) pb.
Proof.
  unfold adoptPartitioning.
  destruct (external (findBoundedActiveIntervalInTimeArray col partitioningTimes initTime))
    as [i | e]; [| discriminate].
  destruct (external (findBoundedActiveIntervalInTimeArray col partitioningTimes finalTime))
    as [j | e]; [| discriminate].
  intros H. inversion H; subst. eexists. split; [reflexivity |]. repeat split.
Qed.

Lemma adoptPartitioning_Threw partitioningTimes initTime finalTime st e st' :
  adoptPartitioning col partitioningTimes initTime finalTime st = Threw e st' ->
  e = CollaboratorFailed
  /\ exists pb,
       st' = set_problem pb st
       /\ numPartitions_ pb = numPartitions_ (problem st)
       /\ partitioningTimes_ pb = partitioningTimes
       /\ sameHorizon (problem st) pb.
Proof.
  unfold adoptPartitioning.
  destruct (findBoundedActiveIntervalInTimeArray col partitioningTimes initTime)
    as [i | e1]; cbn [external].
  - destruct (findBoundedActiveIntervalInTimeArray col partitioningTimes finalTime)
      as [j | e2]; cbn [external]; [discriminate |].
    intros H. inversion H; subst. split; [reflexivity |].
    eexists. split; [reflexivity |]. repeat split.
  - intros H. inversion H; subst. split; [reflexivity |].
    eexists. split; [reflexivity |]. repeat split.
Qed.

(** X12. A solve that returns has adopted the horizon, the initial state and
    the partitioning it was called with; it has logged one cost and one
    pair of ISEs per iteration, the initial one included, and has made
    fewer iterations than [maxNumIterations_] allows (none beyond the
    initial one when that is below 2); its controllers, one per partition,
    carry no feed-forward increment; the settings and the rewind counter
    are untouched. *)
Theorem runImpl_postconditions fuel scheds initTime initState finalTime partitioningTimes
    ptrs (st stF : DDP) :
  runImpl col fuel scheds initTime initState finalTime partitioningTimes ptrs st
  = Returned stF ->
  solvedProblem initTime initState finalTime partitioningTimes (problem stF)
  /\ length (iterationCost_ stF) = S (iteration_ stF)
  /\ length (iterationISE1_ stF) = S (iteration_ stF)
  /\ length (iterationISE2_ stF) = S (iteration_ stF)
  /\ (iteration_ stF + 1 <= Nat.max 1 (DDP_Settings.maxNumIterations_ (ddpSettings_ st)))%nat
  /\ length (nominalControllersStock_ stF) = (length partitioningTimes - 1)%nat
  /\ Forall (fun c => deltaBiasArray_ c = []) (nominalControllersStock_ stF)
  /\ maxLearningRate_ stF = DDP_Settings.maxLearningRate_ (ddpSettings_ st)
  /\ ddpSettings_ stF = ddpSettings_ st
  /\ rewindCounter_ stF = rewindCounter_ st.
Proof.
  unfold runImpl. destruct (validateInputs _ _ _); [discriminate |].
  unfold solveValidated.
  destruct (updateNumPartitions col partitioningTimes st) as [st1 | e1 s1] eqn:H1;
    [| discriminate].
  apply updateNumPartitions_solve in H1. destruct H1 as (U1 & U2 & U3).
  destruct (adoptPartitioning col partitioningTimes initTime finalTime st1)
    as [st2 | e2 s2] eqn:E2; [| discriminate].
  apply adoptPartitioning_Returned in E2. destruct E2 as (pb2 & E2 & A1 & A2 & _).
  assert (P2 : ddpSettings_ st2 = ddpSettings_ st
               /\ numPartitions_ (problem st2) = (length partitioningTimes - 1)%nat
               /\ partitioningTimes_ (problem st2) = partitioningTimes
               /\ rewindCounter_ st2 = rewindCounter_ st).
  { subst st2. cbn. rewrite A1. auto. }
  clear E2 U1 U2 U3 A1 A2 st1. destruct P2 as (S2 & K2 & T2 & R2).
  destruct (installControllers ptrs st2) as [st3 | e3 s3] eqn:H3; [| discriminate].
  apply installControllers_solve in H3. destruct H3 as (I1 & I2 & I3).
  remember (set_iterationISE2_ _ _) as st4 eqn:E4.
  assert (P4 : ddpSettings_ st4 = ddpSettings_ st
               /\ solvedProblem initTime initState finalTime partitioningTimes (problem st4)
               /\ rewindCounter_ st4 = rewindCounter_ st
               /\ iteration_ st4 = O
               /\ iterationCost_ st4 = [] /\ iterationISE1_ st4 = []
               /\ iterationISE2_ st4 = []).
  { subst st4. cbn. rewrite I1, I2, I3. unfold solvedProblem. cbn. auto 10. }
  clear E4 I1 I2 I3 st3 S2 K2 T2 R2 st2.
  destruct P4 as (S4 & Pb4 & R4 & It4 & C4 & E14 & E24).
  unfold attempt.
  destruct (runInit col st4) as [st5 | e5] eqn:H5; [| discriminate].
  apply runInit_solve in H5. destruct H5 as (N1 & N2 & N3 & N4 & N5 & N6 & N7).
  destruct (mainLoop col _ fuel scheds (pushLogs st5) (initialFlags st4))
    as [[st6 flags6] | e6] eqn:H6; [| discriminate].
  apply mainLoop_solve in H6.
  destruct H6 as (M1 & M2 & M3 & M4 & M5 & M6 & M7 & M8).
  unfold pushLogs in M1, M2, M3, M4, M5, M6, M7, M8. cbn in M1, M2, M3, M4, M5, M6, M7, M8.
  rewrite !length_app in M6, M7, M8. cbn in M6, M7, M8.
  rewrite N2, It4 in *. rewrite N5, C4 in M6. rewrite N6, E14 in M7. rewrite N7, E24 in M8.
  cbn in M6, M7, M8.
  destruct (lineSearch col fuel _ _) as [st7 | e7] eqn:H7; [| discriminate].
  intros H. injection H as <-.
  apply lineSearch_solve in H7. cbn in H7.
  destruct H7 as (L1 & L2 & L3 & L4 & L5 & L6 & L7 & L8 & L9 & L10).
  assert (HS : ddpSettings_ st7 = ddpSettings_ st) by congruence.
  assert (HS5 : ddpSettings_ st5 = ddpSettings_ st) by congruence.
  assert (HS6 : ddpSettings_ st6 = ddpSettings_ st) by congruence.
  assert (HP : problem st7 = problem st4) by congruence.
  assert (HP6 : problem st6 = problem st4) by congruence.
  rewrite HS5 in M5. rewrite HS6 in L8. rewrite HP6 in L9.
  rewrite HP, L2, L5, L6, L7.
  destruct Pb4 as (K4 & Pb4). rewrite K4 in L9.
  split; [split; assumption |].
  repeat split; try assumption; try lia; congruence.
Qed.

(** C4 (amended). A solve that returns has run its main loop as follows.
    The flag on the initial controller is computed from the stock that
    enters [runInit]: the controllers passed to the solve, or the internal
    ones when none is passed; it is up when some controller of that stock
    is empty. The loop starts from the members left by [runInit], with
    that flag and not converged; it makes a pass only while
    [iteration + 1 < maxNumIterations] and the last test has not passed,
    it is left as soon as the test has passed, and the final line search
    starts from the members it is left with. After the pass of iteration
    [k >= 1] the loop holds the optimisation for converged exactly when
    ( |M_k - M_(k-1)| <= minRelCost, or the learning rate is zero and the
    flag is down ) and ( ISE_1 <= minAbsConstraint1ISE, or
    |ISE_1,k - ISE_1,(k-1)| <= minRelConstraint1ISE ), and the flag is down
    after every pass. *)
Theorem mainLoop_convergence_test :
  (forall fuel scheds initTime initState finalTime partitioningTimes ptrs (st stF : DDP),
      runImpl col fuel scheds initTime initState finalTime partitioningTimes ptrs st
      = Returned stF ->
      exists stU st0 st1 stL flagsL,
        updateNumPartitions col partitioningTimes st = Returned stU
        /\ (ptrs = [] -> nominalControllersStock_ st0 = nominalControllersStock_ stU)
        /\ (ptrs <> [] -> map Some (nominalControllersStock_ st0) = ptrs)
        /\ iteration_ st0 = O
        /\ runInit col st0 = Ok st1
        /\ loopRun col fuel scheds (pushLogs st1) (initialFlags st0) stL flagsL
        /\ lineSearch col fuel (scheds (S (iteration_ stL)))
             (set_maxLearningRate_ (DDP_Settings.maxLearningRate_ (ddpSettings_ stL))
                (swapNominalTrajectoriesToCache stL))
           = Ok stF)
  /\ (forall st,
        isInitInternalControllerEmpty (initialFlags st)
        = existsb ctrl_empty (nominalControllersStock_ st)
        /\ isOptimizationConverged (initialFlags st) = false)
  /\ (forall fuel scheds st flags st' flags',
        loopBody col fuel scheds st flags = Ok (st', flags') ->
        iteration_ st' = S (iteration_ st)
        /\ isInitInternalControllerEmpty flags' = false
        /\ isOptimizationConverged flags'
           = ((sleb (sabs (ssub (nominalTotalCost_ st') (nominalTotalCost_ st)))
                    (Finite (DDP_Settings.minRelCost_ (ddpSettings_ st')))
               || (Qeq_bool (learningRateStar_ st') 0
                   && negb (isInitInternalControllerEmpty flags)))
              && (sleb (stateInputEqConstraintISE_ st')
                       (Finite (DDP_Settings.minAbsConstraint1ISE_ (ddpSettings_ st')))
                  || sleb (sabs (ssub (stateInputEqConstraintISE_ st')
                                      (stateInputEqConstraintISE_ st)))
                          (Finite (DDP_Settings.minRelConstraint1ISE_ (ddpSettings_ st'))))))
  /\ (forall fuel scheds st flags st' flags',
        loopRun col fuel scheds st flags st' flags' ->
        (isOptimizationConverged flags = true -> st' = st /\ flags' = flags)
        /\ (isOptimizationConverged flags' = true
            \/ (DDP_Settings.maxNumIterations_ (ddpSettings_ st') <= iteration_ st' + 1)%nat)
        /\ (iteration_ st <= iteration_ st')%nat).
Proof.
  split; [| split; [intros st; split; reflexivity | split]].
  - intros fuel scheds initTime initState finalTime partitioningTimes ptrs st stF.
    unfold runImpl. destruct (validateInputs _ _ _); [discriminate |].
    unfold solveValidated.
    destruct (updateNumPartitions col partitioningTimes st) as [st1 | e1 s1] eqn:H1;
      [| discriminate].
    destruct (adoptPartitioning col partitioningTimes initTime finalTime st1)
      as [st2 | e2 s2] eqn:E2; [| discriminate].
    apply adoptPartitioning_Returned in E2. destruct E2 as (pb2 & E2 & _).
    destruct (installControllers ptrs st2) as [st3 | e3 s3] eqn:H3; [| discriminate].
    apply installControllers_stock in H3. destruct H3 as [I1 I2].
    remember (set_iterationISE2_ _ _) as st4 eqn:E4.
    assert (P4 : nominalControllersStock_ st4 = nominalControllersStock_ st3
                 /\ iteration_ st4 = O) by (subst st4; split; reflexivity).
    clear E4. destruct P4 as [C4 It4].
    unfold attempt.
    destruct (runInit col st4) as [st5 | e5] eqn:H5; [| discriminate].
    destruct (mainLoop col _ fuel scheds (pushLogs st5) (initialFlags st4))
      as [[st6 flags6] | e6] eqn:H6; [| discriminate].
    destruct (lineSearch col fuel _ _) as [st7 | e7] eqn:H7; [| discriminate].
    intros H. injection H as <-.
    exists st1, st4, st5, st6, flags6.
    split; [reflexivity |].
    split; [intros Hp; rewrite C4, (I1 Hp), E2; reflexivity |].
    split; [intros Hp; rewrite C4; exact (I2 Hp) |].
    split; [exact It4 |]. split; [exact H5 |]. split; [| exact H7].
    apply (mainLoop_loopRun col) in H6; [exact H6 |].
    apply runInit_solve in H5. destruct H5 as (_ & N2 & _).
    change (iteration_ (pushLogs st5)) with (iteration_ st5). rewrite N2, It4. lia.
  - intros fuel scheds st flags st' flags' H.
    destruct (loopBody_frame col fuel scheds st flags st' flags' H) as [_ Hi].
    split; [exact Hi |].
    destruct (loopBody_Ok col fuel scheds st flags st' flags' H) as (st3 & _ & -> & ->).
    split; reflexivity.
  - intros fuel scheds st flags st' flags'. apply loopRun_leaves.
Qed.

End Solve.

(* ===================================================================== *)
(** ** lineSearch: one clean evaluation is committed *)
(* ===================================================================== *)

Section Uninterrupted.

Variable col : Collaborators.

Lemma rolloutPartition_uninterrupted pb cs useTill last i x r :
  rolloutPartition col pb true cs useTill last i x = Ok r ->
  rolloutPartition col pb false cs useTill last i x = Ok r.
Proof.
  unfold rolloutPartition.
  set (t0 := if Nat.eqb i (initActivePartition_ pb) then _ else _).
  set (tf := if Nat.eqb i (finalActivePartition_ pb) then _ else _).
  set (controllerTo := std_max t0 (std_min useTill tf)).
  destruct (Qltb t0 controllerTo); [cbn; discriminate |].
  cbn. destruct (Qltb controllerTo tf); [cbn; discriminate |].
  auto.
Qed.

Lemma rolloutPartitions_uninterrupted pb cs useTill last n :
  forall i acc r,
    rolloutPartitions col pb true cs useTill last i n acc = Ok r ->
    rolloutPartitions col pb false cs useTill last i n acc = Ok r.
Proof.
  induction n as [| n IH]; intros i [[T x] s] r H; [exact H |].
  cbn [rolloutPartitions] in *.
  destruct (rolloutPartition col pb true cs useTill last i x) as [[p x1] |] eqn:Hp;
    [| discriminate].
  rewrite (rolloutPartition_uninterrupted _ _ _ _ _ _ _ Hp).
  cbn in *. apply IH. exact H.
Qed.

(** A rollout that succeeds while the kill flag is polled has called no
    integrator, and is the rollout without the flag. *)
Lemma rolloutTrajectory_uninterrupted pb cs r :
  rolloutTrajectory col pb true cs = Ok r -> rolloutTrajectory col pb false cs = Ok r.
Proof.
  unfold rolloutTrajectory. destruct (negb _); [discriminate |].
  destruct (rolloutPartitions col pb true cs _ _ _ _ _) as [[[T x] s] |] eqn:Hl;
    [| discriminate].
  rewrite (rolloutPartitions_uninterrupted _ _ _ _ _ _ _ _ Hl). auto.
Qed.

Lemma lineSearchWorker_evaluated st0 interrupted lr loc :
  controllersStock loc = initLScontrollersStock_ st0 ->
  evaluated col st0 lr
    (lineSearchWorker col (ddpSettings_ st0) (problem st0) (iteration_ st0)
                      interrupted lr loc).
Proof.
  intros Hcs. unfold evaluated, lineSearchWorker, cleanEvaluation. rewrite Hcs.
  destruct (rolloutTrajectory col (problem st0) interrupted _) as [[T avg] | e] eqn:Hr;
    [| right; reflexivity].
  assert (Hr' : rolloutTrajectory col (problem st0) false
                  (incrementControllers (numPartitions_ (problem st0)) lr
                     (initLScontrollersStock_ st0)) = Ok (T, avg)).
  { destruct interrupted; [apply rolloutTrajectory_uninterrupted |]; exact Hr. }
  rewrite Hr'.
  destruct (calculateRolloutConstraintsISE col (problem st0) T) as [ise | e];
    [| right; reflexivity].
  destruct (calculateRolloutCost col (problem st0) T) as [cost | e];
    [| right; reflexivity].
  left. reflexivity.
Qed.

Lemma cleanEvaluation_merit st0 lr loc :
  cleanEvaluation col st0 lr = Some loc ->
  totalCost (loc_performance loc) = candidateMerit col st0 lr.
Proof.
  unfold cleanEvaluation, candidateMerit, lineSearchWorker.
  cbn [controllersStock loc_performance loc_trajectories].
  destruct (rolloutTrajectory col (problem st0) false _) as [[T avg] | e]; [| discriminate].
  destruct (calculateRolloutConstraintsISE col (problem st0) T) as [ise | e];
    [| discriminate].
  destruct (calculateRolloutCost col (problem st0) T) as [cost | e]; [| discriminate].
  intros H. injection H as <-. reflexivity.
Qed.

End Uninterrupted.

Lemma pow_pos (r : Q) (j : nat) : 0 < r -> 0 < pow r j.
Proof.
  intros H. induction j as [| j IH].
  - unfold pow. simpl. lra.
  - rewrite pow_S. nra.
Qed.

Lemma pow_strict (r : Q) (j k : nat) : 0 < r < 1 -> (j < k)%nat -> pow r k < pow r j.
Proof.
  intros [H0 H1] Hjk. induction Hjk as [| k Hjk IH].
  - rewrite pow_S. pose proof (pow_pos r j H0). nra.
  - rewrite pow_S. pose proof (pow_pos r k H0). nra.
Qed.

Lemma candidate_injective st (j k : nat) :
  0 < maxLearningRate_ st ->
  0 < DDP_Settings.lineSearchContractionRate_ (ddpSettings_ st) < 1 ->
  candidate st j == candidate st k -> j = k.
Proof.
  intros Hm Hr Heq. unfold candidate in Heq.
  destruct (lt_eq_lt_dec j k) as [[Hlt | ->] | Hgt]; [| reflexivity |].
  - pose proof (pow_strict _ j k Hr Hlt). nra.
  - pose proof (pow_strict _ k j Hr Hgt). nra.
Qed.

Section CommitInvariant.

Variable col : Collaborators.
Variable st0 : DDP.
Variable b : Q.
Hypothesis max_nonneg : 0 <= maxLearningRate_ st0.
Hypothesis max_small : maxLearningRate_ st0 <= 1000.
Hypothesis rate_unit : 0 <= DDP_Settings.lineSearchContractionRate_ (ddpSettings_ st0) <= 1.
Hypothesis baseline_finite : baselineTotalCost_ st0 = Finite b.
Hypothesis baseline_bounded : b <= scalar_max.

Lemma committed_view st st' :
  learningRateStar_ st' = learningRateStar_ st ->
  performance st' = performance st ->
  nominalControllersStock_ st' = nominalControllersStock_ st ->
  nominal st' = nominal st ->
  committed col st0 st -> committed col st0 st'.
Proof. unfold committed. intros -> -> -> ->. auto. Qed.

Lemma commitInv_update st ts w t' st' :
  commitInv col st0 st ts ->
  committed col st0 st' -> localsInv col st0 t' ->
  commitInv col st0 st' (<[w := t']> ts).
Proof.
  intros [_ Hts] Hc Ht'. split; [exact Hc |].
  intros w' y Hy. destruct (insert_lookup_inv ts w w' t' y Hy) as [[_ ->] | [_ Hold]].
  - exact Ht'.
  - eapply Hts. exact Hold.
Qed.

Lemma step_commitInv poll st ts w t st' t' :
  searchInv col st0 st ts -> commitInv col st0 st ts -> ts !! w = Some t ->
  taskStep col poll st t = (st', t') ->
  commitInv col st0 st' (<[w := t']> ts).
Proof using max_nonneg max_small rate_unit baseline_finite baseline_bounded.
  intros Inv CInv Hw Hstep.
  destruct (inv_frame Inv) as (Fs & Fp & Fi & Fm & Fb & Fl).
  pose proof (inv_tasks Inv _ _ Hw) as T. unfold taskInv in T.
  destruct CInv as [Hc Hts]. pose proof (Hts _ _ Hw) as L. unfold localsInv in L.
  assert (CInv : commitInv col st0 st ts) by (split; assumption).
  destruct (pc t) as [| j lr | j lr | j lr | |] eqn:Hpc.
  - destruct (taskStep_claim col poll st t st' t' Hpc Hstep)
      as (_ & Hstar & _ & _ & Hperf & Hcs & Hnom & _ & Hpc').
    apply (commitInv_update st ts w t' st' CInv).
    + apply (committed_view st st'); assumption.
    + unfold localsInv. rewrite Hpc'.
      destruct (almost_ge _ _) eqn:Hge; [| exact I]. rewrite <- Fs. exact Hge.
  - destruct (taskStep_skip col poll st t st' t' j lr Hpc Hstep)
      as (-> & [[_ Hpc'] | (_ & Hpc' & _)]);
      apply (commitInv_update st ts w t' st CInv); try exact Hc;
      unfold localsInv; rewrite Hpc'; [exact I | exact L].
  - destruct (taskStep_worker col poll st t st' t' j lr Hpc Hstep)
      as (Hview & _ & Hpc' & Hloc).
    unfold view in Hview. inversion Hview as [[Hnext Hstar Hproc Hkill Hperf Hcs Hnom]].
    destruct T as (_ & _ & Hlcs).
    apply (commitInv_update st ts w t' st' CInv).
    + apply (committed_view st st'); assumption.
    + unfold localsInv. rewrite Hpc'. split; [exact L |].
      rewrite Hloc, Fs, Fp, Fi. apply lineSearchWorker_evaluated. exact Hlcs.
  - destruct (taskStep_commit col poll st t st' t' j lr Hpc Hstep)
      as (_ & _ & _ & _ & Hcase).
    destruct T as (_ & Hlr & _). destruct L as [Hge Hev].
    destruct Hcase as [(Hacc & Hstar & Hperf & Hcs & Hnom & Hpc')
                      | (_ & Hstar & Hperf & Hcs & Hnom & Hpc')].
    + apply (commitInv_update st ts w t' st' CInv).
      * destruct Hev as [Hclean | Hfail].
        -- right. exists j. rewrite Hstar, Hperf, Hcs, Hnom. subst lr.
           split; [reflexivity |]. split; [exact Hge |].
           rewrite Hclean. destruct (locals t). reflexivity.
        -- exfalso. rewrite Hfail in Hacc.
           rewrite (failed_candidate_rejected st b lr) in Hacc; [discriminate | | |].
           ++ rewrite Fb. exact baseline_finite.
           ++ exact baseline_bounded.
           ++ subst lr. pose proof (candidate_bounds st0 j max_nonneg rate_unit). lra.
      * unfold localsInv. rewrite Hpc'. destruct (allProcessedBelow st j); exact I.
    + apply (commitInv_update st ts w t' st' CInv).
      * apply (committed_view st st'); assumption.
      * unfold localsInv. rewrite Hpc'. exact I.
  - destruct (taskStep_kill col poll st t st' t' Hpc Hstep)
      as (_ & _ & Hstar & _ & Hperf & Hcs & Hnom & _ & Hpc').
    apply (commitInv_update st ts w t' st' CInv).
    + apply (committed_view st st'); assumption.
    + unfold localsInv. rewrite Hpc'. exact I.
  - destruct (taskStep_finished col poll st t st' t' Hpc Hstep) as [-> ->].
    rewrite list_insert_id by exact Hw. exact CInv.
Qed.

Lemma stepThread_both w poll st ts :
  searchInv col st0 st ts /\ commitInv col st0 st ts ->
  searchInv col st0 (fst (stepThread col w poll (st, ts)))
            (snd (stepThread col w poll (st, ts)))
  /\ commitInv col st0 (fst (stepThread col w poll (st, ts)))
               (snd (stepThread col w poll (st, ts))).
Proof using max_nonneg max_small rate_unit baseline_finite baseline_bounded.
  intros [Inv CInv].
  split; [apply (stepThread_inv col st0 max_nonneg rate_unit); exact Inv |].
  unfold stepThread. cbn [fst snd].
  destruct (ts !! w) as [t |] eqn:Hw; [| exact CInv].
  destruct (taskStep col poll st t) as [st' t'] eqn:Hstep. cbn [fst snd].
  eapply step_commitInv; eassumption.
Qed.

Lemma runSchedule_both sched :
  forall st ts,
    searchInv col st0 st ts /\ commitInv col st0 st ts ->
    searchInv col st0 (fst (runSchedule col sched (st, ts)))
              (snd (runSchedule col sched (st, ts)))
    /\ commitInv col st0 (fst (runSchedule col sched (st, ts)))
                 (snd (runSchedule col sched (st, ts))).
Proof using max_nonneg max_small rate_unit baseline_finite baseline_bounded.
  induction sched as [| [w poll] rest IH]; intros st ts Inv; cbn [runSchedule].
  - exact Inv.
  - pose proof (stepThread_both w poll st ts Inv) as H.
    destruct (stepThread col w poll (st, ts)) as [st1 ts1]. apply IH. exact H.
Qed.

Lemma drain_both fuel :
  forall st ts,
    searchInv col st0 st ts /\ commitInv col st0 st ts ->
    searchInv col st0 (fst (drain col fuel (st, ts))) (snd (drain col fuel (st, ts)))
    /\ commitInv col st0 (fst (drain col fuel (st, ts))) (snd (drain col fuel (st, ts))).
Proof using max_nonneg max_small rate_unit baseline_finite baseline_bounded.
  induction fuel as [| fuel IH]; intros st ts Inv; cbn [drain].
  - exact Inv.
  - cbn [snd]. destruct (firstUnfinished ts) as [w |]; [| exact Inv].
    pose proof (stepThread_both w false st ts Inv) as H.
    destruct (stepThread col w false (st, ts)) as [st1 ts1]. apply IH. exact H.
Qed.

(** What the parallel section leaves: the baseline members with a zero
    learning rate when no candidate at or above the minimum descends;
    otherwise the clean evaluation of a candidate that descends and that
    no descending candidate exceeds. *)
Lemma runLineSearchTasks_result fuel sched st' :
  searchStart st0 ->
  (0 < DDP_Settings.nThreads_ (ddpSettings_ st0))%nat ->
  runLineSearchTasks col fuel sched st0 = Ok st' ->
  (forall j, resolved col st0 st' j)
  /\ ((learningRateStar_ st' = 0
       /\ performance st' = performance st0
       /\ nominalControllersStock_ st' = nominalControllersStock_ st0
       /\ nominal st' = nominal st0)
      \/ (exists j,
            learningRateStar_ st' = candidate st0 j
            /\ 0 < candidate st0 j
            /\ almost_ge (candidate st0 j)
                         (DDP_Settings.minLearningRate_ (ddpSettings_ st0)) = true
            /\ descends st0 (candidateMerit col st0 (candidate st0 j)) (candidate st0 j) = true
            /\ cleanEvaluation col st0 (candidate st0 j)
               = Some (mkLocals (performance st') (nominalControllersStock_ st')
                                (nominal st')))).
Proof using max_nonneg max_small rate_unit baseline_finite baseline_bounded.
  intros Hstart Hthreads. unfold runLineSearchTasks.
  set (threads := initialThreads _ _).
  assert (Inv0 : searchInv col st0 st0 threads /\ commitInv col st0 st0 threads).
  { split; [apply searchInv_start; [exact Hstart | apply initialThreads_pc] |].
    split; [left; apply Hstart |].
    intros w t Ht. apply initialThreads_lookup in Ht. subst t. exact I. }
  pose proof (runSchedule_both sched st0 threads Inv0) as Inv1.
  assert (Hlen1 : length (snd (runSchedule col sched (st0, threads)))
                  = DDP_Settings.nThreads_ (ddpSettings_ st0)).
  { rewrite runSchedule_length. unfold threads. apply initialThreads_length. }
  destruct (runSchedule col sched (st0, threads)) as [st1 ts1]. cbn [fst snd] in *.
  pose proof (drain_both fuel st1 ts1 Inv1) as Inv2.
  assert (Hlen2 : length (snd (drain col fuel (st1, ts1)))
                  = DDP_Settings.nThreads_ (ddpSettings_ st0)).
  { rewrite drain_length. exact Hlen1. }
  destruct (drain col fuel (st1, ts1)) as [st2 ts2]. cbn [fst snd] in *.
  destruct (forallb isFinished ts2) eqn:Hfin; [| discriminate].
  intros H. injection H as <-. destruct Inv2 as [Inv [Hc _]].
  split.
  - intros j. apply (searchInv_finished col st0 max_nonneg rate_unit st2 ts2 j Inv Hfin).
    lia.
  - destruct (inv_star Inv) as [Hzero | (js & _ & Hstar & Hpos & Hdesc)]; [left; exact Hzero |].
    right. destruct Hc as [Hz | (j & Hj & Hge & Hclean)]; [rewrite Hz in Hstar; rewrite <- Hstar in Hpos; lra |].
    assert (Heq : candidate st0 j = candidate st0 js) by congruence.
    assert (Hmerit : nominalTotalCost_ st2 = candidateMerit col st0 (candidate st0 j)).
    { rewrite <- (cleanEvaluation_merit col st0 _ _ Hclean). reflexivity. }
    exists j. split; [exact Hj |]. split; [rewrite Heq; exact Hpos |].
    split; [exact Hge |]. split; [| exact Hclean].
    rewrite <- Hmerit, Heq. exact Hdesc.
Qed.

End CommitInvariant.

Section ScheduleFree.

Variable col : Collaborators.

Lemma runLineSearchTasks_schedule_free (st0 : DDP) (b : Q)
    fuel1 sched1 fuel2 sched2 st1 st2 :
  0 < maxLearningRate_ st0 <= 1000 ->
  0 < DDP_Settings.lineSearchContractionRate_ (ddpSettings_ st0) < 1 ->
  baselineTotalCost_ st0 = Finite b -> b <= scalar_max ->
  searchStart st0 ->
  (0 < DDP_Settings.nThreads_ (ddpSettings_ st0))%nat ->
  runLineSearchTasks col fuel1 sched1 st0 = Ok st1 ->
  runLineSearchTasks col fuel2 sched2 st0 = Ok st2 ->
  learningRateStar_ st1 = learningRateStar_ st2
  /\ performance st1 = performance st2
  /\ nominalControllersStock_ st1 = nominalControllersStock_ st2
  /\ nominal st1 = nominal st2.
Proof.
  intros [Hm0 Hm1] [Hr0 Hr1] Hb Hble Hstart Hthreads H1 H2.
  assert (Hmax : 0 <= maxLearningRate_ st0) by lra.
  assert (Hrate : 0 <= DDP_Settings.lineSearchContractionRate_ (ddpSettings_ st0) <= 1)
    by lra.
  destruct (runLineSearchTasks_result col st0 b Hmax Hm1 Hrate Hb Hble fuel1 sched1 st1
              Hstart Hthreads H1) as [Res1 Case1].
  destruct (runLineSearchTasks_result col st0 b Hmax Hm1 Hrate Hb Hble fuel2 sched2 st2
              Hstart Hthreads H2) as [Res2 Case2].
  assert (Hclash : forall sa j,
            (forall k, resolved col st0 sa k) ->
            learningRateStar_ sa = 0 ->
            0 < candidate st0 j ->
            almost_ge (candidate st0 j)
                      (DDP_Settings.minLearningRate_ (ddpSettings_ st0)) = true ->
            descends st0 (candidateMerit col st0 (candidate st0 j)) (candidate st0 j) = true ->
            False).
  { intros sa j Res Hz Hpos Hge Hd.
    destruct (Res j) as [Hn | [Hle | Hn]]; [congruence | | congruence].
    rewrite Hz in Hle. lra. }
  destruct Case1 as [(Z1 & P1 & C1 & N1) | (j1 & S1 & Pos1 & Ge1 & D1 & Cl1)];
    destruct Case2 as [(Z2 & P2 & C2 & N2) | (j2 & S2 & Pos2 & Ge2 & D2 & Cl2)].
  - repeat split; congruence.
  - exfalso. exact (Hclash st1 j2 Res1 Z1 Pos2 Ge2 D2).
  - exfalso. exact (Hclash st2 j1 Res2 Z2 Pos1 Ge1 D1).
  - assert (Hle12 : candidate st0 j2 <= candidate st0 j1).
    { destruct (Res1 j2) as [Hn | [Hle | Hn]]; [congruence | | congruence].
      rewrite S1 in Hle. exact Hle. }
    assert (Hle21 : candidate st0 j1 <= candidate st0 j2).
    { destruct (Res2 j1) as [Hn | [Hle | Hn]]; [congruence | | congruence].
      rewrite S2 in Hle. exact Hle. }
    assert (Hj : j1 = j2).
    { apply (candidate_injective st0); [exact Hm0 | split; assumption | lra]. }
    subst j2. rewrite Cl1 in Cl2. injection Cl2 as Hp Hc Hn.
    repeat split; congruence.
Qed.

(** X13. The outcome of the parallel line search does not depend on how the
    threads interleave, nor on which evaluations the kill flag
    interrupts: with a finite baseline merit, a maximum learning rate in
    (0, 1000] and a contraction rate in (0, 1), two line searches from the
    same members commit the same learning rate, performance indices,
    controllers and trajectories. *)
Theorem lineSearch_schedule_independent fuel1 sched1 fuel2 sched2 (st st1 st2 : DDP) :
  0 < maxLearningRate_ st <= 1000 ->
  0 < DDP_Settings.lineSearchContractionRate_ (ddpSettings_ st) < 1 ->
  killIntegration st = false ->
  (0 < DDP_Settings.nThreads_ (ddpSettings_ st))%nat ->
  (forall stB, baselineRollout col st = Ok stB ->
               exists b, nominalTotalCost_ stB = Finite b /\ b <= scalar_max) ->
  lineSearch col fuel1 sched1 st = Ok st1 ->
  lineSearch col fuel2 sched2 st = Ok st2 ->
  learningRateStar_ st1 = learningRateStar_ st2
  /\ performance st1 = performance st2
  /\ nominalControllersStock_ st1 = nominalControllersStock_ st2
  /\ nominal st1 = nominal st2
  /\ killIntegration st1 = killIntegration st2.
Proof.
  intros Hm Hr Hkill Hthreads Hfinite H1 H2.
  destruct (lineSearch_cases col fuel1 sched1 st st1 H1) as (stB & HB & Case1).
  destruct (lineSearch_cases col fuel2 sched2 st st2 H2) as (stB' & HB' & Case2).
  rewrite HB in HB'. injection HB' as <-.
  destruct (Hfinite stB HB) as (b & Hb & Hble).
  destruct (baselineRollout_frame col st stB HB) as (Fs & Fp & Fi & Fm & Fk & _).
  destruct Case1 as [[Hno1 ->] | (Hno1 & x1 & Hrun1 & ->)];
    destruct Case2 as [[Hno2 ->] | (Hno2 & x2 & Hrun2 & ->)]; try congruence.
  - repeat split.
  - set (st0 := lineSearchStart col (lineSearchSeed stB)) in *.
    assert (E1 : maxLearningRate_ st0 = maxLearningRate_ st) by exact Fm.
    assert (E2 : ddpSettings_ st0 = ddpSettings_ st) by exact Fs.
    assert (E3 : baselineTotalCost_ st0 = Finite b) by exact Hb.
    destruct (runLineSearchTasks_schedule_free st0 b fuel1 sched1 fuel2 sched2 x1 x2)
      as (R1 & R2 & R3 & R4); try assumption.
    + rewrite E1. exact Hm.
    + rewrite E2. exact Hr.
    + apply searchStart_lineSearchStart. rewrite Fk. exact Hkill.
    + rewrite E2. exact Hthreads.
    + destruct (runLineSearchTasks_frame col _ _ _ _ Hrun1) as (_ & Q1 & _).
      destruct (runLineSearchTasks_frame col _ _ _ _ Hrun2) as (_ & Q2 & _).
      unfold clearFeedforwardIncrements. cbn.
      rewrite R1, R2, R3, R4, Q1, Q2. repeat split.
Qed.

(** X14. The members that a line search returns belong to one evaluation: with
    a zero learning rate they are those of the baseline rollout;
    otherwise the trajectories are the rollout, free of interruption, of
    the controllers incremented by the committed learning rate, the
    performance indices are those of that rollout, and the controllers
    are these with their increments cleared. *)
Theorem lineSearch_commits_one_evaluation fuel sched (st st' : DDP) :
  0 <= maxLearningRate_ st <= 1000 ->
  0 <= DDP_Settings.lineSearchContractionRate_ (ddpSettings_ st) <= 1 ->
  killIntegration st = false ->
  (forall stB, baselineRollout col st = Ok stB ->
               exists b, nominalTotalCost_ stB = Finite b /\ b <= scalar_max) ->
  lineSearch col fuel sched st = Ok st' ->
  let pb := problem st in
  exists stB,
    baselineRollout col st = Ok stB
    /\ ((learningRateStar_ st' = 0
         /\ performance st' = performance stB
         /\ nominal st' = nominal stB
         /\ nominalControllersStock_ st' = map clearDeltaBias (nominalControllersStock_ st))
        \/ (exists j avg ise cost,
              let cs := incrementControllers (numPartitions_ pb) (candidate st j)
                                             (nominalControllersStock_ st) in
              learningRateStar_ st' = candidate st j
              /\ rolloutTrajectory col pb false cs = Ok (nominal st', avg)
              /\ calculateRolloutConstraintsISE col pb (nominal st') = Ok ise
              /\ calculateRolloutCost col pb (nominal st') = Ok cost
              /\ performance st'
                 = performanceOf
                     (calculateRolloutMerit (ddpSettings_ st) (iteration_ st) cost
                        (ise_stateInputEq ise) (ise_stateEq ise) (ise_stateEqFinal ise)
                        (ise_inequalityPenalty ise)) ise
              /\ nominalControllersStock_ st' = map clearDeltaBias cs)).
Proof.
  intros [Hm0 Hm1] Hr Hkill Hfinite Hls pb.
  destruct (lineSearch_cases col fuel sched st st' Hls) as (stB & HB & Case).
  exists stB. split; [exact HB |].
  destruct (Hfinite stB HB) as (b & Hb & Hble).
  destruct (baselineRollout_frame col st stB HB) as (Fs & Fp & Fi & Fm & Fk & Fc & _ & Flen).
  assert (Hclear : forall cs, length cs = numPartitions_ (problem st) ->
            map clearDeltaBias (take (numPartitions_ (problem st)) cs)
            ++ drop (numPartitions_ (problem st)) cs = map clearDeltaBias cs).
  { intros cs Hlen. rewrite firstn_all2, skipn_all2 by lia. apply app_nil_r. }
  destruct Case as [[Hno ->] | (Hno & x & Hrun & ->)].
  - left. unfold clearFeedforwardIncrements. cbn. rewrite Fp, Fc, Hclear by exact Flen.
    repeat split.
  - set (st0 := lineSearchStart col (lineSearchSeed stB)) in *.
    assert (E1 : maxLearningRate_ st0 = maxLearningRate_ st) by exact Fm.
    assert (E2 : ddpSettings_ st0 = ddpSettings_ st) by exact Fs.
    assert (E3 : baselineTotalCost_ st0 = Finite b) by exact Hb.
    assert (E4 : problem st0 = problem st) by exact Fp.
    assert (E5 : initLScontrollersStock_ st0 = nominalControllersStock_ st) by exact Fc.
    assert (E6 : iteration_ st0 = iteration_ st) by exact Fi.
    assert (E7 : nominalControllersStock_ st0 = nominalControllersStock_ st) by exact Fc.
    destruct (runLineSearchTasks_frame col _ _ _ _ Hrun) as (_ & Q & _).
    assert (Hstart : searchStart st0)
      by (apply searchStart_lineSearchStart; rewrite Fk; exact Hkill).
    assert (Hc : committed col st0 x
                 /\ ((learningRateStar_ x = 0
                      /\ performance x = performance st0
                      /\ nominalControllersStock_ x = nominalControllersStock_ st0
                      /\ nominal x = nominal st0)
                     \/ 0 < learningRateStar_ x)).
    { assert (Hmax0 : 0 <= maxLearningRate_ st0) by (rewrite E1; exact Hm0).
      assert (Hmax1 : maxLearningRate_ st0 <= 1000) by (rewrite E1; exact Hm1).
      assert (Hrate : 0 <= DDP_Settings.lineSearchContractionRate_ (ddpSettings_ st0) <= 1)
        by (rewrite E2; exact Hr).
      revert Hrun. unfold runLineSearchTasks. set (threads := initialThreads _ _).
      assert (Inv0 : searchInv col st0 st0 threads /\ commitInv col st0 st0 threads).
      { split; [apply searchInv_start; [assumption | apply initialThreads_pc] |].
        split; [left; apply Hstart |].
        intros w t Ht. apply initialThreads_lookup in Ht. subst t. exact I. }
      pose proof (runSchedule_both col st0 b Hmax0 Hmax1 Hrate E3 Hble sched st0 threads Inv0)
        as Inv1.
      destruct (runSchedule col sched (st0, threads)) as [s1 ts1]. cbn [fst snd] in *.
      pose proof (drain_both col st0 b Hmax0 Hmax1 Hrate E3 Hble fuel s1 ts1 Inv1) as Inv2.
      destruct (drain col fuel (s1, ts1)) as [s2 ts2]. cbn [fst snd] in *.
      destruct (forallb isFinished ts2); [| discriminate].
      intros H. injection H as <-. destruct Inv2 as [Inv [Hc _]].
      split; [exact Hc |].
      destruct (inv_star Inv) as [Hz | (js & _ & Hs & Hpos & _)]; [left; exact Hz |].
      right. rewrite Hs. exact Hpos. }
    destruct Hc as [Hc [(Hz & Hp & Hcs & Hn) | Hpos]].
    + left. unfold clearFeedforwardIncrements. cbn. rewrite Q, E4, Hcs, E7, Hz, Hp, Hn.
      rewrite Hclear by exact Flen. repeat split.
    + right. destruct Hc as [Hz | (j & Hj & _ & Hclean)]; [rewrite Hz in Hpos; lra |].
      unfold cleanEvaluation in Hclean. rewrite E4, E5, E2, E6 in Hclean.
      assert (Hcand : candidate st0 j = candidate st j)
        by (unfold candidate; rewrite E1, E2; reflexivity).
      rewrite Hcand in Hclean, Hj.
      destruct (rolloutTrajectory col (problem st) false _) as [[T avg] | e] eqn:Hroll;
        [| discriminate].
      destruct (calculateRolloutConstraintsISE col (problem st) T) as [ise | e] eqn:Hise;
        [| discriminate].
      destruct (calculateRolloutCost col (problem st) T) as [cost | e] eqn:Hcost;
        [| discriminate].
      injection Hclean as Hp Hcs Hn.
      exists j, avg, ise, cost. cbv zeta. unfold clearFeedforwardIncrements. cbn.
      rewrite Q, E4, <- Hcs, <- Hn, <- Hp, Hj.
      fold pb. rewrite Hclear.
      * unfold pb. rewrite Hroll, Hise, Hcost. repeat split.
      * unfold incrementControllers. rewrite length_app, length_map, length_take, length_drop.
        unfold pb. lia.
Qed.

End ScheduleFree.

(* ===================================================================== *)
(** ** calculateConstraintISE and calculateCostWorker *)
(* ===================================================================== *)

Lemma squaredNorm_nonneg (v : list Q) : 0 <= squaredNorm v.
Proof.
  unfold squaredNorm. induction v as [| x v IH]; cbn [fold_right]; [lra | nra].
Qed.

Lemma activeSquaredNorm_nonneg (nc : nat) (v : list Q) : 0 <= activeSquaredNorm nc v.
Proof. destruct nc; cbn [activeSquaredNorm]; [lra | apply squaredNorm_nonneg]. Qed.

Lemma sortedTimes_nth (time : list Q) (k : nat) :
  sortedTimes time -> (k + 1 < length time)%nat -> nth k time 0 <= nth (k + 1) time 0.
Proof.
  revert k. induction time as [| t time IH]; intros k Hs Hk; cbn in Hk; [lia |].
  destruct Hs as [Hall Hs]. destruct k as [| k].
  - cbn. destruct time as [| u time]; [cbn in Hk; lia |].
    apply Forall_cons in Hall. apply Hall.
  - cbn [nth Nat.add]. apply IH; [exact Hs | lia].
Qed.

Lemma constraintISELoop_nonneg (time : list Q) nc Ev (n : nat) :
  forall k next ise,
    sortedTimes time -> (k + n < length time)%nat ->
    0 <= next -> 0 <= ise ->
    0 <= constraintISELoop time nc Ev k n next ise.
Proof.
  induction n as [| n IH]; intros k next ise Hs Hk Hnext Hise; cbn [constraintISELoop];
    [exact Hise |].
  apply IH; [exact Hs | lia | apply activeSquaredNorm_nonneg |].
  pose proof (sortedTimes_nth time k Hs ltac:(lia)) as Hdt.
  pose proof (activeSquaredNorm_nonneg (nth (k + 1) nc O) (nth (k + 1) Ev [])) as Hn.
  set (m := activeSquaredNorm (nth (k + 1) nc O) (nth (k + 1) Ev [])) in *.
  set (c := if Nat.eqb k 0 then activeSquaredNorm (nth 0 nc O) (nth 0 Ev []) else next).
  assert (Hc : 0 <= c)
    by (unfold c; destruct (Nat.eqb k 0); [apply activeSquaredNorm_nonneg | exact Hnext]).
  clearbody m c. nra.
Qed.

(** X15. Over time stamps that do not decrease, the integral of the squared
    constraint error is not negative. *)
Theorem calculateConstraintISE_nonneg (numPartitions : nat) timeStock ncStock EvStock :
  (forall i, sortedTimes (nth i timeStock [])) ->
  0 <= calculateConstraintISE numPartitions timeStock ncStock EvStock.
Proof.
  intros Hs. unfold calculateConstraintISE.
  assert (H : forall n i ise, 0 <= ise ->
            0 <= constraintISEPartitions timeStock ncStock EvStock i n ise).
  { induction n as [| n IH]; intros i ise Hise; cbn [constraintISEPartitions];
      [exact Hise |].
    apply IH. destruct (nth i timeStock []) as [| t time] eqn:E.
    - cbn. exact Hise.
    - apply constraintISELoop_nonneg; [rewrite <- E; apply Hs | cbn; lia | lra | exact Hise]. }
  apply H. lra.
Qed.

Lemma constraintISELoop_inactive (time : list Q) nc Ev (n : nat) :
  forall k next ise,
    (forall j, nth j nc O = O) -> next == 0 ->
    constraintISELoop time nc Ev k n next ise == ise.
Proof.
  induction n as [| n IH]; intros k next ise Hnc Hnext; cbn [constraintISELoop];
    [reflexivity |].
  rewrite IH; [| exact Hnc | rewrite Hnc; reflexivity].
  rewrite !Hnc. cbn [activeSquaredNorm]. destruct (Nat.eqb k 0); [| rewrite Hnext]; lra.
Qed.

(** X16. Where no constraint is active the integral is zero, whatever the
    constraint vectors hold. *)
Theorem calculateConstraintISE_inactive (numPartitions : nat) timeStock ncStock EvStock :
  (forall i k, nth k (nth i ncStock []) O = O) ->
  calculateConstraintISE numPartitions timeStock ncStock EvStock == 0.
Proof.
  intros Hnc. unfold calculateConstraintISE.
  assert (H : forall n i ise,
            constraintISEPartitions timeStock ncStock EvStock i n ise == ise).
  { induction n as [| n IH]; intros i ise; cbn [constraintISEPartitions]; [reflexivity |].
    rewrite IH. apply constraintISELoop_inactive; [apply Hnc | reflexivity]. }
  apply H.
Qed.

Section CostWorkerProperties.

Variables getIntermediateCost getTerminalCost : Q -> state_vector -> input_vector -> Q.

Lemma costLoop_sum time state input (n : nat) :
  forall k events curr total,
    eventsWithin k (k + n) events ->
    ((0 < k)%nat ->
     curr = getIntermediateCost (nth (k - 1) time 0) (nth (k - 1) state [])
                                (nth (k - 1) input [])) ->
    costLoop getIntermediateCost getTerminalCost time state input k n events curr total
    == total + trapezoidFrom getIntermediateCost time state input k n
       + eventCosts getTerminalCost time state input events.
Proof.
  induction n as [| n IH]; intros k events curr total Hev Hcurr.
  - cbn [costLoop trapezoidFrom]. destruct events as [| e rest]; [cbn; lra |].
    cbn in Hev. lia.
  - cbn [costLoop trapezoidFrom].
    assert (Hnext : (0 < S k)%nat ->
              getIntermediateCost (nth k time 0) (nth k state []) (nth k input [])
              = getIntermediateCost (nth (S k - 1) time 0) (nth (S k - 1) state [])
                                    (nth (S k - 1) input []))
      by (intros _; replace (S k - 1)%nat with k by lia; reflexivity).
    match goal with
    | |- context [ (if Nat.ltb 0 k then ?a else 0) + _ ] =>
        remember (if Nat.ltb 0 k then a else 0) as T eqn:HT
    end.
    assert (Htrap :
              (if Nat.ltb 0 k
               then total + (1 # 2) * (curr + getIntermediateCost (nth k time 0)
                                                (nth k state []) (nth k input []))
                            * (nth k time 0 - nth (k - 1) time 0)
               else total)
              == total + T).
    { subst T. destruct (Nat.ltb 0 k) eqn:E; [| lra].
      apply Nat.ltb_lt in E. rewrite (Hcurr E). reflexivity. }
    clear HT.
    destruct events as [| e rest].
    + rewrite IH; [| exact I | exact Hnext]. rewrite Htrap. unfold eventCosts. cbn [fold_right]. lra.
    + cbn [eventsWithin] in Hev. destruct Hev as [He Hrest].
      destruct (Nat.eqb (k + 1) e) eqn:E.
      * apply Nat.eqb_eq in E. subst e.
        rewrite IH; [| | exact Hnext].
        -- rewrite Htrap. unfold eventCosts. cbn [fold_right].
           replace (k + 1 - 1)%nat with k by lia. lra.
        -- replace (k + 1)%nat with (S k) in Hrest by lia.
           replace (S k + n)%nat with (k + S n)%nat by lia. exact Hrest.
      * apply Nat.eqb_neq in E.
        rewrite IH; [| | exact Hnext].
        -- rewrite Htrap. lra.
        -- cbn [eventsWithin]. split; [lia |].
           replace (S k + n)%nat with (k + S n)%nat by lia. exact Hrest.
Qed.

(** X17. With post-event indices in increasing order between 1 and the number
    of samples, the cost of a partition is the trapezoidal integral of
    the intermediate cost plus one terminal cost for every event, taken
    at the sample just before the event. *)
Theorem calculateCostWorker_sum time events state input :
  eventsWithin 0 (length time) events ->
  calculateCostWorker getIntermediateCost getTerminalCost time events state input
  == trapezoidFrom getIntermediateCost time state input 0 (length time)
     + eventCosts getTerminalCost time state input events.
Proof.
  intros Hev. unfold calculateCostWorker.
  rewrite costLoop_sum; [lra | exact Hev | lia].
Qed.

End CostWorkerProperties.

(* ===================================================================== *)
(** ** runImpl: where it throws *)
(* ===================================================================== *)

Section ThrowSites.

Variable col : Collaborators.

Lemma rolloutPartition_solveError pb interrupted cs useTill lastController i x :
  throwsOnly solveError (rolloutPartition col pb interrupted cs useTill lastController i x).
Proof.
  unfold rolloutPartition, runController, runOperatingPoints. throws.
Qed.

Lemma rolloutPartitions_solveError pb interrupted cs useTill lastController n :
  forall i acc,
    throwsOnly solveError
      (rolloutPartitions col pb interrupted cs useTill lastController i n acc).
Proof.
  induction n as [| n IH]; intros i [[T x] numSteps]; cbn [rolloutPartitions].
  - throws.
  - apply throwsOnly_bind; [apply rolloutPartition_solveError |].
    intros [p x']. apply IH.
Qed.

Lemma rolloutTrajectory_solveError pb interrupted cs :
  throwsOnly solveError (rolloutTrajectory col pb interrupted cs).
Proof.
  unfold rolloutTrajectory. apply throwsOnly_if; [throws |].
  apply throwsOnly_bind; [apply rolloutPartitions_solveError |].
  intros [[T x] n]. throws.
Qed.

Lemma baselineRollout_solveError st : throwsOnly solveError (baselineRollout col st).
Proof.
  unfold baselineRollout.
  apply throwsOnly_bind; [apply rolloutTrajectory_solveError |].
  intros [T avg]. throws.
Qed.

Lemma runLineSearchTasks_solveError fuel sched st :
  throwsOnly solveError (runLineSearchTasks col fuel sched st).
Proof.
  unfold runLineSearchTasks. destruct (drain _ _ _) as [st' ts]. throws.
Qed.

Lemma lineSearch_solveError fuel sched st :
  throwsOnly solveError (lineSearch col fuel sched st).
Proof.
  unfold lineSearch.
  apply throwsOnly_bind; [apply baselineRollout_solveError |].
  intros st1. apply throwsOnly_if; [throws |].
  apply throwsOnly_bind; [apply runLineSearchTasks_solveError |].
  intros st2. throws.
Qed.

Lemma runBackwardPass_solveError st : throwsOnly solveError (runBackwardPass col st).
Proof. unfold runBackwardPass. throws. Qed.

Lemma initPerformance_solveError st : throwsOnly solveError (initPerformance col st).
Proof. unfold initPerformance. throws. Qed.

Lemma runInit_solveError st : throwsOnly solveError (runInit col st).
Proof.
  unfold runInit.
  apply throwsOnly_bind; [apply rolloutTrajectory_solveError |].
  intros [T avg].
  apply throwsOnly_bind; [throws |]. intros cachedT.
  apply throwsOnly_bind; [apply initPerformance_solveError |]. intros st1.
  apply runBackwardPass_solveError.
Qed.

Lemma runIteration_solveError fuel sched st :
  throwsOnly solveError (runIteration col fuel sched st).
Proof.
  unfold runIteration.
  apply throwsOnly_bind; [apply lineSearch_solveError |]. intros st1.
  apply runBackwardPass_solveError.
Qed.

Lemma loopBody_solveError fuel scheds st flags :
  throwsOnly solveError (loopBody col fuel scheds st flags).
Proof.
  unfold loopBody.
  apply throwsOnly_bind; [apply runIteration_solveError |]. intros st1. throws.
Qed.

Lemma mainLoop_solveError n fuel scheds :
  forall st flags, throwsOnly solveError (mainLoop col n fuel scheds st flags).
Proof.
  induction n as [| n IH]; intros st flags; cbn [mainLoop].
  - throws.
  - apply throwsOnly_if; [| throws].
    apply throwsOnly_bind; [apply loopBody_solveError |].
    intros [st' flags']. apply IH.
Qed.

Lemma updateNumPartitions_throw partitioningTimes st e st' :
  updateNumPartitions col partitioningTimes st = Threw e st' ->
  e = ZeroPartitions /\ sameHorizon (problem st) (problem st')
  /\ iteration_ st' = iteration_ st.
Proof.
  unfold updateNumPartitions, setupOptimizer.
  destruct (negb _); [| discriminate].
  destruct (length partitioningTimes - 1)%nat; [| discriminate].
  intros H. inversion H; subst. repeat split.
Qed.

Lemma updateNumPartitions_horizon partitioningTimes st st' :
  updateNumPartitions col partitioningTimes st = Returned st' ->
  sameHorizon (problem st) (problem st') /\ iteration_ st' = iteration_ st.
Proof.
  unfold updateNumPartitions, setupOptimizer.
  destruct (negb _).
  - destruct (length partitioningTimes - 1)%nat; [discriminate |].
    intros H. inversion H; subst. repeat split.
  - intros H. inversion H; subst. repeat split.
Qed.

Lemma installControllers_throw ptrs st e st' :
  installControllers ptrs st = Threw e st' ->
  isControllerError e = true /\ problem st' = problem st /\ iteration_ st' = iteration_ st.
Proof.
  unfold installControllers. destruct ptrs as [| p ptrs].
  - destruct (negb _); [| discriminate]. intros H. inversion H; subst. repeat split.
  - destruct (negb _); [intros H; inversion H; subst; repeat split |].
    destruct (castControllers _ _) as [stock allLinear].
    destruct allLinear; [discriminate |]. intros H. inversion H; subst. repeat split.
Qed.

Lemma runBackwardPass_needs_riccati st st' :
  DDP_Settings.useRiccatiSolver_ (ddpSettings_ st) = false ->
  runBackwardPass col st <> Ok st'.
Proof.
  intros Hr. unfold runBackwardPass.
  destruct (external _) as [bp | e]; [| discriminate]. cbn [mbind result_bind].
  rewrite Hr. discriminate.
Qed.

Lemma runInit_needs_riccati st st' :
  DDP_Settings.useRiccatiSolver_ (ddpSettings_ st) = false ->
  runInit col st <> Ok st'.
Proof.
  intros Hr. unfold runInit.
  destruct (rolloutTrajectory _ _ _ _) as [[T avg] | e]; [| discriminate].
  cbn [mbind result_bind].
  destruct (external (correctedCache _ _ _ _)) as [cachedT | e]; [| discriminate].
  cbn [mbind result_bind].
  destruct (initPerformance _ _) as [st1 | e] eqn:Hp; [| discriminate].
  cbn [mbind result_bind].
  apply initPerformance_solve in Hp. cbn in Hp. destruct Hp as (P1 & _).
  apply runBackwardPass_needs_riccati. rewrite P1. exact Hr.
Qed.

(** X18. Whatever [runImpl] throws comes from one of five stages, in this
    order. An input check throws before any member is written.
    [setupOptimizer] throws on a number of partitions of zero, and the
    lookups of the active partitions throw after the number of partitions
    and the partitioning times were assigned; then the choice of the
    controllers throws; in these three stages the horizon and the
    iteration counter of the previous solve are still in place. From the
    first rollout on only the rollouts, the line search, the collaborators
    and the test of [useRiccatiSolver_] throw, and the horizon, the
    initial state and the partitioning of this call stay adopted.
    [rewindOptimizer]'s error is never thrown. *)
Theorem runImpl_throw_sites fuel scheds initTime initState finalTime partitioningTimes
    ptrs (st : DDP) (e : error) (st' : DDP) :
  runImpl col fuel scheds initTime initState finalTime partitioningTimes ptrs st
  = Threw e st' ->
  let adopted :=
    numPartitions_ (problem st') = (length partitioningTimes - 1)%nat
    /\ partitioningTimes_ (problem st') = partitioningTimes in
  let previous :=
    sameHorizon (problem st) (problem st') /\ iteration_ st' = iteration_ st in
  (isBadInput e = true /\ st' = st)
  \/ (e = ZeroPartitions /\ previous)
  \/ (e = CollaboratorFailed /\ adopted /\ previous)
  \/ (isControllerError e = true /\ adopted /\ previous)
  \/ (isSolveError e = true
      /\ solvedProblem initTime initState finalTime partitioningTimes (problem st')).
Proof.
  cbv zeta.
  unfold runImpl. destruct (validateInputs _ _ _) as [e0 |] eqn:Hv.
  { intros H. inversion H; subst. left. split; [| reflexivity].
    unfold validateInputs in Hv. destruct (negb _); [inversion Hv; reflexivity |].
    destruct partitioningTimes; [inversion Hv; reflexivity |].
    destruct (negb _); inversion Hv; reflexivity. }
  unfold solveValidated.
  destruct (updateNumPartitions col partitioningTimes st) as [st1 | e1 s1] eqn:H1.
  2:{ intros H. inversion H; subst. apply updateNumPartitions_throw in H1.
      destruct H1 as (-> & Hh & Hi). right. left. auto. }
  pose proof (updateNumPartitions_horizon _ _ _ H1) as (Hh1 & Hi1).
  apply updateNumPartitions_solve in H1. destruct H1 as (U1 & U2 & U3).
  destruct Hh1 as (Hh1a & Hh1b & Hh1c).
  destruct (adoptPartitioning col partitioningTimes initTime finalTime st1)
    as [st2 | e2 s2] eqn:E2.
  2:{ intros H. inversion H; subst. apply adoptPartitioning_Threw in E2.
      destruct E2 as (-> & pb2 & -> & A1 & A2 & (A3 & A4 & A5)).
      right. right. left. cbn. unfold sameHorizon.
      rewrite A1, A3, A4, A5. auto 10. }
  apply adoptPartitioning_Returned in E2.
  destruct E2 as (pb2 & E2 & A1 & A2 & (A3 & A4 & A5)).
  assert (P2 : numPartitions_ (problem st2) = (length partitioningTimes - 1)%nat
               /\ partitioningTimes_ (problem st2) = partitioningTimes
               /\ sameHorizon (problem st) (problem st2)
               /\ iteration_ st2 = iteration_ st).
  { subst st2. cbn. unfold sameHorizon. rewrite A1, A3, A4, A5. auto 10. }
  clear E2 U1 U2 U3 Hh1a Hh1b Hh1c Hi1 A1 A2 A3 A4 A5 st1.
  destruct P2 as (K2 & T2 & Hh2 & Hi2).
  destruct (installControllers ptrs st2) as [st3 | e3 s3] eqn:H3.
  2:{ intros H. inversion H; subst. apply installControllers_throw in H3.
      destruct H3 as (He & Hp & Hi). right. right. right. left.
      rewrite Hp, Hi. auto. }
  apply installControllers_solve in H3. destruct H3 as (I1 & I2 & I3).
  remember (set_iterationISE2_ _ _) as st4 eqn:E4.
  assert (P4 : solvedProblem initTime initState finalTime partitioningTimes (problem st4)).
  { subst st4. cbn. rewrite I2. unfold solvedProblem. cbn. auto 10. }
  clear E4 I1 I2 I3 st3 K2 T2 Hh2 Hi2 st2.
  unfold attempt.
  destruct (runInit col st4) as [st5 | e5] eqn:H5.
  2:{ intros H. inversion H; subst. do 4 right. split; [| exact P4].
      exact (runInit_solveError _ _ H5). }
  apply runInit_solve in H5. destruct H5 as (N1 & N2 & N3 & _).
  destruct (mainLoop col _ fuel scheds (pushLogs st5) (initialFlags st4))
    as [[st6 flags6] | e6] eqn:H6.
  2:{ intros H. inversion H; subst. do 4 right.
      split; [exact (mainLoop_solveError _ _ _ _ _ _ H6) |].
      unfold pushLogs. cbn. rewrite N3. exact P4. }
  apply mainLoop_solve in H6. destruct H6 as (M1 & M3 & _).
  unfold pushLogs in M3. cbn in M3.
  destruct (lineSearch col fuel _ _) as [st7 | e7] eqn:H7; [discriminate |].
  intros H. inversion H; subst. do 4 right.
  split; [exact (lineSearch_solveError _ _ _ _ H7) |].
  cbn. rewrite M3, N3. exact P4.
Qed.

(** X19. With [useRiccatiSolver_] switched off no solve returns: every call of
    [runImpl] ends in an exception, whatever its arguments, the controllers
    and the collaborators are. *)
Theorem runImpl_needs_riccati fuel scheds initTime initState finalTime partitioningTimes
    ptrs (st : DDP) :
  DDP_Settings.useRiccatiSolver_ (ddpSettings_ st) = false ->
  exists e st',
    runImpl col fuel scheds initTime initState finalTime partitioningTimes ptrs st
    = Threw e st'.
Proof.
  intros Hr. unfold runImpl. destruct (validateInputs _ _ _) as [e0 |]; [eauto |].
  unfold solveValidated.
  destruct (updateNumPartitions col partitioningTimes st) as [st1 | e1 s1] eqn:H1; [| eauto].
  apply updateNumPartitions_solve in H1. destruct H1 as (U1 & _).
  destruct (adoptPartitioning col partitioningTimes initTime finalTime st1)
    as [st2 | e2 s2] eqn:E2; [| eauto].
  apply adoptPartitioning_Returned in E2. destruct E2 as (pb2 & E2 & _).
  assert (S2 : ddpSettings_ st2 = ddpSettings_ st) by (subst st2; cbn; exact U1).
  clear E2 U1 st1.
  destruct (installControllers ptrs st2) as [st3 | e3 s3] eqn:H3; [| eauto].
  apply installControllers_solve in H3. destruct H3 as (I1 & _).
  remember (set_iterationISE2_ _ _) as st4 eqn:E4.
  assert (S4 : ddpSettings_ st4 = ddpSettings_ st) by (subst st4; cbn; congruence).
  clear E4. unfold attempt.
  destruct (runInit col st4) as [st5 | e5] eqn:H5; [| eauto].
  exfalso. apply (runInit_needs_riccati st4 st5); [rewrite S4; exact Hr | exact H5].
Qed.

Lemma updateNumPartitions_controllers partitioningTimes st st' :
  updateNumPartitions col partitioningTimes st = Returned st' ->
  length (nominalControllersStock_ st) = numPartitions_ (problem st) ->
  length (nominalControllersStock_ st') = numPartitions_ (problem st').
Proof.
  unfold updateNumPartitions, setupOptimizer.
  destruct (negb _).
  - destruct (length partitioningTimes - 1)%nat as [| m] eqn:E; [discriminate |].
    intros H _. inversion H; subst. cbn. unfold vresize.
    rewrite length_app, length_take, length_replicate. lia.
  - intros H Hlen. inversion H; subst. exact Hlen.
Qed.

(** X20. "The internal controller is not compatible with the number of
    partitions" is thrown only by a call without controllers on an
    optimizer whose controller stock had not [numPartitions_] entries
    before the call: [setupOptimizer] resizes the stock whenever the
    number of partitions changes. *)
Theorem runImpl_internal_controller fuel scheds initTime initState finalTime
    partitioningTimes ptrs (st : DDP) (e : error) (st' : DDP) :
  (ptrs = [] -> length (nominalControllersStock_ st) = numPartitions_ (problem st)) ->
  runImpl col fuel scheds initTime initState finalTime partitioningTimes ptrs st
  = Threw e st' ->
  e <> InternalControllerIncompatible.
Proof.
  intros Hlen. unfold runImpl. destruct (validateInputs _ _ _) as [e0 |] eqn:Hv.
  { intros H. inversion H; subst.
    unfold validateInputs in Hv. destruct (negb _); [inversion Hv; discriminate |].
    destruct partitioningTimes; [inversion Hv; discriminate |].
    destruct (negb _); inversion Hv; discriminate. }
  unfold solveValidated.
  destruct (updateNumPartitions col partitioningTimes st) as [st1 | e1 s1] eqn:H1.
  2:{ intros H. inversion H; subst. apply updateNumPartitions_throw in H1.
      destruct H1 as (-> & _). discriminate. }
  pose proof (updateNumPartitions_controllers _ _ _ H1) as Hc1. clear H1.
  destruct (adoptPartitioning col partitioningTimes initTime finalTime st1)
    as [st2 | e2 s2] eqn:E2.
  2:{ intros H. inversion H; subst. apply adoptPartitioning_Threw in E2.
      destruct E2 as (-> & _). discriminate. }
  apply adoptPartitioning_Returned in E2. destruct E2 as (pb2 & E2 & A1 & _).
  assert (P2 : ptrs = [] ->
               length (nominalControllersStock_ st2) = numPartitions_ (problem st2)).
  { intros Hp. subst st2. cbn. rewrite A1. apply Hc1, Hlen, Hp. }
  clear E2 Hc1 Hlen A1 st1.
  destruct (installControllers ptrs st2) as [st3 | e3 s3] eqn:H3.
  2:{ intros H. inversion H; subst. revert H3. unfold installControllers.
      destruct ptrs as [| p ptrs].
      - rewrite (P2 eq_refl), Nat.eqb_refl. discriminate.
      - destruct (negb _); [intros H3; inversion H3; discriminate |].
        destruct (castControllers _ _) as [stock allLinear].
        destruct allLinear; [discriminate |]. intros H3. inversion H3. discriminate. }
  clear H3 P2. unfold attempt.
  assert (Hsolve : isSolveError e = true -> e <> InternalControllerIncompatible)
    by (intros Hs ->; discriminate Hs).
  destruct (runInit col _) as [st5 | e5] eqn:H5.
  2:{ intros H. inversion H; subst. apply Hsolve. exact (runInit_solveError _ _ H5). }
  destruct (mainLoop col _ fuel scheds _ _) as [[st6 flags6] | e6] eqn:H6.
  2:{ intros H. inversion H; subst. apply Hsolve.
      exact (mainLoop_solveError _ _ _ _ _ _ H6). }
  destruct (lineSearch col fuel _ _) as [st7 | e7] eqn:H7; [discriminate |].
  intros H. inversion H; subst. apply Hsolve. exact (lineSearch_solveError _ _ _ _ H7).
Qed.

End ThrowSites.

(* ===================================================================== *)
(** ** Instances on the test bench *)
(* ===================================================================== *)

Lemma distributeWork_tiles_witness :
  exists d,
    distributeWork 2 workProblem = Some d
    /\ nth 0 (endingIndicesRiccatiWorker_ d) 0%Z = 4%Z
    /\ nth 1 (startingIndicesRiccatiWorker_ d) 0%Z = 0%Z.
Proof.
  destruct (distributeWork_tiles 2 workProblem ltac:(lia) ltac:(vm_compute; reflexivity)
              ltac:(simpl; lia) ltac:(vm_compute; reflexivity))
    as (d & Hd & _ & _ & He & Hs & _).
  exists d. split; [exact Hd |]. split; [exact He | exact Hs].
Defined.

Lemma distributeWork_balanced_witness :
  exists d,
    distributeWork 2 workProblem = Some d
    /\ activeShare workProblem (nth 0 (startingIndicesRiccatiWorker_ d) 0%Z)
                               (nth 0 (endingIndicesRiccatiWorker_ d) 0%Z) = 2%Z
    /\ activeShare workProblem (nth 1 (startingIndicesRiccatiWorker_ d) 0%Z)
                               (nth 1 (endingIndicesRiccatiWorker_ d) 0%Z) = 1%Z.
Proof.
  destruct (distributeWork_balanced 2 workProblem ltac:(lia) ltac:(vm_compute; reflexivity)
              ltac:(simpl; lia) ltac:(vm_compute; reflexivity))
    as (d & Hd & Hshare).
  exists d. split; [exact Hd |].
  split; [exact (Hshare 0%nat ltac:(lia)) | exact (Hshare 1%nat ltac:(lia))].
Defined.

Lemma solutionState_aligned (k : nat) :
  (initActivePartition_ (problem solutionState) <= k
   <= finalActivePartition_ (problem solutionState))%nat ->
  partitionAligned (nominal solutionState) k
  /\ sortedTimes (nth k (timeTrajectoriesStock (nominal solutionState)) [])
  /\ nth k (timeTrajectoriesStock (nominal solutionState)) [] <> [].
Proof.
  intros Hk. assert (E : k = 0%nat) by (simpl in Hk; lia). subst k.
  split; [repeat split |]. split; [| discriminate].
  simpl. repeat constructor; discriminate.
Defined.

Lemma getPrimalSolution_within_horizon_witness :
  exists ps,
    getPrimalSolution benchConcatenate true solutionState (1 # 2) = Some (Ok ps)
    /\ Forall (fun t => t <= 1 # 2) (timeTrajectory_ ps).
Proof.
  eexists. split; [vm_compute; reflexivity |].
  refine (proj1 (getPrimalSolution_within_horizon benchConcatenate true solutionState (1 # 2) _
                   (fun k Hk => conj (proj1 (solutionState_aligned k Hk))
                                     (proj1 (proj2 (solutionState_aligned k Hk))))
                   ltac:(vm_compute; reflexivity))).
Defined.

Lemma getPrimalSolution_prefix_witness :
  getPrimalSolution benchConcatenate false solutionState (1 # 2)
  = Some (Ok (mkPrimalSolution [0; 1 # 2] [[Finite 1]; [Finite 2]] [[1]; [2]]
                (FeedforwardController [0; 1 # 2] [[1]; [2]]) [])).
Proof.
  exact (getPrimalSolution_prefix benchConcatenate solutionState (1 # 2)
           (fun k Hk => conj (proj1 (solutionState_aligned k Hk))
                             (proj2 (proj2 (solutionState_aligned k Hk))))
           (proj1 (proj2 (solutionState_aligned 0 ltac:(simpl; lia))))).
Defined.

Lemma rolloutTrajectory_shape_witness :
  let col := bench benchEps neverDiverges costFlat iseNone in
  exists T avg,
    rolloutTrajectory col benchProblem false [benchController] = Ok (T, avg)
    /\ trajectoriesSized 1 T.
Proof.
  cbv zeta. eexists. eexists. split; [vm_compute; reflexivity |].
  exact (proj1 (rolloutTrajectory_shape (bench benchEps neverDiverges costFlat iseNone)
                  benchProblem false [benchController] _ _ ltac:(vm_compute; reflexivity))).
Defined.

Lemma rolloutTrajectory_cold_start_witness :
  rolloutTrajectory (bench benchEps neverDiverges costFlat iseNone) benchProblem false
                    [emptyController]
  = rolloutTrajectory (bench benchEps divergesAtOne costImproving iseStateEq) benchProblem
                      false [mkController [] [] [[5]] []].
Proof.
  apply rolloutTrajectory_cold_start.
  - intros t0 x tf events. reflexivity.
  - intros i Hi. simpl in Hi. lia.
  - reflexivity.
  - reflexivity.
  - reflexivity.
Defined.

Lemma rewindState_sized : resetSized rewindState.
Proof. repeat split. Defined.

Lemma reset_clears_witness :
  nominalControllersStock_ (reset 1 rewindState) = replicate 3 emptyController
  /\ rewindCounter_ (reset 1 rewindState) = 0%nat.
Proof.
  destruct (reset_clears 1 rewindState rewindState_sized)
    as (_ & Hr & _ & _ & Hc & _).
  split; [exact Hc | exact Hr].
Defined.

Lemma reset_idempotent_witness :
  reset 1 (reset 1 rewindState) = reset 1 rewindState.
Proof. exact (reset_idempotent 1 rewindState rewindState_sized). Defined.

Lemma reset_then_rollout_witness :
  let col := bench benchEps neverDiverges costFlat iseNone in
  let st := benchState (benchSettings 1 (1 # 4)) [benchController] in
  rolloutTrajectory col (problem (reset 1 st)) false (nominalControllersStock_ (reset 1 st))
  = rolloutTrajectory col (problem st) false [emptyController].
Proof.
  cbv zeta. apply reset_then_rollout.
  - intros t0 x tf events. reflexivity.
  - repeat split.
  - intros i Hi. simpl in Hi. lia.
  - simpl. lia.
  - reflexivity.
  - reflexivity.
Defined.

Lemma runImpl_postconditions_witness :
  let col := bench benchEps neverDiverges costImproving iseStateEq in
  let st := benchState (benchSettings 1 (1 # 4)) [benchController] in
  exists stF,
    runImpl col 100 (fun _ => []) 0 [Finite 1] 1 [0; 1] [Some benchController] st
    = Returned stF
    /\ length (iterationCost_ stF) = S (iteration_ stF)
    /\ (iteration_ stF + 1 <= 3)%nat.
Proof.
  cbv zeta. eexists. split; [vm_compute; reflexivity |].
  destruct (runImpl_postconditions (bench benchEps neverDiverges costImproving iseStateEq)
              100 (fun _ => []) 0 [Finite 1] 1 [0; 1] [Some benchController]
              (benchState (benchSettings 1 (1 # 4)) [benchController]) _
              ltac:(vm_compute; reflexivity))
    as (_ & Hc & _ & _ & Hi & _).
  split; [exact Hc | exact Hi].
Defined.

Lemma mainLoop_convergence_test_witness :
  let col := bench benchEps neverDiverges costImproving iseStateEq in
  let st := benchState (benchSettings 1 (1 # 4)) [benchController] in
  exists stF st0 st1 stL flagsL,
    runImpl col 100 (fun _ => []) 0 [Finite 1] 1 [0; 1] [Some benchController] st
    = Returned stF
    /\ map Some (nominalControllersStock_ st0) = [Some benchController]
    /\ runInit col st0 = Ok st1
    /\ loopRun col 100 (fun _ => []) (pushLogs st1) (initialFlags st0) stL flagsL.
Proof.
  cbv zeta. eexists.
  destruct (proj1 (mainLoop_convergence_test
                     (bench benchEps neverDiverges costImproving iseStateEq))
              100%nat (fun _ : nat => @nil (nat * bool)) 0 [Finite 1] 1 [0; 1]
              [Some benchController]
              (benchState (benchSettings 1 (1 # 4)) [benchController]) _
              ltac:(vm_compute; reflexivity))
    as (stU & st0 & st1 & stL & flagsL & _ & _ & Hstock & _ & Hinit & Hloop & _).
  exists st0, st1, stL, flagsL.
  split; [vm_compute; reflexivity |].
  split; [apply Hstock; discriminate |]. split; [exact Hinit | exact Hloop].
Defined.

Lemma bench_baseline_finite (st := benchState (benchSettings 1 (1 # 4)) [benchController])
    (col := bench benchEps neverDiverges costImproving iseStateEq) :
  forall stB, baselineRollout col st = Ok stB ->
              exists b, nominalTotalCost_ stB = Finite b /\ b <= scalar_max.
Proof.
  intros stB H. vm_compute in H. injection H as <-.
  eexists. split; [vm_compute; reflexivity | vm_compute; discriminate].
Defined.

Lemma lineSearch_schedule_independent_witness :
  let col := bench benchEps neverDiverges costImproving iseStateEq in
  let st := benchState (benchSettings 1 (1 # 4)) [benchController] in
  exists st1 st2,
    lineSearch col 100 [] st = Ok st1
    /\ lineSearch col 100 [(1%nat, true); (0%nat, false); (1%nat, false)] st = Ok st2
    /\ learningRateStar_ st1 = learningRateStar_ st2
    /\ nominal st1 = nominal st2.
Proof.
  cbv zeta. eexists. eexists.
  split; [vm_compute; reflexivity |]. split; [vm_compute; reflexivity |].
  destruct (lineSearch_schedule_independent
              (bench benchEps neverDiverges costImproving iseStateEq)
              100 [] 100 [(1%nat, true); (0%nat, false); (1%nat, false)]
              (benchState (benchSettings 1 (1 # 4)) [benchController]) _ _
              ltac:(split; vm_compute; [reflexivity | discriminate])
              ltac:(split; vm_compute; reflexivity)
              eq_refl ltac:(simpl; lia) bench_baseline_finite
              ltac:(vm_compute; reflexivity) ltac:(vm_compute; reflexivity))
    as (Hl & _ & _ & Hn & _).
  split; [exact Hl | exact Hn].
Defined.

Lemma lineSearch_commits_one_evaluation_witness :
  let col := bench benchEps neverDiverges costImproving iseStateEq in
  let st := benchState (benchSettings 1 (1 # 4)) [benchController] in
  exists st' stB,
    lineSearch col 100 [] st = Ok st'
    /\ baselineRollout col st = Ok stB.
Proof.
  cbv zeta. eexists.
  destruct (lineSearch_commits_one_evaluation
              (bench benchEps neverDiverges costImproving iseStateEq) 100 []
              (benchState (benchSettings 1 (1 # 4)) [benchController]) _
              ltac:(split; vm_compute; discriminate)
              ltac:(split; vm_compute; discriminate)
              eq_refl bench_baseline_finite ltac:(vm_compute; reflexivity))
    as (stB & HB & _).
  exists stB. split; [vm_compute; reflexivity | exact HB].
Defined.

Lemma calculateConstraintISE_nonneg_witness :
  0 <= calculateConstraintISE 1 [[0; 1; 2]] [[1; 1; 0]%nat] [[[1]; [-2]; [3]]].
Proof.
  apply calculateConstraintISE_nonneg.
  intros [| [| i]]; simpl; repeat constructor; discriminate.
Defined.

Lemma calculateConstraintISE_inactive_witness :
  calculateConstraintISE 1 [[0; 1; 2]] [[0; 0; 0]%nat] [[[1]; [-2]; [3]]] == 0.
Proof.
  apply calculateConstraintISE_inactive.
  intros [| [| i]] [| [| [| [| k]]]]; reflexivity.
Defined.

Lemma calculateCostWorker_sum_witness :
  calculateCostWorker benchIntermediateCost benchTerminalCost [0; 1; 1; 2] [2%nat]
                      [[Finite 1]; [Finite 1]; [Finite 1]; [Finite 1]] [[3]; [4]; [5]; [6]]
  == 2 + 4.
Proof.
  rewrite (calculateCostWorker_sum benchIntermediateCost benchTerminalCost
             [0; 1; 1; 2] [2%nat] [[Finite 1]; [Finite 1]; [Finite 1]; [Finite 1]]
             [[3]; [4]; [5]; [6]] ltac:(simpl; lia)).
  vm_compute. reflexivity.
Defined.

Lemma runImpl_throw_sites_witness :
  let col := bench benchEps neverDiverges costImproving iseStateEq in
  let st := benchState (benchSettings 1 (1 # 4)) [benchController] in
  exists e st',
    runImpl col 100 (fun _ => []) 0 [Finite 1] 1 [0; 1]
            [Some benchController; Some benchController] st = Threw e st'
    /\ isControllerError e = true.
Proof.
  cbv zeta. eexists. eexists. split; [vm_compute; reflexivity |].
  destruct (runImpl_throw_sites (bench benchEps neverDiverges costImproving iseStateEq)
              100 (fun _ => []) 0 [Finite 1] 1 [0; 1]
              [Some benchController; Some benchController]
              (benchState (benchSettings 1 (1 # 4)) [benchController]) _ _
              ltac:(vm_compute; reflexivity))
    as [[H _] | [[H _] | [[H _] | [[H _] | [H _]]]]];
    [discriminate H | discriminate H | discriminate H | exact H | discriminate H].
Defined.

Lemma runImpl_needs_riccati_witness :
  let col := bench benchEps neverDiverges costImproving iseStateEq in
  let st := benchState benchSettingsNoRiccati [benchController] in
  exists e st',
    runImpl col 100 (fun _ => []) 0 [Finite 1] 1 [0; 1] [Some benchController] st
    = Threw e st'.
Proof.
  cbv zeta.
  exact (runImpl_needs_riccati (bench benchEps neverDiverges costImproving iseStateEq)
           100 (fun _ => []) 0 [Finite 1] 1 [0; 1] [Some benchController]
           (benchState benchSettingsNoRiccati [benchController]) eq_refl).
Defined.

Lemma runImpl_internal_controller_witness :
  let col := bench benchEps neverDiverges costImproving iseStateEq in
  let st := benchState benchSettingsNoRiccati [benchController] in
  exists e st',
    runImpl col 100 (fun _ => []) 0 [Finite 1] 1 [0; 1] [] st = Threw e st'
    /\ e <> InternalControllerIncompatible.
Proof.
  cbv zeta. eexists. eexists. split; [vm_compute; reflexivity |].
  exact (runImpl_internal_controller (bench benchEps neverDiverges costImproving iseStateEq)
           100 (fun _ => []) 0 [Finite 1] 1 [0; 1] []
           (benchState benchSettingsNoRiccati [benchController]) _ _
           (fun _ => eq_refl) ltac:(vm_compute; reflexivity)).
Defined.
